(** * LaCassette: metadata extraction and cross-provider reconciliation

    A shallow embedding of the metadata core of the LaCassette importer:

    - [extractBasicMetadata] (web/src/app/api/import-youtube/route.ts), the
      regular-expression title parser;
    - [buildSearchQueries], [cleanTitleForComparison],
      [calculateSimilarityScore], [findBestMatch], [searchSpotifyTrack],
      [enrichMetadata] of class MusicMetadataEnricher, and the Last.fm and
      MusicBrainz enrichers (lib/music-metadata.ts);
    - [enrichMetadataWithAPIs] and the post-acceptance validation of the
      POST handler (route.ts).

    Conventions of the embedding.

    - A JavaScript string is a list of code units; the embedding covers the
      strings whose code units are below 256 and writes them as [list ascii],
      the byte [n] standing for the code unit U+00[n].
    - A regular expression literal is a term of type [regex]; matching is
      the backtracking matcher of ECMAScript (continuation passing, greedy
      and lazy quantifiers, capture groups).
    - The scores are IEEE 754 binary64 numbers ([spec_float] with precision
      53 and maximal exponent 1024), as JavaScript numbers are.
    - Code that can throw returns an [Outcome]; code that talks to the
      network runs in a state monad over a log of the requests issued, and
      the answers come from a [Transport] that may depend on that log.
    - console.log output is not modelled. *)

From Stdlib Require Import Ascii String.
From Stdlib Require Import List Bool Arith ZArith Lia.
From Stdlib Require Import Floats.SpecFloat.
Import ListNotations.

Open Scope string_scope.
Open Scope list_scope.
Open Scope nat_scope.

(** String literals are read as lists of code units. *)
Coercion list_ascii_of_string : string >-> list.

Abbreviation str := (list ascii).

(* ================================================================== *)
(** * Outcomes: values and thrown exceptions *)

Inductive Error : Type :=
| TypeError                    (* property access on undefined *)
| ErrorMsg (msg : string)      (* throw new Error(msg) *)
| FetchError                   (* fetch() rejected: transport failure *)
| SyntaxError.                 (* response.json() rejected: malformed body *)

Inductive Outcome (A : Type) : Type :=
| Ret (a : A)
| Throw (e : Error).

Arguments Ret {A} a.
Arguments Throw {A} e.

Definition obind {A B} (o : Outcome A) (f : A -> Outcome B) : Outcome B :=
  match o with
  | Ret a => f a
  | Throw e => Throw e
  end.

Declare Scope outcome_scope.
Delimit Scope outcome_scope with outcome.
Notation "'let?' x ':=' c 'in' k" := (obind c (fun x => k))
  (at level 10, x name, c at level 100, k at level 200) : outcome_scope.

(* ================================================================== *)
(** * JavaScript string primitives *)

Module JS.

Definition code (a : ascii) : nat := nat_of_ascii a.

Definition between (lo hi : nat) (a : ascii) : bool :=
  (lo <=? code a) && (code a <=? hi).

(** WhiteSpace and LineTerminator code units below 256: TAB, LF, VT, FF,
    CR, SPACE, NBSP.  This is the class of [\s] and of [trim]. *)
Definition isSpace (a : ascii) : bool :=
  between 9 13 a || (code a =? 32) || (code a =? 160).

(** LineTerminator code units below 256: LF and CR. *)
Definition isLineTerminator (a : ascii) : bool :=
  (code a =? 10) || (code a =? 13).

(** [.] without the s flag. *)
Definition dot (a : ascii) : bool := negb (isLineTerminator a).

(** [\d] *)
Definition isDigit (a : ascii) : bool := between 48 57 a.

(** [\w] *)
Definition isWord (a : ascii) : bool :=
  between 65 90 a || between 97 122 a || isDigit a || (code a =? 95).

(** [toLowerCase] on one code unit: A-Z, and the Latin-1 capitals
    U+00C0..U+00DE except the multiplication sign U+00D7. *)
Definition lowerChar (a : ascii) : ascii :=
  if between 65 90 a || (between 192 222 a && negb (code a =? 215))
  then ascii_of_nat (code a + 32) else a.

(** Canonicalize of the [i] flag (no [u] flag): the upper-case mapping when
    it is a single code unit, never mapping a non-ASCII unit to an ASCII
    one.  The capitals of U+00B5 and U+00FF lie above 255 and so equal no
    unit of the embedding; U+00DF has a two-letter capital: all three are
    left unchanged. *)
Definition canonicalize (a : ascii) : ascii :=
  if between 97 122 a || (between 224 254 a && negb (code a =? 247))
  then ascii_of_nat (code a - 32) else a.

Definition toLowerCase (s : str) : str := map lowerChar s.

Fixpoint trimStart (s : str) : str :=
  match s with
  | a :: s' => if isSpace a then trimStart s' else s
  | [] => []
  end.

Fixpoint trimEnd (s : str) : str :=
  match s with
  | a :: s' =>
      match trimEnd s' with
      | [] => if isSpace a then [] else [a]
      | r => a :: r
      end
  | [] => []
  end.

Definition trim (s : str) : str := trimEnd (trimStart s).

Definition str_eqb (s t : str) : bool :=
  if list_eq_dec ascii_dec s t then true else false.

Fixpoint startsWith (needle s : str) : bool :=
  match needle, s with
  | [], _ => true
  | a :: n', b :: s' => Ascii.eqb a b && startsWith n' s'
  | _ :: _, [] => false
  end.

(** [s.includes(needle)] *)
Fixpoint includes (s needle : str) : bool :=
  startsWith needle s ||
  match s with
  | _ :: s' => includes s' needle
  | [] => false
  end.

(** [parts.join(sep)] *)
Fixpoint join (sep : str) (parts : list str) : str :=
  match parts with
  | [] => []
  | [p] => p
  | p :: rest => p ++ sep ++ join sep rest
  end.

(** Truthiness of a string: non-empty. *)
Definition truthy (s : str) : bool :=
  match s with [] => false | _ => true end.

(** Truthiness of a possibly undefined string. *)
Definition truthyOpt (o : option str) : bool :=
  match o with Some s => truthy s | None => false end.

(** [a || b] on possibly undefined strings, [b] being a string. *)
Definition orStr (o : option str) (d : str) : str :=
  match o with
  | Some s => if truthy s then s else d
  | None => d
  end.

End JS.

(* ================================================================== *)
(** * Regular expressions: the ECMAScript backtracking matcher *)

Module Regex.

Inductive regex : Type :=
| Eps                                   (* empty pattern *)
| Chr (p : ascii -> bool)               (* one code unit of a class *)
| Seq (r1 r2 : regex)                   (* r1 r2 *)
| Alt (r1 r2 : regex)                   (* r1|r2 *)
| Star (greedy : bool) (p : ascii -> bool)  (* p* (greedy) or p*? (lazy) *)
| Opt (r : regex)                       (* r? , greedy *)
| Group (i : nat) (r : regex)           (* i-th capturing group *)
| Bol                                   (* ^ without the m flag *)
| Eol.                                  (* $ without the m flag *)

(** Captures: group number to captured text, [None] for undefined. *)
Definition caps : Type := nat -> option str.

Definition no_caps : caps := fun _ => None.

Definition set_cap (i : nat) (v : str) (c : caps) : caps :=
  fun j => if Nat.eqb j i then Some v else c j.

(** A match state is the rest of the input after the match and the
    captures. *)
Definition mstate : Type := (str * caps)%type.

Definition cont : Type := str -> caps -> option mstate.

Section Star.
Variable p : ascii -> bool.

(** Greedy: take one more unit when possible, and back off on failure. *)
Fixpoint star_greedy (k : str -> option mstate) (s : str) : option mstate :=
  match s with
  | a :: s' =>
      if p a then
        match star_greedy k s' with
        | Some r => Some r
        | None => k s
        end
      else k s
  | [] => k s
  end.

(** Lazy: try the continuation first, and take one more unit on
    failure. *)
Fixpoint star_lazy (k : str -> option mstate) (s : str) : option mstate :=
  match k s with
  | Some r => Some r
  | None =>
      match s with
      | a :: s' => if p a then star_lazy k s' else None
      | [] => None
      end
  end.
End Star.

(** [run n0 r s c k]: match [r] at the suffix [s] of an input of length
    [n0], with captures [c], then continue with [k]. *)
Fixpoint run (n0 : nat) (r : regex) (s : str) (c : caps) (k : cont)
  : option mstate :=
  match r with
  | Eps => k s c
  | Chr p =>
      match s with
      | a :: s' => if p a then k s' c else None
      | [] => None
      end
  | Seq r1 r2 => run n0 r1 s c (fun s' c' => run n0 r2 s' c' k)
  | Alt r1 r2 =>
      match run n0 r1 s c k with
      | Some r => Some r
      | None => run n0 r2 s c k
      end
  | Star true p => star_greedy p (fun s' => k s' c) s
  | Star false p => star_lazy p (fun s' => k s' c) s
  | Opt r1 =>
      match run n0 r1 s c k with
      | Some r => Some r
      | None => k s c
      end
  | Group i r1 =>
      run n0 r1 s c
        (fun s' c' => k s' (set_cap i (firstn (length s - length s') s) c'))
  | Bol => if Nat.eqb (length s) n0 then k s c else None
  | Eol => match s with [] => k s c | _ :: _ => None end
  end.

Definition accept : cont := fun s c => Some (s, c).

(** The match attempted at one start index. *)
Definition match_here (n0 : nat) (r : regex) (s : str) : option mstate :=
  run n0 r s no_caps accept.

(** The result array of [exec]: element 0 is the matched text, element
    [i] the capture of group [i]. *)
Definition match_array (s : str) (m : mstate) : caps :=
  fun j =>
    match j with
    | 0 => Some (firstn (length s - length (fst m)) s)
    | _ => snd m j
    end.

(** [exec] of a regular expression without the g flag: the first start
    index, from the left, at which the pattern matches. *)
Fixpoint exec_from (n0 : nat) (r : regex) (s : str) : option caps :=
  match match_here n0 r s with
  | Some m => Some (match_array s m)
  | None =>
      match s with
      | _ :: s' => exec_from n0 r s'
      | [] => None
      end
  end.

(** [s.match(r)] for [r] without the g flag, which is [r.exec(s)]. *)
Definition exec (r : regex) (s : str) : option caps :=
  exec_from (length s) r s.

(** [r.test(s)] *)
Definition test (r : regex) (s : str) : bool :=
  match exec r s with Some _ => true | None => false end.

(** Number of code units matched at this start index. *)
Definition match_len (n0 : nat) (r : regex) (s : str) : option nat :=
  match match_here n0 r s with
  | Some m => Some (length s - length (fst m))
  | None => None
  end.

(** [s.replace(r, rep)] for [r] with the g flag and [rep] free of [$]:
    the matches are found from left to right, each search starting where
    the previous match ended (one unit further after an empty match).
    [skip] counts the units of the current match still to be dropped. *)
Fixpoint replace_aux (n0 : nat) (r : regex) (rep : str) (skip : nat) (s : str)
  : str :=
  match s with
  | [] =>
      match skip with
      | 0 => match match_here n0 r [] with Some _ => rep | None => [] end
      | S _ => []
      end
  | a :: s' =>
      match skip with
      | S n => replace_aux n0 r rep n s'
      | 0 =>
          match match_len n0 r s with
          | Some 0 => rep ++ a :: replace_aux n0 r rep 0 s'
          | Some (S n) => rep ++ replace_aux n0 r rep n s'
          | None => a :: replace_aux n0 r rep 0 s'
          end
      end
  end.

Definition replace (r : regex) (rep : str) (s : str) : str :=
  replace_aux (length s) r rep 0 s.

(** [s.split(r)] for a separator pattern that matches no empty string (the
    separators of the source are [/\s+/] and the one-unit string [' ']):
    [cur] is the piece being read, in reverse. *)
Fixpoint split_aux (n0 : nat) (r : regex) (skip : nat) (cur : str) (s : str)
  : list str :=
  match s with
  | [] => [rev cur]
  | a :: s' =>
      match skip with
      | S n => split_aux n0 r n cur s'
      | 0 =>
          match match_len n0 r s with
          | Some (S n) => rev cur :: split_aux n0 r n [] s'
          | _ => split_aux n0 r 0 (a :: cur) s'
          end
      end
  end.

Definition split (r : regex) (s : str) : list str :=
  split_aux (length s) r 0 [] s.

(** ** Pattern syntax *)

(** One literal code unit. *)
Definition lit (a : ascii) : regex := Chr (Ascii.eqb a).

(** One literal code unit under the i flag. *)
Definition liti (a : ascii) : regex :=
  Chr (fun x => Ascii.eqb (JS.canonicalize x) (JS.canonicalize a)).

(** A literal word under the i flag. *)
Fixpoint wordi (w : str) : regex :=
  match w with
  | [] => Eps
  | [a] => liti a
  | a :: w' => Seq (liti a) (wordi w')
  end.

(** p+ and p+? *)
Definition plus (greedy : bool) (p : ascii -> bool) : regex :=
  Seq (Chr p) (Star greedy p).

Definition neg (p : ascii -> bool) : ascii -> bool := fun a => negb (p a).

Definition just (a : ascii) : ascii -> bool := Ascii.eqb a.

Fixpoint seq (rs : list regex) : regex :=
  match rs with
  | [] => Eps
  | [r] => r
  | r :: rs' => Seq r (seq rs')
  end.

End Regex.

Import Regex.

(* ================================================================== *)
(** * The title parser: [extractBasicMetadata] (route.ts) *)

Module BasicMetadata.
Record t : Type := mk {
  artist : str;
  album : str;
  title : str
}.
End BasicMetadata.
Abbreviation BasicMetadata := BasicMetadata.t.

(** [/^(.+?)\s*\(([^)]+)\)\s*-\s*(.+)$/] *)
Definition songYearArtistPattern : regex :=
  seq [ Bol; Group 1 (plus false JS.dot); Star true JS.isSpace;
        lit "("; Group 2 (plus true (neg (just ")"))); lit ")";
        Star true JS.isSpace; lit "-"; Star true JS.isSpace;
        Group 3 (plus true JS.dot); Eol ].

(** [/^\d{4}$/] *)
Definition fourDigitsPattern : regex :=
  seq [ Bol; Chr JS.isDigit; Chr JS.isDigit; Chr JS.isDigit; Chr JS.isDigit;
        Eol ].

(** [/^(.+?)\s*-\s*(.+?)(?:\s*-\s*(.+))?$/] *)
Definition dashPattern : regex :=
  seq [ Bol; Group 1 (plus false JS.dot); Star true JS.isSpace; lit "-";
        Star true JS.isSpace; Group 2 (plus false JS.dot);
        Opt (seq [ Star true JS.isSpace; lit "-"; Star true JS.isSpace;
                   Group 3 (plus true JS.dot) ]);
        Eol ].

(** [/^(.+?)\s*\(([^)]+)\)$/] *)
Definition songVideoPattern : regex :=
  seq [ Bol; Group 1 (plus false JS.dot); Star true JS.isSpace;
        lit "("; Group 2 (plus true (neg (just ")"))); lit ")"; Eol ].

(** [/^(.+?)\s*[:]\s*(.+)$/] *)
Definition artistColonPattern : regex :=
  seq [ Bol; Group 1 (plus false JS.dot); Star true JS.isSpace; lit ":";
        Star true JS.isSpace; Group 2 (plus true JS.dot); Eol ].

(** [m[i].trim()]: a TypeError when the group is undefined. *)
Definition group_trim (m : caps) (i : nat) : Outcome str :=
  match m i with
  | Some s => Ret (JS.trim s)
  | None => Throw TypeError
  end.

Local Open Scope outcome_scope.

(** The year test of Pattern 1. *)
Definition yearLike (year : str) : bool :=
  test fourDigitsPattern year
  || JS.includes (JS.toLowerCase year) "remaster"
  || JS.includes (JS.toLowerCase year) "edition".

(** Pattern 1, "Song (Year) - Artist": [Some] is the early return. *)
Definition songYearArtistRule (title : str) : Outcome (option BasicMetadata) :=
  match exec songYearArtistPattern title with
  | Some songYearArtistMatch =>
      let? songTitle := group_trim songYearArtistMatch 1 in
      let? year := group_trim songYearArtistMatch 2 in
      let? artist := group_trim songYearArtistMatch 3 in
      if yearLike year
      then Ret (Some (BasicMetadata.mk artist "Unknown Album" songTitle))
      else Ret None
  | None => Ret None
  end.

(** Pattern 2, "Artist - Song" or "Artist - Album - Song". *)
Definition dashRule (title : str) : Outcome (option BasicMetadata) :=
  match exec dashPattern title with
  | Some dashMatch =>
      if JS.truthyOpt (dashMatch 3) then
        let? a := group_trim dashMatch 1 in
        let? b := group_trim dashMatch 2 in
        let? c := group_trim dashMatch 3 in
        Ret (Some (BasicMetadata.mk a b c))
      else if JS.truthyOpt (dashMatch 2) then
        let? a := group_trim dashMatch 1 in
        let? b := group_trim dashMatch 2 in
        Ret (Some (BasicMetadata.mk a "Unknown Album" b))
      else Ret None
  | None => Ret None
  end.

(** The video-type test of "Song (Official Video)". *)
Definition videoLike (videoType : str) : bool :=
  JS.includes (JS.toLowerCase videoType) "official"
  || JS.includes (JS.toLowerCase videoType) "video"
  || JS.includes (JS.toLowerCase videoType) "audio"
  || JS.includes (JS.toLowerCase videoType) "lyrics"
  || JS.includes (JS.toLowerCase videoType) "remaster".

(** "Song (Official Video)" or similar. *)
Definition songVideoRule (title : str) : Outcome (option BasicMetadata) :=
  match exec songVideoPattern title with
  | Some songVideoMatch =>
      let? songTitle := group_trim songVideoMatch 1 in
      let? videoType := group_trim songVideoMatch 2 in
      if videoLike videoType
      then Ret (Some (BasicMetadata.mk "Unknown Artist" "Unknown Album"
                                     songTitle))
      else Ret None
  | None => Ret None
  end.

(** "Artist: Song". *)
Definition artistColonRule (title : str) : Outcome (option BasicMetadata) :=
  match exec artistColonPattern title with
  | Some artistColonMatch =>
      let? a := group_trim artistColonMatch 1 in
      let? b := group_trim artistColonMatch 2 in
      Ret (Some (BasicMetadata.mk a "Unknown Album" b))
  | None => Ret None
  end.

(** Fallback: the entire title is the song name. *)
Definition fallbackMetadata (title : str) : BasicMetadata :=
  BasicMetadata.mk "Unknown Artist" "Unknown Album" (JS.trim title).

(** A rule that returned is the result; one that fell through hands over
    to the next statement. *)
Definition or_next {A} (rule : Outcome (option A)) (next : Outcome A)
  : Outcome A :=
  let? r := rule in
  match r with
  | Some result => Ret result
  | None => next
  end.

Definition extractBasicMetadata (title : str) : Outcome BasicMetadata :=
  or_next (songYearArtistRule title)
    (or_next (dashRule title)
       (or_next (songVideoRule title)
          (or_next (artistColonRule title)
             (Ret (fallbackMetadata title))))).


(* ================================================================== *)
(** * JavaScript numbers *)

Module Num.

(** binary64 *)
Definition prec : Z := 53.
Definition emax : Z := 1024.

Abbreviation number := spec_float.

Definition add : number -> number -> number := SFadd prec emax.
Definition mul : number -> number -> number := SFmul prec emax.
Definition div : number -> number -> number := SFdiv prec emax.

(** The number of an integer (exact below 2^53). *)
Definition of_Z (z : Z) : number := binary_normalize prec emax z 0 false.
Definition of_nat (n : nat) : number := of_Z (Z.of_nat n).

(** A decimal literal [n/10^k]: the binary64 number nearest to it, which
    is the correctly rounded quotient of the two exact integers. *)
Definition decimal (n : Z) (k : nat) : number :=
  div (of_Z n) (of_Z (10 ^ Z.of_nat k)).

Definition zero : number := S754_zero false.
Definition one : number := of_Z 1.

(** [x > y] and [x <= y] *)
Definition gt (x y : number) : bool := SFltb y x.
Definition le (x y : number) : bool := SFleb x y.

(** [Math.min(x, y)]: NaN when an argument is NaN, and -0 below +0. *)
Definition min (x y : number) : number :=
  match x, y with
  | S754_nan, _ | _, S754_nan => S754_nan
  | S754_zero sx, S754_zero sy => S754_zero (sx || sy)
  | _, _ => if SFltb y x then y else x
  end.

(** An integer-valued number field that can be NaN. *)
Inductive int : Type :=
| NaN
| Int (z : Z).

(** [n || d] *)
Definition or_int (n : int) (d : Z) : int :=
  match n with
  | NaN => Int d
  | Int 0 => Int d
  | Int z => Int z
  end.

(** [Math.round(x / 1000)] for an integer [x]: the quotient rounded to
    the nearest integer, halves upwards (exact while [x] is below 2^42 in
    absolute value). *)
Definition round_div_1000 (x : int) : int :=
  match x with
  | NaN => NaN
  | Int z => Int ((z + 500) / 1000)
  end.

Definition digit_value (radix : nat) (a : ascii) : option nat :=
  let c := JS.code a in
  let v := if JS.between 48 57 a then Some (c - 48)
           else if JS.between 97 122 a then Some (c - 87)
           else if JS.between 65 90 a then Some (c - 55)
           else None in
  match v with
  | Some d => if d <? radix then Some d else None
  | None => None
  end.

(** The value of the longest prefix of digits, [None] without a digit. *)
Fixpoint digits_prefix (radix : nat) (acc : option Z) (s : str) : option Z :=
  match s with
  | a :: s' =>
      match digit_value radix a with
      | Some d =>
          digits_prefix radix
            (Some (match acc with Some v => v | None => 0 end
                   * Z.of_nat radix + Z.of_nat d)%Z) s'
      | None => acc
      end
  | [] => acc
  end.

(** [parseInt(s)] without a radix (exact below 2^53). *)
Definition parseInt (s : str) : int :=
  let s1 := JS.trimStart s in
  let '(negative, s2) :=
    match s1 with
    | "-"%char :: r => (true, r)
    | "+"%char :: r => (false, r)
    | _ => (false, s1)
    end in
  let '(radix, s3) :=
    match s2 with
    | "0"%char :: "x"%char :: r => (16, r)
    | "0"%char :: "X"%char :: r => (16, r)
    | _ => (10, s2)
    end in
  match digits_prefix radix None s3 with
  | Some v => Int (if negative then - v else v)%Z
  | None => NaN
  end.

End Num.

(* ================================================================== *)
(** * The query builder and the scorer (lib/music-metadata.ts) *)

Definition sp : regex := Star true JS.isSpace.

(** [/\s*\(Official\s*(Audio|Video|Music\s*Video?)\)/gi] *)
Definition officialMediaPattern : regex :=
  seq [ sp; lit "("; wordi "Official"; sp;
        Group 1 (Alt (wordi "Audio")
                  (Alt (wordi "Video")
                       (seq [ wordi "Music"; sp; wordi "Vide";
                              Opt (liti "o") ])));
        lit ")" ].

(** [/\s*\(Lyrics?\)/gi] *)
Definition lyricsPattern : regex :=
  seq [ sp; lit "("; wordi "Lyric"; Opt (liti "s"); lit ")" ].

(** [/\s*\(Audio\)/gi] *)
Definition audioPattern : regex :=
  seq [ sp; lit "("; wordi "Audio"; lit ")" ].

(** [/\s*\(Official\)/gi] *)
Definition officialPattern : regex :=
  seq [ sp; lit "("; wordi "Official"; lit ")" ].

(** [/\s*\(Music\s*Video\)/gi] *)
Definition musicVideoPattern : regex :=
  seq [ sp; lit "("; wordi "Music"; sp; wordi "Video"; lit ")" ].

(** [/\s*\(feat\.?\s*[^)]+\)/gi] *)
Definition featPattern : regex :=
  seq [ sp; lit "("; wordi "feat"; Opt (lit "."); sp;
        plus true (neg (just ")")); lit ")" ].

(** [/\s*\(ft\.?\s*[^)]+\)/gi] *)
Definition ftPattern : regex :=
  seq [ sp; lit "("; wordi "ft"; Opt (lit "."); sp;
        plus true (neg (just ")")); lit ")" ].

(** [/\s*\(featuring\s*[^)]+\)/gi] *)
Definition featuringPattern : regex :=
  seq [ sp; lit "("; wordi "featuring"; sp;
        plus true (neg (just ")")); lit ")" ].

(** [/\s*\[[^\]]+\]/gi] *)
Definition bracketPattern : regex :=
  seq [ sp; lit "["; plus true (neg (just "]")); lit "]" ].

(** [/[^\w\s]/g] *)
Definition punctPattern : regex :=
  Chr (fun a => negb (JS.isWord a || JS.isSpace a)).

(** [/\s+/g] and the separator [/\s+/] *)
Definition spacesPattern : regex := plus true JS.isSpace.

(** The separator [' '] *)
Definition spacePattern : regex := lit " ".

Definition dquote : ascii := "034"%char.

(** The cleaning of the title at the head of [buildSearchQueries]. *)
Definition cleanTitle (title : str) : str :=
  JS.trim
    (replace musicVideoPattern ""
       (replace officialPattern ""
          (replace audioPattern ""
             (replace lyricsPattern ""
                (replace officialMediaPattern "" title))))).

(** [`artist:"${a}" track:"${t}"`] *)
Definition artistTrackQuery (a t : str) : str :=
  "artist:" ++ dquote :: a ++ dquote :: " track:" ++ dquote :: t ++ [dquote].

(** [`track:"${t}"`] *)
Definition trackQuery (t : str) : str :=
  "track:" ++ dquote :: t ++ [dquote].

(** [`${a} ${b}`] *)
Definition spaced (a b : str) : str := a ++ " " ++ b.

Definition opt_str_eqb (a b : option str) : bool :=
  match a, b with
  | Some x, Some y => JS.str_eqb x y
  | None, None => true
  | _, _ => false
  end.

Definition buildSearchQueries (title artist : str) : list str :=
  let cleanTitle := cleanTitle title in
  let queries1 :=
    if JS.truthy artist && negb (JS.str_eqb artist "Unknown Artist") then
      (* Strategies 1 to 3 *)
      let q123 := [ artistTrackQuery artist cleanTitle;
                    spaced artist cleanTitle;
                    spaced cleanTitle artist ] in
      (* Strategy 4: the first part of the artist name *)
      let artistFirstPart := nth_error (split spacePattern artist) 0 in
      let q4 :=
        match artistFirstPart with
        | Some first =>
            if JS.truthy first && (2 <? length first)
            then [ artistTrackQuery first cleanTitle; spaced first cleanTitle ]
            else []
        | None => []
        end in
      (* Strategy 5: the last part of the artist name *)
      let artistWords := split spacePattern artist in
      let artistLastPart := nth_error artistWords (length artistWords - 1) in
      let q5 :=
        match artistLastPart with
        | Some last =>
            if JS.truthy last && (2 <? length last)
               && negb (opt_str_eqb artistLastPart artistFirstPart)
            then [ artistTrackQuery last cleanTitle; spaced last cleanTitle ]
            else []
        | None => []
        end in
      q123 ++ q4 ++ q5
    else [] in
  (* Strategies 6 and 7 *)
  let queries2 := [ trackQuery cleanTitle; cleanTitle ] in
  (* Strategy 8: the first two words of the title *)
  let titleWords := split spacePattern cleanTitle in
  let queries3 :=
    if 2 <? length titleWords then
      let shortTitle := JS.join " " (firstn 2 titleWords) in
      [ trackQuery shortTitle; shortTitle ]
    else [] in
  queries1 ++ queries2 ++ queries3.

Definition cleanTitleForComparison (title : str) : str :=
  JS.trim
    (replace spacesPattern " "
    (replace punctPattern " "
    (replace bracketPattern ""
    (replace featuringPattern ""
    (replace ftPattern ""
    (replace featPattern ""
    (replace musicVideoPattern ""
    (replace officialPattern ""
    (replace audioPattern ""
    (replace lyricsPattern ""
    (replace officialMediaPattern ""
       (JS.toLowerCase title)))))))))))).


(** ** Spotify tracks *)

Module SpotifyArtist.
Record t : Type := mk {
  id : str;
  name : str;
  genres : option (list str)
}.
End SpotifyArtist.

Module SpotifyImage.
Record t : Type := mk {
  url : str;
  width : Z;
  height : Z
}.
End SpotifyImage.

Module SpotifyAlbum.
Record t : Type := mk {
  id : str;
  name : str;
  release_date : str;
  images : list SpotifyImage.t;
  genres : option (list str)
}.
End SpotifyAlbum.

Module SpotifyTrack.
Record t : Type := mk {
  id : str;
  name : str;
  artists : list SpotifyArtist.t;
  album : SpotifyAlbum.t;
  duration_ms : Z;
  popularity : Z;
  genres : option (list str)
}.
End SpotifyTrack.
Abbreviation SpotifyTrack := SpotifyTrack.t.

(** ** The similarity score *)

Definition c06 : Num.number := Num.decimal 6 1.
Definition c04 : Num.number := Num.decimal 4 1.
Definition c03 : Num.number := Num.decimal 3 1.
Definition c02 : Num.number := Num.decimal 2 1.
Definition c01 : Num.number := Num.decimal 1 1.
Definition c07 : Num.number := Num.decimal 7 1.

(** The else branch of the title similarity: the share of common words. *)
Definition wordSimilarity (cleanOriginalTitle cleanSpotifyTitle : str)
  : Num.number :=
  let originalWords := split spacesPattern (JS.toLowerCase cleanOriginalTitle) in
  let spotifyWords := split spacesPattern (JS.toLowerCase cleanSpotifyTitle) in
  let commonWords :=
    filter (fun word => existsb (JS.str_eqb word) spotifyWords) originalWords in
  Num.div (Num.of_nat (length commonWords))
          (Num.of_nat (Nat.max (length originalWords) (length spotifyWords))).

(** Title similarity: what is added to the score. *)
Definition titleComponent (track : SpotifyTrack) (originalTitle : str)
  : Num.number :=
  let cleanOriginalTitle := cleanTitleForComparison originalTitle in
  let cleanSpotifyTitle := cleanTitleForComparison (SpotifyTrack.name track) in
  if JS.str_eqb cleanOriginalTitle cleanSpotifyTitle then c06
  else if JS.includes cleanSpotifyTitle cleanOriginalTitle
          || JS.includes cleanOriginalTitle cleanSpotifyTitle then c04
  else Num.mul (wordSimilarity cleanOriginalTitle cleanSpotifyTitle) c03.

(** Artist similarity: what is added to the score, [None] when nothing
    is. *)
Definition artistComponent (track : SpotifyTrack) (originalArtist : option str)
  : option Num.number :=
  match originalArtist with
  | Some originalArtist =>
      if JS.truthy originalArtist
         && negb (JS.str_eqb originalArtist "Unknown Artist") then
        match option_map SpotifyArtist.name
                (nth_error (SpotifyTrack.artists track) 0) with
        | Some spotifyArtist =>
            if JS.truthy spotifyArtist then
              if JS.str_eqb (JS.toLowerCase spotifyArtist)
                            (JS.toLowerCase originalArtist)
              then Some c03
              else if JS.includes (JS.toLowerCase spotifyArtist)
                                  (JS.toLowerCase originalArtist)
                      || JS.includes (JS.toLowerCase originalArtist)
                                     (JS.toLowerCase spotifyArtist)
              then Some c02
              else None
            else None
        | None => None
        end
      else None
  | None => None
  end.

(** Popularity bonus. *)
Definition popularityComponent (track : SpotifyTrack) : option Num.number :=
  if (50 <? SpotifyTrack.popularity track)%Z then Some c01 else None.

(** [score += x], when the statement is reached. *)
Definition add_opt (score : Num.number) (x : option Num.number) : Num.number :=
  match x with
  | Some v => Num.add score v
  | None => score
  end.

Definition calculateSimilarityScore (track : SpotifyTrack)
    (originalTitle : str) (originalArtist : option str) : Num.number :=
  let score := Num.zero in
  let score := Num.add score (titleComponent track originalTitle) in
  let score := add_opt score (artistComponent track originalArtist) in
  let score := add_opt score (popularityComponent track) in
  Num.min score Num.one.

Module BestMatch.
Record t : Type := mk {
  track : SpotifyTrack;
  score : Num.number
}.
End BestMatch.

Definition findBestMatch_step (originalTitle : str)
    (originalArtist : option str)
    (bestMatch : option BestMatch.t) (track : SpotifyTrack)
  : option BestMatch.t :=
  let score := calculateSimilarityScore track originalTitle originalArtist in
  match bestMatch with
  | None => Some (BestMatch.mk track score)
  | Some b =>
      if Num.gt score (BestMatch.score b)
      then Some (BestMatch.mk track score)
      else Some b
  end.

Definition findBestMatch (tracks : list SpotifyTrack) (originalTitle : str)
    (originalArtist : option str) : option BestMatch.t :=
  fold_left (findBestMatch_step originalTitle originalArtist) tracks None.

(* ================================================================== *)
(** * The network: requests, responses, and the effect monad *)

Module EnrichedMetadata.
Record t : Type := mk {
  title : str;
  artist : str;
  album : str;
  releaseDate : str;
  duration : Num.int;
  genres : list str;
  popularity : Num.int;
  spotifyId : option str;
  albumCover : option str;
  artistId : option str;
  albumId : option str
}.
End EnrichedMetadata.
Abbreviation EnrichedMetadata := EnrichedMetadata.t.

(** The body of the token endpoint: [data.access_token],
    [data.expires_in]. *)
Module TokenData.
Record t : Type := mk {
  access_token : option str;
  expires_in : Z
}.
End TokenData.

(** The body of a track search: [items] is [data.tracks?.items]. *)
Module SearchData.
Record t : Type := mk {
  items : option (list SpotifyTrack)
}.
End SearchData.

(** The body of an artist or album lookup: [data.genres]. *)
Module GenresData.
Record t : Type := mk {
  genres : option (list str)
}.
End GenresData.

(** One element of Last.fm's [results.trackmatches.track]. *)
Module LastFmTrack.
Record t : Type := mk {
  name : str;
  artist : str
}.
End LastFmTrack.

(** The body of Last.fm's track.search: [track] is
    [data.results?.trackmatches?.track]. *)
Module LastFmSearchData.
Record t : Type := mk {
  track : option (list LastFmTrack.t)
}.
End LastFmSearchData.

(** Last.fm's [data.track] of track.getInfo, by the paths the orchestrator
    reads. *)
Module LastFmTrackInfo.
Record t : Type := mk {
  name : option str;              (* .name *)
  artist_name : option str;       (* .artist?.name *)
  album_title : option str;       (* .album?.title *)
  wiki_published : option str;    (* .wiki?.published *)
  duration : option str;          (* .duration *)
  toptags_tag : option (list str);  (* the names of .toptags?.tag *)
  album_image_2 : option str      (* .album?.image?.[2]?.['#text'] *)
}.
End LastFmTrackInfo.

Module LastFmInfoData.
Record t : Type := mk {
  track : option LastFmTrackInfo.t
}.
End LastFmInfoData.

(** One element of MusicBrainz's [recordings]. *)
Module MBRecording.
Record t : Type := mk {
  id : str
}.
End MBRecording.

Module MBSearchData.
Record t : Type := mk {
  recordings : option (list MBRecording.t)
}.
End MBSearchData.

(** The body of a MusicBrainz recording lookup, by the paths the
    orchestrator reads. *)
Module MBFullRecording.
Record t : Type := mk {
  title : option str;                 (* .title *)
  artist_credit_0_name : option str;  (* ['artist-credit']?.[0]?.name *)
  releases_0_title : option str;      (* .releases?.[0]?.title *)
  releases_0_date : option str;       (* .releases?.[0]?.date *)
  length : option Z;                  (* .length, null or an integer *)
  genres : option (list str);         (* the names of .genres *)
  artist_credit_0_artist_id : option str;
                                (* ['artist-credit']?.[0]?.artist?.id *)
  releases_0_id : option str          (* .releases?.[0]?.id *)
}.
End MBFullRecording.

(** The requests the code issues with [fetch], by endpoint and by the
    parts of the URL and headers that vary. *)
Inductive Request : Type :=
| SpotifyToken (clientId clientSecret : str)
| SpotifySearch (query token : str)
| SpotifyArtistGet (artistId token : str)
| SpotifyAlbumGet (albumId token : str)
| LastFmTrackSearch (title : str) (artist : option str) (apiKey : str)
| LastFmTrackGetInfo (title artist apiKey : str)
| MBRecordingSearch (title : str) (artist : option str)
| MBRecordingGet (recordingId : str).

Definition body_of (r : Request) : Type :=
  match r with
  | SpotifyToken _ _ => TokenData.t
  | SpotifySearch _ _ => SearchData.t
  | SpotifyArtistGet _ _ => GenresData.t
  | SpotifyAlbumGet _ _ => GenresData.t
  | LastFmTrackSearch _ _ _ => LastFmSearchData.t
  | LastFmTrackGetInfo _ _ _ => LastFmInfoData.t
  | MBRecordingSearch _ _ => MBSearchData.t
  | MBRecordingGet _ => option MBFullRecording.t
  end.

(** A response: [json] is [None] when [response.json()] rejects. *)
Module Response.
Record t (A : Type) : Type := mk {
  ok : bool;
  status : nat;
  json : option A
}.
Arguments mk {A} ok status json.
Arguments ok {A} _.
Arguments status {A} _.
Arguments json {A} _.
End Response.

(** What the program does to the outside, in order. *)
Inductive Event : Type :=
| Fetch (r : Request)
| DateNow.

(** The outside: the answer to a request ([None] when [fetch] rejects)
    and the clock, both as functions of what happened before, and the
    environment variables. *)
Record Transport : Type := {
  respond : list Event -> forall r : Request, option (Response.t (body_of r));
  clock : list Event -> Z;
  SPOTIFY_CLIENT_ID : option str;
  SPOTIFY_CLIENT_SECRET : option str;
  LASTFM_API_KEY : option str
}.

(** The fields of a MusicMetadataEnricher instance. *)
Module Enricher.
Record t : Type := mk {
  spotifyClientId : str;
  spotifyClientSecret : str;
  accessToken : option str;
  tokenExpiry : Z
}.
End Enricher.

(** The state: the Spotify enricher instance in use and the events so
    far, oldest first. *)
Record State : Type := {
  this : Enricher.t;
  log : list Event
}.

Definition M (A : Type) : Type := Transport -> State -> Outcome A * State.

Definition ret {A} (a : A) : M A := fun _ st => (Ret a, st).

Definition throw {A} (e : Error) : M A := fun _ st => (Throw e, st).

Definition bind {A B} (m : M A) (f : A -> M B) : M B :=
  fun tr st =>
    match m tr st with
    | (Ret a, st') => f a tr st'
    | (Throw e, st') => (Throw e, st')
    end.

(** [try { m } catch (error) { h error }] *)
Definition try_catch {A} (m : M A) (h : Error -> M A) : M A :=
  fun tr st =>
    match m tr st with
    | (Ret a, st') => (Ret a, st')
    | (Throw e, st') => h e tr st'
    end.

Declare Scope m_scope.
Delimit Scope m_scope with M.
Notation "x <- c ;; k" := (bind c (fun x => k))
  (at level 61, c at next level, right associativity) : m_scope.
Notation "c ;;; k" := (bind c (fun _ => k))
  (at level 61, right associativity) : m_scope.

Local Open Scope m_scope.

(** [await fetch(r)] *)
Definition fetch (r : Request) : M (Response.t (body_of r)) :=
  fun tr st =>
    let st' := {| this := this st; log := log st ++ [Fetch r] |} in
    match respond tr (log st) r with
    | Some response => (Ret response, st')
    | None => (Throw FetchError, st')
    end.

(** [await response.json()] *)
Definition json {A} (response : Response.t A) : M A :=
  match Response.json response with
  | Some data => ret data
  | None => throw SyntaxError
  end.

(** [Date.now()] *)
Definition now : M Z :=
  fun tr st =>
    (Ret (clock tr (log st)),
     {| this := this st; log := log st ++ [DateNow] |}).

Definition get_this : M Enricher.t := fun _ st => (Ret (this st), st).

Definition set_this (e : Enricher.t) : M unit :=
  fun _ st => (Ret tt, {| this := e; log := log st |}).

Definition getenv (var : Transport -> option str) : M (option str) :=
  fun tr st => (Ret (var tr), st).

(* ================================================================== *)
(** * class MusicMetadataEnricher (Spotify) *)

(** The try block of [getAccessToken]. *)
Definition requestAccessToken : M str :=
  self <- get_this ;;
  response <- fetch (SpotifyToken (Enricher.spotifyClientId self)
                                  (Enricher.spotifyClientSecret self)) ;;
  data <- json response ;;
  match TokenData.access_token data with
  | Some access_token =>
      if JS.truthy access_token then
        t <- now ;;
        set_this (Enricher.mk (Enricher.spotifyClientId self)
                    (Enricher.spotifyClientSecret self)
                    (Some access_token)
                    (t + TokenData.expires_in data * 1000)%Z) ;;;
        ret access_token
      else throw (ErrorMsg "Failed to get Spotify access token")
  | None => throw (ErrorMsg "Failed to get Spotify access token")
  end.

Definition refreshAccessToken : M str :=
  try_catch requestAccessToken
    (fun _ => throw (ErrorMsg "Spotify authentication failed")).

Definition getAccessToken : M str :=
  self <- get_this ;;
  match Enricher.accessToken self with
  | Some accessToken =>
      if JS.truthy accessToken then
        t <- now ;;
        if (t <? Enricher.tokenExpiry self)%Z then ret accessToken
        else refreshAccessToken
      else refreshAccessToken
  | None => refreshAccessToken
  end.

(** [track.artists[0].genres = genres] *)
Definition set_artist0_genres (track : SpotifyTrack)
    (genres : option (list str)) : SpotifyTrack :=
  match SpotifyTrack.artists track with
  | a :: rest =>
      SpotifyTrack.mk (SpotifyTrack.id track) (SpotifyTrack.name track)
        (SpotifyArtist.mk (SpotifyArtist.id a) (SpotifyArtist.name a) genres
           :: rest)
        (SpotifyTrack.album track) (SpotifyTrack.duration_ms track)
        (SpotifyTrack.popularity track) (SpotifyTrack.genres track)
  | [] => track
  end.

(** [track.album.genres = genres] *)
Definition set_album_genres (track : SpotifyTrack)
    (genres : option (list str)) : SpotifyTrack :=
  let al := SpotifyTrack.album track in
  SpotifyTrack.mk (SpotifyTrack.id track) (SpotifyTrack.name track)
    (SpotifyTrack.artists track)
    (SpotifyAlbum.mk (SpotifyAlbum.id al) (SpotifyAlbum.name al)
       (SpotifyAlbum.release_date al) (SpotifyAlbum.images al) genres)
    (SpotifyTrack.duration_ms track)
    (SpotifyTrack.popularity track) (SpotifyTrack.genres track).

(** The artist lookup of [enrichTrackData]: the track after it. *)
Definition enrichArtist (token : str) (track : SpotifyTrack) : M SpotifyTrack :=
  match SpotifyTrack.artists track with
  | a :: _ =>
      artistResponse <- fetch (SpotifyArtistGet (SpotifyArtist.id a) token) ;;
      if Response.ok artistResponse then
        artistData <- json artistResponse ;;
        ret (set_artist0_genres track (GenresData.genres artistData))
      else ret track
  | [] => ret track
  end.

(** The album lookup of [enrichTrackData]: the track after it. *)
Definition enrichAlbum (token : str) (track : SpotifyTrack) : M SpotifyTrack :=
  albumResponse <-
    fetch (SpotifyAlbumGet (SpotifyAlbum.id (SpotifyTrack.album track)) token) ;;
  if Response.ok albumResponse then
    albumData <- json albumResponse ;;
    ret (set_album_genres track (GenresData.genres albumData))
  else ret track.

(** [enrichTrackData]: the track object is updated in place, so the catch
    clause returns it with the updates made before the exception. *)
Definition enrichTrackData (track : SpotifyTrack) : M SpotifyTrack :=
  try_catch
    (token <- getAccessToken ;;
     track1 <- enrichArtist token track ;;
     try_catch (enrichAlbum token track1) (fun _ => ret track1))
    (fun _ => ret track).

(** The for loop of [searchSpotifyTrack] over the remaining queries. *)
Fixpoint searchLoop (token originalTitle originalArtist : str)
    (searchQueries : list str) : M (option SpotifyTrack) :=
  match searchQueries with
  | [] => ret None
  | searchQuery :: rest =>
      response <- fetch (SpotifySearch searchQuery token) ;;
      if negb (Response.ok response) then
        searchLoop token originalTitle originalArtist rest
      else
        data <- json response ;;
        match SearchData.items data with
        | Some ((_ :: _) as items) =>
            match findBestMatch items originalTitle (Some originalArtist) with
            | Some bestMatch =>
                if Num.gt (BestMatch.score bestMatch) c07 then
                  enrichedTrack <- enrichTrackData (BestMatch.track bestMatch) ;;
                  ret (Some enrichedTrack)
                else searchLoop token originalTitle originalArtist rest
            | None => searchLoop token originalTitle originalArtist rest
            end
        | _ => searchLoop token originalTitle originalArtist rest
        end
  end.

Definition searchSpotifyTrack (query originalTitle originalArtist : str)
  : M (option SpotifyTrack) :=
  try_catch
    (token <- getAccessToken ;;
     let searchQueries := buildSearchQueries originalTitle originalArtist in
     searchLoop token originalTitle originalArtist searchQueries)
    (fun _ => ret None).

(** [arr.filter((g, i, arr) => arr.indexOf(g) === i)]: the first
    occurrences. *)
Fixpoint dedupe_aux (seen : list str) (l : list str) : list str :=
  match l with
  | [] => []
  | g :: l' =>
      if existsb (JS.str_eqb g) seen then dedupe_aux seen l'
      else g :: dedupe_aux (g :: seen) l'
  end.

Definition dedupe (l : list str) : list str := dedupe_aux [] l.

Definition or_list {A} (o : option (list A)) : list A :=
  match o with Some l => l | None => [] end.

(** "Convert to our format". *)
Definition toEnriched (spotifyTrack : SpotifyTrack) : EnrichedMetadata :=
  let artist0 := nth_error (SpotifyTrack.artists spotifyTrack) 0 in
  let al := SpotifyTrack.album spotifyTrack in
  {| EnrichedMetadata.title := SpotifyTrack.name spotifyTrack;
     EnrichedMetadata.artist :=
       JS.orStr (option_map SpotifyArtist.name artist0) "Unknown Artist";
     EnrichedMetadata.album := SpotifyAlbum.name al;
     EnrichedMetadata.releaseDate := SpotifyAlbum.release_date al;
     EnrichedMetadata.duration :=
       Num.round_div_1000 (Num.Int (SpotifyTrack.duration_ms spotifyTrack));
     EnrichedMetadata.genres :=
       dedupe (or_list (match artist0 with
                        | Some a => SpotifyArtist.genres a
                        | None => None
                        end)
               ++ or_list (SpotifyAlbum.genres al));
     EnrichedMetadata.popularity :=
       Num.Int (SpotifyTrack.popularity spotifyTrack);
     EnrichedMetadata.spotifyId := Some (SpotifyTrack.id spotifyTrack);
     EnrichedMetadata.albumCover :=
       option_map SpotifyImage.url (nth_error (SpotifyAlbum.images al) 0);
     EnrichedMetadata.artistId := option_map SpotifyArtist.id artist0;
     EnrichedMetadata.albumId := Some (SpotifyAlbum.id al) |}.

(** [x && x !== sentinel] for a possibly undefined string. *)
Definition known (x : option str) (sentinel : str) : option str :=
  match x with
  | Some v => if JS.truthy v && negb (JS.str_eqb v sentinel) then Some v
              else None
  | None => None
  end.

Definition enrichMetadata (title : str) (artist album : option str)
  : M (option EnrichedMetadata) :=
  try_catch
    (let searchQuery := title in
     let searchQuery :=
       match known artist "Unknown Artist" with
       | Some artist => spaced artist title
       | None => searchQuery
       end in
     let searchQuery :=
       match known album "Unknown Album" with
       | Some album => spaced searchQuery album
       | None => searchQuery
       end in
     spotifyTrack <-
       searchSpotifyTrack searchQuery title (JS.orStr artist "Unknown Artist") ;;
     match spotifyTrack with
     | None => ret None
     | Some spotifyTrack => ret (Some (toEnriched spotifyTrack))
     end)
    (fun _ => ret None).

(** [new MusicMetadataEnricher()] *)
Definition newMusicMetadataEnricher : M unit :=
  clientId <- getenv SPOTIFY_CLIENT_ID ;;
  clientSecret <- getenv SPOTIFY_CLIENT_SECRET ;;
  set_this (Enricher.mk (JS.orStr clientId "") (JS.orStr clientSecret "")
              None 0).

(* ================================================================== *)
(** * class LastFmMetadataEnricher and class MusicBrainzMetadataEnricher *)

(** [x?.[0] || null] for an array of objects. *)
Definition first_or_null {A} (o : option (list A)) : option A :=
  match o with
  | Some (x :: _) => Some x
  | _ => None
  end.

Definition LastFm_searchTrack (title : str) (artist : option str)
  : M (option LastFmTrack.t) :=
  try_catch
    (apiKey <- getenv LASTFM_API_KEY ;;
     response <- fetch (LastFmTrackSearch title (known artist "Unknown Artist")
                          (JS.orStr apiKey "")) ;;
     if negb (Response.ok response) then throw (ErrorMsg "Last.fm API error")
     else
       data <- json response ;;
       ret (first_or_null (LastFmSearchData.track data)))
    (fun _ => ret None).

Definition LastFm_getTrackInfo (title artist : str)
  : M (option LastFmTrackInfo.t) :=
  try_catch
    (apiKey <- getenv LASTFM_API_KEY ;;
     response <- fetch (LastFmTrackGetInfo title artist (JS.orStr apiKey "")) ;;
     if negb (Response.ok response) then throw (ErrorMsg "Last.fm API error")
     else
       data <- json response ;;
       ret (LastFmInfoData.track data))
    (fun _ => ret None).

Definition MusicBrainz_searchRecording (title : str) (artist : option str)
  : M (option MBRecording.t) :=
  try_catch
    (response <- fetch (MBRecordingSearch title
                          (known artist "Unknown Artist")) ;;
     if negb (Response.ok response)
     then throw (ErrorMsg "MusicBrainz API error")
     else
       data <- json response ;;
       ret (first_or_null (MBSearchData.recordings data)))
    (fun _ => ret None).

Definition MusicBrainz_getRecording (recordingId : str)
  : M (option MBFullRecording.t) :=
  try_catch
    (response <- fetch (MBRecordingGet recordingId) ;;
     if negb (Response.ok response)
     then throw (ErrorMsg "MusicBrainz API error")
     else json response)
    (fun _ => ret None).

(* ================================================================== *)
(** * The orchestrator: [enrichMetadataWithAPIs] (route.ts) *)

(** The record built from Last.fm's track info. *)
Definition fromLastFm (trackInfo : LastFmTrackInfo.t) (title artist album : str)
  : EnrichedMetadata :=
  {| EnrichedMetadata.title := JS.orStr (LastFmTrackInfo.name trackInfo) title;
     EnrichedMetadata.artist :=
       JS.orStr (LastFmTrackInfo.artist_name trackInfo) artist;
     EnrichedMetadata.album :=
       JS.orStr (LastFmTrackInfo.album_title trackInfo) album;
     EnrichedMetadata.releaseDate :=
       JS.orStr (LastFmTrackInfo.wiki_published trackInfo) "";
     EnrichedMetadata.duration :=
       Num.parseInt (JS.orStr (LastFmTrackInfo.duration trackInfo) "0");
     EnrichedMetadata.genres := or_list (LastFmTrackInfo.toptags_tag trackInfo);
     EnrichedMetadata.popularity := Num.Int 0;
     EnrichedMetadata.spotifyId := None;
     EnrichedMetadata.albumCover := LastFmTrackInfo.album_image_2 trackInfo;
     EnrichedMetadata.artistId := None;
     EnrichedMetadata.albumId := None |}.

(** The record built from a MusicBrainz recording.  [length] is null or
    an integer, so [parseInt(length || "0")] is [length], or 0. *)
Definition fromMusicBrainz (fullRecording : MBFullRecording.t)
    (title artist album : str) : EnrichedMetadata :=
  {| EnrichedMetadata.title :=
       JS.orStr (MBFullRecording.title fullRecording) title;
     EnrichedMetadata.artist :=
       JS.orStr (MBFullRecording.artist_credit_0_name fullRecording) artist;
     EnrichedMetadata.album :=
       JS.orStr (MBFullRecording.releases_0_title fullRecording) album;
     EnrichedMetadata.releaseDate :=
       JS.orStr (MBFullRecording.releases_0_date fullRecording) "";
     EnrichedMetadata.duration :=
       Num.round_div_1000
         (Num.Int (match MBFullRecording.length fullRecording with
                   | Some z => z
                   | None => 0
                   end));
     EnrichedMetadata.genres := or_list (MBFullRecording.genres fullRecording);
     EnrichedMetadata.popularity := Num.Int 0;
     EnrichedMetadata.spotifyId := None;
     EnrichedMetadata.albumCover := None;
     EnrichedMetadata.artistId :=
       MBFullRecording.artist_credit_0_artist_id fullRecording;
     EnrichedMetadata.albumId := MBFullRecording.releases_0_id fullRecording |}.

(** "Try Spotify first": [Some] is the return inside the try block. *)
Definition trySpotify (title artist album : str)
  : M (option EnrichedMetadata) :=
  try_catch
    (newMusicMetadataEnricher ;;;
     enrichMetadata title (Some artist) (Some album))
    (fun _ => ret None).

(** "Try Last.fm as fallback". *)
Definition tryLastFm (title artist album : str)
  : M (option EnrichedMetadata) :=
  try_catch
    (lastfmTrack <- LastFm_searchTrack title (Some artist) ;;
     match lastfmTrack with
     | Some _ =>
         trackInfo <- LastFm_getTrackInfo title artist ;;
         match trackInfo with
         | Some trackInfo => ret (Some (fromLastFm trackInfo title artist album))
         | None => ret None
         end
     | None => ret None
     end)
    (fun _ => ret None).

(** "Try MusicBrainz as final fallback". *)
Definition tryMusicBrainz (title artist album : str)
  : M (option EnrichedMetadata) :=
  try_catch
    (recording <- MusicBrainz_searchRecording title (Some artist) ;;
     match recording with
     | Some recording =>
         fullRecording <- MusicBrainz_getRecording (MBRecording.id recording) ;;
         match fullRecording with
         | Some fullRecording =>
             ret (Some (fromMusicBrainz fullRecording title artist album))
         | None => ret None
         end
     | None => ret None
     end)
    (fun _ => ret None).

Definition enrichMetadataWithAPIs (title artist album : str)
  : M (option EnrichedMetadata) :=
  spotifyMetadata <- trySpotify title artist album ;;
  match spotifyMetadata with
  | Some spotifyMetadata => ret (Some spotifyMetadata)
  | None =>
      lastfm <- tryLastFm title artist album ;;
      match lastfm with
      | Some metadata => ret (Some metadata)
      | None =>
          musicbrainz <- tryMusicBrainz title artist album ;;
          match musicbrainz with
          | Some metadata => ret (Some metadata)
          | None => ret None
          end
      end
  end.

(* ================================================================== *)
(** * The validation of the enriched metadata in POST (route.ts) *)

Definition titleSimilarity (enrichedMetadata : EnrichedMetadata)
    (basicMetadata : BasicMetadata) : bool :=
  JS.includes (JS.toLowerCase (EnrichedMetadata.title enrichedMetadata))
              (JS.toLowerCase (BasicMetadata.title basicMetadata))
  || JS.includes (JS.toLowerCase (BasicMetadata.title basicMetadata))
                 (JS.toLowerCase (EnrichedMetadata.title enrichedMetadata)).

Definition artistSimilarity (enrichedMetadata : EnrichedMetadata)
    (basicMetadata : BasicMetadata) : bool :=
  JS.includes (JS.toLowerCase (EnrichedMetadata.artist enrichedMetadata))
              (JS.toLowerCase (BasicMetadata.artist basicMetadata))
  || JS.includes (JS.toLowerCase (BasicMetadata.artist basicMetadata))
                 (JS.toLowerCase (EnrichedMetadata.artist enrichedMetadata)).

(** The hybrid metadata object. *)
Definition hybridMetadata (enrichedMetadata : EnrichedMetadata)
    (basicMetadata : BasicMetadata) : EnrichedMetadata :=
  {| EnrichedMetadata.title := BasicMetadata.title basicMetadata;
     EnrichedMetadata.artist := BasicMetadata.artist basicMetadata;
     EnrichedMetadata.album := BasicMetadata.album basicMetadata;
     EnrichedMetadata.releaseDate :=
       JS.orStr (Some (EnrichedMetadata.releaseDate enrichedMetadata)) "";
     EnrichedMetadata.duration :=
       Num.or_int (EnrichedMetadata.duration enrichedMetadata) 0;
     EnrichedMetadata.genres := EnrichedMetadata.genres enrichedMetadata;
     EnrichedMetadata.popularity :=
       Num.or_int (EnrichedMetadata.popularity enrichedMetadata) 0;
     EnrichedMetadata.spotifyId := EnrichedMetadata.spotifyId enrichedMetadata;
     EnrichedMetadata.albumCover :=
       EnrichedMetadata.albumCover enrichedMetadata;
     EnrichedMetadata.artistId := EnrichedMetadata.artistId enrichedMetadata;
     EnrichedMetadata.albumId := EnrichedMetadata.albumId enrichedMetadata |}.

(** The body of [if (enrichedMetadata) { ... }]. *)
Definition validateEnriched (enrichedMetadata : EnrichedMetadata)
    (basicMetadata : BasicMetadata) : EnrichedMetadata :=
  if titleSimilarity enrichedMetadata basicMetadata
     && artistSimilarity enrichedMetadata basicMetadata
  then enrichedMetadata
  else hybridMetadata enrichedMetadata basicMetadata.

(** The enrichment step of POST: [enrichedMetadata] after it. *)
Definition POST_enrichment (basicMetadata : BasicMetadata)
  : M (option EnrichedMetadata) :=
  try_catch
    (enrichedMetadata <-
       enrichMetadataWithAPIs (BasicMetadata.title basicMetadata)
         (BasicMetadata.artist basicMetadata)
         (BasicMetadata.album basicMetadata) ;;
     match enrichedMetadata with
     | Some enrichedMetadata =>
         ret (Some (validateEnriched enrichedMetadata basicMetadata))
     | None => ret None
     end)
    (fun _ => ret None).

(* ================================================================== *)
(** * Specification vocabulary *)

(** [needle] occurs in [s]. *)
Definition Substring (needle s : str) : Prop :=
  exists p q, s = p ++ needle ++ q.

(** Case-insensitive substring agreement, in either direction. *)
Definition Agree (a b : str) : Prop :=
  Substring (JS.toLowerCase b) (JS.toLowerCase a)
  \/ Substring (JS.toLowerCase a) (JS.toLowerCase b).

(** What holds of the best match once the tracks [seen] are read. *)
Definition best_of (t : str) (a : option str) (seen : list SpotifyTrack)
    (acc : option BestMatch.t) : Prop :=
  match acc with
  | None => seen = []
  | Some b =>
      In (BestMatch.track b) seen
      /\ BestMatch.score b = calculateSimilarityScore (BestMatch.track b) t a
      /\ Forall (fun c => Num.gt (calculateSimilarityScore c t a)
                                 (BestMatch.score b) = false) seen
  end.

(** A run of [m]: outcome and final state. *)
Definition run_of {A} (m : M A) (tr : Transport) (st : State)
  : Outcome A * State := m tr st.

(** The state once the request [r] is in the log. *)
Definition after_fetch (st : State) (r : Request) : State :=
  {| this := this st; log := log st ++ [Fetch r] |}.

(** The events of a request to Spotify, and clock reads. *)
Definition spotify_event (e : Event) : Prop :=
  match e with
  | Fetch (SpotifyToken _ _) | Fetch (SpotifySearch _ _)
  | Fetch (SpotifyArtistGet _ _) | Fetch (SpotifyAlbumGet _ _) => True
  | DateNow => True
  | Fetch _ => False
  end.

(** [m] only adds events that satisfy [P] to the log. *)
Definition emits {A} (P : Event -> Prop) (m : M A) : Prop :=
  forall tr st, exists evs,
    log (snd (m tr st)) = log st ++ evs /\ Forall P evs.

(** [m] never throws. *)
Definition total {A} (m : M A) : Prop :=
  forall tr st, exists a st', m tr st = (Ret a, st').

(** The ways a provider's answer can fail: the transport rejects, the
    status is not 2xx, the body does not parse, or the body holds no
    result (no access token for the token endpoint: authentication
    failure; no track or no recording for the detail lookups of Last.fm
    and MusicBrainz). *)
Definition no_result (r : Request) : body_of r -> Prop :=
  match r with
  | SpotifyToken _ _ =>
      fun data => JS.truthyOpt (TokenData.access_token data) = false
  | SpotifySearch _ _ =>
      fun data => or_list (SearchData.items data) = []
  | LastFmTrackSearch _ _ _ =>
      fun data => or_list (LastFmSearchData.track data) = []
  | MBRecordingSearch _ _ =>
      fun data => or_list (MBSearchData.recordings data) = []
  | LastFmTrackGetInfo _ _ _ =>
      fun data => LastFmInfoData.track data = None
  | MBRecordingGet _ => fun data => data = None
  | _ => fun _ => False
  end.

(** The token endpoint is read without a look at the status. *)
Definition checks_status (r : Request) : bool :=
  match r with
  | SpotifyToken _ _ => false
  | _ => true
  end.

Definition failed (r : Request) (x : option (Response.t (body_of r))) : Prop :=
  match x with
  | None => True
  | Some response =>
      (checks_status r = true /\ Response.ok response = false)
      \/ match Response.json response with
         | None => True
         | Some data => no_result r data
         end
  end.

Inductive Provider : Type := Spotify | LastFm | MusicBrainz.

(** A provider is down when its searches all fail (for Spotify: its
    token requests, or its searches). *)
Definition down (tr : Transport) (p : Provider) : Prop :=
  match p with
  | Spotify =>
      (forall h id secret, failed _ (respond tr h (SpotifyToken id secret)))
      \/ (forall h q token, failed _ (respond tr h (SpotifySearch q token)))
  | LastFm =>
      forall h t a k, failed _ (respond tr h (LastFmTrackSearch t a k))
  | MusicBrainz =>
      forall h t a, failed _ (respond tr h (MBRecordingSearch t a))
  end.

(** The requests of the stages of the orchestrator. *)
Definition spotifyTokenRequest (tr : Transport) : Request :=
  SpotifyToken (JS.orStr (SPOTIFY_CLIENT_ID tr) "")
               (JS.orStr (SPOTIFY_CLIENT_SECRET tr) "").

Definition lastfmSearch (tr : Transport) (title artist : str) : Request :=
  LastFmTrackSearch title (known (Some artist) "Unknown Artist")
    (JS.orStr (LASTFM_API_KEY tr) "").

Definition lastfmInfo (tr : Transport) (title artist : str) : Request :=
  LastFmTrackGetInfo title artist (JS.orStr (LASTFM_API_KEY tr) "").

Definition mbSearch (title artist : str) : Request :=
  MBRecordingSearch title (known (Some artist) "Unknown Artist").

(** The state a new Spotify enricher starts in. *)
Definition fresh (tr : Transport) (st : State) : State :=
  {| this := Enricher.mk (JS.orStr (SPOTIFY_CLIENT_ID tr) "")
               (JS.orStr (SPOTIFY_CLIENT_SECRET tr) "") None 0;
     log := log st |}.

(** What the orchestrator returns once the Spotify stage has returned
    [r1] in the state [s1]: its record, or else what Last.fm returns,
    or else what MusicBrainz returns, each stage starting where the one
    before it ended. *)
Definition hands_on (tr : Transport) (title artist album : str)
    (r1 : option EnrichedMetadata) (s1 : State)
    (out : Outcome (option EnrichedMetadata) * State) : Prop :=
  match r1 with
  | Some m => out = (Ret (Some m), s1)
  | None =>
      exists r2 s2,
        tryLastFm title artist album tr s1 = (Ret r2, s2)
        /\ match r2 with
           | Some m => out = (Ret (Some m), s2)
           | None =>
               exists r3 s3,
                 tryMusicBrainz title artist album tr s2 = (Ret r3, s3)
                 /\ out = (Ret r3, s3)
           end
  end.



(** [defines r i]: every match of [r] sets the capture of group [i]. *)
Fixpoint defines (r : regex) (i : nat) : bool :=
  match r with
  | Group j r1 => Nat.eqb i j || defines r1 i
  | Seq r1 r2 => defines r1 i || defines r2 i
  | Alt r1 r2 => defines r1 i && defines r2 i
  | _ => false
  end.

(** The first code unit that is not white space. *)
Fixpoint firstNonSpace (s : str) : option ascii :=
  match s with
  | a :: s' => if JS.isSpace a then firstNonSpace s' else Some a
  | [] => None
  end.

(** The text after the opening parenthesis that follows the leading
    white space of [s], when there is one. *)
Fixpoint afterFirstParen (s : str) : option str :=
  match s with
  | [] => None
  | b :: s' =>
      if JS.isSpace b then afterFirstParen s'
      else if Ascii.eqb "(" b then Some s' else None
  end.

(** The parenthetical qualifiers [cleanTitle] strips, in lower case. *)
Definition noiseQualifiers : list str :=
  [ ("(official audio)" : str); ("(official video)" : str);
    ("(official music video)" : str); ("(lyrics)" : str); ("(lyric)" : str);
    ("(audio)" : str); ("(official)" : str); ("(music video)" : str) ].

(** [q] is one of the queries the builder forms from the clean title
    [ct]: the title itself, its field query, its combinations with an
    artist name, or the same for its first two words. *)
Definition UsesTitle (ct q : str) : Prop :=
  q = ct \/ q = trackQuery ct
  \/ (exists a, q = artistTrackQuery a ct \/ q = spaced a ct
                \/ q = spaced ct a)
  \/ q = trackQuery (JS.join " " (firstn 2 (split spacePattern ct)))
  \/ q = JS.join " " (firstn 2 (split spacePattern ct)).

(** A pattern whose matches are never empty. *)
Definition never_empty (r : regex) : Prop :=
  forall n0 s, match_len n0 r s <> Some 0.

(** The longest string ECMAScript allows has 2^53 - 1 code units. *)
Definition max_string_length : Z := 2 ^ 53 - 1.

(** A number that is not NaN and not below zero. *)
Definition nonneg (x : Num.number) : Prop :=
  match x with
  | S754_zero _ => True
  | S754_infinity s | S754_finite s _ _ => s = false
  | S754_nan => False
  end.

(** A number that is not below zero and whose value is at most
    [K * 2^eK]. *)
Definition below (K eK : Z) (x : Num.number) : Prop :=
  match x with
  | S754_zero _ => True
  | S754_finite false m e => (e <= eK)%Z /\ (Zpos m <= K * 2 ^ (eK - e))%Z
  | _ => False
  end.

(** The matcher stops a repetition of [p] in front of [v]. *)
Definition stops (p : ascii -> bool) (v : str) : Prop :=
  match v with
  | a :: _ => p a = false
  | [] => True
  end.

(** [k] fails on every string that does not start with [a]. *)
Definition needs (a : ascii) (k : str -> option mstate) : Prop :=
  forall b s, b <> a -> k (b :: s) = None.

(* ================================================================== *)
(** * Example data *)

Module Ex.

Definition st0 : State :=
  {| this := Enricher.mk "" "" None 0; log := [] |}.

Definition album1 : SpotifyAlbum.t :=
  SpotifyAlbum.mk "al1" "Flow State" "2018-08-31"
    [SpotifyImage.mk "https://i.scdn.co/image/1" 640 640] None.

Definition bigSmoke : SpotifyTrack :=
  SpotifyTrack.mk "t1" "Big Smoke" [SpotifyArtist.mk "ar1" "Tash Sultana" None]
    album1 321500 61 None.

(** Title contained in the guess, same artist, unpopular: 0.4 + 0.3. *)
Definition bigSmokeLive : SpotifyTrack :=
  SpotifyTrack.mk "t2" "Big Smoke Live"
    [SpotifyArtist.mk "ar1" "Tash Sultana" None] album1 400000 10 None.

Definition dreams : SpotifyTrack :=
  SpotifyTrack.mk "t3" "Dreams" [SpotifyArtist.mk "ar2" "Packaday" None]
    album1 200000 10 None.

Definition ok200 {A} (body : A) : option (Response.t A) :=
  Some (Response.mk true 200 (Some body)).

(** Spotify answers every search with [items]; nothing else answers. *)
Definition spotifyWith (items : list SpotifyTrack) : Transport :=
  {| respond := fun _ r =>
       match r as r0 return option (Response.t (body_of r0)) with
       | SpotifyToken _ _ => ok200 (TokenData.mk (Some ("tok" : str)) 3600)
       | SpotifySearch _ _ => ok200 (SearchData.mk (Some items))
       | SpotifyArtistGet _ _ =>
           ok200 (GenresData.mk (Some [("indie" : str); ("psych" : str)]))
       | SpotifyAlbumGet _ _ => ok200 (GenresData.mk (Some [("indie" : str)]))
       | _ => None
       end;
     clock := fun h => Z.of_nat (length h);
     SPOTIFY_CLIENT_ID := Some ("id" : str);
     SPOTIFY_CLIENT_SECRET := Some ("secret" : str);
     LASTFM_API_KEY := None |}.

Definition dreamsInfo : LastFmTrackInfo.t :=
  LastFmTrackInfo.mk (Some ("Dreams" : str)) (Some ("Packaday" : str))
    (Some ("Night Drive" : str)) None (Some ("215000" : str))
    (Some [("synthwave" : str)]) (Some ("https://lastfm.example/c.png" : str)).

(** Spotify is unreachable; Last.fm answers every search with one track
    and every lookup with [dreamsInfo]. *)
Definition lastfmOnly : Transport :=
  {| respond := fun _ r =>
       match r as r0 return option (Response.t (body_of r0)) with
       | LastFmTrackSearch _ _ _ =>
           ok200 (LastFmSearchData.mk
                    (Some [LastFmTrack.mk "Dreams" "Packaday"]))
       | LastFmTrackGetInfo _ _ _ =>
           ok200 (LastFmInfoData.mk (Some dreamsInfo))
       | _ => None
       end;
     clock := fun _ => 0%Z;
     SPOTIFY_CLIENT_ID := None;
     SPOTIFY_CLIENT_SECRET := None;
     LASTFM_API_KEY := Some ("key" : str) |}.

Definition guess : BasicMetadata :=
  BasicMetadata.mk "Tash Sultana" "Unknown Album" "Big Smoke".

End Ex.

(* ================================================================== *)
(** * File names: the upload of route.ts and the library page

    The import route names the stored file after the final metadata
    (route.ts, "Generate filename"); the library page reads the metadata
    back from the name when the database has no row for the file
    (library/page.tsx, "Fallback to filename parsing"). *)

(** A class range [lo-hi] under the i flag: the unit matches when some
    member of the range has its canonical form. *)
Definition rangei (lo hi : nat) (x : ascii) : bool :=
  existsb (fun n => Ascii.eqb (JS.canonicalize (ascii_of_nat n))
                              (JS.canonicalize x))
          (List.seq lo (hi + 1 - lo)).

(** A class atom under the i flag. *)
Definition atomi (a x : ascii) : bool :=
  Ascii.eqb (JS.canonicalize a) (JS.canonicalize x).

(** The class [[a-z0-9-_ ]] under the i flag. *)
Definition safeClass (x : ascii) : bool :=
  rangei 97 122 x || rangei 48 57 x
  || atomi "-" x || atomi "_" x || atomi " " x.

(** [/[^a-z0-9-_ ]/gi] *)
Definition unsafeCharPattern : regex := Chr (neg safeClass).

(** [s.replace(/[^a-z0-9-_ ]/gi, "_")] *)
Definition safeName (s : str) : str := replace unsafeCharPattern "_" s.

(** [finalMetadata = enrichedMetadata || basicMetadata], by the three
    fields that are read from it. *)
Definition finalMetadata (enrichedMetadata : option EnrichedMetadata)
    (basicMetadata : BasicMetadata) : BasicMetadata :=
  match enrichedMetadata with
  | Some e =>
      BasicMetadata.mk (EnrichedMetadata.artist e) (EnrichedMetadata.album e)
        (EnrichedMetadata.title e)
  | None => basicMetadata
  end.

(** [`${artist}_${album}_${title}_${id}.mp3`], each name made safe. *)
Definition fileName (finalMetadata : BasicMetadata) (id : str) : str :=
  safeName (BasicMetadata.artist finalMetadata) ++ "_"
  ++ safeName (BasicMetadata.album finalMetadata) ++ "_"
  ++ safeName (BasicMetadata.title finalMetadata) ++ "_" ++ id ++ ".mp3".

(** The object path of the upload: [`${user.id}/${fileName}`]. *)
Definition uploadPath (userId fileName : str) : str :=
  userId ++ "/" ++ fileName.

(** The ownership check of the audio-url route:
    [path.startsWith(`${user.id}/`)]. *)
Definition ownsPath (userId path : str) : bool :=
  JS.startsWith (userId ++ "/") path.

(** [s.replace(r, rep)] for [r] without the g flag and [rep] free of [$]:
    the first match from the left is replaced. *)
Fixpoint replace_first_aux (n0 : nat) (r : regex) (rep : str) (s : str)
  : str :=
  match match_len n0 r s with
  | Some n => rep ++ skipn n s
  | None =>
      match s with
      | a :: s' => a :: replace_first_aux n0 r rep s'
      | [] => []
      end
  end.

Definition replace_first (r : regex) (rep : str) (s : str) : str :=
  replace_first_aux (length s) r rep s.

(** [/\.mp3$/] *)
Definition mp3SuffixPattern : regex :=
  seq [ lit "."; lit "m"; lit "p"; lit "3"; Eol ].

(** The separator ["_"] *)
Definition underscorePattern : regex := lit "_".

(** [parts.slice(2, -1)] *)
Definition slice_2_m1 {A} (parts : list A) : list A :=
  firstn (length parts - 1 - 2) (skipn 2 parts).

(** The metadata read from a file name (library/page.tsx). *)
Definition parseFileName (name : str) : BasicMetadata :=
  let title := replace_first mp3SuffixPattern "" name in
  let parts := split underscorePattern title in
  if 4 <=? length parts then
    BasicMetadata.mk (nth 0 parts []) (nth 1 parts [])
      (JS.join " " (slice_2_m1 parts))
  else if length parts =? 3 then
    BasicMetadata.mk (nth 0 parts []) "Unknown Album" (nth 1 parts [])
  else if length parts =? 2 then
    BasicMetadata.mk "Unknown Artist" "Unknown Album" (nth 0 parts [])
  else
    BasicMetadata.mk "Unknown Artist" "Unknown Album" title.

(** ** Image names

    [downloadAndStoreImage] (route.ts) names an image
    [`${type}_${identifier}_${imageId}.${extension}`]; [getArtistImage]
    and [getAlbumCover] pass the identifiers below.  The library page
    looks an image up by the prefix of its name. *)

Definition imageFileName (type identifier imageId extension : str) : str :=
  type ++ "_" ++ identifier ++ "_" ++ imageId ++ "." ++ extension.

(** [artistName.replace(/[^a-z0-9-_ ]/gi, "_")] *)
Definition artistIdentifier (artistName : str) : str := safeName artistName.

(** [`${artistName}_${albumName}`.replace(/[^a-z0-9-_ ]/gi, "_")] *)
Definition albumIdentifier (artistName albumName : str) : str :=
  safeName (artistName ++ "_" ++ albumName).

(** [artistVariations] of the library page. *)
Definition artistVariations (artist : str) : list str :=
  [ artist;
    replace spacesPattern "_" artist;
    replace spacesPattern "%20" artist;
    safeName artist;
    replace spacesPattern "_" (JS.toLowerCase artist) ].

(** [albumVariations] of the library page. *)
Definition albumVariations (artist album : str) : list str :=
  [ artist ++ "_" ++ album;
    replace spacesPattern "_" artist ++ "_" ++ replace spacesPattern "_" album;
    replace spacesPattern "%20" artist ++ "_"
      ++ replace spacesPattern "%20" album;
    safeName artist ++ "_" ++ safeName album;
    replace spacesPattern "_" (JS.toLowerCase artist) ++ "_"
      ++ replace spacesPattern "_" (JS.toLowerCase album) ].

(** The loop over the variations: the first variation for which
    [imageFiles.find] returns a file decides, and the file is the first
    whose lower-case name starts with the prefix and the variation. *)
Fixpoint findImage (prefix : str) (variations : list str)
    (imageFiles : list str) : option str :=
  match variations with
  | [] => None
  | variation :: rest =>
      match find (fun name =>
                    JS.startsWith (prefix ++ JS.toLowerCase variation)
                      (JS.toLowerCase name))
                 imageFiles with
      | Some img => Some img
      | None => findImage prefix rest imageFiles
      end
  end.

Definition findArtistImage (artist : str) (imageFiles : list str)
  : option str :=
  findImage "artist_" (artistVariations artist) imageFiles.

Definition findAlbumCover (artist album : str) (imageFiles : list str)
  : option str :=
  findImage "album_" (albumVariations artist album) imageFiles.

(** [s.endsWith(suffix)] *)
Definition endsWith (suffix s : str) : bool :=
  JS.startsWith (rev suffix) (rev s).

(** The audio filter of the library page:
    [name.endsWith('.mp3') && !name.includes('/images/')]. *)
Definition isAudio (name : str) : bool :=
  endsWith ".mp3" name && negb (JS.includes name "/images/").

(* ================================================================== *)
(** * Specification vocabulary, continued *)

(** Letters, digits, hyphen and space: the units a file name keeps and
    that do not separate its parts. *)
Definition plainChar (a : ascii) : bool :=
  JS.between 65 90 a || JS.between 97 122 a || JS.isDigit a
  || Ascii.eqb "-" a || Ascii.eqb " " a.

(** The units [safeName] keeps. *)
Definition safeChar (a : ascii) : bool :=
  plainChar a || Ascii.eqb "_" a.

(** Every match of [r] holds the unit [a]. *)
Fixpoint must (a : ascii) (r : regex) : Prop :=
  match r with
  | Chr p => forall x, p x = true -> x = a
  | Seq r1 r2 => must a r1 \/ must a r2
  | Alt r1 r2 => must a r1 /\ must a r2
  | Group _ r1 => must a r1
  | _ => False
  end.

(** A string without white space at either end. *)
Definition Trimmed (s : str) : Prop := JS.trim s = s.

(** The number of requests among events. *)
Definition fetches (evs : list Event) : nat :=
  length (filter (fun e => match e with Fetch _ => true | DateNow => false end)
            evs).

(** The track [c] comes before the track of index [i] in [tracks]. *)
Definition earlier {A} (tracks : list A) (i : nat) (c : A) : Prop :=
  exists j, j < i /\ nth_error tracks j = Some c.

(** Every match of [r] holds the unit [a] and, after it, the unit [b]. *)
Fixpoint must_then (a b : ascii) (r : regex) : Prop :=
  match r with
  | Seq r1 r2 =>
      (must a r1 /\ must b r2) \/ must_then a b r1 \/ must_then a b r2
  | Alt r1 r2 => must_then a b r1 /\ must_then a b r2
  | Group _ r1 => must_then a b r1
  | _ => False
  end.


(** White space only. *)
Definition Blank (w : str) : Prop := forallb JS.isSpace w = true.

(** A non-empty text on one line, without white space at either end. *)
Definition Name (s : str) : Prop :=
  s <> [] /\ Trimmed s /\ forallb JS.dot s = true.

(** Two tracks that differ at most in the genres of their artists and of
    their album. *)
Definition same_but_genres (t t' : SpotifyTrack) : Prop :=
  SpotifyTrack.id t' = SpotifyTrack.id t
  /\ SpotifyTrack.name t' = SpotifyTrack.name t
  /\ map (fun a => (SpotifyArtist.id a, SpotifyArtist.name a))
         (SpotifyTrack.artists t')
     = map (fun a => (SpotifyArtist.id a, SpotifyArtist.name a))
           (SpotifyTrack.artists t)
  /\ SpotifyAlbum.id (SpotifyTrack.album t')
     = SpotifyAlbum.id (SpotifyTrack.album t)
  /\ SpotifyAlbum.name (SpotifyTrack.album t')
     = SpotifyAlbum.name (SpotifyTrack.album t)
  /\ SpotifyAlbum.release_date (SpotifyTrack.album t')
     = SpotifyAlbum.release_date (SpotifyTrack.album t)
  /\ SpotifyAlbum.images (SpotifyTrack.album t')
     = SpotifyAlbum.images (SpotifyTrack.album t)
  /\ SpotifyTrack.duration_ms t' = SpotifyTrack.duration_ms t
  /\ SpotifyTrack.popularity t' = SpotifyTrack.popularity t.

(** Two records that differ at most in their genres. *)
Definition same_record_but_genres (e e' : EnrichedMetadata) : Prop :=
  EnrichedMetadata.title e' = EnrichedMetadata.title e
  /\ EnrichedMetadata.artist e' = EnrichedMetadata.artist e
  /\ EnrichedMetadata.album e' = EnrichedMetadata.album e
  /\ EnrichedMetadata.releaseDate e' = EnrichedMetadata.releaseDate e
  /\ EnrichedMetadata.duration e' = EnrichedMetadata.duration e
  /\ EnrichedMetadata.popularity e' = EnrichedMetadata.popularity e
  /\ EnrichedMetadata.spotifyId e' = EnrichedMetadata.spotifyId e
  /\ EnrichedMetadata.albumCover e' = EnrichedMetadata.albumCover e
  /\ EnrichedMetadata.artistId e' = EnrichedMetadata.artistId e
  /\ EnrichedMetadata.albumId e' = EnrichedMetadata.albumId e.

(** [m] adds at most [n] requests to the log. *)
Definition spends {A} (n : nat) (m : M A) : Prop :=
  forall tr st, exists evs,
    log (snd (m tr st)) = log st ++ evs /\ fetches evs <= n.

(** What holds of the best match once the tracks [seen] are read, with
    the place of the match: no track scores above it, and every track
    before it scores below it. *)
Definition first_best (t : str) (a : option str) (seen : list SpotifyTrack)
    (acc : option BestMatch.t) : Prop :=
  match acc with
  | None => seen = []
  | Some b =>
      exists i,
        nth_error seen i = Some (BestMatch.track b)
        /\ BestMatch.score b = calculateSimilarityScore (BestMatch.track b) t a
        /\ (forall c, In c seen ->
            Num.gt (calculateSimilarityScore c t a) (BestMatch.score b)
            = false)
        /\ (forall c, earlier seen i c ->
            Num.gt (BestMatch.score b) (calculateSimilarityScore c t a)
            = true)
  end.

(** A title or a track name shorter than the longest string. *)
Definition short (s : str) : Prop :=
  (Z.of_nat (length s) < max_string_length)%Z.

(** A unit of a comparison form: a lower-case letter, a digit or an
    underscore. *)
Definition formChar (a : ascii) : bool :=
  JS.between 97 122 a || JS.isDigit a || (JS.code a =? 95).

(** No two spaces side by side; [sep] tells that a space stands before
    [s]. *)
Fixpoint singleSpaced (sep : bool) (s : str) : bool :=
  match s with
  | [] => true
  | a :: s' =>
      if Ascii.eqb " " a then negb sep && singleSpaced true s'
      else singleSpaced false s'
  end.

Module ExSearch.

(** Spotify hands out a token, answers the first search with the status
    503 and rejects every later one. *)
Definition rejectsSecond : Transport :=
  {| respond := fun h r =>
       match r as r0 return option (Response.t (body_of r0)) with
       | SpotifyToken _ _ => Ex.ok200 (TokenData.mk (Some ("tok" : str)) 3600)
       | SpotifySearch _ _ =>
           if existsb (fun e => match e with
                                | Fetch (SpotifySearch _ _) => true
                                | _ => false
                                end) h
           then None
           else Some (Response.mk false 503 None)
       | _ => None
       end;
     clock := fun h => Z.of_nat (length h);
     SPOTIFY_CLIENT_ID := Some ("id" : str);
     SPOTIFY_CLIENT_SECRET := Some ("secret" : str);
     LASTFM_API_KEY := None |}.

End ExSearch.

(** Every track that a search of [tr] answers has a name shorter than
    the longest string. *)
Definition short_names (tr : Transport) : Prop :=
  forall h q token response data items,
    respond tr h (SpotifySearch q token) = Some response ->
    Response.json response = Some data ->
    SearchData.items data = Some items ->
    Forall (fun c => short (SpotifyTrack.name c)) items.

(* ================================================================== *)
(** * organizeLibrary (library/page.tsx) *)

(** The fields of [file.metadata] that the grouping reads. *)
Module Metadata.
Record t : Type := mk {
  artist : option str;
  album : option str
}.
End Metadata.

Module AudioFile.
Record t : Type := mk {
  name : str;
  id : str;
  metadata : option Metadata.t
}.
End AudioFile.
Abbreviation AudioFile := AudioFile.t.

(** [file.metadata?.artist || "Unknown Artist"] *)
Definition artistOf (file : AudioFile) : str :=
  JS.orStr (match AudioFile.metadata file with
            | Some m => Metadata.artist m
            | None => None
            end) "Unknown Artist".

(** [file.metadata?.album || "Unknown Album"] *)
Definition albumOf (file : AudioFile) : str :=
  JS.orStr (match AudioFile.metadata file with
            | Some m => Metadata.album m
            | None => None
            end) "Unknown Album".

(** [`${artist} - ${album}`] *)
Definition albumKey (artist album : str) : str := artist ++ " - " ++ album.

(** A Map from strings to arrays, in the order of insertion:
    [if (!map.has(k)) map.set(k, []); map.get(k).push(file)]. *)
Fixpoint push_to (k : str) (file : AudioFile)
    (m : list (str * list AudioFile)) : list (str * list AudioFile) :=
  match m with
  | [] => [(k, [file])]
  | (k', songs) :: m' =>
      if JS.str_eqb k' k then (k', songs ++ [file]) :: m'
      else (k', songs) :: push_to k file m'
  end.

(** The body of [files.forEach]. *)
Definition organize_step
    (maps : list (str * list AudioFile) * list (str * list AudioFile))
    (file : AudioFile)
  : list (str * list AudioFile) * list (str * list AudioFile) :=
  let artist := artistOf file in
  let album := albumOf file in
  (push_to artist file (fst maps),
   push_to (albumKey artist album) file (snd maps)).

(** The separator [" - "] *)
Definition dashSeparator : regex := seq [ lit " "; lit "-"; lit " " ].

Module Artist.
Record t : Type := mk {
  name : str;
  songs : list AudioFile;
  albums : list str
}.
End Artist.

(** An album of the library; its [coverColor] is drawn at random and
    is left out.  [name] and [artist] are the elements 1 and 0 of the
    key split at [" - "]. *)
Module Album.
Record t : Type := mk {
  name : option str;
  artist : option str;
  songs : list AudioFile
}.
End Album.

Definition toArtist (entry : str * list AudioFile) : Artist.t :=
  let (name, songs) := entry in
  Artist.mk name songs (dedupe (map albumOf songs)).

Definition toAlbum (entry : str * list AudioFile) : Album.t :=
  let (key, songs) := entry in
  let parts := split dashSeparator key in
  Album.mk (nth_error parts 1) (nth_error parts 0) songs.

(** [artistArray] and [albumArray] of [organizeLibrary]. *)
Definition organizeLibrary (files : list AudioFile)
  : list Artist.t * list Album.t :=
  let maps := fold_left organize_step files ([], []) in
  (map toArtist (fst maps), map toAlbum (snd maps)).

(** The songs of [files] whose key is [k], in the order of [files]. *)
Definition songs_of (key : AudioFile -> str) (k : str)
    (files : list AudioFile) : list AudioFile :=
  filter (fun f => JS.str_eqb (key f) k) files.

(** A Map that groups the files [seen] by [key]. *)
Definition groups (key : AudioFile -> str) (seen : list AudioFile)
    (m : list (str * list AudioFile)) : Prop :=
  NoDup (map fst m)
  /\ (forall k songs, In (k, songs) m ->
      songs <> [] /\ songs = songs_of key k seen)
  /\ (forall f, In f seen -> In (key f) (map fst m)).

(** The key of the album of a file. *)
Definition albumKeyOf (file : AudioFile) : str :=
  albumKey (artistOf file) (albumOf file).

Module ExLibrary.

Definition flowState (name title : str) : AudioFile :=
  AudioFile.mk name title
    (Some (Metadata.mk (Some ("Tash Sultana" : str))
             (Some ("Flow State" : str)))).

Definition bigSmoke : AudioFile :=
  flowState "Tash_Sultana_Flow_State_Big_Smoke_1.mp3" "Big Smoke".

Definition salvation : AudioFile :=
  flowState "Tash_Sultana_Flow_State_Salvation_2.mp3" "Salvation".

(** A file without metadata. *)
Definition untitled : AudioFile := AudioFile.mk "x.mp3" "x" None.

End ExLibrary.

(** [l[i]] stands at its first occurrence, [arr.indexOf(g) === i]: no
    element before it is equal to it. *)
Definition firstAt (l : list str) (i : nat) : bool :=
  match nth_error l i with
  | Some g => negb (existsb (JS.str_eqb g) (firstn i l))
  | None => false
  end.

(** The elements of [l] that stand at their first occurrence, in the
    order of [l]. *)
Definition firstOccurrences (l : list str) : list str :=
  flat_map (fun i =>
              match nth_error l i with
              | Some g => if firstAt l i then [g] else []
              | None => []
              end)
    (List.seq 0 (length l)).

(* ================================================================== *)
(** * Texts and parentheticals *)

Definition isParen (a : ascii) : bool :=
  Ascii.eqb "(" a || Ascii.eqb ")" a.

(** No parenthesis in a text. *)
Definition parenFree (s : str) : Prop :=
  forallb (fun a => negb (isParen a)) s = true.

(** [r] has no anchor and never matches a unit of the class [q]. *)
Fixpoint avoids (q : ascii -> bool) (r : regex) : Prop :=
  match r with
  | Eps => True
  | Chr p | Star _ p => forall a, q a = true -> p a = false
  | Seq r1 r2 | Alt r1 r2 => avoids q r1 /\ avoids q r2
  | Opt r1 | Group _ r1 => avoids q r1
  | Bol | Eol => False
  end.

(** [r] matches units that are no parentheses and then one closing
    parenthesis. *)
Fixpoint closes (r : regex) : Prop :=
  match r with
  | Seq r1 r2 => avoids isParen r1 /\ closes r2
  | Chr p => forall a, p a = Ascii.eqb ")" a
  | _ => False
  end.

(** A title written as texts and parentheticals,
    [t1 (b1) t2 (b2) ... last]: each item is a text and the body of the
    parenthetical that follows it. *)
Fixpoint render (items : list (str * str)) (last : str) : str :=
  match items with
  | [] => last
  | (t, b) :: rest => t ++ "("%char :: b ++ ")"%char :: render rest last
  end.

(** Its parentheses are not nested: no text and no body holds one. *)
Definition Flat (items : list (str * str)) (last : str) : Prop :=
  Forall (fun it => parenFree (fst it) /\ parenFree (snd it)) items
  /\ parenFree last.

(** The title without the parentheticals whose body is [noise]: each is
    dropped with the white space before it, and nothing else is. *)
Fixpoint stripNoise (noise : str -> bool) (items : list (str * str))
    (last : str) : str :=
  match items with
  | [] => last
  | (t, b) :: rest =>
      if noise b then JS.trimEnd t ++ stripNoise noise rest last
      else t ++ "("%char :: b ++ ")"%char :: stripNoise noise rest last
  end.

(** The same, as texts and parentheticals: the text before a dropped
    parenthetical, trimmed, is joined to the text after it.  [acc] is
    the text joined so far. *)
Fixpoint passItems (noise : str -> bool) (acc : str)
    (items : list (str * str)) (last : str) : list (str * str) * str :=
  match items with
  | [] => ([], acc ++ last)
  | (t, b) :: rest =>
      if noise b then passItems noise (acc ++ JS.trimEnd t) rest last
      else ((acc ++ t, b) :: fst (passItems noise [] rest last),
            snd (passItems noise [] rest last))
  end.

(** The pattern [r] matches the parenthetical [(body)] as a whole. *)
Definition matchesParen (r : regex) (body : str) : bool :=
  match match_len 0 r ("("%char :: body ++ [")"%char]) with
  | Some n => Nat.eqb n (length body + 2)
  | None => false
  end.

(** The classes of [r] do not tell a unit from its image under [f]:
    with [JS.lowerChar], the pattern is case-insensitive. *)
Fixpoint insensitive (f : ascii -> ascii) (r : regex) : Prop :=
  match r with
  | Chr p | Star _ p => forall a, p (f a) = p a
  | Seq r1 r2 | Alt r1 r2 => insensitive f r1 /\ insensitive f r2
  | Opt r1 | Group _ r1 => insensitive f r1
  | Eps | Bol | Eol => True
  end.

(** A pattern [\s*\( ... \)] whose inside matches no parenthesis. *)
Definition parenthetical (P : regex) : Prop :=
  exists r, P = Seq sp (Seq (lit "(") r) /\ closes r.

(** The patterns of [cleanTitle], in the order of its replacements. *)
Definition noisePatterns : list regex :=
  [ officialMediaPattern; lyricsPattern; audioPattern; officialPattern;
    musicVideoPattern ].

(** The body of a noise qualifier: one of the patterns matches the
    parenthetical. *)
Definition noiseBody (body : str) : bool :=
  existsb (fun r => matchesParen r body) noisePatterns.

(* ================================================================== *)
(** * Verification *)

Local Open Scope m_scope.

(** ** Substrings *)

Lemma startsWith_spec (needle s : str) :
  JS.startsWith needle s = true <-> exists q, s = needle ++ q.
Proof.
  revert s; induction needle as [|a n IH]; intros s; simpl.
  - split; [intros _; now exists s | reflexivity].
  - destruct s as [|b s]; simpl.
    + split; [discriminate | intros [q Hq]; discriminate].
    + rewrite andb_true_iff, Ascii.eqb_eq, IH. split.
      * intros [-> [q ->]]. now exists q.
      * intros [q Hq]. injection Hq as -> ->. split; [reflexivity | now exists q].
Qed.

Lemma includes_spec (s needle : str) :
  JS.includes s needle = true <-> Substring needle s.
Proof.
  unfold Substring. induction s as [|a s IH].
  - simpl. rewrite orb_false_r, startsWith_spec. split.
    + intros [q Hq]. exists [], q. exact Hq.
    + intros [p [q Hq]]. symmetry in Hq.
      apply app_eq_nil in Hq as [-> Hq]. apply app_eq_nil in Hq as [-> ->].
      now exists [].
  - cbn [JS.includes]. rewrite orb_true_iff, startsWith_spec, IH. split.
    + intros [[q Hq] | [p [q Hq]]].
      * exists [], q. exact Hq.
      * exists (a :: p), q. simpl. now rewrite Hq.
    + intros [[|b p] [q Hq]].
      * left. now exists q.
      * right. injection Hq as -> ->. now exists p, q.
Qed.

Lemma Agree_titleSimilarity e b :
  titleSimilarity e b = true
  <-> Agree (EnrichedMetadata.title e) (BasicMetadata.title b).
Proof.
  unfold titleSimilarity, Agree.
  now rewrite orb_true_iff, !includes_spec.
Qed.

Lemma Agree_artistSimilarity e b :
  artistSimilarity e b = true
  <-> Agree (EnrichedMetadata.artist e) (BasicMetadata.artist b).
Proof.
  unfold artistSimilarity, Agree.
  now rewrite orb_true_iff, !includes_spec.
Qed.

Lemma truthy_orStr_id (s : str) : JS.orStr (Some s) "" = s.
Proof. destruct s; reflexivity. Qed.

(** ** The effect monad *)

Lemma bind_Ret {A B} (m : M A) (f : A -> M B) tr st a st' :
  m tr st = (Ret a, st') -> bind m f tr st = f a tr st'.
Proof. unfold bind. now intros ->. Qed.

Lemma bind_Throw {A B} (m : M A) (f : A -> M B) tr st e st' :
  m tr st = (Throw e, st') -> bind m f tr st = (Throw e, st').
Proof. unfold bind. now intros ->. Qed.

Lemma try_catch_Ret {A} (m : M A) h tr st a st' :
  m tr st = (Ret a, st') -> try_catch m h tr st = (Ret a, st').
Proof. unfold try_catch. now intros ->. Qed.

Lemma try_catch_Throw {A} (m : M A) h tr st e st' :
  m tr st = (Throw e, st') -> try_catch m h tr st = h e tr st'.
Proof. unfold try_catch. now intros ->. Qed.

(** A try block whose catch clause returns cannot throw. *)
Lemma total_try_catch {A} (m : M A) (h : Error -> M A) :
  (forall e, total (h e)) -> total (try_catch m h).
Proof.
  intros Hh tr st. unfold try_catch.
  destruct (m tr st) as [[a|e] st'].
  - now exists a, st'.
  - apply Hh.
Qed.

Lemma total_ret {A} (a : A) : total (ret a).
Proof. intros tr st. now exists a, st. Qed.

Lemma total_bind {A B} (m : M A) (f : A -> M B) :
  total m -> (forall a, total (f a)) -> total (bind m f).
Proof.
  intros Hm Hf tr st. destruct (Hm tr st) as [a [st' E]].
  rewrite (bind_Ret _ _ _ _ _ _ E). apply Hf.
Qed.

Create HintDb total.
#[local] Hint Resolve total_ret total_bind total_try_catch : total.

Lemma total_trySpotify t a al : total (trySpotify t a al).
Proof. unfold trySpotify. auto with total. Qed.

Lemma total_tryLastFm t a al : total (tryLastFm t a al).
Proof. unfold tryLastFm. auto with total. Qed.

Lemma total_tryMusicBrainz t a al : total (tryMusicBrainz t a al).
Proof. unfold tryMusicBrainz. auto with total. Qed.

Lemma total_enrichMetadataWithAPIs t a al :
  total (enrichMetadataWithAPIs t a al).
Proof.
  unfold enrichMetadataWithAPIs.
  apply total_bind; [apply total_trySpotify|]. intros [m|]; [apply total_ret|].
  apply total_bind; [apply total_tryLastFm|]. intros [m|]; [apply total_ret|].
  apply total_bind; [apply total_tryMusicBrainz|].
  intros [m|]; apply total_ret.
Qed.

(** ** What reaches the log *)

Lemma emits_ret {A} P (a : A) : emits P (ret a).
Proof. intros tr st. exists []. simpl. now rewrite app_nil_r. Qed.

Lemma emits_throw {A} P e : emits P (@throw A e).
Proof. intros tr st. exists []. simpl. now rewrite app_nil_r. Qed.

Lemma emits_get_this P : emits P get_this.
Proof. intros tr st. exists []. simpl. now rewrite app_nil_r. Qed.

Lemma emits_set_this P e : emits P (set_this e).
Proof. intros tr st. exists []. simpl. now rewrite app_nil_r. Qed.

Lemma emits_getenv P v : emits P (getenv v).
Proof. intros tr st. exists []. simpl. now rewrite app_nil_r. Qed.

Lemma emits_now (P : Event -> Prop) : P DateNow -> emits P now.
Proof. intros H tr st. exists [DateNow]. simpl. auto. Qed.

Lemma emits_fetch (P : Event -> Prop) r : P (Fetch r) -> emits P (fetch r).
Proof.
  intros H tr st. exists [Fetch r]. unfold fetch.
  destruct (respond tr (log st) r); simpl; auto.
Qed.

Lemma emits_json {A} P (r : Response.t A) : emits P (json r).
Proof. unfold json. destruct (Response.json r); [apply emits_ret | apply emits_throw]. Qed.

Lemma emits_bind {A B} P (m : M A) (f : A -> M B) :
  emits P m -> (forall a, emits P (f a)) -> emits P (bind m f).
Proof.
  intros Hm Hf tr st. unfold bind.
  destruct (Hm tr st) as [evs [E HP]].
  destruct (m tr st) as [[a|e] st']; simpl in E.
  - destruct (Hf a tr st') as [evs' [E' HP']].
    exists (evs ++ evs'). rewrite E', E, app_assoc. split; [reflexivity|].
    apply Forall_app; auto.
  - exists evs. auto.
Qed.

Lemma emits_try_catch {A} P (m : M A) (h : Error -> M A) :
  emits P m -> (forall e, emits P (h e)) -> emits P (try_catch m h).
Proof.
  intros Hm Hh tr st. unfold try_catch.
  destruct (Hm tr st) as [evs [E HP]].
  destruct (m tr st) as [[a|e] st']; simpl in E.
  - exists evs. auto.
  - destruct (Hh e tr st') as [evs' [E' HP']].
    exists (evs ++ evs'). rewrite E', E, app_assoc. split; [reflexivity|].
    apply Forall_app; auto.
Qed.

Ltac emits_step :=
  first
    [ apply emits_ret | apply emits_throw | apply emits_get_this
    | apply emits_set_this | apply emits_getenv | apply emits_json
    | apply emits_now; exact I | apply emits_fetch; exact I
    | apply emits_bind; [|intros ?] | apply emits_try_catch; [|intros ?] ].

Ltac emits_auto :=
  repeat first
    [ emits_step
    | match goal with
      | |- emits _ (match ?x with _ => _ end) => destruct x
      | |- emits _ (if ?x then _ else _) => destruct x
      end ].

Lemma emits_getAccessToken : emits spotify_event getAccessToken.
Proof. unfold getAccessToken, refreshAccessToken, requestAccessToken. emits_auto. Qed.

Lemma emits_enrichTrackData track : emits spotify_event (enrichTrackData track).
Proof.
  unfold enrichTrackData, enrichArtist, enrichAlbum.
  apply emits_try_catch; [|intros; apply emits_ret].
  apply emits_bind; [apply emits_getAccessToken|]. intros token.
  emits_auto.
Qed.

Lemma emits_searchLoop token t a qs :
  emits spotify_event (searchLoop token t a qs).
Proof.
  induction qs as [|q qs IH]; cbn [searchLoop]; [apply emits_ret|].
  apply emits_bind; [apply (emits_fetch _ (SpotifySearch q token) I)|].
  intros response.
  destruct (negb (Response.ok response)); [exact IH|].
  apply emits_bind; [apply emits_json|]. intros data.
  destruct (SearchData.items data) as [[|i items]|]; try exact IH.
  destruct (findBestMatch _ _ _) as [b|]; try exact IH.
  destruct (Num.gt _ _); try exact IH.
  apply emits_bind; [apply emits_enrichTrackData | intros; apply emits_ret].
Qed.

Lemma emits_searchSpotifyTrack q t a :
  emits spotify_event (searchSpotifyTrack q t a).
Proof.
  unfold searchSpotifyTrack.
  apply emits_try_catch; [|intros; apply emits_ret].
  apply emits_bind; [apply emits_getAccessToken|]. intros token.
  apply emits_searchLoop.
Qed.

Lemma emits_enrichMetadata t a al :
  emits spotify_event (enrichMetadata t a al).
Proof.
  unfold enrichMetadata.
  apply emits_try_catch; [|intros; apply emits_ret].
  apply emits_bind; [apply emits_searchSpotifyTrack|].
  intros [tr|]; apply emits_ret.
Qed.

Lemma emits_trySpotify t a al : emits spotify_event (trySpotify t a al).
Proof.
  unfold trySpotify, newMusicMetadataEnricher.
  apply emits_try_catch; [|intros; apply emits_ret].
  apply emits_bind; [emits_auto|]. intros _. apply emits_enrichMetadata.
Qed.

(** ** Providers that are down *)

Lemma failed_token_throws tr st id secret :
  failed _ (respond tr (log st) (SpotifyToken id secret)) ->
  this st = Enricher.mk id secret (Enricher.accessToken (this st))
                        (Enricher.tokenExpiry (this st)) ->
  exists e st', requestAccessToken tr st = (Throw e, st').
Proof.
  intros F Hthis. unfold requestAccessToken, bind, get_this, fetch.
  rewrite Hthis. cbn [Enricher.spotifyClientId Enricher.spotifyClientSecret].
  destruct (respond tr (log st) (SpotifyToken id secret))
    as [[ok status [data|]]|]; [| cbn; eauto | eauto].
  cbn in F. destruct F as [[F _]|F]; [discriminate|].
  unfold json, ret. cbn [Response.json].
  destruct (TokenData.access_token data) as [tok|]; cbn in F |- *;
    [rewrite F|]; unfold throw; eauto.
Qed.

Lemma trySpotify_token_down tr t a al st :
  (forall h id secret, failed _ (respond tr h (SpotifyToken id secret))) ->
  exists st1, trySpotify t a al tr st = (Ret None, st1).
Proof.
  intros F.
  unfold trySpotify, newMusicMetadataEnricher, enrichMetadata,
    searchSpotifyTrack, getAccessToken, refreshAccessToken.
  unfold try_catch at 1 2 3, bind at 1 2 3 4 5 6 7, getenv, set_this, get_this.
  cbn [this Enricher.accessToken].
  match goal with
  | |- context [try_catch requestAccessToken ?h tr ?s] =>
      destruct (failed_token_throws tr s _ _ (F _ _ _) eq_refl) as [e [st' E]];
      rewrite (try_catch_Throw _ h _ _ _ _ E)
  end.
  cbn. eauto.
Qed.

(** One iteration of the search loop, by cases on the answer. *)
Lemma searchLoop_cons token t a q rest tr st :
  searchLoop token t a (q :: rest) tr st =
  let st1 := after_fetch st (SpotifySearch q token) in
  match respond tr (log st) (SpotifySearch q token) with
  | None => (Throw FetchError, st1)
  | Some response =>
      if negb (Response.ok response) then searchLoop token t a rest tr st1
      else
        match Response.json response with
        | None => (Throw SyntaxError, st1)
        | Some data =>
            match SearchData.items data with
            | Some ((_ :: _) as items) =>
                match findBestMatch items t (Some a) with
                | Some bestMatch =>
                    if Num.gt (BestMatch.score bestMatch) c07 then
                      match enrichTrackData (BestMatch.track bestMatch) tr st1
                      with
                      | (Ret enrichedTrack, st2) => (Ret (Some enrichedTrack), st2)
                      | (Throw e, st2) => (Throw e, st2)
                      end
                    else searchLoop token t a rest tr st1
                | None => searchLoop token t a rest tr st1
                end
            | _ => searchLoop token t a rest tr st1
            end
        end
  end.
Proof.
  cbn [searchLoop]. unfold bind at 1, fetch, after_fetch.
  destruct (respond tr (log st) (SpotifySearch q token))
    as [[ok status body]|]; [|reflexivity].
  cbn [Response.ok Response.json]. destruct (negb ok); [reflexivity|].
  unfold bind at 1, json. cbn [Response.json].
  destruct body as [data|]; [|reflexivity]. unfold ret at 1.
  destruct (SearchData.items data) as [[|i items]|]; try reflexivity.
  destruct (findBestMatch (i :: items) t (Some a)) as [b|]; [|reflexivity].
  destruct (Num.gt (BestMatch.score b) c07); [|reflexivity].
  unfold bind.
  destruct (enrichTrackData (BestMatch.track b) tr _) as [[tk|e] s2];
    reflexivity.
Qed.

Lemma searchLoop_down tr token t a qs st :
  (forall h q tok, failed _ (respond tr h (SpotifySearch q tok))) ->
  exists st', searchLoop token t a qs tr st = (Ret None, st')
              \/ exists e, searchLoop token t a qs tr st = (Throw e, st').
Proof.
  intros F. revert st. induction qs as [|q qs IH]; intros st.
  - exists st. now left.
  - rewrite searchLoop_cons. cbv zeta.
    pose proof (F (log st) q token) as Fq.
    destruct (respond tr (log st) (SpotifySearch q token))
      as [[ok status body]|]; [|eauto].
    cbn in Fq. cbn [Response.ok Response.json]. destruct Fq as [[_ Fq]|Fq].
    + rewrite Fq. cbn [negb]. apply IH.
    + destruct (negb ok); [apply IH|].
      destruct body as [data|]; [|eauto].
      cbn in Fq.
      destruct (SearchData.items data) as [[|i items]|]; cbn in Fq;
        try discriminate; apply IH.
Qed.

Lemma trySpotify_search_down tr t a al st :
  (forall h q tok, failed _ (respond tr h (SpotifySearch q tok))) ->
  exists st1, trySpotify t a al tr st = (Ret None, st1).
Proof.
  intros F.
  unfold trySpotify, newMusicMetadataEnricher, enrichMetadata,
    searchSpotifyTrack.
  unfold try_catch at 1 2 3, bind at 1 2 3 4 5, getenv, set_this.
  match goal with
  | |- context [getAccessToken tr ?s] =>
      destruct (getAccessToken tr s) as [[token|e] s1]
  end; [|cbn; eauto].
  destruct (searchLoop_down tr token t (JS.orStr (Some a) "Unknown Artist")
              (buildSearchQueries t (JS.orStr (Some a) "Unknown Artist")) s1 F)
    as [st' [E|[e E]]]; rewrite E; cbn; eauto.
Qed.

Lemma trySpotify_down tr t a al st :
  down tr Spotify -> exists st1, trySpotify t a al tr st = (Ret None, st1).
Proof.
  intros [F|F];
    [now apply trySpotify_token_down | now apply trySpotify_search_down].
Qed.

Lemma tryLastFm_down tr t a al st :
  down tr LastFm -> exists st1, tryLastFm t a al tr st = (Ret None, st1).
Proof.
  intros F. unfold tryLastFm, LastFm_searchTrack.
  unfold try_catch at 1 2, bind at 1 2 3, getenv, fetch.
  match goal with
  | |- context [respond tr ?h ?r] => pose proof (F h t (known (Some a) "Unknown Artist") (JS.orStr (LASTFM_API_KEY tr) "")) as Fq
  end.
  destruct (respond tr (log st) _) as [[ok status body]|]; [|cbn; eauto].
  cbn in Fq. cbn [Response.ok]. destruct Fq as [[_ Fq]|Fq].
  - rewrite Fq. cbn. eauto.
  - destruct (negb ok); [cbn; eauto|].
    unfold json, bind. cbn [Response.json].
    destruct body as [data|]; [|cbn; eauto].
    cbn in Fq |- *.
    destruct (LastFmSearchData.track data) as [[|i items]|]; cbn in Fq;
      try discriminate; cbn; eauto.
Qed.

Lemma tryMusicBrainz_down tr t a al st :
  down tr MusicBrainz ->
  exists st1, tryMusicBrainz t a al tr st = (Ret None, st1).
Proof.
  intros F. unfold tryMusicBrainz, MusicBrainz_searchRecording.
  unfold try_catch at 1 2, bind at 1 2, fetch.
  pose proof (F (log st) t (known (Some a) "Unknown Artist")) as Fq.
  destruct (respond tr (log st) _) as [[ok status body]|]; [|cbn; eauto].
  cbn in Fq. cbn [Response.ok]. destruct Fq as [[_ Fq]|Fq].
  - rewrite Fq. cbn. eauto.
  - destruct (negb ok); [cbn; eauto|].
    unfold json, bind. cbn [Response.json].
    destruct body as [data|]; [|cbn; eauto].
    cbn in Fq |- *.
    destruct (MBSearchData.recordings data) as [[|i items]|]; cbn in Fq;
      try discriminate; cbn; eauto.
Qed.

(** C9. When the primary provider yields an accepted candidate, the
    orchestrator returns that record in the state the Spotify stage left:
    every event added to the log is a Spotify request or a clock read, so
    no request went to Last.fm or MusicBrainz. *)
Theorem primary_accept_short_circuits tr st title artist album st0 metadata st1 :
  newMusicMetadataEnricher tr st = (Ret tt, st0) ->
  enrichMetadata title (Some artist) (Some album) tr st0
    = (Ret (Some metadata), st1) ->
  enrichMetadataWithAPIs title artist album tr st = (Ret (Some metadata), st1)
  /\ exists evs, log st1 = log st ++ evs /\ Forall spotify_event evs.
Proof.
  intros Hnew Henrich.
  assert (E : trySpotify title artist album tr st = (Ret (Some metadata), st1)).
  { unfold trySpotify. apply try_catch_Ret.
    rewrite (bind_Ret _ _ _ _ _ _ Hnew). exact Henrich. }
  split.
  - unfold enrichMetadataWithAPIs. now rewrite (bind_Ret _ _ _ _ _ _ E).
  - destruct (emits_trySpotify title artist album tr st) as [evs [L F]].
    rewrite E in L. now exists evs.
Qed.

Lemma primary_accept_short_circuits_witness :
  enrichMetadataWithAPIs "Big Smoke" "Tash Sultana" "Unknown Album"
      (Ex.spotifyWith [Ex.dreams; Ex.bigSmoke]) Ex.st0
    = (Ret (Some (toEnriched
                    (set_album_genres
                       (set_artist0_genres Ex.bigSmoke
                          (Some [("indie" : str); ("psych" : str)]))
                       (Some [("indie" : str)])))),
       snd (trySpotify "Big Smoke" "Tash Sultana" "Unknown Album"
              (Ex.spotifyWith [Ex.dreams; Ex.bigSmoke]) Ex.st0))
  /\ exists evs,
       log (snd (trySpotify "Big Smoke" "Tash Sultana" "Unknown Album"
                   (Ex.spotifyWith [Ex.dreams; Ex.bigSmoke]) Ex.st0))
       = log Ex.st0 ++ evs /\ Forall spotify_event evs.
Proof.
  apply (primary_accept_short_circuits
           (Ex.spotifyWith [Ex.dreams; Ex.bigSmoke]) Ex.st0
           "Big Smoke" "Tash Sultana" "Unknown Album"
           (snd (newMusicMetadataEnricher
                   (Ex.spotifyWith [Ex.dreams; Ex.bigSmoke]) Ex.st0))).
  - reflexivity.
  - vm_compute. reflexivity.
Defined.

(** C10. The result of the primary provider does not depend on the album
    hint: two calls of [enrichMetadata] that differ in the album alone
    have the same outcome and leave the same state, the log of the
    requests issued included; the search string they differ in is a
    parameter [searchSpotifyTrack] never reads. *)
Theorem album_hint_is_ignored title artist album1 album2 tr st :
  enrichMetadata title artist album1 tr st
  = enrichMetadata title artist album2 tr st
  /\ forall query1 query2 originalArtist,
       searchSpotifyTrack query1 title originalArtist
       = searchSpotifyTrack query2 title originalArtist.
Proof. split; reflexivity. Qed.

(** C2. After a candidate is accepted, POST checks the case-insensitive
    substring agreement of its title with the guess's title and of its
    artist with the guess's artist.  When both hold the record is kept as
    it is; when either fails the record is not discarded: it keeps the
    guess's title, artist and album and takes the release date, duration,
    genres, popularity, provider ids and cover from the candidate (a
    duration or popularity that is NaN or 0 is written 0). *)
Theorem hybrid_on_disagreement tr st basic enriched st' :
  enrichMetadataWithAPIs (BasicMetadata.title basic)
    (BasicMetadata.artist basic) (BasicMetadata.album basic) tr st
    = (Ret (Some enriched), st') ->
  exists final,
    POST_enrichment basic tr st = (Ret (Some final), st')
    /\ (Agree (EnrichedMetadata.title enriched) (BasicMetadata.title basic)
        /\ Agree (EnrichedMetadata.artist enriched) (BasicMetadata.artist basic)
        -> final = enriched)
    /\ (~ (Agree (EnrichedMetadata.title enriched) (BasicMetadata.title basic)
           /\ Agree (EnrichedMetadata.artist enriched)
                (BasicMetadata.artist basic))
        -> EnrichedMetadata.title final = BasicMetadata.title basic
           /\ EnrichedMetadata.artist final = BasicMetadata.artist basic
           /\ EnrichedMetadata.album final = BasicMetadata.album basic
           /\ EnrichedMetadata.releaseDate final
              = EnrichedMetadata.releaseDate enriched
           /\ EnrichedMetadata.duration final
              = Num.or_int (EnrichedMetadata.duration enriched) 0
           /\ EnrichedMetadata.genres final = EnrichedMetadata.genres enriched
           /\ EnrichedMetadata.popularity final
              = Num.or_int (EnrichedMetadata.popularity enriched) 0
           /\ EnrichedMetadata.spotifyId final
              = EnrichedMetadata.spotifyId enriched
           /\ EnrichedMetadata.albumCover final
              = EnrichedMetadata.albumCover enriched
           /\ EnrichedMetadata.artistId final
              = EnrichedMetadata.artistId enriched
           /\ EnrichedMetadata.albumId final
              = EnrichedMetadata.albumId enriched).
Proof.
  intros E. exists (validateEnriched enriched basic). split; [|split].
  - unfold POST_enrichment. apply try_catch_Ret.
    now rewrite (bind_Ret _ _ _ _ _ _ E).
  - intros [Ht Ha]. unfold validateEnriched.
    apply Agree_titleSimilarity in Ht. apply Agree_artistSimilarity in Ha.
    now rewrite Ht, Ha.
  - intros N. unfold validateEnriched.
    destruct (titleSimilarity enriched basic) eqn:Ht;
      destruct (artistSimilarity enriched basic) eqn:Ha; cbn [andb];
      try (destruct N; split;
           [now apply Agree_titleSimilarity | now apply Agree_artistSimilarity]);
      unfold hybridMetadata;
      cbn [EnrichedMetadata.title EnrichedMetadata.artist
             EnrichedMetadata.album EnrichedMetadata.releaseDate
             EnrichedMetadata.duration EnrichedMetadata.genres
             EnrichedMetadata.popularity EnrichedMetadata.spotifyId
             EnrichedMetadata.albumCover EnrichedMetadata.artistId
             EnrichedMetadata.albumId];
      rewrite truthy_orStr_id; tauto.
Qed.

Lemma hybrid_on_disagreement_witness :
  exists final,
    POST_enrichment Ex.guess Ex.lastfmOnly Ex.st0
    = (Ret (Some final),
       snd (enrichMetadataWithAPIs "Big Smoke" "Tash Sultana" "Unknown Album"
              Ex.lastfmOnly Ex.st0))
    /\ EnrichedMetadata.title final = "Big Smoke"
    /\ EnrichedMetadata.artist final = "Tash Sultana"
    /\ EnrichedMetadata.album final = "Unknown Album"
    /\ EnrichedMetadata.genres final = [("synthwave" : str)]
    /\ EnrichedMetadata.duration final = Num.Int 215000.
Proof.
  destruct (hybrid_on_disagreement Ex.lastfmOnly Ex.st0 Ex.guess
              (fromLastFm Ex.dreamsInfo "Big Smoke" "Tash Sultana"
                 "Unknown Album")
              (snd (enrichMetadataWithAPIs "Big Smoke" "Tash Sultana"
                      "Unknown Album" Ex.lastfmOnly Ex.st0)))
    as [final [Hrun [_ Hhybrid]]].
  - vm_compute. reflexivity.
  - exists final. split; [exact Hrun|].
    assert (N : ~ (Agree (EnrichedMetadata.title
                            (fromLastFm Ex.dreamsInfo "Big Smoke"
                               "Tash Sultana" "Unknown Album"))
                         (BasicMetadata.title Ex.guess)
                   /\ Agree (EnrichedMetadata.artist
                               (fromLastFm Ex.dreamsInfo "Big Smoke"
                                  "Tash Sultana" "Unknown Album"))
                            (BasicMetadata.artist Ex.guess))).
    { intros [Ht _]. apply Agree_titleSimilarity in Ht. vm_compute in Ht.
      discriminate. }
    destruct (Hhybrid N) as (H1 & H2 & H3 & _ & H5 & H6 & _).
    rewrite H1, H2, H3, H5, H6. repeat split.
Defined.

(** ** The order of binary64 numbers *)

Lemma SFltb_trans x y z :
  SFltb x y = true -> SFltb y z = true -> SFltb x z = true.
Proof.
  unfold SFltb, SFcompare.
  destruct x as [sx|sx| |sx mx ex], y as [sy|sy| |sy my ey],
    z as [sz|sz| |sz mz ez];
    try discriminate; try (destruct sx, sy, sz; simpl; congruence);
    try (destruct sx, sy; simpl; congruence);
    try (destruct sy, sz; simpl; congruence);
    try (destruct sx, sz; simpl; congruence).
  change (Pos.compare_cont Eq mx my) with (Pos.compare mx my).
  change (Pos.compare_cont Eq my mz) with (Pos.compare my mz).
  change (Pos.compare_cont Eq mx mz) with (Pos.compare mx mz).
  destruct sx, sy, sz; try congruence;
    destruct (Z.compare_spec ex ey), (Z.compare_spec ey ez),
      (Z.compare_spec ex ez);
    try congruence; try lia; subst;
    destruct (Pos.compare_spec mx my), (Pos.compare_spec my mz),
      (Pos.compare_spec mx mz);
    simpl; try congruence; try lia.
Qed.

Lemma SFltb_irrefl x : SFltb x x = false.
Proof.
  unfold SFltb, SFcompare.
  destruct x as [s|s| |s m e]; try reflexivity; destruct s; try reflexivity;
    rewrite Z.compare_refl;
    change (Pos.compare_cont Eq m m) with (Pos.compare m m);
    now rewrite Pos.compare_refl.
Qed.

Lemma gt_irrefl x : Num.gt x x = false.
Proof. apply SFltb_irrefl. Qed.

(** A number above [y] that is not above [x] puts [x] above [y]'s
    every lower bound: nothing below or at [y] exceeds [x]. *)
Lemma gt_false_trans x y c :
  Num.gt x y = true -> Num.gt c y = false -> Num.gt c x = false.
Proof.
  unfold Num.gt. intros Hxy Hcy.
  destruct (SFltb x c) eqn:Hxc; [|reflexivity].
  now rewrite (SFltb_trans y x c Hxy Hxc) in Hcy.
Qed.

(** ** [findBestMatch] *)

Lemma findBestMatch_step_inv t a seen acc track :
  best_of t a seen acc ->
  best_of t a (seen ++ [track]) (findBestMatch_step t a acc track).
Proof.
  unfold findBestMatch_step. destruct acc as [b|]; cbn [best_of].
  - intros (Hin & Hs & Hall).
    destruct (Num.gt (calculateSimilarityScore track t a) (BestMatch.score b))
      eqn:G; cbn [best_of BestMatch.track BestMatch.score].
    + split; [apply in_or_app; right; now left|]. split; [reflexivity|].
      apply Forall_app. split.
      * eapply Forall_impl; [|exact Hall]. cbv beta. intros c Hc.
        eapply gt_false_trans; eassumption.
      * constructor; [apply gt_irrefl | constructor].
    + split; [apply in_or_app; now left|]. split; [exact Hs|].
      apply Forall_app. split; [exact Hall|]. constructor; [exact G|constructor].
  - intros ->. cbn [best_of BestMatch.track BestMatch.score app].
    split; [now left|]. split; [reflexivity|].
    constructor; [apply gt_irrefl | constructor].
Qed.

Lemma fold_findBestMatch_inv t a tracks seen acc :
  best_of t a seen acc ->
  best_of t a (seen ++ tracks)
    (fold_left (findBestMatch_step t a) tracks acc).
Proof.
  revert seen acc. induction tracks as [|x tracks IH]; intros seen acc H.
  - now rewrite app_nil_r.
  - cbn [fold_left].
    replace (seen ++ x :: tracks) with ((seen ++ [x]) ++ tracks)
      by now rewrite <- app_assoc.
    apply IH. now apply findBestMatch_step_inv.
Qed.

(** Every candidate is scored, and the best match is one that none
    exceeds. *)
Lemma findBestMatch_spec tracks t a :
  best_of t a tracks (findBestMatch tracks t a).
Proof.
  unfold findBestMatch.
  exact (fold_findBestMatch_inv t a tracks [] None eq_refl).
Qed.

Lemma findBestMatch_nonempty tracks t a :
  tracks <> [] -> exists b, findBestMatch tracks t a = Some b.
Proof.
  intros Hne. pose proof (findBestMatch_spec tracks t a) as H.
  destruct (findBestMatch tracks t a) as [b|]; [now exists b|].
  cbn in H. contradiction.
Qed.

(** ** The Spotify search *)

Lemma total_enrichTrackData track : total (enrichTrackData track).
Proof. unfold enrichTrackData. auto with total. Qed.

(** C3. At the primary provider, the best candidate of a search answer is
    usable if and only if its score is strictly above 0.7: when it is,
    its details are fetched with [enrichTrackData] and the enriched track
    is returned; when it is not, and in particular when the score is
    exactly 0.7, the loop goes on to the next query and the candidate is
    not accepted. *)
Theorem spotify_threshold tr st token title artist q rest
    response data items bestMatch :
  respond tr (log st) (SpotifySearch q token) = Some response ->
  Response.ok response = true ->
  Response.json response = Some data ->
  SearchData.items data = Some items ->
  items <> [] ->
  findBestMatch items title (Some artist) = Some bestMatch ->
  let st1 := after_fetch st (SpotifySearch q token) in
  (Num.gt (BestMatch.score bestMatch) c07 = true ->
   exists enrichedTrack st2,
     enrichTrackData (BestMatch.track bestMatch) tr st1
     = (Ret enrichedTrack, st2)
     /\ searchLoop token title artist (q :: rest) tr st
        = (Ret (Some enrichedTrack), st2))
  /\ (Num.gt (BestMatch.score bestMatch) c07 = false ->
      searchLoop token title artist (q :: rest) tr st
      = searchLoop token title artist rest tr st1)
  /\ (BestMatch.score bestMatch = c07 ->
      searchLoop token title artist (q :: rest) tr st
      = searchLoop token title artist rest tr st1).
Proof.
  intros Hresp Hok Hjson Hitems Hne Hbest st1.
  assert (Hcons := searchLoop_cons token title artist q rest tr st).
  cbv zeta in Hcons. fold st1 in Hcons.
  rewrite Hresp, Hok, Hjson, Hitems in Hcons. cbn [negb] in Hcons.
  destruct items as [|i items]; [contradiction|].
  rewrite Hbest in Hcons.
  split; [|split].
  - intros G. rewrite G in Hcons.
    destruct (total_enrichTrackData (BestMatch.track bestMatch) tr st1)
      as [enrichedTrack [st2 E]].
    exists enrichedTrack, st2. split; [exact E|]. now rewrite E in Hcons.
  - intros G. now rewrite G in Hcons.
  - intros E. rewrite E, gt_irrefl in Hcons. exact Hcons.
Qed.

Lemma spotify_threshold_witness :
  searchLoop "tok" "Big Smoke" "Tash Sultana"
    [("Tash Sultana Big Smoke" : str); ("Big Smoke" : str)]
    (Ex.spotifyWith [Ex.bigSmokeLive])
    Ex.st0
  = searchLoop "tok" "Big Smoke" "Tash Sultana" [("Big Smoke" : str)]
      (Ex.spotifyWith [Ex.bigSmokeLive])
      (after_fetch Ex.st0 (SpotifySearch "Tash Sultana Big Smoke" "tok")).
Proof.
  refine (proj2 (proj2 (spotify_threshold (Ex.spotifyWith [Ex.bigSmokeLive])
            Ex.st0 "tok" "Big Smoke" "Tash Sultana" "Tash Sultana Big Smoke"
            ["Big Smoke" : str]
            (Response.mk true 200 (Some (SearchData.mk (Some [Ex.bigSmokeLive]))))
            (SearchData.mk (Some [Ex.bigSmokeLive])) [Ex.bigSmokeLive]
            (BestMatch.mk Ex.bigSmokeLive c07)
            eq_refl eq_refl eq_refl eq_refl _ _)) _).
  - discriminate.
  - vm_compute. reflexivity.
  - reflexivity.
Defined.

(** The loop returns a track only from an iteration whose best match
    scored above 0.7. *)
Lemma searchLoop_accepts token t a qs tr st track st' :
  searchLoop token t a qs tr st = (Ret (Some track), st') ->
  exists q stq response data items bestMatch,
    In q qs
    /\ respond tr (log stq) (SpotifySearch q token) = Some response
    /\ Response.ok response = true
    /\ Response.json response = Some data
    /\ SearchData.items data = Some items
    /\ findBestMatch items t (Some a) = Some bestMatch
    /\ Num.gt (BestMatch.score bestMatch) c07 = true
    /\ enrichTrackData (BestMatch.track bestMatch) tr
         (after_fetch stq (SpotifySearch q token)) = (Ret track, st').
Proof.
  revert st. induction qs as [|q qs IH]; intros st.
  - cbn. discriminate.
  - rewrite searchLoop_cons. cbv zeta.
    assert (Hrest : searchLoop token t a qs tr
                      (after_fetch st (SpotifySearch q token))
                    = (Ret (Some track), st') ->
                    exists q0 stq response data items bestMatch,
                      In q0 (q :: qs)
                      /\ respond tr (log stq) (SpotifySearch q0 token)
                         = Some response
                      /\ Response.ok response = true
                      /\ Response.json response = Some data
                      /\ SearchData.items data = Some items
                      /\ findBestMatch items t (Some a) = Some bestMatch
                      /\ Num.gt (BestMatch.score bestMatch) c07 = true
                      /\ enrichTrackData (BestMatch.track bestMatch) tr
                           (after_fetch stq (SpotifySearch q0 token))
                         = (Ret track, st')).
    { intros H. destruct (IH _ H) as (q0 & stq & r & d & i & b & Hin & Hr).
      exists q0, stq, r, d, i, b. split; [now right | exact Hr]. }
    destruct (respond tr (log st) (SpotifySearch q token)) as [response|] eqn:R;
      [|discriminate].
    destruct (Response.ok response) eqn:Ok; cbn [negb]; [|exact Hrest].
    destruct (Response.json response) as [data|] eqn:J; [|discriminate].
    destruct (SearchData.items data) as [[|i items]|] eqn:I; try exact Hrest.
    destruct (findBestMatch (i :: items) t (Some a)) as [b|] eqn:B;
      [|exact Hrest].
    destruct (Num.gt (BestMatch.score b) c07) eqn:G; [|exact Hrest].
    destruct (enrichTrackData (BestMatch.track b) tr _) as [[tk|e] s2] eqn:E;
      [|discriminate].
    intros [= <- <-].
    exists q, st, response, data, (i :: items), b.
    repeat split; try assumption. now left.
Qed.

Lemma searchSpotifyTrack_accepts query t a tr st track st' :
  searchSpotifyTrack query t a tr st = (Ret (Some track), st') ->
  exists token st1,
    getAccessToken tr st = (Ret token, st1)
    /\ searchLoop token t a (buildSearchQueries t a) tr st1
       = (Ret (Some track), st').
Proof.
  unfold searchSpotifyTrack, try_catch, bind.
  destruct (getAccessToken tr st) as [[token|e] st1]; [|cbn; discriminate].
  destruct (searchLoop token t a (buildSearchQueries t a) tr st1)
    as [[o|e] s2] eqn:L; [|cbn; discriminate].
  intros [= -> <-]. now exists token, st1.
Qed.

(** C1, as the code has it.  Only the primary provider scores its
    candidates: a track returned by [searchSpotifyTrack] is the enriched
    best match of the answer to one of the built queries, every candidate
    of that answer was scored with [calculateSimilarityScore], none of
    them scores above it, and its score is strictly above 0.7.  Last.fm
    and MusicBrainz do not score: when their search returns a first hit
    and the detail lookup a record, that record is returned, whatever
    its title and artist are. *)
Theorem only_primary_scores tr st title artist album :
  (forall query track st',
      searchSpotifyTrack query title artist tr st = (Ret (Some track), st') ->
      exists searchQuery token stq response data items bestMatch,
        In searchQuery (buildSearchQueries title artist)
        /\ respond tr (log stq) (SpotifySearch searchQuery token)
           = Some response
        /\ Response.json response = Some data
        /\ SearchData.items data = Some items
        /\ findBestMatch items title (Some artist) = Some bestMatch
        /\ best_of title (Some artist) items (Some bestMatch)
        /\ Num.gt (BestMatch.score bestMatch) c07 = true
        /\ enrichTrackData (BestMatch.track bestMatch) tr
             (after_fetch stq (SpotifySearch searchQuery token))
           = (Ret track, st'))
  /\ (forall hit trackInfo st1 st2,
        LastFm_searchTrack title (Some artist) tr st = (Ret (Some hit), st1) ->
        LastFm_getTrackInfo title artist tr st1 = (Ret (Some trackInfo), st2) ->
        tryLastFm title artist album tr st
        = (Ret (Some (fromLastFm trackInfo title artist album)), st2))
  /\ (forall recording fullRecording st1 st2,
        MusicBrainz_searchRecording title (Some artist) tr st
        = (Ret (Some recording), st1) ->
        MusicBrainz_getRecording (MBRecording.id recording) tr st1
        = (Ret (Some fullRecording), st2) ->
        tryMusicBrainz title artist album tr st
        = (Ret (Some (fromMusicBrainz fullRecording title artist album)), st2)).
Proof.
  split; [|split].
  - intros query track st' H.
    destruct (searchSpotifyTrack_accepts _ _ _ _ _ _ _ H)
      as (token & st1 & _ & L).
    destruct (searchLoop_accepts _ _ _ _ _ _ _ _ L)
      as (q & stq & r & d & i & b & Hin & Hr & _ & Hj & Hi & Hb & Hg & He).
    exists q, token, stq, r, d, i, b.
    repeat split; try assumption;
      pose proof (findBestMatch_spec i title (Some artist)) as S;
      rewrite Hb in S; apply S.
  - intros hit trackInfo st1 st2 Hs Hi. unfold tryLastFm.
    apply try_catch_Ret. rewrite (bind_Ret _ _ _ _ _ _ Hs).
    now rewrite (bind_Ret _ _ _ _ _ _ Hi).
  - intros recording fullRecording st1 st2 Hs Hg. unfold tryMusicBrainz.
    apply try_catch_Ret. rewrite (bind_Ret _ _ _ _ _ _ Hs).
    now rewrite (bind_Ret _ _ _ _ _ _ Hg).
Qed.

(** C1 as stated fails at the secondary provider: with Spotify
    unreachable, the orchestrator returns Last.fm's record "Dreams" by
    "Packaday" for the guess "Big Smoke" by "Tash Sultana"; the
    similarity score of that candidate is 0, which is not above 0.7. *)
Lemma lastfm_accepts_unscored :
  fst (enrichMetadataWithAPIs "Big Smoke" "Tash Sultana" "Unknown Album"
         Ex.lastfmOnly Ex.st0)
  = Ret (Some (fromLastFm Ex.dreamsInfo "Big Smoke" "Tash Sultana"
                 "Unknown Album"))
  /\ EnrichedMetadata.title
       (fromLastFm Ex.dreamsInfo "Big Smoke" "Tash Sultana" "Unknown Album")
     = SpotifyTrack.name Ex.dreams
  /\ EnrichedMetadata.artist
       (fromLastFm Ex.dreamsInfo "Big Smoke" "Tash Sultana" "Unknown Album")
     = "Packaday"
  /\ calculateSimilarityScore Ex.dreams "Big Smoke"
       (Some ("Tash Sultana" : str)) = Num.zero
  /\ Num.gt (calculateSimilarityScore Ex.dreams "Big Smoke"
               (Some ("Tash Sultana" : str))) c07 = false.
Proof. vm_compute. repeat split. Qed.

(** ** The matcher *)

Lemma star_greedy_inv p k s res :
  star_greedy p k s = Some res ->
  exists u s', s = u ++ s' /\ forallb p u = true /\ k s' = Some res.
Proof.
  induction s as [|a s IH]; cbn [star_greedy].
  - intros H. now exists [], [].
  - destruct (p a) eqn:Pa.
    + destruct (star_greedy p k s) as [r|] eqn:G.
      * intros [= <-]. destruct (IH eq_refl) as (u & s' & -> & Hu & Hk).
        exists (a :: u), s'. cbn. now rewrite Pa, Hu.
      * intros H. now exists [], (a :: s).
    + intros H. now exists [], (a :: s).
Qed.

Lemma star_lazy_inv p k s res :
  star_lazy p k s = Some res ->
  exists u s', s = u ++ s' /\ forallb p u = true /\ k s' = Some res.
Proof.
  induction s as [|a s IH]; cbn [star_lazy].
  - destruct (k []) eqn:K; [|discriminate]. intros [= <-]. now exists [], [].
  - destruct (k (a :: s)) eqn:K.
    + intros [= <-]. now exists [], (a :: s).
    + destruct (p a) eqn:Pa; [|discriminate]. intros H.
      destruct (IH H) as (u & s' & -> & Hu & Hk).
      exists (a :: u), s'. cbn. now rewrite Pa, Hu.
Qed.

(** A successful run reaches its continuation at a suffix of the input,
    with captures that extend the ones it started from and hold every
    group the pattern defines. *)
Lemma run_inv n0 r : forall s c k res,
  run n0 r s c k = Some res ->
  exists s' c',
    k s' c' = Some res
    /\ (exists u, s = u ++ s')
    /\ (forall j, c j <> None -> c' j <> None)
    /\ (forall i, defines r i = true -> c' i <> None).
Proof.
  induction r as [|p|r1 IH1 r2 IH2|r1 IH1 r2 IH2|g p|r1 IH1|i r1 IH1| |];
    intros s c k res; cbn [run defines].
  - intros H. exists s, c. repeat split; auto; [now exists [] | discriminate].
  - destruct s as [|a s]; [discriminate|]. destruct (p a); [|discriminate].
    intros H. exists s, c. repeat split; auto; [now exists [a] | discriminate].
  - intros H. destruct (IH1 _ _ _ _ H) as (s1 & c1 & H1 & [u1 ->] & M1 & D1).
    destruct (IH2 _ _ _ _ H1) as (s2 & c2 & H2 & [u2 ->] & M2 & D2).
    exists s2, c2. repeat split; auto.
    + exists (u1 ++ u2). now rewrite app_assoc.
    + intros i Hi. apply orb_true_iff in Hi as [Hi|Hi]; auto.
  - destruct (run n0 r1 s c k) as [x|] eqn:R1.
    + intros [= <-].
      destruct (IH1 _ _ _ _ R1) as (s1 & c1 & H1 & U1 & M1 & D1).
      exists s1, c1. repeat split; auto.
      intros i Hi. apply andb_true_iff in Hi as [Hi _]. auto.
    + intros H. destruct (IH2 _ _ _ _ H) as (s2 & c2 & H2 & U2 & M2 & D2).
      exists s2, c2. repeat split; auto.
      intros i Hi. apply andb_true_iff in Hi as [_ Hi]. auto.
  - destruct g; intros H;
      [apply star_greedy_inv in H | apply star_lazy_inv in H];
      destruct H as (u & s' & -> & _ & Hk);
      exists s', c; repeat split; auto; try (now exists u); discriminate.
  - destruct (run n0 r1 s c k) as [x|] eqn:R1.
    + intros [= <-].
      destruct (IH1 _ _ _ _ R1) as (s1 & c1 & H1 & U1 & M1 & _).
      exists s1, c1. repeat split; auto. discriminate.
    + intros H. exists s, c. repeat split; auto; [now exists []|discriminate].
  - intros H. destruct (IH1 _ _ _ _ H) as (s1 & c1 & H1 & U1 & M1 & D1).
    exists s1, (set_cap i (firstn (length s - length s1) s) c1).
    repeat split; auto.
    + intros j Hj. unfold set_cap. destruct (Nat.eqb j i); [discriminate|auto].
    + intros j Hj. unfold set_cap. destruct (Nat.eqb j i) eqn:E;
        [discriminate|]. cbn in Hj. apply D1. exact Hj.
  - destruct (Nat.eqb (length s) n0); [|discriminate].
    intros H. exists s, c. repeat split; auto; [now exists []|discriminate].
  - destruct s; [|discriminate].
    intros H. exists [], c. repeat split; auto; [now exists []|discriminate].
Qed.

Lemma exec_from_inv n0 r s arr :
  exec_from n0 r s = Some arr ->
  exists s0 m, match_here n0 r s0 = Some m /\ arr = match_array s0 m.
Proof.
  induction s as [|a s IH]; cbn [exec_from];
    destruct (match_here n0 r _) as [m|] eqn:E.
  - intros [= <-]. now exists [], m.
  - discriminate.
  - intros [= <-]. now exists (a :: s), m.
  - exact IH.
Qed.

(** The groups a pattern defines are defined in the array [exec]
    returns. *)
Lemma exec_defines r s arr i :
  exec r s = Some arr -> i <> 0 -> defines r i = true -> arr i <> None.
Proof.
  intros H Hi D. apply exec_from_inv in H as (s0 & m & H & ->).
  unfold match_here in H. apply run_inv in H as (s' & c' & A & _ & _ & Dc).
  unfold accept in A. injection A as <-.
  destruct i; [contradiction|]. cbn. now apply Dc.
Qed.

Lemma group_trim_defined (arr : caps) (i : nat) :
  arr i <> None -> exists v, group_trim arr i = Ret v.
Proof.
  unfold group_trim. destruct (arr i) as [v|]; [eauto|contradiction].
Qed.

(** ** The title parser never throws *)

Ltac defined_group H i :=
  let v := fresh "v" in
  let E := fresh "E" in
  destruct (group_trim_defined _ i
              (exec_defines _ _ _ i H ltac:(discriminate) eq_refl))
    as [v E];
  rewrite E; cbn [obind].

Lemma songYearArtistRule_total title :
  exists o, songYearArtistRule title = Ret o.
Proof.
  unfold songYearArtistRule.
  destruct (exec songYearArtistPattern title) as [m|] eqn:H; [|eauto].
  defined_group H 1. defined_group H 2. defined_group H 3.
  destruct (yearLike _); eauto.
Qed.

Lemma truthyOpt_defined (arr : caps) (i : nat) :
  JS.truthyOpt (arr i) = true -> arr i <> None.
Proof. destruct (arr i); [discriminate | discriminate]. Qed.

Lemma dashRule_total title : exists o, dashRule title = Ret o.
Proof.
  unfold dashRule.
  destruct (exec dashPattern title) as [m|] eqn:H; [|eauto].
  destruct (JS.truthyOpt (m 3)) eqn:T3.
  - defined_group H 1. defined_group H 2.
    destruct (group_trim_defined _ 3 (truthyOpt_defined _ _ T3)) as [v3 E3].
    rewrite E3. cbn [obind]. eauto.
  - destruct (JS.truthyOpt (m 2)); [|eauto].
    defined_group H 1. defined_group H 2. eauto.
Qed.

Lemma songVideoRule_total title : exists o, songVideoRule title = Ret o.
Proof.
  unfold songVideoRule.
  destruct (exec songVideoPattern title) as [m|] eqn:H; [|eauto].
  defined_group H 1. defined_group H 2.
  destruct (videoLike _); eauto.
Qed.

Lemma artistColonRule_total title : exists o, artistColonRule title = Ret o.
Proof.
  unfold artistColonRule.
  destruct (exec artistColonPattern title) as [m|] eqn:H; [|eauto].
  defined_group H 1. defined_group H 2. eauto.
Qed.

(** C4. The title parser is total: for every string it returns a
    complete artist, album and title triple and never throws, each
    pattern rule either returning or falling through; when all four
    rules fall through, the result is the fallback with the "Unknown"
    sentinels and the trimmed input as the title. *)
Theorem parser_total title :
  exists result,
    extractBasicMetadata title = Ret result
    /\ (exists o1 o2 o3 o4,
          songYearArtistRule title = Ret o1 /\ dashRule title = Ret o2
          /\ songVideoRule title = Ret o3 /\ artistColonRule title = Ret o4
          /\ (o1 = None -> o2 = None -> o3 = None -> o4 = None ->
              result = BasicMetadata.mk "Unknown Artist" "Unknown Album"
                         (JS.trim title))).
Proof.
  destruct (songYearArtistRule_total title) as [o1 E1].
  destruct (dashRule_total title) as [o2 E2].
  destruct (songVideoRule_total title) as [o3 E3].
  destruct (artistColonRule_total title) as [o4 E4].
  unfold extractBasicMetadata, or_next. rewrite E1, E2, E3, E4. cbn [obind].
  destruct o1 as [r1|]; [exists r1; split; [reflexivity|];
    exists (Some r1), o2, o3, o4; repeat split; discriminate|].
  destruct o2 as [r2|]; [exists r2; split; [reflexivity|];
    exists None, (Some r2), o3, o4; repeat split; discriminate|].
  destruct o3 as [r3|]; [exists r3; split; [reflexivity|];
    exists None, None, (Some r3), o4; repeat split; discriminate|].
  destruct o4 as [r4|]; [exists r4; split; [reflexivity|];
    exists None, None, None, (Some r4); repeat split; discriminate|].
  exists (fallbackMetadata title). split; [reflexivity|].
  exists None, None, None, None. repeat split.
Qed.

(** ** Greedy and lazy repetition *)

(** A greedy repetition that can take all of [u] and must stop in front
    of [v] hands [v] to its continuation first. *)
Lemma star_greedy_max p k u v r :
  forallb p u = true -> stops p v -> k v = Some r ->
  star_greedy p k (u ++ v) = Some r.
Proof.
  intros Hu Hv Hk. induction u as [|a u IH]; cbn [app star_greedy].
  - destruct v as [|b v]; cbn [star_greedy]; [exact Hk|].
    cbn in Hv. now rewrite Hv.
  - cbn in Hu. apply andb_true_iff in Hu as [Ha Hu].
    now rewrite Ha, (IH Hu).
Qed.

Lemma star_greedy_all p k u r :
  forallb p u = true -> k [] = Some r -> star_greedy p k u = Some r.
Proof.
  intros Hu Hk. rewrite <- (app_nil_r u).
  now apply star_greedy_max.
Qed.

(** It fails when the continuation fails at every point it can back off
    to. *)
Lemma star_greedy_none p k u v :
  forallb p u = true -> stops p v ->
  (forall u1 u2, u = u1 ++ u2 -> k (u2 ++ v) = None) ->
  star_greedy p k (u ++ v) = None.
Proof.
  intros Hu Hv Hk. induction u as [|a u IH]; cbn [app star_greedy].
  - specialize (Hk [] [] eq_refl). cbn in Hk.
    destruct v as [|b v]; cbn [star_greedy]; [exact Hk|].
    cbn in Hv. now rewrite Hv.
  - cbn in Hu. apply andb_true_iff in Hu as [Ha Hu]. rewrite Ha, IH; auto.
    + exact (Hk [] (a :: u) eq_refl).
    + intros u1 u2 ->. exact (Hk (a :: u1) u2 eq_refl).
Qed.

(** A lazy repetition passes over the units at which its continuation
    fails. *)
Lemma star_lazy_skip p k u v :
  forallb p u = true ->
  (forall u1 u2, u = u1 ++ u2 -> u2 <> [] -> k (u2 ++ v) = None) ->
  star_lazy p k (u ++ v) = star_lazy p k v.
Proof.
  intros Hu Hk. induction u as [|a u IH]; [reflexivity|].
  cbn in Hu. apply andb_true_iff in Hu as [Ha Hu].
  cbn [app star_lazy].
  pose proof (Hk [] (a :: u) eq_refl ltac:(discriminate)) as H0.
  cbn [app] in H0. rewrite H0, Ha.
  apply IH; [exact Hu|]. intros u1 u2 -> Hne.
  exact (Hk (a :: u1) u2 eq_refl Hne).
Qed.

Lemma star_lazy_here p k s r : k s = Some r -> star_lazy p k s = Some r.
Proof. intros H. destruct s; cbn [star_lazy]; now rewrite H. Qed.

Lemma needs_lit n0 a r c k :
  needs a (fun s => run n0 (Seq (lit a) r) s c k).
Proof.
  intros b s Hb. cbn [run lit]. destruct (Ascii.eqb a b) eqn:E; [|reflexivity].
  apply Ascii.eqb_eq in E. congruence.
Qed.

(** White space and then a unit [a] that is no white space: no match
    where the first unit after the white space is not [a]. *)
Lemma spaces_then_unit_none a k s :
  JS.isSpace a = false -> needs a k -> k [] = None ->
  firstNonSpace s <> Some a ->
  star_greedy JS.isSpace k s = None.
Proof.
  intros Ha Hk Hnil. induction s as [|b s IH]; cbn [star_greedy firstNonSpace];
    [intros _; exact Hnil|].
  destruct (JS.isSpace b) eqn:Sb.
  - intros H. rewrite (IH H). apply Hk. intros ->. congruence.
  - intros H. apply Hk. intros ->. now apply H.
Qed.

Lemma firstNonSpace_In s x : firstNonSpace s = Some x -> In x s.
Proof.
  induction s as [|a s IH]; cbn; [discriminate|].
  destruct (JS.isSpace a); [auto|]. intros [= ->]. now left.
Qed.

Lemma firstNonSpace_app u z v :
  JS.isSpace z = false ->
  firstNonSpace ((u ++ [z]) ++ v) = firstNonSpace (u ++ [z]).
Proof.
  intros Hz. induction u as [|a u IH]; cbn; [now rewrite Hz|].
  destruct (JS.isSpace a); [exact IH | reflexivity].
Qed.

Lemma firstn_app_sub {A} (u v : list A) :
  firstn (length (u ++ v) - length v) (u ++ v) = u.
Proof.
  rewrite length_app, Nat.add_sub, firstn_app, firstn_all, Nat.sub_diag.
  cbn. apply app_nil_r.
Qed.

(** ** Trimmed strings *)

Lemma trimStart_length s : length (JS.trimStart s) <= length s.
Proof.
  induction s as [|a s IH]; cbn; [lia|].
  destruct (JS.isSpace a); cbn; lia.
Qed.

Lemma trimEnd_length s : length (JS.trimEnd s) <= length s.
Proof.
  induction s as [|a s IH]; cbn; [lia|].
  destruct (JS.trimEnd s); [destruct (JS.isSpace a)|]; cbn in *; lia.
Qed.

Lemma trimStart_fixed s :
  length (JS.trimStart s) = length s ->
  JS.trimStart s = s /\ stops JS.isSpace s.
Proof.
  destruct s as [|a s]; cbn; [auto|].
  destruct (JS.isSpace a); [|auto].
  intros H. pose proof (trimStart_length s). lia.
Qed.

Lemma trimEnd_fixed s :
  JS.trimEnd s = s -> s <> [] ->
  exists s0 z, s = s0 ++ [z] /\ JS.isSpace z = false.
Proof.
  induction s as [|a s IH]; [contradiction|]. cbn. intros H _.
  destruct (JS.trimEnd s) as [|b r] eqn:E.
  - destruct (JS.isSpace a) eqn:Sa; [discriminate|].
    injection H as <-. now exists [], a.
  - injection H as H. destruct (IH H) as (s0 & z & -> & Hz).
    + rewrite <- H. discriminate.
    + now exists (a :: s0), z.
Qed.

(** A non-empty string that [trim] leaves unchanged starts and ends with
    a unit that is no white space. *)
Lemma trimmed_ends s :
  s <> [] -> JS.trim s = s ->
  stops JS.isSpace s /\ exists s0 z, s = s0 ++ [z] /\ JS.isSpace z = false.
Proof.
  intros Hne H. unfold JS.trim in H.
  assert (L : length (JS.trimStart s) = length s).
  { pose proof (trimStart_length s).
    pose proof (trimEnd_length (JS.trimStart s)). rewrite H in *. lia. }
  destruct (trimStart_fixed s L) as [E Hs]. rewrite E in H.
  split; [exact Hs | now apply trimEnd_fixed].
Qed.

(** ** Running a pattern on a string given by its parts *)

Lemma run_Seq n0 r1 r2 s c k :
  run n0 (Seq r1 r2) s c k = run n0 r1 s c (fun s' c' => run n0 r2 s' c' k).
Proof. reflexivity. Qed.

Lemma run_lit n0 a s c k : run n0 (lit a) (a :: s) c k = k s c.
Proof. cbn [run lit]. now rewrite Ascii.eqb_refl. Qed.

Lemma run_Bol s c k : run (length s) Bol s c k = k s c.
Proof. cbn [run]. now rewrite Nat.eqb_refl. Qed.

Lemma run_Eol n0 c k : run n0 Eol [] c k = k [] c.
Proof. reflexivity. Qed.

Lemma run_sp_max n0 u v c k r :
  forallb JS.isSpace u = true -> stops JS.isSpace v -> k v c = Some r ->
  run n0 sp (u ++ v) c k = Some r.
Proof.
  intros Hu Hv Hk. cbn [run sp].
  now apply (star_greedy_max JS.isSpace (fun s' => k s' c)).
Qed.

(** [\s*] and then a unit [a], where the first unit after the white
    space is another. *)
Lemma run_sp_lit_none n0 a r s c k :
  JS.isSpace a = false -> firstNonSpace s <> Some a ->
  run n0 (Seq sp (Seq (lit a) r)) s c k = None.
Proof.
  intros Ha Hs. rewrite run_Seq. cbn [run sp].
  apply (spaces_then_unit_none a); auto. apply needs_lit.
Qed.

(** A greedy group [(p+)] that can take [a :: u] and must stop in front
    of [v]. *)
Lemma run_group_plus_greedy n0 i p a u v c k r :
  p a = true -> forallb p u = true -> stops p v ->
  k v (set_cap i (a :: u) c) = Some r ->
  run n0 (Group i (plus true p)) (a :: u ++ v) c k = Some r.
Proof.
  intros Ha Hu Hv Hk. cbn [run plus]. rewrite Ha.
  apply (star_greedy_max p); auto.
  change (a :: u ++ v) with ((a :: u) ++ v). now rewrite firstn_app_sub.
Qed.

(** A lazy group [(p+?)] whose continuation fails until [a :: u] is
    taken. *)
Lemma run_group_plus_lazy n0 i p a u v c k r :
  p a = true -> forallb p u = true ->
  (forall u1 u2 c', u = u1 ++ u2 -> u2 <> [] -> k (u2 ++ v) c' = None) ->
  k v (set_cap i (a :: u) c) = Some r ->
  run n0 (Group i (plus false p)) (a :: u ++ v) c k = Some r.
Proof.
  intros Ha Hu Hfail Hk. cbn [run plus]. rewrite Ha.
  rewrite star_lazy_skip;
    [| exact Hu | intros u1 u2 E Hne; exact (Hfail u1 u2 _ E Hne)].
  apply star_lazy_here.
  change (a :: u ++ v) with ((a :: u) ++ v). now rewrite firstn_app_sub.
Qed.

Lemma run_group_plus_greedy_all n0 i p a u c k r :
  p a = true -> forallb p u = true ->
  k [] (set_cap i (a :: u) c) = Some r ->
  run n0 (Group i (plus true p)) (a :: u) c k = Some r.
Proof.
  intros Ha Hu Hk.
  pose proof (run_group_plus_greedy n0 i p a u [] c k r Ha Hu I Hk) as H.
  now rewrite app_nil_r in H.
Qed.

(** The non-empty suffixes of a string that ends with [z] end with
    [z]. *)
Lemma suffix_last {A} (s u1 u2 s0 : list A) (z : A) :
  s = u1 ++ u2 -> u2 <> [] -> s = s0 ++ [z] -> exists w, u2 = w ++ [z].
Proof.
  intros E Hne Ez. destruct (exists_last Hne) as (w & y & ->).
  exists w. rewrite E, app_assoc in Ez. apply app_inj_tail in Ez as [_ ->].
  reflexivity.
Qed.

(** A suffix that holds a unit other than white space, and no unit
    [a], does not lead the matcher to [a]. *)
Lemma firstNonSpace_suffix a w z v :
  JS.isSpace z = false -> ~ In a (w ++ [z]) ->
  firstNonSpace ((w ++ [z]) ++ v) <> Some a.
Proof.
  intros Hz Hin. rewrite firstNonSpace_app by exact Hz.
  intros H. apply firstNonSpace_In in H. contradiction.
Qed.

Lemma stops_cons p a s : p a = false -> stops p (a :: s).
Proof. intros H. exact H. Qed.

(** ** Pattern 1 on a label "Title (Qualifier) - Artist" *)



Lemma exec_here r s m :
  match_here (length s) r s = Some m -> exec r s = Some (match_array s m).
Proof.
  intros H. unfold exec. destruct s; cbn [exec_from]; now rewrite H.
Qed.

Lemma group_trim_fixed (arr : caps) i v :
  arr i = Some v -> JS.trim v = v -> group_trim arr i = Ret v.
Proof. intros H E. unfold group_trim. now rewrite H, E. Qed.

(** ** The qualifier test *)

Lemma lowerChar_isSpace a : JS.isSpace (JS.lowerChar a) = JS.isSpace a.
Proof.
  destruct a as [[] [] [] [] [] [] [] []]; reflexivity.
Qed.












(** ** Global replacement *)

Lemma replace_aux_skip_all n0 r rep s :
  match_here n0 r [] = None -> replace_aux n0 r rep (length s) s = [].
Proof.
  intros H. induction s as [|a s IH]; cbn [replace_aux length];
    [now rewrite H | exact IH].
Qed.

(** No match at any start index: the string is unchanged. *)
Lemma replace_aux_id n0 r rep s :
  (forall u1 u2, s = u1 ++ u2 -> match_here n0 r u2 = None) ->
  replace_aux n0 r rep 0 s = s.
Proof.
  induction s as [|a s IH]; intros H; cbn [replace_aux].
  - now rewrite (H [] [] eq_refl).
  - unfold match_len. rewrite (H [] (a :: s) eq_refl). f_equal.
    apply IH. intros u1 u2 ->. exact (H (a :: u1) u2 eq_refl).
Qed.

(** No match at the start indices inside [u]: [u] is kept. *)
Lemma replace_aux_prefix n0 r rep u v :
  (forall u1 u2, u = u1 ++ u2 -> u2 <> [] -> match_here n0 r (u2 ++ v) = None) ->
  replace_aux n0 r rep 0 (u ++ v) = u ++ replace_aux n0 r rep 0 v.
Proof.
  induction u as [|a u IH]; intros H; [reflexivity|].
  cbn [app replace_aux]. unfold match_len.
  pose proof (H [] (a :: u) eq_refl ltac:(discriminate)) as H0.
  cbn [app] in H0. rewrite H0. f_equal.
  apply IH. intros u1 u2 -> Hne. exact (H (a :: u1) u2 eq_refl Hne).
Qed.

(** A match of all of [s]. *)
Lemma replace_aux_whole n0 r rep s c :
  s <> [] -> match_here n0 r s = Some ([], c) -> match_here n0 r [] = None ->
  replace_aux n0 r rep 0 s = rep.
Proof.
  intros Hne Hm Hnil. destruct s as [|a s]; [contradiction|].
  cbn [replace_aux]. unfold match_len. rewrite Hm.
  cbn [fst length Nat.sub]. rewrite replace_aux_skip_all by exact Hnil.
  apply app_nil_r.
Qed.

(** ** Patterns that open with white space and a parenthesis *)

Lemma star_spaces_paren (k k' : str -> option mstate) s :
  (forall s', k ("("%char :: s') = k' s') -> needs "(" k -> k [] = None ->
  star_greedy JS.isSpace k s
  = match afterFirstParen s with
    | Some rest => k' rest
    | None => None
    end.
Proof.
  intros Hk Hn Hnil.
  induction s as [|b s IH]; cbn [star_greedy afterFirstParen]; [exact Hnil|].
  destruct (JS.isSpace b) eqn:Sb.
  - rewrite IH, (Hn b s);
      [destruct (afterFirstParen s) as [rest|];
       [now destruct (k' rest) | reflexivity]|].
    intros ->. discriminate.
  - destruct (Ascii.eqb "(" b) eqn:E.
    + apply Ascii.eqb_eq in E. subst b. apply Hk.
    + apply Hn. intros ->. discriminate.
Qed.

Lemma run_sp_paren n0 r s c k :
  run n0 (Seq sp (Seq (lit "(") r)) s c k
  = match afterFirstParen s with
    | Some rest => run n0 r rest c k
    | None => None
    end.
Proof.
  rewrite run_Seq.
  change (run n0 sp s c (fun s' c' => run n0 (Seq (lit "(") r) s' c' k))
    with (star_greedy JS.isSpace
            (fun s' => run n0 (Seq (lit "(") r) s' c k) s).
  apply (star_spaces_paren _ (fun rest => run n0 r rest c k)).
  - intros s'. now rewrite run_Seq, run_lit.
  - apply needs_lit.
  - reflexivity.
Qed.

Lemma afterFirstParen_firstNonSpace s rest :
  afterFirstParen s = Some rest -> firstNonSpace s = Some "("%char.
Proof.
  induction s as [|b s IH]; cbn [afterFirstParen firstNonSpace];
    [discriminate|].
  destruct (JS.isSpace b); [exact IH|].
  destruct (Ascii.eqb "(" b) eqn:E; [|discriminate].
  intros _. apply Ascii.eqb_eq in E. now rewrite E.
Qed.

Lemma afterFirstParen_none s :
  ~ In "("%char s -> afterFirstParen s = None.
Proof.
  intros H. destruct (afterFirstParen s) eqn:E; [|reflexivity].
  apply afterFirstParen_firstNonSpace, firstNonSpace_In in E. contradiction.
Qed.

Lemma afterFirstParen_spaces w rest :
  forallb JS.isSpace w = true ->
  afterFirstParen (w ++ "("%char :: rest) = Some rest.
Proof.
  induction w as [|b w IH]; cbn [app afterFirstParen forallb];
    [reflexivity|].
  intros H. apply andb_true_iff in H as [Hb H]. now rewrite Hb, IH.
Qed.

(** A text without an opening parenthesis holds no match. *)
Lemma replace_no_paren r rep s :
  ~ In "("%char s -> replace (Seq sp (Seq (lit "(") r)) rep s = s.
Proof.
  intros H. unfold replace. apply replace_aux_id. intros u1 u2 ->.
  unfold match_here. rewrite run_sp_paren, afterFirstParen_none; [reflexivity|].
  intros Hin. apply H, in_or_app. now right.
Qed.

Lemma trimEnd_idem s : JS.trimEnd (JS.trimEnd s) = JS.trimEnd s.
Proof.
  induction s as [|a s IH]; [reflexivity|]. cbn [JS.trimEnd].
  destruct (JS.trimEnd s) as [|b r] eqn:E.
  - destruct (JS.isSpace a) eqn:Sa; cbn; [reflexivity | now rewrite Sa].
  - cbn [JS.trimEnd] in IH |- *. now rewrite IH.
Qed.

Lemma trimEnd_split s :
  exists w, s = JS.trimEnd s ++ w /\ forallb JS.isSpace w = true.
Proof.
  induction s as [|a s (w & E & Hw)]; [now exists []|]. cbn [JS.trimEnd].
  destruct (JS.trimEnd s) as [|b r] eqn:Es.
  - destruct (JS.isSpace a) eqn:Sa.
    + exists (a :: w). cbn in E. subst w. cbn. now rewrite Sa, Hw.
    + exists w. cbn in E. subst w. cbn. now rewrite Hw.
  - exists w. cbn in E |- *. now rewrite <- E.
Qed.

Lemma trimStart_trimEnd s :
  JS.trimStart (JS.trimEnd s) = JS.trimEnd (JS.trimStart s).
Proof.
  induction s as [|a s IH]; [reflexivity|].
  cbn [JS.trimStart]. destruct (JS.isSpace a) eqn:Sa.
  - rewrite <- IH. cbn [JS.trimEnd].
    destruct (JS.trimEnd s) as [|b r]; rewrite ?Sa; cbn [JS.trimStart];
      now rewrite ?Sa.
  - cbn [JS.trimEnd]. destruct (JS.trimEnd s) as [|b r]; rewrite ?Sa;
      cbn [JS.trimStart]; now rewrite ?Sa.
Qed.

Lemma trim_trimEnd s : JS.trim (JS.trimEnd s) = JS.trim s.
Proof.
  unfold JS.trim. now rewrite trimStart_trimEnd, trimEnd_idem.
Qed.

(** The body of the parenthetical matches all of [K]: the replacement
    drops it with the white space before it. *)
Lemma replace_paren_tail r T K c :
  ~ In "("%char T ->
  (forall n0, run n0 r K no_caps accept = Some ([], c)) ->
  replace (Seq sp (Seq (lit "(") r)) "" (T ++ " " ++ "("%char :: K)
  = JS.trimEnd T.
Proof.
  intros HT Hr. unfold replace.
  destruct (trimEnd_split T) as (w & E & Hw).
  set (n0 := length (T ++ " " ++ "("%char :: K)).
  rewrite E at 1. rewrite <- app_assoc.
  rewrite replace_aux_prefix.
  - rewrite (replace_aux_whole n0 _ _ _ c); [apply app_nil_r | | |].
    + destruct w; discriminate.
    + unfold match_here. rewrite run_sp_paren.
      replace (w ++ " " ++ "("%char :: K) with ((w ++ " ") ++ "("%char :: K)
        by now rewrite <- app_assoc.
      rewrite afterFirstParen_spaces; [apply Hr|].
      rewrite forallb_app, Hw. reflexivity.
    + unfold match_here. now rewrite run_sp_paren.
  - intros u1 u2 Eu Hne. unfold match_here. rewrite run_sp_paren.
    destruct (trimEnd_fixed (JS.trimEnd T) (trimEnd_idem T)) as (s0 & z & Ez & Hz).
    { rewrite Eu. destruct u1; [exact Hne | discriminate]. }
    destruct (suffix_last _ _ _ _ _ Eu Hne Ez) as [x ->].
    destruct (afterFirstParen ((x ++ [z]) ++ w ++ " " ++ "("%char :: K))
      eqn:A; [|reflexivity].
    apply afterFirstParen_firstNonSpace in A.
    exfalso. revert A. apply firstNonSpace_suffix; [exact Hz|].
    intros Hin. apply HT. rewrite E, Eu.
    apply in_or_app. left. apply in_or_app. now right.
Qed.

Lemma afterFirstParen_app l K rest :
  ~ In "("%char l -> afterFirstParen (l ++ "("%char :: K) = Some rest ->
  rest = K.
Proof.
  induction l as [|b l IH]; cbn [app afterFirstParen].
  - intros _ H. cbv in H. congruence.
  - intros H. destruct (JS.isSpace b); [apply IH; intros Hin; apply H; now right|].
    destruct (Ascii.eqb "(" b) eqn:E; [|discriminate].
    apply Ascii.eqb_eq in E. destruct H. now left.
Qed.

(** The body of the parenthetical does not match [K]: nothing is
    replaced. *)
Lemma replace_paren_tail_id r rep T K :
  ~ In "("%char T -> ~ In "("%char K ->
  (forall n0 c k, run n0 r K c k = None) ->
  replace (Seq sp (Seq (lit "(") r)) rep (T ++ " " ++ "("%char :: K)
  = T ++ " " ++ "("%char :: K.
Proof.
  intros HT HK Hr. unfold replace. apply replace_aux_id.
  intros u1 u2 E. unfold match_here. rewrite run_sp_paren.
  destruct (afterFirstParen u2) as [rest|] eqn:A; [|reflexivity].
  assert (rest = K); [|subst; apply Hr].
  rewrite app_assoc in E. symmetry in E.
  apply app_eq_app in E as [l [[E1 E2]|[E1 E2]]].
  - (* u2 starts at the parenthesis or inside [K] *)
    destruct l as [|b l].
    + cbn in E2. subst u2. cbv in A. congruence.
    + cbn in E2. injection E2 as _ EK.
      rewrite afterFirstParen_none in A; [discriminate|].
      intros Hin. apply HK. rewrite EK. apply in_or_app. now right.
  - (* u2 starts inside [T] or at the space *)
    subst u2. apply (afterFirstParen_app l K rest); [|exact A].
    intros Hin.
    assert (Hin' : In "("%char (T ++ " ")).
    { rewrite E1. apply in_or_app. now right. }
    apply in_app_or in Hin' as [Hin'|Hin']; [contradiction|].
    cbn in Hin'. intuition discriminate.
Qed.

(** ** Case-insensitive matching of the qualifiers *)

Lemma canonicalize_lowerChar a :
  JS.canonicalize a = JS.canonicalize (JS.lowerChar a).
Proof. destruct a as [[] [] [] [] [] [] [] []]; reflexivity. Qed.

Lemma isSpace_lowerChar a : JS.isSpace a = JS.isSpace (JS.lowerChar a).
Proof. symmetry. apply lowerChar_isSpace. Qed.

Lemma eqb_rparen_lowerChar a :
  Ascii.eqb ")" a = Ascii.eqb ")" (JS.lowerChar a).
Proof. destruct a as [[] [] [] [] [] [] [] []]; reflexivity. Qed.

Lemma lowerChar_lparen a : JS.lowerChar a = "("%char -> a = "("%char.
Proof. destruct a as [[] [] [] [] [] [] [] []]; vm_compute; congruence. Qed.

(** The tests the matcher makes on a unit [k] whose lower case is
    known, rewritten to tests on that lower case. *)
Ltac lower_tests :=
  repeat match goal with
  | H : JS.lowerChar ?k = _ |- _ =>
      rewrite ?(canonicalize_lowerChar k), ?(isSpace_lowerChar k),
        ?(eqb_rparen_lowerChar k), ?H;
      clear H
  end.

(** A string whose lower case is a given literal, unit by unit. *)
Ltac units K H :=
  unfold JS.toLowerCase in H;
  repeat (destruct K as [|? K]; [discriminate H|]);
  destruct K; [|discriminate H];
  cbn [map] in H; injection H as H; intros.

Ltac run_body :=
  intros;
  cbn [run wordi liti lit seq sp plus list_ascii_of_string star_greedy
         star_lazy accept];
  lower_tests; vm_compute; reflexivity.

(** One replacement of [cleanTitle] on [T ++ " " ++ "(" :: K], or on
    what an earlier replacement left of it. *)
Ltac strip_step T K HT HK HT' :=
  first
    [ rewrite (replace_paren_tail_id _ _ T K HT HK) by run_body
    | erewrite (replace_paren_tail _ T K _ HT) by run_body
    | rewrite (replace_no_paren _ _ (JS.trimEnd T) HT') ].

Lemma not_In_trimEnd a T : ~ In a T -> ~ In a (JS.trimEnd T).
Proof.
  intros H Hin. destruct (trimEnd_split T) as (w & E & _).
  apply H. rewrite E. apply in_or_app. now left.
Qed.

(** No unit of a list is an opening parenthesis, by their lower
    cases. *)
Ltac no_paren :=
  let Hin := fresh "Hin" in
  intros Hin; cbn [In] in Hin;
  repeat (destruct Hin as [Hin|Hin];
          [subst;
           match goal with
           | H : JS.lowerChar "("%char = _ |- _ => vm_compute in H; discriminate H
           end|]);
  exact Hin.

(** [cleanTitle] on a title without parentheses followed by a
    parenthetical [K] whose lower case is the literal of [HK]. *)
Ltac strip_all T K HT HK :=
  let HT' := fresh "HT'" in
  let HK' := fresh "HK'" in
  pose proof (not_In_trimEnd _ _ HT) as HT';
  units K HK;
  match goal with H : JS.lowerChar ?k = "("%char |- _ =>
    apply lowerChar_lparen in H; subst k end;
  match goal with |- context [T ++ _ ++ "("%char :: ?K'] =>
    assert (HK' : ~ In "("%char K') by no_paren;
    unfold cleanTitle, officialMediaPattern, lyricsPattern,
      audioPattern, officialPattern, musicVideoPattern; cbn [seq];
    do 5 (strip_step T K' HT HK' HT')
  end.


(** ** [cleanTitle] *)

Lemma cleanTitle_no_paren T : ~ In "("%char T -> cleanTitle T = JS.trim T.
Proof.
  intros H. unfold cleanTitle, officialMediaPattern, lyricsPattern,
    audioPattern, officialPattern, musicVideoPattern. cbn [seq].
  now rewrite !(replace_no_paren _ _ T H).
Qed.

(** A listed qualifier in parentheses, in any case, at the end of a title
    that has no other parenthesis, is removed with the white space
    before it. *)
Lemma cleanTitle_noise T K :
  ~ In "("%char T -> In (JS.toLowerCase K) noiseQualifiers ->
  cleanTitle (T ++ " " ++ K) = JS.trim T.
Proof.
  intros HT HK. unfold noiseQualifiers in HK. cbn [In] in HK.
  destruct HK as [HK|[HK|[HK|[HK|[HK|[HK|[HK|[HK|[]]]]]]]]];
    symmetry in HK; strip_all T K HT HK; apply trim_trimEnd.
Qed.

(** A bare "(Video)", in any case, is left in place. *)
Lemma cleanTitle_video T K :
  ~ In "("%char T -> JS.toLowerCase K = "(video)" ->
  cleanTitle (T ++ " " ++ K) = JS.trim (T ++ " " ++ K).
Proof.
  intros HT HK. strip_all T K HT HK. reflexivity.
Qed.

Lemma buildSearchQueries_cleanTitle title1 title2 artist :
  cleanTitle title1 = cleanTitle title2 ->
  buildSearchQueries title1 artist = buildSearchQueries title2 artist.
Proof. intros H. unfold buildSearchQueries. now rewrite H. Qed.

Lemma buildSearchQueries_UsesTitle title artist :
  Forall (UsesTitle (cleanTitle title)) (buildSearchQueries title artist).
Proof.
  unfold buildSearchQueries.
  assert (T1 : forall a, UsesTitle (cleanTitle title)
                           (artistTrackQuery a (cleanTitle title))).
  { intros a. right. right. left. exists a. now left. }
  assert (T2 : forall a, UsesTitle (cleanTitle title)
                           (spaced a (cleanTitle title))).
  { intros a. right. right. left. exists a. right. now left. }
  assert (T3 : forall a, UsesTitle (cleanTitle title)
                           (spaced (cleanTitle title) a)).
  { intros a. right. right. left. exists a. right. now right. }
  cbv zeta. apply Forall_app. split; [|apply Forall_app; split].
  - destruct (JS.truthy artist && negb (JS.str_eqb artist "Unknown Artist"));
      [|constructor].
    apply Forall_app. split; [|apply Forall_app; split].
    + repeat (apply Forall_cons; [first [apply T1|apply T2|apply T3]|]).
      apply Forall_nil.
    + destruct (nth_error (split spacePattern artist) 0) as [first|];
        [|apply Forall_nil].
      destruct (JS.truthy first && (2 <? length first));
        repeat (apply Forall_cons; [first [apply T1|apply T2|apply T3]|]);
        apply Forall_nil.
    + destruct (nth_error _ _) as [last|]; [|apply Forall_nil].
      match goal with |- Forall _ (if ?b then _ else _) => destruct b end;
        repeat (apply Forall_cons; [first [apply T1|apply T2|apply T3]|]);
        apply Forall_nil.
  - constructor; [right; now left|]. constructor; [now left|constructor].
  - destruct (2 <? _); [|constructor].
    constructor; [right; right; right; now left|].
    constructor; [right; right; right; now right|constructor].
Qed.

(** C7 as stated fails for a bare "(Video)": the clean title of
    "Imagine (Video)" is the title itself, and every query emitted for it
    still holds the parenthetical, where "(Lyrics)" is removed. *)
Lemma bare_video_is_kept :
  cleanTitle "Imagine (Video)" = "Imagine (Video)"
  /\ forallb (fun q => JS.includes q "(Video)")
       (buildSearchQueries "Imagine (Video)" "John Lennon") = true
  /\ length (buildSearchQueries "Imagine (Video)" "John Lennon") = 9
  /\ cleanTitle "Imagine (Lyrics)" = "Imagine".
Proof. vm_compute. repeat split. Qed.

(** ** Lengths *)

Lemma replace_aux_length_empty n0 r skip s :
  length (replace_aux n0 r [] skip s) <= length s.
Proof.
  revert skip. induction s as [|a s IH]; intros skip; cbn [replace_aux].
  - destruct skip; [destruct (match_here n0 r [])|]; cbn; lia.
  - destruct skip as [|n]; [|specialize (IH n); cbn; lia].
    destruct (match_len n0 r (a :: s)) as [[|n]|]; cbn [app length].
    + specialize (IH 0). lia.
    + specialize (IH n). lia.
    + specialize (IH 0). lia.
Qed.

Lemma replace_length_empty r s : length (replace r [] s) <= length s.
Proof. apply replace_aux_length_empty. Qed.

Lemma replace_aux_length_unit n0 r a skip s :
  never_empty r -> length (replace_aux n0 r [a] skip s) <= length s.
Proof.
  intros Hr. revert skip.
  induction s as [|b s IH]; intros skip; cbn [replace_aux].
  - destruct skip; [|cbn; lia].
    pose proof (Hr n0 []) as H. unfold match_len in H.
    destruct (match_here n0 r []); [now destruct H | cbn; lia].
  - destruct skip as [|n]; [|specialize (IH n); cbn; lia].
    pose proof (Hr n0 (b :: s)) as H.
    destruct (match_len n0 r (b :: s)) as [[|n]|]; cbn [app length].
    + now destruct H.
    + specialize (IH n). lia.
    + specialize (IH 0). lia.
Qed.

Lemma never_empty_punct : never_empty punctPattern.
Proof.
  intros n0 s. unfold match_len, match_here, punctPattern. cbn [run].
  destruct s as [|a s]; [discriminate|].
  destruct (negb _); [|discriminate]. unfold accept. cbn [fst length].
  rewrite Nat.sub_succ_l, Nat.sub_diag by apply Nat.le_refl. discriminate.
Qed.

Lemma never_empty_spaces : never_empty spacesPattern.
Proof.
  intros n0 s. unfold match_len, match_here, spacesPattern, plus.
  cbn [run]. destruct s as [|a s]; [discriminate|].
  destruct (JS.isSpace a); [|discriminate].
  destruct (star_greedy _ _ s) as [m|] eqn:E; [|discriminate].
  apply star_greedy_inv in E as (u & s' & -> & _ & A).
  unfold accept in A. injection A as <-. cbn [fst length].
  rewrite length_app.
  replace (S (length u + length s') - length s') with (S (length u))
    by (rewrite Nat.sub_succ_l, Nat.add_sub by apply Nat.le_add_l;
        reflexivity).
  discriminate.
Qed.

Lemma trim_length s : length (JS.trim s) <= length s.
Proof.
  unfold JS.trim. pose proof (trimEnd_length (JS.trimStart s)).
  pose proof (trimStart_length s). lia.
Qed.

Lemma cleanTitleForComparison_length t :
  length (cleanTitleForComparison t) <= length t.
Proof.
  unfold cleanTitleForComparison.
  eapply Nat.le_trans; [apply trim_length|].
  eapply Nat.le_trans;
    [apply (replace_aux_length_unit _ _ " "%char), never_empty_spaces|].
  eapply Nat.le_trans;
    [apply (replace_aux_length_unit _ _ " "%char), never_empty_punct|].
  do 9 (eapply Nat.le_trans; [apply replace_length_empty|]).
  unfold JS.toLowerCase. now rewrite length_map.
Qed.

Lemma split_aux_length n0 r skip cur s :
  1 <= length (split_aux n0 r skip cur s) <= length s + 1.
Proof.
  revert skip cur. induction s as [|a s IH]; intros skip cur;
    cbn [split_aux]; [cbn; lia|].
  destruct skip as [|n]; [|specialize (IH n cur); cbn [length]; lia].
  destruct (match_len n0 r (a :: s)) as [[|n]|]; cbn [length].
  - specialize (IH 0 (a :: cur)). lia.
  - specialize (IH n []). lia.
  - specialize (IH 0 (a :: cur)). lia.
Qed.

Lemma split_length r s : 1 <= length (split r s) <= length s + 1.
Proof. apply split_aux_length. Qed.

(** The words of a clean title: at least one, and no more than the
    title has code units, plus one. *)
Lemma words_length t :
  1 <= length (split spacesPattern
                 (JS.toLowerCase (cleanTitleForComparison t)))
    <= length t + 1.
Proof.
  pose proof (split_length spacesPattern
                (JS.toLowerCase (cleanTitleForComparison t))) as H.
  assert (E : length (JS.toLowerCase (cleanTitleForComparison t))
              = length (cleanTitleForComparison t)) by apply length_map.
  rewrite E in H.
  pose proof (cleanTitleForComparison_length t). lia.
Qed.

(** ** binary64 arithmetic on numbers that are not negative *)

Lemma iter_pos_inv {A} (P : A -> Prop) (f : A -> A) :
  (forall x, P x -> P (f x)) -> forall p x, P x -> P (iter_pos f p x).
Proof.
  intros Hf. induction p as [p IH|p IH|]; intros x Hx; cbn [iter_pos]; auto.
Qed.

Lemma shr_1_nonneg mrs : (0 <= shr_m mrs -> 0 <= shr_m (shr_1 mrs))%Z.
Proof.
  destruct mrs as [m r s]. cbn [shr_m shr_1].
  destruct m as [|[p|p|]|[p|p|]]; cbn [shr_m]; lia.
Qed.

Lemma shr_nonneg mrs e n :
  (0 <= shr_m mrs -> 0 <= shr_m (fst (shr mrs e n)))%Z.
Proof.
  intros H. unfold shr. destruct n as [|p|p]; cbn [fst]; auto.
  apply (iter_pos_inv (fun x => 0 <= shr_m x)%Z); auto using shr_1_nonneg.
Qed.

Lemma shr_fexp_nonneg m e l :
  (0 <= m -> 0 <= shr_m (fst (shr_fexp Num.prec Num.emax m e l)))%Z.
Proof.
  intros H. unfold shr_fexp. apply shr_nonneg.
  destruct l as [|[]]; cbn [shr_record_of_loc shr_m]; exact H.
Qed.

Lemma round_nearest_even_nonneg m l :
  (0 <= m -> 0 <= round_nearest_even m l)%Z.
Proof.
  intros H. unfold round_nearest_even.
  destruct l as [|[]]; try destruct (Z.even m); lia.
Qed.

(** Rounding a mantissa that is not negative, with sign [+]. *)
Lemma binary_round_aux_nonneg m e l :
  (0 <= m)%Z -> nonneg (binary_round_aux Num.prec Num.emax false m e l).
Proof.
  intros H. unfold binary_round_aux.
  pose proof (shr_fexp_nonneg m e l H) as H1.
  destruct (shr_fexp Num.prec Num.emax m e l) as [mrs' e'].
  cbn [fst] in H1.
  pose proof (shr_fexp_nonneg _ e' loc_Exact
                (round_nearest_even_nonneg _ (loc_of_shr_record mrs') H1))
    as H2.
  destruct (shr_fexp Num.prec Num.emax _ e' loc_Exact) as [mrs'' e''].
  cbn [fst] in H2.
  destruct (shr_m mrs'') as [|p|p]; [exact I | | lia].
  destruct (Z.leb e'' _); reflexivity.
Qed.

Lemma binary_round_nonneg m e :
  nonneg (binary_round Num.prec Num.emax false m e).
Proof.
  unfold binary_round. destruct (shl_align _ _ _) as [mz ez].
  apply binary_round_aux_nonneg. lia.
Qed.

Lemma add_nonneg x y : nonneg x -> nonneg y -> nonneg (Num.add x y).
Proof.
  unfold Num.add, SFadd.
  destruct x as [sx|sx| |sx mx ex], y as [sy|sy| |sy my ey];
    cbn [nonneg]; intros Hx Hy; subst; try contradiction; try reflexivity;
    try exact I.
  - destruct sx, sy; exact I.
  - cbn [cond_Zopp]. rewrite <- Pos2Z.inj_add. cbn [binary_normalize].
    apply binary_round_nonneg.
Qed.

Lemma mul_finite_nonneg x m e :
  nonneg x -> nonneg (Num.mul x (S754_finite false m e)).
Proof.
  unfold Num.mul, SFmul.
  destruct x as [sx|sx| |sx mx ex]; cbn [nonneg]; intros Hx; subst;
    try contradiction; try exact I; try reflexivity.
  cbn [xorb]. apply binary_round_aux_nonneg. lia.
Qed.

Lemma div_finite_nonneg x m e :
  nonneg x -> nonneg (Num.div x (S754_finite false m e)).
Proof.
  unfold Num.div, SFdiv.
  destruct x as [sx|sx| |sx mx ex]; cbn [nonneg]; intros Hx; subst;
    try contradiction; try exact I; try reflexivity.
  cbn [xorb]. unfold SFdiv_core_binary.
  match goal with
  | |- context [Z.div_eucl ?a ?b] =>
      pose proof (Z_div_mod a b ltac:(lia)) as Hd;
      assert (Ha : (0 <= a)%Z);
      [|destruct (Z.div_eucl a b) as [q r]]
  end.
  - destruct (Z.sub _ _) as [|p|p]; [lia | | lia].
    apply Z.shiftl_nonneg. lia.
  - apply binary_round_aux_nonneg. nia.
Qed.

(** ** Integers below 2^53 are binary64 numbers *)

Lemma digits2_pos_lower p : (2 ^ (Zpos (digits2_pos p) - 1) <= Zpos p)%Z.
Proof.
  induction p as [p IH|p IH|]; cbn [digits2_pos]; [| |cbn; lia].
  - rewrite Pos2Z.inj_succ.
    replace (Z.succ (Zpos (digits2_pos p)) - 1)%Z
      with (Z.succ (Zpos (digits2_pos p) - 1))%Z by lia.
    rewrite Z.pow_succ_r by lia. lia.
  - rewrite Pos2Z.inj_succ.
    replace (Z.succ (Zpos (digits2_pos p)) - 1)%Z
      with (Z.succ (Zpos (digits2_pos p) - 1))%Z by lia.
    rewrite Z.pow_succ_r by lia. lia.
Qed.

Lemma digits2_pos_le p k :
  (0 <= k)%Z -> (Zpos p < 2 ^ k)%Z -> (Zpos (digits2_pos p) <= k)%Z.
Proof.
  intros Hk H. pose proof (digits2_pos_lower p) as L.
  destruct (Z.le_gt_cases (Zpos (digits2_pos p)) k) as [|G]; [assumption|].
  assert (2 ^ k <= 2 ^ (Zpos (digits2_pos p) - 1))%Z
    by (apply Z.pow_le_mono_r; lia).
  lia.
Qed.

Lemma digits2_shift_pos n p :
  digits2_pos (Pos.iter xO p n) = (digits2_pos p + n)%positive.
Proof.
  induction n as [|n IH] using Pos.peano_ind.
  - cbn. lia.
  - rewrite Pos.iter_succ. cbn [digits2_pos]. rewrite IH. lia.
Qed.

(** A mantissa of 53 bits in the exponent range is its own rounding. *)
Lemma binary_round_aux_exact mz ez :
  Zpos (digits2_pos mz) = Num.prec -> (-1074 <= ez <= 971)%Z ->
  binary_round_aux Num.prec Num.emax false (Zpos mz) ez loc_Exact
  = S754_finite false mz ez.
Proof.
  intros Hd He. unfold binary_round_aux, shr_fexp.
  cbn [Zdigits2 shr_record_of_loc]. rewrite Hd.
  assert (F : (fexp Num.prec Num.emax (Num.prec + ez) - ez = 0)%Z)
    by (unfold fexp, emin, Num.prec, Num.emax; lia).
  rewrite F. cbn [shr shr_m loc_of_shr_record round_nearest_even Zdigits2].
  rewrite Hd, F. cbn [shr shr_m].
  replace (ez <=? Num.emax - Num.prec)%Z with true; [reflexivity|].
  symmetry. apply Z.leb_le. unfold Num.prec, Num.emax. lia.
Qed.

Lemma digits2_pos_upper p : (Zpos p < 2 ^ Zpos (digits2_pos p))%Z.
Proof.
  induction p as [p IH|p IH|]; cbn [digits2_pos]; [| |cbn; lia];
    rewrite Pos2Z.inj_succ, Z.pow_succ_r by lia; lia.
Qed.

Lemma iter_xO_pow2 n p : Zpos (Pos.iter xO p n) = (Zpos p * 2 ^ Zpos n)%Z.
Proof.
  induction n as [|n IH] using Pos.peano_ind.
  - cbn [Pos.iter]. rewrite Pos2Z.inj_xO. change (2 ^ 1)%Z with 2%Z. lia.
  - rewrite Pos.iter_succ, Pos2Z.inj_xO, IH, Pos2Z.inj_succ, Z.pow_succ_r
      by lia. lia.
Qed.

(** The number of an integer [z] below 2^53: a mantissa of 53 bits,
    [z] shifted to the left, and the exponent that undoes the shift. *)
Lemma of_Z_canon z :
  (0 < z < 2 ^ 53)%Z ->
  exists m n, Num.of_Z z = S754_finite false m (- n)
              /\ (0 <= n <= 52)%Z /\ Zpos m = (z * 2 ^ n)%Z
              /\ (2 ^ 52 <= Zpos m < 2 ^ 53)%Z
              /\ Zpos (digits2_pos m) = 53%Z.
Proof.
  intros [H0 H]. destruct z as [|p|p]; try lia.
  unfold Num.of_Z, binary_normalize, binary_round.
  pose proof (digits2_pos_le p 53 ltac:(lia) H) as Hd.
  assert (F : (fexp Num.prec Num.emax (Zpos (digits2_pos p) + 0)
               = Zpos (digits2_pos p) - 53)%Z)
    by (unfold fexp, emin, Num.prec, Num.emax; lia).
  rewrite F. unfold shl_align.
  destruct (Zpos (digits2_pos p) - 53 - 0)%Z as [|d|d] eqn:E; try lia.
  - exists p, 0%Z. split; [|split; [lia|split; [cbn; lia|]]].
    + apply binary_round_aux_exact; [|lia]. unfold Num.prec. lia.
    + pose proof (digits2_pos_lower p) as L.
      replace (Zpos (digits2_pos p) - 1)%Z with 52%Z in L by lia.
      split; [split; assumption | lia].
  - assert (D : Zpos (digits2_pos (Pos.iter xO p d)) = 53%Z)
      by (rewrite digits2_shift_pos; lia).
    exists (Pos.iter xO p d), (Zpos d).
    split; [|split; [lia|split; [apply iter_xO_pow2|]]].
    + replace (- Zpos d)%Z with (Zpos (digits2_pos p) - 53)%Z by lia.
      apply binary_round_aux_exact; [exact D | lia].
    + pose proof (digits2_pos_lower (Pos.iter xO p d)) as L.
      pose proof (digits2_pos_upper (Pos.iter xO p d)) as U.
      rewrite D in L, U. split; [split; assumption | exact D].
Qed.

Lemma of_Z_pos z :
  (0 < z < 2 ^ 53)%Z -> exists m e, Num.of_Z z = S754_finite false m e.
Proof.
  intros H. destruct (of_Z_canon z H) as (m & n & E & _). eauto.
Qed.

Lemma of_Z_zero : Num.of_Z 0 = S754_zero false.
Proof. reflexivity. Qed.

Lemma of_Z_nonneg z : (0 <= z < 2 ^ 53)%Z -> nonneg (Num.of_Z z).
Proof.
  intros H. destruct (Z.eq_dec z 0) as [->|N]; [exact I|].
  destruct (of_Z_pos z ltac:(lia)) as (m & e & ->). reflexivity.
Qed.

(** ** The clamp [Math.min(score, 1.0)] *)

Lemma le_zero_nonneg x : nonneg x -> Num.le Num.zero x = true.
Proof.
  destruct x as [s|s| |s m e]; cbn [nonneg]; intros H; subst;
    try contradiction; reflexivity.
Qed.

Lemma nonneg_one : nonneg Num.one.
Proof. vm_compute. reflexivity. Qed.

Lemma min_finite_cases x m e :
  nonneg x ->
  (Num.gt x (S754_finite false m e) = true
   /\ Num.min x (S754_finite false m e) = S754_finite false m e)
  \/ (Num.le x (S754_finite false m e) = true
      /\ Num.min x (S754_finite false m e) = x).
Proof.
  unfold Num.gt, Num.le, Num.min, SFltb, SFleb, SFcompare.
  destruct x as [s|s| |s mx ex]; cbn [nonneg]; intros H; subst;
    try contradiction.
  - right. split; reflexivity.
  - left. split; reflexivity.
  - rewrite (Z.compare_antisym ex e).
    pose proof (Pos.compare_cont_antisym mx m Eq) as A.
    cbn [CompOpp] in A. rewrite <- A.
    destruct (Z.compare ex e); cbn [CompOpp];
      try (right; split; reflexivity); try (left; split; reflexivity).
    destruct (Pos.compare_cont Eq mx m); cbn [CompOpp];
      try (right; split; reflexivity); left; split; reflexivity.
Qed.

Lemma one_finite : exists m e, Num.one = S754_finite false m e.
Proof. vm_compute. eauto. Qed.

Lemma min_one_cases x :
  nonneg x ->
  (Num.gt x Num.one = true /\ Num.min x Num.one = Num.one)
  \/ (Num.le x Num.one = true /\ Num.min x Num.one = x).
Proof. destruct one_finite as (m & e & ->). apply min_finite_cases. Qed.

Lemma min_one_nonneg x : nonneg x -> nonneg (Num.min x Num.one).
Proof.
  intros H. destruct (min_one_cases x H) as [[_ ->]|[_ ->]];
    [apply nonneg_one | exact H].
Qed.

Lemma min_one_le x : nonneg x -> Num.le (Num.min x Num.one) Num.one = true.
Proof.
  intros H. destruct (min_one_cases x H) as [[_ ->]|[L ->]];
    [vm_compute; reflexivity | exact L].
Qed.

(** ** The components of the score *)

Ltac pow53 := change (2 ^ 53)%Z with 9007199254740992%Z in *.

Lemma wordSimilarity_nonneg t1 t2 :
  (Z.of_nat (length t1) < max_string_length)%Z ->
  (Z.of_nat (length t2) < max_string_length)%Z ->
  nonneg (wordSimilarity (cleanTitleForComparison t1)
                         (cleanTitleForComparison t2)).
Proof.
  unfold max_string_length. intros H1 H2. unfold wordSimilarity.
  pose proof (words_length t1) as W1. pose proof (words_length t2) as W2.
  remember (split spacesPattern
              (JS.toLowerCase (cleanTitleForComparison t1))) as ow.
  remember (split spacesPattern
              (JS.toLowerCase (cleanTitleForComparison t2))) as sw.
  pose proof (filter_length_le
                (fun word => existsb (JS.str_eqb word) sw) ow) as F.
  destruct (of_Z_pos (Z.of_nat (Nat.max (length ow) (length sw))))
    as (m & e & E); [pow53; lia|].
  unfold Num.of_nat at 2. rewrite E.
  apply div_finite_nonneg, of_Z_nonneg. pow53. lia.
Qed.

Lemma c_nonneg :
  nonneg c06 /\ nonneg c04 /\ nonneg c03 /\ nonneg c02 /\ nonneg c01.
Proof. vm_compute. repeat split. Qed.

Lemma c03_finite : exists m e, c03 = S754_finite false m e.
Proof. vm_compute. eauto. Qed.

Lemma titleComponent_nonneg track t :
  (Z.of_nat (length t) < max_string_length)%Z ->
  (Z.of_nat (length (SpotifyTrack.name track)) < max_string_length)%Z ->
  nonneg (titleComponent track t).
Proof.
  intros H1 H2. unfold titleComponent.
  destruct (JS.str_eqb _ _); [apply c_nonneg|].
  destruct (_ || _); [apply c_nonneg|].
  destruct c03_finite as (m & e & ->).
  apply mul_finite_nonneg, wordSimilarity_nonneg; assumption.
Qed.

Lemma artistComponent_cases track a :
  artistComponent track a = None
  \/ artistComponent track a = Some c02
  \/ artistComponent track a = Some c03.
Proof.
  unfold artistComponent. destruct a as [a|]; [|now left].
  destruct (_ && _); [|now left].
  destruct (option_map _ _) as [s|]; [|now left].
  destruct (JS.truthy s); [|now left].
  destruct (JS.str_eqb _ _); [now right; right|].
  destruct (_ || _); [now right; left | now left].
Qed.

Lemma popularityComponent_cases track :
  popularityComponent track = None \/ popularityComponent track = Some c01.
Proof.
  unfold popularityComponent. destruct (_ <? _)%Z; [now right | now left].
Qed.

Lemma add_opt_nonneg x o :
  nonneg x -> (forall v, o = Some v -> nonneg v) -> nonneg (add_opt x o).
Proof.
  intros Hx Ho. destruct o as [v|]; cbn [add_opt]; [|exact Hx].
  apply add_nonneg; auto.
Qed.

(** ** Rounding does not pass a binary64 number *)

Lemma iter_pos_count {A} (P : Z -> A -> Prop) (f : A -> A) :
  (forall k x, (0 <= k)%Z -> P k x -> P (k + 1)%Z (f x)) ->
  forall n k x, (0 <= k)%Z -> P k x -> P (k + Zpos n)%Z (iter_pos f n x).
Proof.
  intros Hf. induction n as [n IH|n IH|]; intros k x Hk Hx; cbn [iter_pos].
  - replace (k + Zpos n~1)%Z with (k + 1 + Zpos n + Zpos n)%Z by lia.
    apply IH; [lia|]. apply IH; [lia|]. apply Hf; assumption.
  - replace (k + Zpos n~0)%Z with (k + Zpos n + Zpos n)%Z by lia.
    apply IH; [lia|]. apply IH; assumption.
  - apply Hf; assumption.
Qed.

Lemma shr_1_m mrs : (0 <= shr_m mrs)%Z -> shr_m (shr_1 mrs) = (shr_m mrs / 2)%Z.
Proof.
  destruct mrs as [m r s]. cbn [shr_m shr_1]. intros H.
  destruct m as [|[p|p|]|p]; cbn [shr_m]; try lia.
  - reflexivity.
  - rewrite Pos2Z.inj_xI.
    apply (Z.div_unique_pos _ _ _ 1); lia.
  - rewrite Pos2Z.inj_xO.
    apply (Z.div_unique_pos _ _ _ 0); lia.
  - reflexivity.
Qed.

Lemma shr_1_exact mrs :
  shr_r mrs = false -> shr_s mrs = false -> (shr_m mrs mod 2 = 0)%Z ->
  shr_r (shr_1 mrs) = false /\ shr_s (shr_1 mrs) = false.
Proof.
  destruct mrs as [m r s]. cbn [shr_m shr_r shr_s shr_1].
  intros -> -> H. cbn [orb].
  destruct m as [|[p|p|]|[p|p|]]; cbn [shr_r shr_s]; try (split; reflexivity);
    exfalso.
  - rewrite Pos2Z.inj_xI in H.
    pose proof (Z.mod_unique_pos (2 * Zpos p + 1) 2 (Zpos p) 1
                  ltac:(lia) ltac:(lia)). lia.
  - cbv in H. discriminate.
  - rewrite Pos2Z.neg_xI in H.
    pose proof (Z.mod_unique_pos (2 * Zneg p - 1) 2 (Zneg p - 1) 1
                  ltac:(lia) ltac:(lia)). lia.
  - cbv in H. discriminate.
Qed.

(** [n] shifts to the right divide by [2^n], and lose nothing of a
    multiple of [2^n]. *)
Lemma shr_iter n mrs0 :
  (0 <= shr_m mrs0)%Z ->
  shr_m (iter_pos shr_1 n mrs0) = (shr_m mrs0 / 2 ^ Zpos n)%Z
  /\ (shr_r mrs0 = false -> shr_s mrs0 = false ->
      (shr_m mrs0 mod 2 ^ Zpos n = 0)%Z ->
      shr_r (iter_pos shr_1 n mrs0) = false
      /\ shr_s (iter_pos shr_1 n mrs0) = false).
Proof.
  intros Hm. set (m := shr_m mrs0) in *.
  pose (P := fun (k : Z) (x : shr_record) =>
               shr_m x = (m / 2 ^ k)%Z
               /\ (shr_r mrs0 = false -> shr_s mrs0 = false ->
                   (m mod 2 ^ k = 0)%Z ->
                   shr_r x = false /\ shr_s x = false)).
  change (P (Zpos n) (iter_pos shr_1 n mrs0)).
  replace (Zpos n) with (0 + Zpos n)%Z at 1 by lia.
  apply iter_pos_count; [|lia|].
  - intros k x Hk [Hx Ex]. unfold P in *.
    assert (Hp : (0 < 2 ^ k)%Z) by (apply Z.pow_pos_nonneg; lia).
    assert (Hk1 : (2 ^ (k + 1) = 2 ^ k * 2)%Z)
      by (rewrite Z.pow_add_r by lia; reflexivity).
    split.
    + rewrite shr_1_m.
      * rewrite Hx, Hk1, Z.div_div by lia. reflexivity.
      * rewrite Hx. apply Z.div_pos; lia.
    + intros R0 S0 Hmod.
      assert (D : (m = 2 ^ k * 2 * (m / (2 ^ k * 2)))%Z).
      { rewrite Hk1 in Hmod.
        pose proof (Z.div_mod m (2 ^ k * 2) ltac:(lia)). lia. }
      assert (M0 : (m mod 2 ^ k = 0)%Z).
      { rewrite D. rewrite <- Z.mul_assoc, Z.mul_comm. apply Z.mod_mul. lia. }
      destruct (Ex R0 S0 M0) as [R S].
      apply shr_1_exact; [assumption..|].
      rewrite Hx. rewrite D at 1.
      rewrite <- Z.mul_assoc, Z.mul_comm, Z.div_mul by lia.
      rewrite Z.mul_comm. apply Z.mod_mul. lia.
  - unfold P. rewrite Z.pow_0_r, Z.div_1_r.
    split; [reflexivity | intros R0 S0 _; split; assumption].
Qed.

Lemma Zdigits2_le m k :
  (0 <= m)%Z -> (0 <= k)%Z -> (m < 2 ^ k)%Z -> (Zdigits2 m <= k)%Z.
Proof.
  intros Hm Hk H. destruct m as [|p|p]; cbn [Zdigits2]; try lia.
  apply digits2_pos_le; assumption.
Qed.

Lemma round_nearest_even_le m l : (round_nearest_even m l <= m + 1)%Z.
Proof.
  unfold round_nearest_even. destruct l as [|[]]; try destruct (Z.even m); lia.
Qed.

Lemma loc_of_shr_record_of_loc m l :
  loc_of_shr_record (shr_record_of_loc m l) = l.
Proof. destruct l as [|[]]; reflexivity. Qed.

Lemma shr_m_record_of_loc m l : shr_m (shr_record_of_loc m l) = m.
Proof. destruct l as [|[]]; reflexivity. Qed.

(** The first step of rounding: the mantissa [m] at exponent [e], not
    above [K * 2^eK], is shifted to a mantissa at an exponent [e1] that
    is not above it either, and which the rounding to the nearest does
    not carry above it, when [m] is strictly below or exactly known. *)
Lemma shr_fexp_below K eK m e l :
  (0 <= m)%Z -> (e <= eK)%Z -> (-1074 <= eK)%Z -> (0 < K < 2 ^ 53)%Z ->
  (m <= K * 2 ^ (eK - e))%Z ->
  (snd (shr_fexp Num.prec Num.emax m e l) <= eK)%Z
  /\ (0 <= shr_m (fst (shr_fexp Num.prec Num.emax m e l))
       <= K * 2 ^ (eK - snd (shr_fexp Num.prec Num.emax m e l)))%Z
  /\ ((m < K * 2 ^ (eK - e))%Z \/ l = loc_Exact ->
      (round_nearest_even
         (shr_m (fst (shr_fexp Num.prec Num.emax m e l)))
         (loc_of_shr_record (fst (shr_fexp Num.prec Num.emax m e l)))
       <= K * 2 ^ (eK - snd (shr_fexp Num.prec Num.emax m e l)))%Z).
Proof.
  intros Hm He HeK [HK0 HK] Hb.
  assert (Hp : (0 < 2 ^ (eK - e))%Z) by (apply Z.pow_pos_nonneg; lia).
  assert (Hd : (Zdigits2 m <= 53 + eK - e)%Z).
  { apply Zdigits2_le; [lia..|].
    replace (53 + eK - e)%Z with (53 + (eK - e))%Z by lia.
    rewrite Z.pow_add_r by lia. nia. }
  assert (Hf : (fexp Num.prec Num.emax (Zdigits2 m + e) <= eK)%Z)
    by (unfold fexp, emin, Num.prec, Num.emax; lia).
  assert (Small : (m < K * 2 ^ (eK - e))%Z \/ l = loc_Exact ->
                  (round_nearest_even m l <= K * 2 ^ (eK - e))%Z).
  { intros [S| ->]; [|exact Hb].
    pose proof (round_nearest_even_le m l). lia. }
  unfold shr_fexp, shr.
  destruct (fexp Num.prec Num.emax (Zdigits2 m + e) - e)%Z as [|n|n] eqn:En;
    cbn [fst snd]; rewrite ?loc_of_shr_record_of_loc, ?shr_m_record_of_loc;
    try (split; [lia|]; split; [lia|]; exact Small).
  assert (E1 : (eK - e = (eK - (e + Zpos n)) + Zpos n)%Z) by lia.
  assert (Hq : (0 < 2 ^ Zpos n)%Z) by (apply Z.pow_pos_nonneg; lia).
  assert (Hr : (0 < 2 ^ (eK - (e + Zpos n)))%Z)
    by (apply Z.pow_pos_nonneg; lia).
  rewrite E1, Z.pow_add_r in Hb by lia.
  set (B := (K * 2 ^ (eK - (e + Zpos n)))%Z) in *.
  rewrite Z.mul_assoc in Hb. fold B in Hb.
  assert (HB : (0 < B)%Z) by (unfold B; lia).
  destruct (shr_iter n (shr_record_of_loc m l)) as [Q X];
    [rewrite shr_m_record_of_loc; exact Hm|].
  rewrite shr_m_record_of_loc in Q, X. rewrite Q.
  split; [lia|]. split.
  - split; [apply Z.div_pos; lia|].
    apply Z.div_le_upper_bound; lia.
  - intros C.
    destruct (Z.lt_ge_cases m (B * 2 ^ Zpos n)) as [S|G].
    + assert (m / 2 ^ Zpos n < B)%Z by (apply Z.div_lt_upper_bound; lia).
      pose proof (round_nearest_even_le (m / 2 ^ Zpos n)
                    (loc_of_shr_record
                       (iter_pos shr_1 n (shr_record_of_loc m l)))).
      lia.
    + assert (Em : m = (B * 2 ^ Zpos n)%Z) by lia.
      destruct C as [C| ->].
      { rewrite E1, Z.pow_add_r, Z.mul_assoc in C by lia. fold B in C. lia. }
      destruct X as [R S]; [reflexivity..| |].
      * rewrite Em. apply Z.mod_mul. lia.
      * unfold loc_of_shr_record.
        destruct (iter_pos shr_1 n (shr_record_of_loc m loc_Exact))
          as [m' r' s'].
        cbn [shr_r shr_s] in R, S. subst r' s'.
        cbn [round_nearest_even]. rewrite Em, Z.div_mul by lia. lia.
Qed.

(** Rounding to the nearest does not pass a number [K * 2^eK] of the
    format: a mantissa that is below it, or that is not above it and is
    exactly known, is rounded to a number that is not above it. *)
Lemma binary_round_aux_below K eK m e l :
  (0 <= m)%Z -> (e <= eK)%Z -> (-1074 <= eK <= 971)%Z ->
  (0 < K < 2 ^ 53)%Z ->
  (m < K * 2 ^ (eK - e))%Z
  \/ ((m <= K * 2 ^ (eK - e))%Z /\ l = loc_Exact) ->
  below K eK (binary_round_aux Num.prec Num.emax false m e l).
Proof.
  intros Hm He HeK HK C.
  assert (Hb : (m <= K * 2 ^ (eK - e))%Z) by (destruct C as [|[]]; lia).
  destruct (shr_fexp_below K eK m e l Hm He ltac:(lia) HK Hb)
    as (E1 & [M0 M1] & R).
  assert (R' := R ltac:(destruct C as [|[]]; auto)). clear R.
  unfold binary_round_aux.
  destruct (shr_fexp Num.prec Num.emax m e l) as [mrs1 e1].
  cbn [fst snd] in *.
  pose proof (round_nearest_even_nonneg _ (loc_of_shr_record mrs1) M0) as M2.
  destruct (shr_fexp_below K eK _ e1 loc_Exact M2 E1 ltac:(lia) HK R')
    as (E2 & [M20 M21] & _).
  destruct (shr_fexp Num.prec Num.emax _ e1 loc_Exact) as [mrs2 e2].
  cbn [fst snd] in *.
  destruct (shr_m mrs2) as [|p|p]; [exact I | | lia].
  replace (e2 <=? Num.emax - Num.prec)%Z with true.
  - cbn [below]. split; assumption.
  - symmetry. apply Z.leb_le. unfold Num.prec, Num.emax. lia.
Qed.

Lemma below_le K eK x m e :
  below K eK x -> (eK <= e)%Z -> (eK = e -> K <= Zpos m)%Z ->
  Num.le x (S754_finite false m e) = true.
Proof.
  unfold Num.le, SFleb, SFcompare.
  destruct x as [s|s| |[] mx ex]; cbn [below]; try contradiction;
    try reflexivity.
  intros [He Hm] HeK HK.
  destruct (Z.compare_spec ex e) as [E|L|G]; [|reflexivity|lia].
  subst ex. assert (eK = e) by lia. subst eK.
  rewrite Z.sub_diag, Z.pow_0_r, Z.mul_1_r in Hm.
  change (Pos.compare_cont Eq mx m) with (Pos.compare mx m).
  destruct (Pos.compare_spec mx m); try reflexivity.
  specialize (HK eq_refl). lia.
Qed.

Lemma below_nonneg K eK x : below K eK x -> nonneg x.
Proof.
  destruct x as [s|s| |[] m e]; cbn [below nonneg]; try contradiction;
    auto.
Qed.

(** ** The share of common words is at most one *)

Lemma new_location_0 n : new_location n 0 = loc_Exact.
Proof.
  unfold new_location, new_location_even, new_location_odd.
  destruct (Z.even n); reflexivity.
Qed.

Lemma div_below_one a b :
  (0 <= a <= b)%Z -> (0 < b < 2 ^ 53)%Z ->
  below (2 ^ 52) (-52) (Num.div (Num.of_Z a) (Num.of_Z b)).
Proof.
  intros [Ha Hab] Hb.
  destruct (of_Z_canon b Hb) as (mb & nb & Eb & Hnb & Vb & Rb & Db).
  destruct (Z.eq_dec a 0) as [->|Na].
  { rewrite Eb. exact I. }
  destruct (of_Z_canon a ltac:(lia)) as (ma & na & Ea & Hna & Va & Ra & Da).
  assert (Pa : (0 < 2 ^ na)%Z) by (apply Z.pow_pos_nonneg; lia).
  assert (Pb : (0 < 2 ^ nb)%Z) by (apply Z.pow_pos_nonneg; lia).
  assert (Hn : (nb <= na)%Z).
  { destruct (Z.le_gt_cases nb na) as [|G]; [assumption|exfalso].
    assert (E : (2 ^ nb = 2 ^ na * 2 ^ (nb - na))%Z)
      by (rewrite <- Z.pow_add_r by lia; f_equal; lia).
    assert (2 ^ 1 <= 2 ^ (nb - na))%Z by (apply Z.pow_le_mono_r; lia).
    change (2 ^ 1)%Z with 2%Z in *. pow53.
    change (2 ^ 52)%Z with 4503599627370496%Z in *. nia. }
  rewrite Ea, Eb. unfold Num.div, SFdiv. cbn [xorb].
  unfold SFdiv_core_binary. cbn [Zdigits2]. rewrite Da, Db.
  assert (Ee : Z.min (fexp Num.prec Num.emax (53 + - na - (53 + - nb)))
                     (- na - - nb) = (nb - na - 53)%Z)
    by (unfold fexp, emin, Num.prec, Num.emax; lia).
  rewrite Ee.
  replace (- na - - nb - (nb - na - 53))%Z with 53%Z by lia.
  cbv iota.
  change (IntDef.Z.shiftl (Zpos ma) 53) with (Z.shiftl (Zpos ma) 53).
  rewrite Z.shiftl_mul_pow2 by lia.
  change IntDef.Z.div_eucl with Z.div_eucl.
  set (X := (Zpos ma * 2 ^ 53)%Z). set (Y := Zpos mb).
  assert (Ed : Z.div_eucl X Y = (X / Y, X mod Y)%Z)
    by (unfold Z.div, Z.modulo; destruct (Z.div_eucl X Y); reflexivity).
  rewrite Ed.
  assert (Ek : (-52 - (nb - na - 53) = 1 + (na - nb))%Z) by lia.
  assert (Pd : (0 < 2 ^ (na - nb))%Z) by (apply Z.pow_pos_nonneg; lia).
  assert (En : (2 ^ na = 2 ^ nb * 2 ^ (na - nb))%Z)
    by (rewrite <- Z.pow_add_r by lia; f_equal; lia).
  assert (Hx : (0 <= X)%Z) by (unfold X; lia).
  apply binary_round_aux_below.
  - apply Z.div_pos; unfold Y; lia.
  - lia.
  - lia.
  - pow53. change (2 ^ 52)%Z with 4503599627370496%Z. lia.
  - rewrite Ek, Z.pow_add_r by lia. change (2 ^ 1)%Z with 2%Z.
    destruct (Z.eq_dec a b) as [->|Nab].
    + right. rewrite Ea in Eb. injection Eb as Em En'. subst mb.
      assert (na = nb) by lia. subst nb.
      unfold X, Y. rewrite Z.mul_comm, Z.div_mul, Z.mod_mul by lia.
      split; [|apply new_location_0].
      rewrite Z.sub_diag. vm_compute. discriminate.
    + left. apply Z.div_lt_upper_bound; [unfold Y; lia|].
      unfold X, Y. rewrite Va, Vb, En.
      replace (b * 2 ^ nb * (2 ^ 52 * (2 * 2 ^ (na - nb))))%Z
        with (b * (2 ^ nb * 2 ^ (na - nb) * 2 ^ 53))%Z
        by (change (2 ^ 53)%Z with (2 ^ 52 * 2)%Z; ring).
      rewrite <- Z.mul_assoc.
      apply Z.mul_lt_mono_pos_r; [|lia].
      apply Z.mul_pos_pos; [|reflexivity].
      apply Z.mul_pos_pos; assumption.
Qed.

(** A share of at most one, times a weight, is at most the weight. *)
Lemma mul_below_one x K eK :
  below (2 ^ 52) (-52) x -> (Zpos K < 2 ^ 53)%Z -> (-1074 <= eK <= 971)%Z ->
  below (Zpos K) eK (Num.mul x (S754_finite false K eK)).
Proof.
  intros Hx HK HeK. unfold Num.mul, SFmul.
  destruct x as [s|s| |[] mx ex]; cbn [below] in Hx; try contradiction;
    [exact I|].
  destruct Hx as [He Hm]. cbn [xorb].
  assert (E : (2 ^ (- ex) = 2 ^ 52 * 2 ^ (-52 - ex))%Z)
    by (rewrite <- Z.pow_add_r by lia; f_equal; lia).
  apply binary_round_aux_below; [lia | lia | lia | lia |].
  right. split; [|reflexivity].
  replace (eK - (ex + eK))%Z with (- ex)%Z by lia.
  rewrite E, Pos2Z.inj_mul, Z.mul_comm.
  apply Z.mul_le_mono_nonneg_l; lia.
Qed.

Lemma c03_value : c03 = S754_finite false 5404319552844595 (-54).
Proof. vm_compute. reflexivity. Qed.

Lemma c06_value : c06 = S754_finite false 5404319552844595 (-53).
Proof. vm_compute. reflexivity. Qed.

Lemma wordSimilarity_below_one t1 t2 :
  (Z.of_nat (length t1) < max_string_length)%Z ->
  (Z.of_nat (length t2) < max_string_length)%Z ->
  below (2 ^ 52) (-52)
    (wordSimilarity (cleanTitleForComparison t1)
                    (cleanTitleForComparison t2)).
Proof.
  unfold max_string_length. intros H1 H2. unfold wordSimilarity.
  pose proof (words_length t1) as W1. pose proof (words_length t2) as W2.
  remember (split spacesPattern
              (JS.toLowerCase (cleanTitleForComparison t1))) as ow.
  remember (split spacesPattern
              (JS.toLowerCase (cleanTitleForComparison t2))) as sw.
  pose proof (filter_length_le
                (fun word => existsb (JS.str_eqb word) sw) ow) as F.
  unfold Num.of_nat. apply div_below_one; pow53; lia.
Qed.

(** The title component is at most 0.6; in the branch of the common
    words it is at most 0.3. *)
Lemma titleComponent_le track t :
  (Z.of_nat (length t) < max_string_length)%Z ->
  (Z.of_nat (length (SpotifyTrack.name track)) < max_string_length)%Z ->
  Num.le (titleComponent track t) c06 = true.
Proof.
  intros H1 H2. unfold titleComponent.
  destruct (JS.str_eqb _ _); [vm_compute; reflexivity|].
  destruct (_ || _); [vm_compute; reflexivity|].
  rewrite c03_value, c06_value.
  apply (below_le 5404319552844595 (-54)); [|lia|lia].
  apply mul_below_one; [|reflexivity|lia].
  apply wordSimilarity_below_one; assumption.
Qed.

Lemma wordComponent_le t1 t2 :
  (Z.of_nat (length t1) < max_string_length)%Z ->
  (Z.of_nat (length t2) < max_string_length)%Z ->
  Num.le (Num.mul (wordSimilarity (cleanTitleForComparison t1)
                                  (cleanTitleForComparison t2)) c03)
         c03 = true.
Proof.
  intros H1 H2. rewrite c03_value.
  apply (below_le 5404319552844595 (-54)); [|lia|lia].
  apply mul_below_one; [|reflexivity|lia].
  apply wordSimilarity_below_one; assumption.
Qed.

(** ** C6 *)

(** C6.  The similarity scorer is a function of the candidate track and
    the guess alone (it reads and writes no state: it is outside the
    monad [M]).  For titles shorter than the longest string of the
    language, its result is the sum of three components, clamped by
    [Math.min(score, 1.0)].  The title component is 0.6, 0.4, or 0.3
    times the share of common words, which is at most 0.3; it lies
    between zero and 0.6.  The artist component is absent, 0.2 or 0.3.
    The popularity bonus is absent or 0.1.  The result [r] satisfies
    [0 <= r] and [r <= 1].  The numbers are binary64 and the comparisons
    are those of the language. *)
Theorem score_in_unit_interval (track : SpotifyTrack) (originalTitle : str)
    (originalArtist : option str) :
  (Z.of_nat (length originalTitle) < max_string_length)%Z ->
  (Z.of_nat (length (SpotifyTrack.name track)) < max_string_length)%Z ->
  Num.le Num.zero (titleComponent track originalTitle) = true
  /\ Num.le (titleComponent track originalTitle) c06 = true
  /\ (titleComponent track originalTitle = c06
      \/ titleComponent track originalTitle = c04
      \/ (titleComponent track originalTitle
          = Num.mul (wordSimilarity
                       (cleanTitleForComparison originalTitle)
                       (cleanTitleForComparison (SpotifyTrack.name track)))
                    c03
          /\ Num.le (titleComponent track originalTitle) c03 = true))
  /\ (artistComponent track originalArtist = None
      \/ artistComponent track originalArtist = Some c02
      \/ artistComponent track originalArtist = Some c03)
  /\ (popularityComponent track = None
      \/ popularityComponent track = Some c01)
  /\ calculateSimilarityScore track originalTitle originalArtist
     = Num.min
         (add_opt
            (add_opt (Num.add Num.zero (titleComponent track originalTitle))
                     (artistComponent track originalArtist))
            (popularityComponent track))
         Num.one
  /\ Num.le Num.zero
       (calculateSimilarityScore track originalTitle originalArtist) = true
  /\ Num.le (calculateSimilarityScore track originalTitle originalArtist)
       Num.one = true.
Proof.
  intros H1 H2.
  pose proof (titleComponent_nonneg track originalTitle H1 H2) as T.
  assert (S : nonneg
    (add_opt
       (add_opt (Num.add Num.zero (titleComponent track originalTitle))
                (artistComponent track originalArtist))
       (popularityComponent track))).
  { apply add_opt_nonneg; [apply add_opt_nonneg|].
    - apply add_nonneg; [exact I | exact T].
    - intros v Hv.
      destruct (artistComponent_cases track originalArtist) as [E|[E|E]];
        rewrite E in Hv; inversion Hv; subst; apply c_nonneg.
    - intros v Hv.
      destruct (popularityComponent_cases track) as [E|E];
        rewrite E in Hv; inversion Hv; subst; apply c_nonneg. }
  split; [apply le_zero_nonneg, T|].
  split; [apply titleComponent_le; assumption|].
  split.
  { unfold titleComponent. destruct (JS.str_eqb _ _); [now left|].
    destruct (_ || _); [now right; left|].
    right; right. split; [reflexivity|].
    apply wordComponent_le; assumption. }
  split; [apply artistComponent_cases|].
  split; [apply popularityComponent_cases|].
  split; [reflexivity|].
  unfold calculateSimilarityScore.
  split; [apply le_zero_nonneg, min_one_nonneg, S | apply min_one_le, S].
Qed.

Lemma score_in_unit_interval_witness :
  Num.le Num.zero
    (calculateSimilarityScore Ex.bigSmoke ("Big Smoke" : str)
       (Some ("Tash Sultana" : str))) = true
  /\ Num.le
       (calculateSimilarityScore Ex.bigSmoke ("Big Smoke" : str)
          (Some ("Tash Sultana" : str)))
       Num.one = true.
Proof.
  destruct (score_in_unit_interval Ex.bigSmoke ("Big Smoke" : str)
              (Some ("Tash Sultana" : str))
              ltac:(vm_compute; reflexivity)
              ltac:(vm_compute; reflexivity))
    as (_ & _ & _ & _ & _ & _ & L0 & L1).
  split; assumption.
Defined.

(* ================================================================== *)
(** * File names *)

(** ** Replacing the units of a class *)

Lemma match_here_Chr_nil n0 p : match_here n0 (Chr p) [] = None.
Proof. reflexivity. Qed.

Lemma match_len_Chr n0 p a s :
  match_len n0 (Chr p) (a :: s) = if p a then Some 1 else None.
Proof.
  unfold match_len, match_here. cbn [run]. destruct (p a); [|reflexivity].
  unfold accept. cbn [fst length].
  now rewrite Nat.sub_succ_l, Nat.sub_diag by apply Nat.le_refl.
Qed.

Lemma replace_aux_Chr n0 p rep s :
  replace_aux n0 (Chr p) rep 0 s
  = flat_map (fun a => if p a then rep else [a]) s.
Proof.
  induction s as [|a s IH]; cbn [replace_aux flat_map]; [reflexivity|].
  rewrite match_len_Chr. destruct (p a); rewrite IH; reflexivity.
Qed.

Lemma safeClass_spec a : safeClass a = safeChar a.
Proof.
  destruct a as [[] [] [] [] [] [] [] []]; vm_compute; reflexivity.
Qed.

(** [safeName] works unit by unit. *)
Lemma safeName_map s :
  safeName s = map (fun a => if safeChar a then a else "_"%char) s.
Proof.
  unfold safeName, replace, unsafeCharPattern. rewrite replace_aux_Chr.
  induction s as [|a s IH]; cbn [flat_map map]; [reflexivity|].
  unfold neg at 1. rewrite safeClass_spec, IH.
  destruct (safeChar a); reflexivity.
Qed.

Lemma safeName_app s t : safeName (s ++ t) = safeName s ++ safeName t.
Proof. rewrite !safeName_map. apply map_app. Qed.

Lemma safeName_safe s : forallb safeChar (safeName s) = true.
Proof.
  rewrite safeName_map. induction s as [|a s IH]; [reflexivity|].
  cbn [map forallb]. rewrite IH, andb_true_r.
  destruct (safeChar a) eqn:E; [exact E | reflexivity].
Qed.

Lemma safeName_fixed s : forallb safeChar s = true -> safeName s = s.
Proof.
  rewrite safeName_map. induction s as [|a s IH]; [reflexivity|].
  cbn [map forallb]. intros H. apply andb_prop in H as [Ha Hs].
  rewrite Ha, IH by exact Hs. reflexivity.
Qed.

Lemma safeName_length s : length (safeName s) = length s.
Proof. rewrite safeName_map. apply length_map. Qed.

Lemma forallb_not_In (p : ascii -> bool) a s :
  p a = false -> forallb p s = true -> ~ In a s.
Proof.
  intros Ha Hs Hin. rewrite forallb_forall in Hs.
  specialize (Hs a Hin). congruence.
Qed.

Lemma plainChar_safeChar s :
  forallb plainChar s = true -> forallb safeChar s = true.
Proof.
  rewrite !forallb_forall. intros H x Hx. unfold safeChar.
  now rewrite (H x Hx).
Qed.

(** ** Splitting at a unit *)

Lemma match_len_lit n0 c a s :
  match_len n0 (lit c) (a :: s) = if Ascii.eqb c a then Some 1 else None.
Proof. apply match_len_Chr. Qed.

Lemma split_aux_nonempty n0 r skip cur s : split_aux n0 r skip cur s <> [].
Proof.
  pose proof (split_aux_length n0 r skip cur s) as H.
  destruct (split_aux n0 r skip cur s); [cbn in H; lia | discriminate].
Qed.

Lemma split_aux_lit_plain n0 c cur s :
  ~ In c s -> split_aux n0 (lit c) 0 cur s = [rev cur ++ s].
Proof.
  revert cur. induction s as [|a s IH]; intros cur H; cbn [split_aux].
  - now rewrite app_nil_r.
  - rewrite match_len_lit.
    destruct (Ascii.eqb_spec c a) as [->|N]; [destruct H; now left|].
    rewrite IH by (intros Hin; apply H; now right).
    cbn [rev]. now rewrite <- app_assoc.
Qed.

Lemma split_aux_lit_app n0 c cur x y :
  split_aux n0 (lit c) 0 cur (x ++ c :: y)
  = removelast (split_aux n0 (lit c) 0 cur x)
    ++ (last (split_aux n0 (lit c) 0 cur x) [])
       :: split_aux n0 (lit c) 0 [] y.
Proof.
  revert cur. induction x as [|a x IH]; intros cur; cbn [app split_aux].
  - rewrite match_len_lit, Ascii.eqb_refl. reflexivity.
  - rewrite !match_len_lit. destruct (Ascii.eqb c a).
    + rewrite IH.
      pose proof (split_aux_nonempty n0 (lit c) 0 [] x) as N.
      destruct (split_aux n0 (lit c) 0 [] x) as [|p ps] eqn:E;
        [now destruct N|].
      change (removelast (rev cur :: p :: ps))
        with (rev cur :: removelast (p :: ps)).
      change (last (rev cur :: p :: ps) []) with (last (p :: ps) []).
      reflexivity.
    + apply IH.
Qed.

Lemma split_aux_lit_cons n0 c cur x y :
  ~ In c x ->
  split_aux n0 (lit c) 0 cur (x ++ c :: y)
  = (rev cur ++ x) :: split_aux n0 (lit c) 0 [] y.
Proof.
  intros H. rewrite split_aux_lit_app, split_aux_lit_plain by exact H.
  reflexivity.
Qed.

Lemma join_cons2 sep p q r :
  JS.join sep (p :: q :: r) = p ++ sep ++ JS.join sep (q :: r).
Proof. reflexivity. Qed.

(** The pieces between underscores, joined by spaces. *)
Lemma join_split_aux_underscore n0 cur s :
  JS.join " " (split_aux n0 (lit "_") 0 cur s)
  = rev cur ++ map (fun a => if Ascii.eqb "_" a then " "%char else a) s.
Proof.
  revert cur. induction s as [|a s IH]; intros cur; cbn [split_aux map].
  - cbn [JS.join]. now rewrite app_nil_r.
  - rewrite match_len_lit. destruct (Ascii.eqb "_" a).
    + pose proof (split_aux_nonempty n0 (lit "_") 0 [] s) as N.
      specialize (IH []).
      destruct (split_aux n0 (lit "_") 0 [] s) as [|p ps] eqn:E;
        [now destruct N|].
      rewrite join_cons2, IH. reflexivity.
    + rewrite IH. cbn [rev]. now rewrite <- app_assoc.
Qed.

(** ** The suffix [.mp3] *)

Lemma mp3_match_here n0 s m :
  match_here n0 mp3SuffixPattern s = Some m -> s = ".mp3".
Proof.
  unfold match_here, mp3SuffixPattern. cbn [seq run lit].
  destruct s as [|a s]; [discriminate|].
  destruct (Ascii.eqb_spec "." a) as [<-|]; [|discriminate].
  destruct s as [|a s]; [discriminate|].
  destruct (Ascii.eqb_spec "m" a) as [<-|]; [|discriminate].
  destruct s as [|a s]; [discriminate|].
  destruct (Ascii.eqb_spec "p" a) as [<-|]; [|discriminate].
  destruct s as [|a s]; [discriminate|].
  destruct (Ascii.eqb_spec "3" a) as [<-|]; [|discriminate].
  destruct s as [|a s]; [reflexivity|discriminate].
Qed.

Lemma replace_first_aux_mp3 n0 x :
  replace_first_aux n0 mp3SuffixPattern "" (x ++ ".mp3") = x.
Proof.
  induction x as [|a x IH].
  - reflexivity.
  - cbn [app replace_first_aux].
    destruct (match_len n0 mp3SuffixPattern (a :: x ++ ".mp3")) as [n|] eqn:E.
    + unfold match_len in E.
      destruct (match_here n0 mp3SuffixPattern (a :: x ++ ".mp3"))
        as [m|] eqn:M; [|discriminate].
      apply mp3_match_here in M. apply (f_equal (@length ascii)) in M.
      cbn [length] in M. rewrite length_app in M. cbn in M. lia.
    + now rewrite IH.
Qed.

Lemma split_aux_lit_count n0 c cur s :
  length (split_aux n0 (lit c) 0 cur s) = S (count_occ ascii_dec s c).
Proof.
  revert cur. induction s as [|a s IH]; intros cur; cbn [split_aux count_occ];
    [reflexivity|].
  rewrite match_len_lit.
  destruct (Ascii.eqb_spec c a) as [->|N].
  - destruct (ascii_dec a a) as [_|N]; [|now destruct N].
    cbn [length]. now rewrite IH.
  - destruct (ascii_dec a c) as [E|_]; [now destruct N|]. apply IH.
Qed.

Lemma safeChar_underscore_or_plain a :
  plainChar a = false ->
  (if safeChar a then a else "_"%char) = "_"%char.
Proof.
  unfold safeChar. intros ->. cbn [orb].
  destruct (Ascii.eqb_spec "_" a) as [<-|]; reflexivity.
Qed.

Lemma plain_no_underscore s : forallb plainChar s = true -> ~ In "_"%char s.
Proof. apply forallb_not_In. reflexivity. Qed.

Lemma safe_no_slash s : forallb safeChar s = true -> ~ In "/"%char s.
Proof. apply forallb_not_In. reflexivity. Qed.

Lemma safe_no_dot s : forallb safeChar s = true -> ~ In "."%char s.
Proof. apply forallb_not_In. reflexivity. Qed.

Lemma endsWith_app suffix x : endsWith suffix (x ++ suffix) = true.
Proof.
  unfold endsWith. rewrite rev_app_distr. apply startsWith_spec. eauto.
Qed.

Lemma not_In_app {A} (a : A) (x y : list A) :
  ~ In a x -> ~ In a y -> ~ In a (x ++ y).
Proof. intros Hx Hy H. apply in_app_or in H as [H|H]; auto. Qed.

Lemma fileName_no_slash m id : ~ In "/"%char id -> ~ In "/"%char (fileName m id).
Proof.
  intros Hid. unfold fileName.
  repeat (apply not_In_app;
          [first [apply safe_no_slash, safeName_safe
                 | exact Hid
                 | intros [E|[]]; discriminate E]|]).
  cbn. intros [E|[E|[E|[E|[]]]]]; discriminate E.
Qed.

Lemma map_plain_id (c : ascii) t :
  forallb plainChar t = true ->
  map (fun a => if plainChar a then a else c) t = t.
Proof.
  induction t as [|a t IH]; [reflexivity|].
  cbn [map forallb]. intros H. apply andb_prop in H as [Pa Ht].
  now rewrite Pa, IH.
Qed.

(** ** Looking an image up *)

Lemma toLowerCase_app s t :
  JS.toLowerCase (s ++ t) = JS.toLowerCase s ++ JS.toLowerCase t.
Proof. apply map_app. Qed.

Lemma findImage_found prefix variations imageFiles v name :
  In v variations -> In name imageFiles ->
  JS.startsWith (prefix ++ JS.toLowerCase v) (JS.toLowerCase name) = true ->
  exists img, findImage prefix variations imageFiles = Some img
              /\ In img imageFiles.
Proof.
  intros Hv Hn Hp. induction variations as [|w ws IH]; [destruct Hv|].
  cbn [findImage].
  destruct (find _ imageFiles) as [img|] eqn:F.
  - exists img. split; [reflexivity|]. now apply find_some in F.
  - destruct Hv as [->|Hv]; [|now apply IH].
    pose proof (find_none _ _ F name Hn) as C. cbv beta in C. congruence.
Qed.

Lemma findImage_single prefix variations name v :
  In v variations ->
  JS.startsWith (prefix ++ JS.toLowerCase v) (JS.toLowerCase name) = true ->
  findImage prefix variations [name] = Some name.
Proof.
  intros Hv Hp.
  destruct (findImage_found prefix variations [name] v name Hv
              ltac:(now left) Hp) as (img & E & [<-|[]]).
  exact E.
Qed.

Lemma stored_artist_prefix artist imageId extension :
  JS.startsWith ("artist_" ++ JS.toLowerCase (safeName artist))
    (JS.toLowerCase
       (imageFileName "artist" (artistIdentifier artist) imageId extension))
  = true.
Proof.
  unfold imageFileName, artistIdentifier. rewrite !toLowerCase_app.
  apply startsWith_spec. eexists.
  change (JS.toLowerCase "artist") with ("artist" : str).
  change (JS.toLowerCase "_") with ("_" : str).
  rewrite <- !app_assoc. reflexivity.
Qed.

Lemma stored_album_prefix artist album imageId extension :
  JS.startsWith
    ("album_" ++ JS.toLowerCase (safeName artist ++ "_" ++ safeName album))
    (JS.toLowerCase
       (imageFileName "album" (albumIdentifier artist album) imageId
          extension))
  = true.
Proof.
  unfold imageFileName, albumIdentifier. rewrite !safeName_app.
  change (safeName "_") with ("_" : str).
  rewrite !toLowerCase_app.
  apply startsWith_spec. eexists.
  change (JS.toLowerCase "album") with ("album" : str).
  change (JS.toLowerCase "_") with ("_" : str).
  rewrite <- !app_assoc. reflexivity.
Qed.

(** ** Stored names *)

(** X1.  [s.replace(/[^a-z0-9-_ ]/gi, "_")] keeps the length of the
    name, leaves only letters, digits, hyphens, underscores and spaces
    (so no slash and no dot), changes nothing in a name it has made
    safe, and works part by part on a concatenation. *)
Theorem safeName_keeps_safe_units (s t : str) :
  length (safeName s) = length s
  /\ forallb safeChar (safeName s) = true
  /\ ~ In "/"%char (safeName s)
  /\ ~ In "."%char (safeName s)
  /\ safeName (safeName s) = safeName s
  /\ safeName (s ++ t) = safeName s ++ safeName t.
Proof.
  split; [apply safeName_length|].
  split; [apply safeName_safe|].
  split; [apply safe_no_slash, safeName_safe|].
  split; [apply safe_no_dot, safeName_safe|].
  split; [apply safeName_fixed, safeName_safe | apply safeName_app].
Qed.

(** X2.  The file the import route stores for a user lies directly in
    the user's folder: with an id free of slashes, the file name holds no
    slash, its upload path passes the ownership check of the audio-url
    route, and the library page lists it as audio. *)
Theorem stored_file_is_owned_audio (userId : str)
    (finalMetadata : BasicMetadata) (id : str) :
  ~ In "/"%char id ->
  ~ In "/"%char (fileName finalMetadata id)
  /\ ownsPath userId (uploadPath userId (fileName finalMetadata id)) = true
  /\ isAudio (fileName finalMetadata id) = true.
Proof.
  intros Hid. pose proof (fileName_no_slash finalMetadata id Hid) as N.
  split; [exact N|]. split.
  - unfold ownsPath, uploadPath. apply startsWith_spec.
    exists (fileName finalMetadata id). now rewrite <- app_assoc.
  - unfold isAudio. apply andb_true_intro. split.
    + unfold fileName. rewrite !app_assoc. apply endsWith_app.
    + apply negb_true_iff.
      destruct (JS.includes (fileName finalMetadata id) "/images/") eqn:E;
        [|reflexivity].
      apply includes_spec in E as (p & q & E). destruct N. rewrite E.
      apply in_or_app. right. now left.
Qed.

Lemma stored_file_is_owned_audio_witness :
  ownsPath "u1"
    (uploadPath "u1"
       (fileName (BasicMetadata.mk "AC/DC" "Back in Black" "Hells Bells")
          "0b5c")) = true.
Proof.
  apply (stored_file_is_owned_audio "u1"
           (BasicMetadata.mk "AC/DC" "Back in Black" "Hells Bells") "0b5c").
  vm_compute. intros [E|[E|[E|[E|[]]]]]; discriminate E.
Defined.

(** X3.  Round trip of the file name.  When the artist and the album
    consist of letters, digits, hyphens and spaces, and the id holds no
    underscore, the library page reads back from the stored file name the
    artist, the album, and the title with a space for every other unit;
    so a title of letters, digits, hyphens and spaces is read back as it
    was. *)
Theorem file_name_round_trip (artist album title id : str) :
  forallb plainChar artist = true ->
  forallb plainChar album = true ->
  ~ In "_"%char id ->
  parseFileName (fileName (BasicMetadata.mk artist album title) id)
  = BasicMetadata.mk artist album
      (map (fun a => if plainChar a then a else " "%char) title)
  /\ (forallb plainChar title = true ->
      parseFileName (fileName (BasicMetadata.mk artist album title) id)
      = BasicMetadata.mk artist album title).
Proof.
  intros Ha Hb Hid.
  assert (E : parseFileName (fileName (BasicMetadata.mk artist album title) id)
              = BasicMetadata.mk artist album
                  (map (fun a => if plainChar a then a else " "%char) title)).
  { unfold parseFileName, fileName, replace_first.
    cbn [BasicMetadata.artist BasicMetadata.album BasicMetadata.title].
    rewrite (safeName_fixed artist), (safeName_fixed album)
      by now apply plainChar_safeChar.
    replace (artist ++ "_" ++ album ++ "_" ++ safeName title ++ "_"
               ++ id ++ ".mp3")
      with ((artist ++ "_" ++ album ++ "_" ++ safeName title ++ "_" ++ id)
              ++ ".mp3")
      by (now rewrite <- !app_assoc).
    rewrite replace_first_aux_mp3.
    set (full := artist ++ "_" ++ album ++ "_" ++ safeName title ++ "_"
                   ++ id).
    unfold split, underscorePattern.
    generalize (length full). intros n0. subst full.
    change (artist ++ "_" ++ album ++ "_" ++ safeName title ++ "_" ++ id)
      with (artist ++ "_"%char :: album ++ "_"%char
              :: safeName title ++ "_"%char :: id).
    rewrite (split_aux_lit_cons n0 "_" [] artist)
      by now apply plain_no_underscore.
    rewrite (split_aux_lit_cons n0 "_" [] album)
      by now apply plain_no_underscore.
    rewrite (split_aux_lit_app n0 "_" [] (safeName title) id).
    rewrite (split_aux_lit_plain n0 "_" [] id) by exact Hid.
    cbn [rev app].
    pose proof (split_aux_nonempty n0 (lit "_") 0 [] (safeName title)) as N.
    pose proof (join_split_aux_underscore n0 [] (safeName title)) as J.
    set (P := split_aux n0 (lit "_") 0 [] (safeName title)) in *.
    assert (EP : removelast P ++ [last P []] = P)
      by (symmetry; now apply app_removelast_last).
    replace (removelast P ++ [last P []; id])
      with ((removelast P ++ [last P []]) ++ [id])
      by (now rewrite <- app_assoc).
    rewrite EP.
    replace (4 <=? length (artist :: album :: P ++ [id])) with true.
    2:{ symmetry. apply Nat.leb_le. cbn [length]. rewrite length_app.
        destruct P; [now destruct N | cbn; lia]. }
    cbn [nth]. f_equal.
    unfold slice_2_m1. cbn [skipn length].
    rewrite length_app. cbn [length].
    replace (S (S (length P + 1)) - 1 - 2) with (length P + 0) by lia.
    rewrite firstn_app_2. cbn [firstn]. rewrite app_nil_r, J.
    cbn [rev app]. rewrite safeName_map, map_map.
    apply map_ext. intros a. unfold safeChar.
    destruct (plainChar a) eqn:Pa; cbn [orb].
    - destruct (Ascii.eqb_spec "_" a) as [<-|]; [discriminate Pa|reflexivity].
    - destruct (Ascii.eqb "_" a) eqn:U; [now rewrite U | reflexivity]. }
  split; [exact E|].
  intros Ht. rewrite E. f_equal. now apply map_plain_id.
Qed.

Lemma file_name_round_trip_witness :
  parseFileName
    (fileName (BasicMetadata.mk "Daft Punk" "Discovery" "One More Time")
       "0b5c-11")
  = BasicMetadata.mk "Daft Punk" "Discovery" "One More Time".
Proof.
  apply (file_name_round_trip "Daft Punk" "Discovery" "One More Time"
           "0b5c-11"); try reflexivity.
  cbn. intuition discriminate.
Defined.

(** X4.  What the library page reads back as the artist is the stored
    artist up to its first unit that is not a letter, a digit, a hyphen
    or a space: an artist with such a unit ("AC/DC") is cut there
    ("AC"), whatever the album, the title and the id. *)
Theorem file_name_artist_cut (finalMetadata : BasicMetadata)
    (id p r : str) :
  BasicMetadata.artist finalMetadata = p ++ r ->
  forallb plainChar p = true ->
  stops plainChar r ->
  BasicMetadata.artist (parseFileName (fileName finalMetadata id)) = p.
Proof.
  intros Ea Hp Hr. unfold parseFileName, fileName, replace_first.
  rewrite Ea, safeName_app, (safeName_fixed p)
    by now apply plainChar_safeChar.
  set (rest := safeName (BasicMetadata.album finalMetadata) ++ "_"
               ++ safeName (BasicMetadata.title finalMetadata) ++ "_" ++ id).
  assert (Ey : exists y,
             (p ++ safeName r) ++ "_" ++ rest = p ++ "_"%char :: y
             /\ 2 <= count_occ ascii_dec y "_"%char).
  { assert (C : 2 <= count_occ ascii_dec rest "_"%char).
    { unfold rest. rewrite !count_occ_app.
      change (count_occ ascii_dec "_" "_"%char) with 1. lia. }
    destruct r as [|a r].
    - exists rest. rewrite app_nil_r. split; [reflexivity | exact C].
    - exists (safeName r ++ "_" ++ rest). split.
      + rewrite (safeName_map (a :: r)). cbn [map].
        rewrite safeChar_underscore_or_plain by exact Hr.
        rewrite <- safeName_map, <- app_assoc. reflexivity.
      + rewrite !count_occ_app. lia. }
  destruct Ey as (y & Ey & Cy).
  replace ((p ++ safeName r) ++ "_" ++ rest ++ ".mp3")
    with (((p ++ safeName r) ++ "_" ++ rest) ++ ".mp3")
    by (now rewrite <- !app_assoc).
  replace ((p ++ safeName r) ++ "_"
           ++ safeName (BasicMetadata.album finalMetadata) ++ "_"
           ++ safeName (BasicMetadata.title finalMetadata) ++ "_"
           ++ id ++ ".mp3")
    with (((p ++ safeName r) ++ "_" ++ rest) ++ ".mp3")
    by (unfold rest; now rewrite <- !app_assoc).
  rewrite replace_first_aux_mp3, Ey.
  unfold split, underscorePattern.
  generalize (length (p ++ "_"%char :: y)). intros n0.
  rewrite (split_aux_lit_cons n0 "_" [] p) by now apply plain_no_underscore.
  cbn [rev app].
  replace (4 <=? length (p :: split_aux n0 (lit "_") 0 [] y)) with true.
  - reflexivity.
  - symmetry. apply Nat.leb_le. cbn [length].
    rewrite split_aux_lit_count. lia.
Qed.

Lemma file_name_artist_cut_witness :
  BasicMetadata.artist
    (parseFileName
       (fileName (BasicMetadata.mk "AC/DC" "Back in Black" "Hells Bells")
          "0b5c"))
  = "AC".
Proof.
  apply (file_name_artist_cut
           (BasicMetadata.mk "AC/DC" "Back in Black" "Hells Bells")
           "0b5c" "AC" "/DC"); reflexivity.
Defined.

(** X5.  An image stored by the import route is found by the library
    page.  The artist image that [getArtistImage] stores for an artist,
    and the album cover that [getAlbumCover] stores for an artist and an
    album, have names that the lookups of the library page for the same
    artist and album accept: among the image files that hold such a name
    a file is found, and it is that file when it is the only one. *)
Theorem stored_images_are_found (artist album imageId extension : str)
    (imageFiles : list str) :
  (In (imageFileName "artist" (artistIdentifier artist) imageId extension)
      imageFiles ->
   exists img, findArtistImage artist imageFiles = Some img
               /\ In img imageFiles)
  /\ (In (imageFileName "album" (albumIdentifier artist album) imageId
            extension) imageFiles ->
      exists img, findAlbumCover artist album imageFiles = Some img
                  /\ In img imageFiles)
  /\ findArtistImage artist
       [imageFileName "artist" (artistIdentifier artist) imageId extension]
     = Some (imageFileName "artist" (artistIdentifier artist) imageId
               extension)
  /\ findAlbumCover artist album
       [imageFileName "album" (albumIdentifier artist album) imageId
          extension]
     = Some (imageFileName "album" (albumIdentifier artist album) imageId
               extension).
Proof.
  assert (Va : In (safeName artist) (artistVariations artist))
    by (cbn; tauto).
  assert (Vb : In (safeName artist ++ "_" ++ safeName album)
                  (albumVariations artist album))
    by (cbn; tauto).
  repeat split.
  - intros H. eapply findImage_found; [exact Va | exact H |].
    apply stored_artist_prefix.
  - intros H. eapply findImage_found; [exact Vb | exact H |].
    apply stored_album_prefix.
  - eapply findImage_single; [exact Va | apply stored_artist_prefix].
  - eapply findImage_single; [exact Vb | apply stored_album_prefix].
Qed.

(* ================================================================== *)
(** * The title parser, rule by rule *)

(** ** Units a match must hold *)

Lemma run_must n0 r : forall s c k res,
  run n0 r s c k = Some res ->
  exists u s' c',
    s = u ++ s' /\ k s' c' = Some res /\ (forall a, must a r -> In a u).
Proof.
  induction r as [|p|r1 IH1 r2 IH2|r1 IH1 r2 IH2|g p|r1 IH1|i r1 IH1| |];
    intros s c k res; cbn [run must].
  - intros H. exists [], s, c. repeat split; auto; try now intros a [].
  - destruct s as [|a s]; [discriminate|]. destruct (p a) eqn:Pa;
      [|discriminate].
    intros H. exists [a], s, c. repeat split; auto.
    intros b Hb. left. now apply Hb.
  - intros H. destruct (IH1 _ _ _ _ H) as (u1 & s1 & c1 & -> & H1 & M1).
    destruct (IH2 _ _ _ _ H1) as (u2 & s2 & c2 & -> & H2 & M2).
    exists (u1 ++ u2), s2, c2. repeat split; auto.
    + now rewrite app_assoc.
    + intros a [Ha|Ha]; apply in_or_app; auto.
  - destruct (run n0 r1 s c k) as [x|] eqn:R1.
    + intros [= <-].
      destruct (IH1 _ _ _ _ R1) as (u1 & s1 & c1 & E & H1 & M1).
      exists u1, s1, c1. repeat split; auto. intros a [Ha _]. auto.
    + intros H. destruct (IH2 _ _ _ _ H) as (u2 & s2 & c2 & E & H2 & M2).
      exists u2, s2, c2. repeat split; auto. intros a [_ Ha]. auto.
  - destruct g; intros H;
      [apply star_greedy_inv in H | apply star_lazy_inv in H];
      destruct H as (u & s' & -> & _ & Hk);
      exists u, s', c; repeat split; auto; try now intros a [].
  - destruct (run n0 r1 s c k) as [x|] eqn:R1.
    + intros [= <-].
      destruct (IH1 _ _ _ _ R1) as (u1 & s1 & c1 & E & H1 & _).
      exists u1, s1, c1. repeat split; auto; try now intros a [].
    + intros H. exists [], s, c. repeat split; auto; try now intros a [].
  - intros H. destruct (IH1 _ _ _ _ H) as (u1 & s1 & c1 & E & H1 & M1).
    exists u1, s1, (set_cap i (firstn (length s - length s1) s) c1).
    repeat split; auto.
  - destruct (Nat.eqb (length s) n0); [|discriminate].
    intros H. exists [], s, c. repeat split; auto; try now intros a [].
  - destruct s; [|discriminate].
    intros H. exists [], [], c. repeat split; auto; try now intros a [].
Qed.

Lemma exec_from_suffix n0 r s arr :
  exec_from n0 r s = Some arr ->
  exists p s0 m, s = p ++ s0 /\ match_here n0 r s0 = Some m.
Proof.
  induction s as [|a s IH]; cbn [exec_from];
    destruct (match_here n0 r _) as [m|] eqn:E.
  - intros _. now exists [], [], m.
  - discriminate.
  - intros _. now exists [], (a :: s), m.
  - intros H. destruct (IH H) as (p & s0 & m & -> & M).
    now exists (a :: p), s0, m.
Qed.

(** A pattern whose matches hold a unit finds nothing in a string
    without it. *)
Lemma exec_must r s a : must a r -> ~ In a s -> exec r s = None.
Proof.
  intros Hm Hs. destruct (exec r s) as [arr|] eqn:E; [|reflexivity].
  apply exec_from_suffix in E as (p & s0 & m & E & M).
  apply run_must in M as (u & s' & c' & E' & _ & Mu).
  destruct Hs. rewrite E, E'. apply in_or_app. right.
  apply in_or_app. left. now apply Mu.
Qed.

Lemma must_lit a : must a (lit a).
Proof. intros x H. symmetry. apply Ascii.eqb_eq. exact H. Qed.

Lemma must_dash_songYearArtist : must "-" songYearArtistPattern.
Proof.
  unfold songYearArtistPattern; cbn [seq must]. do 7 right. left. exact (must_lit _).
Qed.

Lemma must_paren_songYearArtist : must "(" songYearArtistPattern.
Proof.
  unfold songYearArtistPattern; cbn [seq must]. do 3 right. left. exact (must_lit _).
Qed.

Lemma must_dash_dash : must "-" dashPattern.
Proof.
  unfold dashPattern; cbn [seq must]. do 3 right. left. exact (must_lit _).
Qed.

Lemma must_paren_songVideo : must "(" songVideoPattern.
Proof.
  unfold songVideoPattern; cbn [seq must]. do 3 right. left. exact (must_lit _).
Qed.

Lemma must_colon_artistColon : must ":" artistColonPattern.
Proof.
  unfold artistColonPattern; cbn [seq must]. do 3 right. left. exact (must_lit _).
Qed.

Lemma songYearArtistRule_no_dash s :
  ~ In "-"%char s -> songYearArtistRule s = Ret None.
Proof.
  intros H. unfold songYearArtistRule.
  now rewrite (exec_must _ _ _ must_dash_songYearArtist H).
Qed.

Lemma songYearArtistRule_no_paren s :
  ~ In "("%char s -> songYearArtistRule s = Ret None.
Proof.
  intros H. unfold songYearArtistRule.
  now rewrite (exec_must _ _ _ must_paren_songYearArtist H).
Qed.

Lemma dashRule_no_dash s : ~ In "-"%char s -> dashRule s = Ret None.
Proof.
  intros H. unfold dashRule. now rewrite (exec_must _ _ _ must_dash_dash H).
Qed.

Lemma songVideoRule_no_paren s : ~ In "("%char s -> songVideoRule s = Ret None.
Proof.
  intros H. unfold songVideoRule.
  now rewrite (exec_must _ _ _ must_paren_songVideo H).
Qed.

Lemma artistColonRule_no_colon s :
  ~ In ":"%char s -> artistColonRule s = Ret None.
Proof.
  intros H. unfold artistColonRule.
  now rewrite (exec_must _ _ _ must_colon_artistColon H).
Qed.

(** ** Trimmed fields *)

Lemma trimStart_idem s : JS.trimStart (JS.trimStart s) = JS.trimStart s.
Proof.
  induction s as [|a s IH]; [reflexivity|]. cbn [JS.trimStart].
  destruct (JS.isSpace a) eqn:E; [exact IH|].
  cbn [JS.trimStart]. now rewrite E.
Qed.

Lemma trim_idem s : JS.trim (JS.trim s) = JS.trim s.
Proof.
  unfold JS.trim at 2. rewrite trim_trimEnd. unfold JS.trim.
  now rewrite trimStart_idem.
Qed.

Lemma group_trim_Trimmed (arr : caps) i v :
  group_trim arr i = Ret v -> Trimmed v.
Proof.
  unfold group_trim. destruct (arr i); [|discriminate].
  intros [= <-]. apply trim_idem.
Qed.

Ltac trimmed_fields :=
  repeat match goal with
  | H : obind (group_trim ?m ?i) _ = Ret _ |- _ =>
      let v := fresh "v" in
      let E := fresh "E" in
      destruct (group_trim m i) as [v|] eqn:E; [|discriminate H];
      apply group_trim_Trimmed in E; cbn [obind] in H
  | H : (if ?b then _ else _) = Ret _ |- _ => destruct b
  | H : Ret (Some _) = Ret (Some _) |- _ => injection H as <-
  | H : Ret None = Ret (Some _) |- _ => discriminate H
  end;
  cbn [BasicMetadata.artist BasicMetadata.album BasicMetadata.title];
  repeat split; try assumption; try reflexivity.

Lemma songYearArtistRule_Trimmed s r :
  songYearArtistRule s = Ret (Some r) ->
  Trimmed (BasicMetadata.artist r) /\ Trimmed (BasicMetadata.album r)
  /\ Trimmed (BasicMetadata.title r).
Proof.
  unfold songYearArtistRule. destruct (exec _ s); [|discriminate].
  intros H. trimmed_fields.
Qed.

Lemma dashRule_Trimmed s r :
  dashRule s = Ret (Some r) ->
  Trimmed (BasicMetadata.artist r) /\ Trimmed (BasicMetadata.album r)
  /\ Trimmed (BasicMetadata.title r).
Proof.
  unfold dashRule. destruct (exec _ s); [|discriminate].
  intros H. trimmed_fields.
Qed.

Lemma songVideoRule_Trimmed s r :
  songVideoRule s = Ret (Some r) ->
  Trimmed (BasicMetadata.artist r) /\ Trimmed (BasicMetadata.album r)
  /\ Trimmed (BasicMetadata.title r).
Proof.
  unfold songVideoRule. destruct (exec _ s); [|discriminate].
  intros H. trimmed_fields.
Qed.

Lemma artistColonRule_Trimmed s r :
  artistColonRule s = Ret (Some r) ->
  Trimmed (BasicMetadata.artist r) /\ Trimmed (BasicMetadata.album r)
  /\ Trimmed (BasicMetadata.title r).
Proof.
  unfold artistColonRule. destruct (exec _ s); [|discriminate].
  intros H. trimmed_fields.
Qed.

(** ** Labels the rules decide *)

(** X6.  A label without a hyphen, a colon or an opening parenthesis is
    taken whole: no pattern rule applies, and the parser returns the
    trimmed label as the title, with the unknown artist and album. *)
Theorem plain_label_is_the_title (s : str) :
  ~ In "-"%char s -> ~ In ":"%char s -> ~ In "("%char s ->
  extractBasicMetadata s
  = Ret (BasicMetadata.mk "Unknown Artist" "Unknown Album" (JS.trim s)).
Proof.
  intros Hd Hc Hp. unfold extractBasicMetadata, or_next.
  rewrite (songYearArtistRule_no_dash s Hd), (dashRule_no_dash s Hd),
    (songVideoRule_no_paren s Hp), (artistColonRule_no_colon s Hc).
  reflexivity.
Qed.

Lemma plain_label_is_the_title_witness :
  extractBasicMetadata "  Bohemian Rhapsody "
  = Ret (BasicMetadata.mk "Unknown Artist" "Unknown Album"
           (JS.trim "  Bohemian Rhapsody ")).
Proof.
  apply (plain_label_is_the_title "  Bohemian Rhapsody ");
    cbn; intuition discriminate.
Defined.

(** X7.  Whatever rule decides, the artist, the album and the title the
    parser returns have no white space at either end. *)
Theorem parsed_fields_are_trimmed (s : str) (r : BasicMetadata) :
  extractBasicMetadata s = Ret r ->
  Trimmed (BasicMetadata.artist r) /\ Trimmed (BasicMetadata.album r)
  /\ Trimmed (BasicMetadata.title r).
Proof.
  unfold extractBasicMetadata, or_next.
  destruct (songYearArtistRule s) as [[r1|]|] eqn:R1; cbn [obind];
    [intros [= <-]; now apply (songYearArtistRule_Trimmed s)| |discriminate].
  destruct (dashRule s) as [[r2|]|] eqn:R2; cbn [obind];
    [intros [= <-]; now apply (dashRule_Trimmed s)| |discriminate].
  destruct (songVideoRule s) as [[r3|]|] eqn:R3; cbn [obind];
    [intros [= <-]; now apply (songVideoRule_Trimmed s)| |discriminate].
  destruct (artistColonRule s) as [[r4|]|] eqn:R4; cbn [obind];
    [intros [= <-]; now apply (artistColonRule_Trimmed s)| |discriminate].
  intros [= <-]. unfold fallbackMetadata.
  cbn [BasicMetadata.artist BasicMetadata.album BasicMetadata.title].
  repeat split; try reflexivity. apply trim_idem.
Qed.

Lemma parsed_fields_are_trimmed_witness :
  Trimmed (BasicMetadata.artist
             (BasicMetadata.mk "Queen" "Unknown Album" "Bohemian Rhapsody")).
Proof.
  apply (parsed_fields_are_trimmed "  Queen  -  Bohemian Rhapsody  "
           (BasicMetadata.mk "Queen" "Unknown Album" "Bohemian Rhapsody")).
  vm_compute. reflexivity.
Defined.

(** ** Ordered units *)

Ltac list_eq :=
  repeat (rewrite <- app_assoc || rewrite <- app_comm_cons); reflexivity.

Lemma run_must_then n0 r : forall s c k res,
  run n0 r s c k = Some res ->
  exists u s' c',
    s = u ++ s' /\ k s' c' = Some res
    /\ (forall a, must a r -> In a u)
    /\ (forall a b, must_then a b r ->
        exists x y z, u = x ++ a :: y ++ b :: z).
Proof.
  induction r as [|p|r1 IH1 r2 IH2|r1 IH1 r2 IH2|g p|r1 IH1|i r1 IH1| |];
    intros s c k res H;
    try (destruct (run_must n0 _ s c k res H) as (u & s' & c' & E & K & M);
         exists u, s', c'; repeat split; auto; now intros a b []).
  - cbn [run] in H.
    destruct (IH1 _ _ _ _ H) as (u1 & s1 & c1 & -> & H1 & M1 & T1).
    destruct (IH2 _ _ _ _ H1) as (u2 & s2 & c2 & -> & H2 & M2 & T2).
    exists (u1 ++ u2), s2, c2. repeat split; auto.
    + now rewrite app_assoc.
    + intros a [Ha|Ha]; apply in_or_app; auto.
    + intros a b [[Ha Hb]|[Ht|Ht]].
      * apply M1, in_split in Ha as (x & y & ->).
        apply M2, in_split in Hb as (x' & z & ->).
        exists x, (y ++ x'), z. list_eq.
      * destruct (T1 a b Ht) as (x & y & z & ->).
        exists x, y, (z ++ u2). list_eq.
      * destruct (T2 a b Ht) as (x & y & z & ->).
        exists (u1 ++ x), y, z. list_eq.
  - cbn [run] in H. destruct (run n0 r1 s c k) as [x|] eqn:R1.
    + injection H as <-.
      destruct (IH1 _ _ _ _ R1) as (u1 & s1 & c1 & E & H1 & M1 & T1).
      exists u1, s1, c1. repeat split; auto.
      * intros a [Ha _]. auto.
      * intros a b [Ha _]. auto.
    + destruct (IH2 _ _ _ _ H) as (u2 & s2 & c2 & E & H2 & M2 & T2).
      exists u2, s2, c2. repeat split; auto.
      * intros a [_ Ha]. auto.
      * intros a b [_ Ha]. auto.
  - cbn [run] in H.
    destruct (IH1 _ _ _ _ H) as (u1 & s1 & c1 & E & H1 & M1 & T1).
    exists u1, s1, (set_cap i (firstn (length s - length s1) s) c1).
    repeat split; auto.
Qed.

Lemma exec_must_then r s arr a b :
  exec r s = Some arr -> must_then a b r ->
  exists x y z, s = x ++ a :: y ++ b :: z.
Proof.
  intros E Hm. apply exec_from_suffix in E as (p & s0 & m & -> & M).
  apply run_must_then in M as (u & s' & c' & -> & _ & _ & T).
  destruct (T a b Hm) as (x & y & z & ->).
  exists (p ++ x), y, (z ++ s'). list_eq.
Qed.

(** The place of a unit that occurs once. *)
Lemma unique_split {A} (a : A) (pre post x y : list A) :
  ~ In a pre -> pre ++ a :: post = x ++ a :: y -> ~ In a x -> x = pre.
Proof.
  revert x. induction pre as [|b pre IH]; intros x Hp E Hx.
  - destruct x as [|c x]; [reflexivity|].
    cbn in E. injection E as <- _. destruct Hx. now left.
  - destruct x as [|c x].
    + cbn in E. injection E as -> _. destruct Hp. now left.
    + cbn in E. injection E as <- E. f_equal.
      apply IH; auto.
      * intros H. apply Hp. now right.
      * intros H. apply Hx. now right.
Qed.

Lemma first_occurrence {A} (dec : forall x y : A, {x = y} + {x <> y})
    (a : A) (l : list A) :
  In a l -> exists x y, l = x ++ a :: y /\ ~ In a x.
Proof.
  induction l as [|b l IH]; [intros []|].
  intros H. destruct (dec b a) as [->|N].
  - exists [], l. split; [reflexivity | intros []].
  - destruct H as [->|H]; [now destruct N|].
    destruct (IH H) as (x & y & -> & Hx).
    exists (b :: x), y. split; [reflexivity|].
    intros [E|Hin]; [now destruct N | now apply Hx].
Qed.

(** In a label whose first hyphen has no closing parenthesis before it,
    and none after it, Pattern 1 finds nothing. *)
Lemma songYearArtist_none pre post :
  ~ In ")"%char pre -> ~ In "-"%char pre -> ~ In "-"%char post ->
  exec songYearArtistPattern (pre ++ "-"%char :: post) = None.
Proof.
  intros Hp Hd Hq.
  destruct (exec songYearArtistPattern (pre ++ "-"%char :: post))
    as [arr|] eqn:E; [exfalso|reflexivity].
  apply (exec_must_then _ _ _ ")"%char "-"%char) in E as (x & y & z & E).
  - replace (x ++ ")"%char :: y ++ "-"%char :: z)
      with ((x ++ ")"%char :: y) ++ "-"%char :: z) in E
      by list_eq.
    assert (In "-"%char (x ++ ")"%char :: y) \/ ~ In "-"%char (x ++ ")"%char :: y))
      as [Hin|Hn].
    { destruct (in_dec ascii_dec "-"%char (x ++ ")"%char :: y)); auto. }
    + apply (first_occurrence ascii_dec) in Hin as (x1 & y1 & E1 & N1).
      rewrite E1, <- app_assoc in E. cbn [app] in E.
      pose proof (unique_split _ _ _ _ _ Hd E N1) as ->.
      apply app_inv_head in E. injection E as E.
      apply Hq. rewrite E. apply in_or_app. right. now left.
    + apply unique_split in E; auto.
      apply Hp. rewrite <- E. apply in_or_app. right. now left.
  - unfold songYearArtistPattern. cbn [seq must_then must].
    do 5 (right; right). left. split; [exact (must_lit _)|].
    right. left. exact (must_lit _).
Qed.

(** ** The dash rule *)

Lemma Name_ends s :
  Name s ->
  exists a s', s = a :: s' /\ JS.dot a = true /\ forallb JS.dot s' = true
               /\ JS.isSpace a = false
               /\ exists s0 z, s = s0 ++ [z] /\ JS.isSpace z = false.
Proof.
  intros (Hne & Ht & Hd).
  destruct (trimmed_ends s Hne Ht) as [Hs L].
  destruct s as [|a s']; [contradiction|].
  cbn in Hd. apply andb_true_iff in Hd as [Ha Hd].
  exists a, s'. repeat split; auto.
Qed.

(** No proper suffix of a name, followed by anything, starts (after
    white space) with a unit the name does not hold. *)
Lemma suffix_firstNonSpace a0 s' s0 z x u1 u2 v :
  a0 :: s' = s0 ++ [z] -> JS.isSpace z = false -> ~ In x (a0 :: s') ->
  s' = u1 ++ u2 -> u2 <> [] ->
  firstNonSpace (u2 ++ v) <> Some x.
Proof.
  intros E Hz Hx Eu Hne.
  destruct (suffix_last (a0 :: s') (a0 :: u1) u2 s0 z) as [w ->]; auto.
  { cbn. now rewrite Eu. }
  apply firstNonSpace_suffix; [exact Hz|].
  intros Hin. apply Hx. right. rewrite Eu. apply in_or_app. now right.
Qed.

Lemma run_Opt_none n0 r s c k :
  run n0 r s c k = None -> run n0 (Opt r) s c k = k s c.
Proof. intros H. cbn [run]. now rewrite H. Qed.

Lemma run_Opt_some n0 r s c k res :
  run n0 r s c k = Some res -> run n0 (Opt r) s c k = Some res.
Proof. intros H. cbn [run]. now rewrite H. Qed.

Lemma run_Eol_cons n0 a s c k : run n0 Eol (a :: s) c k = None.
Proof. reflexivity. Qed.

Lemma run_group_plus_lazy_all n0 i p a u c k r :
  p a = true -> forallb p u = true ->
  (forall u1 u2 c', u = u1 ++ u2 -> u2 <> [] -> k u2 c' = None) ->
  k [] (set_cap i (a :: u) c) = Some r ->
  run n0 (Group i (plus false p)) (a :: u) c k = Some r.
Proof.
  intros Ha Hu Hk Hr.
  pose proof (run_group_plus_lazy n0 i p a u [] c k r Ha Hu) as H.
  rewrite app_nil_r in H. apply H; [|exact Hr].
  intros u1 u2 c' E Hne. rewrite app_nil_r. now apply (Hk u1).
Qed.

Lemma dash2_match_here A w1 w2 B :
  Name A -> ~ In "-"%char A -> Blank w1 -> Blank w2 ->
  Name B -> ~ In "-"%char B ->
  match_here (length (A ++ w1 ++ "-"%char :: w2 ++ B)) dashPattern
    (A ++ w1 ++ "-"%char :: w2 ++ B)
  = Some ([], set_cap 2 B (set_cap 1 A no_caps)).
Proof.
  intros HA HdA Hw1 Hw2 HB HdB.
  destruct (Name_ends A HA) as (a0 & A' & -> & Ha0 & HA' & _ & A0 & za & EA & Hza).
  destruct (Name_ends B HB) as (b0 & B' & -> & Hb0 & HB' & Hsb & B0 & zb & EB & Hzb).
  unfold match_here, dashPattern. cbn [seq].
  rewrite run_Seq, run_Bol, run_Seq.
  cbn [app]. apply run_group_plus_lazy; auto.
  - intros u1 u2 c' E Hne. apply run_sp_lit_none; [reflexivity|].
    exact (suffix_firstNonSpace a0 A' A0 za _ u1 u2 _ EA Hza HdA E Hne).
  - rewrite run_Seq.
    apply run_sp_max; [exact Hw1 | reflexivity |].
    rewrite run_Seq, run_lit, run_Seq.
    apply run_sp_max; [exact Hw2 | exact Hsb |].
    rewrite run_Seq.
    apply run_group_plus_lazy_all; auto.
    intros u1 u2 c' E Hne. rewrite run_Seq, run_Opt_none.
    + destruct u2; [contradiction | reflexivity].
    + apply run_sp_lit_none; [reflexivity|]. rewrite <- (app_nil_r u2).
      exact (suffix_firstNonSpace b0 B' B0 zb _ u1 u2 _ EB Hzb HdB E Hne).
Qed.

Lemma Blank_not_In a w : JS.isSpace a = false -> Blank w -> ~ In a w.
Proof. apply forallb_not_In. Qed.

Lemma dashRule_two A w1 w2 B :
  Name A -> ~ In "-"%char A -> Blank w1 -> Blank w2 ->
  Name B -> ~ In "-"%char B ->
  dashRule (A ++ w1 ++ "-"%char :: w2 ++ B)
  = Ret (Some (BasicMetadata.mk A "Unknown Album" B)).
Proof.
  intros HA HdA Hw1 Hw2 HB HdB. unfold dashRule.
  rewrite (exec_here _ _ _ (dash2_match_here A w1 w2 B HA HdA Hw1 Hw2 HB HdB)).
  cbn [match_array snd set_cap Nat.eqb JS.truthyOpt].
  destruct HA as (_ & HtA & _). destruct HB as (HneB & HtB & _).
  replace (JS.truthy B) with true by (destruct B; [contradiction|reflexivity]).
  rewrite (group_trim_fixed _ 1 A eq_refl HtA). cbn [obind].
  rewrite (group_trim_fixed _ 2 B eq_refl HtB). reflexivity.
Qed.

Lemma dash3_match_here A w1 w2 B w3 w4 C :
  Name A -> ~ In "-"%char A -> Blank w1 -> Blank w2 ->
  Name B -> ~ In "-"%char B -> Blank w3 -> Blank w4 -> Name C ->
  match_here
    (length (A ++ w1 ++ "-"%char :: w2 ++ B ++ w3 ++ "-"%char :: w4 ++ C))
    dashPattern
    (A ++ w1 ++ "-"%char :: w2 ++ B ++ w3 ++ "-"%char :: w4 ++ C)
  = Some ([], set_cap 3 C (set_cap 2 B (set_cap 1 A no_caps))).
Proof.
  intros HA HdA Hw1 Hw2 HB HdB Hw3 Hw4 HC.
  destruct (Name_ends A HA)
    as (a0 & A' & -> & Ha0 & HA' & _ & A0 & za & EA & Hza).
  destruct (Name_ends B HB)
    as (b0 & B' & -> & Hb0 & HB' & Hsb & B0 & zb & EB & Hzb).
  destruct (Name_ends C HC)
    as (c0 & C' & -> & Hc0 & HC' & Hsc & _).
  unfold match_here, dashPattern. cbn [seq].
  rewrite run_Seq, run_Bol, run_Seq.
  cbn [app]. apply run_group_plus_lazy; auto.
  - intros u1 u2 c' E Hne. apply run_sp_lit_none; [reflexivity|].
    exact (suffix_firstNonSpace a0 A' A0 za _ u1 u2 _ EA Hza HdA E Hne).
  - rewrite run_Seq.
    apply run_sp_max; [exact Hw1 | reflexivity |].
    rewrite run_Seq, run_lit, run_Seq.
    apply run_sp_max; [exact Hw2 | exact Hsb |].
    rewrite run_Seq.
    apply run_group_plus_lazy; auto.
    + intros u1 u2 c' E Hne. rewrite run_Seq, run_Opt_none.
      * destruct u2; [contradiction | reflexivity].
      * apply run_sp_lit_none; [reflexivity|].
        exact (suffix_firstNonSpace b0 B' B0 zb _ u1 u2 _ EB Hzb HdB E Hne).
    + rewrite run_Seq. apply run_Opt_some.
      rewrite run_Seq.
      apply run_sp_max; [exact Hw3 | reflexivity |].
      rewrite run_Seq, run_lit, run_Seq.
      apply run_sp_max; [exact Hw4 | exact Hsc |].
      apply run_group_plus_greedy_all; auto.
Qed.

Lemma dashRule_three A w1 w2 B w3 w4 C :
  Name A -> ~ In "-"%char A -> Blank w1 -> Blank w2 ->
  Name B -> ~ In "-"%char B -> Blank w3 -> Blank w4 -> Name C ->
  dashRule (A ++ w1 ++ "-"%char :: w2 ++ B ++ w3 ++ "-"%char :: w4 ++ C)
  = Ret (Some (BasicMetadata.mk A B C)).
Proof.
  intros HA HdA Hw1 Hw2 HB HdB Hw3 Hw4 HC. unfold dashRule.
  rewrite (exec_here _ _ _
             (dash3_match_here A w1 w2 B w3 w4 C
                HA HdA Hw1 Hw2 HB HdB Hw3 Hw4 HC)).
  cbn [match_array snd set_cap Nat.eqb JS.truthyOpt].
  destruct HA as (_ & HtA & _). destruct HB as (_ & HtB & _).
  destruct HC as (HneC & HtC & _).
  replace (JS.truthy C) with true by (destruct C; [contradiction|reflexivity]).
  rewrite (group_trim_fixed _ 1 A eq_refl HtA). cbn [obind].
  rewrite (group_trim_fixed _ 2 B eq_refl HtB). cbn [obind].
  rewrite (group_trim_fixed _ 3 C eq_refl HtC). reflexivity.
Qed.

(** ** The video rule and the colon rule *)




Lemma artistColon_match_here A w1 w2 B :
  Name A -> ~ In ":"%char A -> Blank w1 -> Blank w2 -> Name B ->
  match_here (length (A ++ w1 ++ ":"%char :: w2 ++ B)) artistColonPattern
    (A ++ w1 ++ ":"%char :: w2 ++ B)
  = Some ([], set_cap 2 B (set_cap 1 A no_caps)).
Proof.
  intros HA HcA Hw1 Hw2 HB.
  destruct (Name_ends A HA)
    as (a0 & A' & -> & Ha0 & HA' & _ & A0 & za & EA & Hza).
  destruct (Name_ends B HB)
    as (b0 & B' & -> & Hb0 & HB' & Hsb & _).
  unfold match_here, artistColonPattern. cbn [seq].
  rewrite run_Seq, run_Bol, run_Seq.
  cbn [app]. apply run_group_plus_lazy; auto.
  - intros u1 u2 c' E Hne. apply run_sp_lit_none; [reflexivity|].
    exact (suffix_firstNonSpace a0 A' A0 za _ u1 u2 _ EA Hza HcA E Hne).
  - rewrite run_Seq.
    apply run_sp_max; [exact Hw1 | reflexivity |].
    rewrite run_Seq, run_lit, run_Seq.
    apply run_sp_max; [exact Hw2 | exact Hsb |].
    rewrite run_Seq.
    apply run_group_plus_greedy_all; auto.
Qed.

Lemma artistColonRule_colon A w1 w2 B :
  Name A -> ~ In ":"%char A -> Blank w1 -> Blank w2 -> Name B ->
  artistColonRule (A ++ w1 ++ ":"%char :: w2 ++ B)
  = Ret (Some (BasicMetadata.mk A "Unknown Album" B)).
Proof.
  intros HA HcA Hw1 Hw2 HB. unfold artistColonRule.
  rewrite (exec_here _ _ _
             (artistColon_match_here A w1 w2 B HA HcA Hw1 Hw2 HB)).
  destruct HA as (_ & HtA & _). destruct HB as (_ & HtB & _).
  rewrite (group_trim_fixed _ 1 A eq_refl HtA). cbn [obind].
  rewrite (group_trim_fixed _ 2 B eq_refl HtB). reflexivity.
Qed.

Lemma not_In_cons {A} (a b : A) (l : list A) :
  a <> b -> ~ In a l -> ~ In a (b :: l).
Proof. intros N H [E|Hin]; [now destruct N | now apply H]. Qed.

(** A unit that is in no part of a label is not in the label. *)
Ltac not_in_label :=
  repeat first
    [ apply not_In_app
    | assumption
    | apply Blank_not_In; [reflexivity | assumption]
    | apply not_In_cons; [discriminate|]
    | apply in_nil ].

(** X8.  "Artist - Song".  A label made of two names around one hyphen
    (white space around the hyphen, or none), with no other hyphen and no
    closing parenthesis in front of the hyphen, is parsed into the artist
    and the title, with the unknown album; the title may hold
    parentheses. *)
Theorem artist_dash_song (A w1 w2 B : str) :
  Name A -> ~ In "-"%char A -> ~ In ")"%char A ->
  Blank w1 -> Blank w2 ->
  Name B -> ~ In "-"%char B ->
  extractBasicMetadata (A ++ w1 ++ "-"%char :: w2 ++ B)
  = Ret (BasicMetadata.mk A "Unknown Album" B).
Proof.
  intros HA HdA HpA Hw1 Hw2 HB HdB.
  unfold extractBasicMetadata, or_next.
  assert (R1 : songYearArtistRule (A ++ w1 ++ "-"%char :: w2 ++ B)
               = Ret None).
  { unfold songYearArtistRule. rewrite app_assoc.
    rewrite songYearArtist_none; [reflexivity| | |].
    - apply not_In_app; [exact HpA | now apply Blank_not_In].
    - apply not_In_app; [exact HdA | now apply Blank_not_In].
    - apply not_In_app; [now apply Blank_not_In | exact HdB]. }
  rewrite R1. cbn [obind].
  now rewrite (dashRule_two A w1 w2 B HA HdA Hw1 Hw2 HB HdB).
Qed.

Lemma artist_dash_song_witness :
  extractBasicMetadata ("Queen" ++ " " ++ "-"%char :: " "
                          ++ "Bohemian Rhapsody (Official Video)")
  = Ret (BasicMetadata.mk "Queen" "Unknown Album"
           "Bohemian Rhapsody (Official Video)").
Proof.
  apply (artist_dash_song "Queen" " " " "
           "Bohemian Rhapsody (Official Video)");
    try (repeat split; try reflexivity; discriminate);
    try (cbn; intuition discriminate).
Defined.

(** X9.  "Artist - Album - Song".  A label made of three names around
    two hyphens, the first two names without a hyphen and the label
    without an opening parenthesis, is parsed into the artist, the album
    and the title; hyphens in the third name stay in the title. *)
Theorem artist_album_song (A w1 w2 B w3 w4 C : str) :
  Name A -> ~ In "-"%char A -> Blank w1 -> Blank w2 ->
  Name B -> ~ In "-"%char B -> Blank w3 -> Blank w4 -> Name C ->
  ~ In "("%char (A ++ B ++ C) ->
  extractBasicMetadata
    (A ++ w1 ++ "-"%char :: w2 ++ B ++ w3 ++ "-"%char :: w4 ++ C)
  = Ret (BasicMetadata.mk A B C).
Proof.
  intros HA HdA Hw1 Hw2 HB HdB Hw3 Hw4 HC Hp.
  unfold extractBasicMetadata, or_next.
  rewrite songYearArtistRule_no_paren.
  - cbn [obind].
    now rewrite (dashRule_three A w1 w2 B w3 w4 C
                   HA HdA Hw1 Hw2 HB HdB Hw3 Hw4 HC).
  - assert (Ha : ~ In "("%char A)
      by (intros H; apply Hp, in_or_app; now left).
    assert (Hb : ~ In "("%char B)
      by (intros H; apply Hp, in_or_app; right; apply in_or_app; now left).
    assert (Hc : ~ In "("%char C)
      by (intros H; apply Hp, in_or_app; right; apply in_or_app; now right).
    not_in_label.
Qed.

Lemma artist_album_song_witness :
  extractBasicMetadata
    ("Pink Floyd" ++ " " ++ "-"%char :: " " ++ "The Wall" ++ " "
       ++ "-"%char :: " " ++ "Hey You")
  = Ret (BasicMetadata.mk "Pink Floyd" "The Wall" "Hey You").
Proof.
  apply (artist_album_song "Pink Floyd" " " " " "The Wall" " " " "
           "Hey You");
    try (repeat split; try reflexivity; discriminate);
    try (cbn; intuition discriminate).
Defined.



(** X11.  "Artist: Song".  A label made of two names around a colon
    (white space around the colon, or none), the first name without a
    colon and the label without a hyphen or an opening parenthesis, is
    parsed into the artist and the title, with the unknown album. *)
Theorem artist_colon_song (A w1 w2 B : str) :
  Name A -> ~ In ":"%char A -> Blank w1 -> Blank w2 -> Name B ->
  ~ In "-"%char (A ++ B) -> ~ In "("%char (A ++ B) ->
  extractBasicMetadata (A ++ w1 ++ ":"%char :: w2 ++ B)
  = Ret (BasicMetadata.mk A "Unknown Album" B).
Proof.
  intros HA HcA Hw1 Hw2 HB Hd Hp.
  assert (HdA : ~ In "-"%char A) by (intros H; apply Hd, in_or_app; now left).
  assert (HdB : ~ In "-"%char B) by (intros H; apply Hd, in_or_app; now right).
  assert (HpA : ~ In "("%char A) by (intros H; apply Hp, in_or_app; now left).
  assert (HpB : ~ In "("%char B) by (intros H; apply Hp, in_or_app; now right).
  assert (Hd' : ~ In "-"%char (A ++ w1 ++ ":"%char :: w2 ++ B))
    by not_in_label.
  assert (Hp' : ~ In "("%char (A ++ w1 ++ ":"%char :: w2 ++ B))
    by not_in_label.
  unfold extractBasicMetadata, or_next.
  rewrite (songYearArtistRule_no_dash _ Hd'), (dashRule_no_dash _ Hd'),
    (songVideoRule_no_paren _ Hp').
  cbn [obind].
  now rewrite (artistColonRule_colon A w1 w2 B HA HcA Hw1 Hw2 HB).
Qed.

Lemma artist_colon_song_witness :
  extractBasicMetadata ("Queen" ++ "" ++ ":"%char :: " " ++ "Under Pressure")
  = Ret (BasicMetadata.mk "Queen" "Unknown Album" "Under Pressure").
Proof.
  apply (artist_colon_song "Queen" "" " " "Under Pressure");
    try (repeat split; try reflexivity; discriminate);
    try (cbn; intuition discriminate).
Defined.

(* ================================================================== *)
(** * The Spotify enricher, continued *)

(** ** Genres without duplicates *)

Lemma existsb_str_eqb g seen :
  existsb (JS.str_eqb g) seen = true <-> In g seen.
Proof.
  rewrite existsb_exists. unfold JS.str_eqb. split.
  - intros (x & Hx & E). destruct (list_eq_dec ascii_dec g x) as [->|];
      [exact Hx | discriminate].
  - intros H. exists g. split; [exact H|].
    destruct (list_eq_dec ascii_dec g g) as [_|N]; [reflexivity|now destruct N].
Qed.

Lemma dedupe_aux_In seen l x :
  In x (dedupe_aux seen l) <-> In x l /\ ~ In x seen.
Proof.
  revert seen. induction l as [|g l IH]; intros seen; cbn [dedupe_aux In].
  - tauto.
  - destruct (existsb (JS.str_eqb g) seen) eqn:E.
    + apply existsb_str_eqb in E. rewrite IH. split.
      * intros [H N]. auto.
      * intros [[->|H] N]; [contradiction | auto].
    + assert (N : ~ In g seen).
      { intros H. apply existsb_str_eqb in H. congruence. }
      cbn [In]. rewrite IH. cbn [In]. split.
      * intros [->|[H N']]; auto.
      * intros [[->|H] N']; auto.
        destruct (list_eq_dec ascii_dec g x) as [->|D]; auto.
        right. split; auto. intros [E'|H']; auto.
Qed.

Lemma dedupe_aux_NoDup seen l : NoDup (dedupe_aux seen l).
Proof.
  revert seen. induction l as [|g l IH]; intros seen; cbn [dedupe_aux].
  - constructor.
  - destruct (existsb (JS.str_eqb g) seen); [apply IH|].
    constructor; [|apply IH].
    rewrite dedupe_aux_In. intros [_ N]. apply N. now left.
Qed.

(** [dedupe_aux] keeps the elements that no earlier element equals. *)
Lemma dedupe_aux_firsts : forall l seen pre,
  (forall x, In x seen <-> In x pre) ->
  dedupe_aux seen l
  = flat_map (fun i =>
                match nth_error (pre ++ l) i with
                | Some g => if firstAt (pre ++ l) i then [g] else []
                | None => []
                end)
      (List.seq (length pre) (length l)).
Proof.
  induction l as [|g l IH]; intros seen pre Hs; [reflexivity|].
  cbn [dedupe_aux length List.seq flat_map].
  assert (N : nth_error (pre ++ g :: l) (length pre) = Some g)
    by (rewrite nth_error_app2, Nat.sub_diag by apply Nat.le_refl;
        reflexivity).
  assert (F : firstn (length pre) (pre ++ g :: l) = pre)
    by (rewrite firstn_app, Nat.sub_diag, firstn_all; cbn [firstn];
        apply app_nil_r).
  unfold firstAt at 1. rewrite N, F.
  assert (E : existsb (JS.str_eqb g) seen = existsb (JS.str_eqb g) pre).
  { destruct (existsb (JS.str_eqb g) pre) eqn:P.
    - apply existsb_str_eqb. apply Hs. now apply existsb_str_eqb.
    - destruct (existsb (JS.str_eqb g) seen) eqn:S; [|reflexivity].
      apply existsb_str_eqb, Hs, existsb_str_eqb in S. congruence. }
  rewrite E.
  replace (pre ++ g :: l) with ((pre ++ [g]) ++ l)
    by (rewrite <- app_assoc; reflexivity).
  replace (S (length pre)) with (length (pre ++ [g]))
    by (rewrite length_app; cbn [length]; lia).
  destruct (existsb (JS.str_eqb g) pre) eqn:P; cbn [negb app].
  - apply IH. intros x. rewrite Hs, in_app_iff. cbn [In].
    apply existsb_str_eqb in P. split; [tauto|].
    intros [H|[<-|[]]]; assumption.
  - f_equal. apply IH. intros x. cbn [In]. rewrite Hs, in_app_iff.
    cbn [In]. tauto.
Qed.

(** The first occurrences, in their order: a list without duplicates is
    left as it is. *)
Lemma dedupe_aux_fixed seen l :
  NoDup l -> (forall x, In x l -> ~ In x seen) -> dedupe_aux seen l = l.
Proof.
  revert seen. induction l as [|g l IH]; intros seen Hn Hs;
    cbn [dedupe_aux]; [reflexivity|].
  inversion Hn as [|? ? Hg Hl]; subst.
  destruct (existsb (JS.str_eqb g) seen) eqn:E.
  - apply existsb_str_eqb in E. destruct (Hs g (or_introl eq_refl) E).
  - f_equal. apply IH; [exact Hl|].
    intros x Hx [<-|H]; [contradiction|].
    exact (Hs x (or_intror Hx) H).
Qed.

(** ** The detail lookups change genres only *)

Lemma same_but_genres_refl t : same_but_genres t t.
Proof. repeat split. Qed.

Lemma same_but_genres_trans t1 t2 t3 :
  same_but_genres t1 t2 -> same_but_genres t2 t3 -> same_but_genres t1 t3.
Proof.
  unfold same_but_genres. intros H1 H2.
  repeat match goal with H : _ /\ _ |- _ => destruct H end.
  repeat split; congruence.
Qed.

Lemma set_artist0_genres_same t g : same_but_genres t (set_artist0_genres t g).
Proof.
  unfold set_artist0_genres. destruct (SpotifyTrack.artists t) eqn:E.
  - apply same_but_genres_refl.
  - unfold same_but_genres. cbn. rewrite E. repeat split.
Qed.

Lemma set_album_genres_same t g : same_but_genres t (set_album_genres t g).
Proof. repeat split. Qed.

Lemma enrichArtist_same token track tr st t' st' :
  enrichArtist token track tr st = (Ret t', st') -> same_but_genres track t'.
Proof.
  unfold enrichArtist. destruct (SpotifyTrack.artists track) as [|a rest] eqn:E.
  - intros [= <- _]. apply same_but_genres_refl.
  - unfold bind, fetch.
    destruct (respond tr (log st) _) as [[ok status body]|]; [|discriminate].
    cbn [Response.ok]. destruct ok.
    + unfold json. cbn [Response.json].
      destruct body as [data|]; [|discriminate].
      intros [= <- _]. apply set_artist0_genres_same.
    + intros [= <- _]. apply same_but_genres_refl.
Qed.

Lemma enrichAlbum_same token track tr st t' st' :
  enrichAlbum token track tr st = (Ret t', st') -> same_but_genres track t'.
Proof.
  unfold enrichAlbum, bind, fetch.
  destruct (respond tr (log st) _) as [[ok status body]|]; [|discriminate].
  cbn [Response.ok]. destruct ok.
  - unfold json. cbn [Response.json].
    destruct body as [data|]; [|discriminate].
    intros [= <- _]. apply set_album_genres_same.
  - intros [= <- _]. apply same_but_genres_refl.
Qed.

Lemma enrichTrackData_same track tr st t' st' :
  enrichTrackData track tr st = (Ret t', st') -> same_but_genres track t'.
Proof.
  unfold enrichTrackData. unfold try_catch at 1. unfold bind at 1.
  destruct (getAccessToken tr st) as [[token|e] st1].
  - unfold bind at 1.
    destruct (enrichArtist token track tr st1) as [[track1|e] st2] eqn:E1.
    + apply enrichArtist_same in E1. unfold try_catch.
      destruct (enrichAlbum token track1 tr st2) as [[track2|e] st3] eqn:E2.
      * apply enrichAlbum_same in E2. intros [= <- _].
        now apply (same_but_genres_trans _ track1).
      * intros [= <- _]. exact E1.
    + intros [= <- _]. apply same_but_genres_refl.
  - intros [= <- _]. apply same_but_genres_refl.
Qed.

Lemma toEnriched_same t t' :
  same_but_genres t t' -> same_record_but_genres (toEnriched t) (toEnriched t').
Proof.
  unfold same_but_genres, same_record_but_genres, toEnriched.
  intros (Hid & Hn & Ha & Hai & Han & Hard & Hi & Hd & Hp).
  assert (A0 : option_map (fun a => (SpotifyArtist.id a, SpotifyArtist.name a))
                 (nth_error (SpotifyTrack.artists t') 0)
               = option_map
                   (fun a => (SpotifyArtist.id a, SpotifyArtist.name a))
                   (nth_error (SpotifyTrack.artists t) 0)).
  { destruct (SpotifyTrack.artists t') as [|x xs],
      (SpotifyTrack.artists t) as [|y ys]; cbn in Ha |- *;
      try discriminate; [reflexivity|].
    injection Ha as Ha1 Ha2 _. now rewrite Ha1, Ha2. }
  assert (N0 : option_map SpotifyArtist.name
                 (nth_error (SpotifyTrack.artists t') 0)
               = option_map SpotifyArtist.name
                   (nth_error (SpotifyTrack.artists t) 0)).
  { destruct (nth_error (SpotifyTrack.artists t') 0),
      (nth_error (SpotifyTrack.artists t) 0); cbn in A0 |- *;
      try discriminate; [|reflexivity].
    injection A0 as _ ->. reflexivity. }
  assert (I0 : option_map SpotifyArtist.id
                 (nth_error (SpotifyTrack.artists t') 0)
               = option_map SpotifyArtist.id
                   (nth_error (SpotifyTrack.artists t) 0)).
  { destruct (nth_error (SpotifyTrack.artists t') 0),
      (nth_error (SpotifyTrack.artists t) 0); cbn in A0 |- *;
      try discriminate; [|reflexivity].
    injection A0 as -> _. reflexivity. }
  cbn [EnrichedMetadata.title EnrichedMetadata.artist EnrichedMetadata.album
       EnrichedMetadata.releaseDate EnrichedMetadata.duration
       EnrichedMetadata.popularity EnrichedMetadata.spotifyId
       EnrichedMetadata.albumCover EnrichedMetadata.artistId
       EnrichedMetadata.albumId].
  rewrite N0, I0, Hid, Hn, Hai, Han, Hard, Hi, Hd, Hp.
  repeat split.
Qed.

(** ** What POST keeps of a candidate *)

Lemma Substring_refl s : Substring s s.
Proof. exists [], []. now rewrite app_nil_r. Qed.

Lemma Agree_refl a : Agree a a.
Proof. left. apply Substring_refl. Qed.

Lemma validateEnriched_agrees e b :
  Agree (EnrichedMetadata.title (validateEnriched e b)) (BasicMetadata.title b)
  /\ Agree (EnrichedMetadata.artist (validateEnriched e b))
       (BasicMetadata.artist b).
Proof.
  unfold validateEnriched.
  destruct (titleSimilarity e b) eqn:T; cbn [andb];
    [destruct (artistSimilarity e b) eqn:A|].
  - split; [now apply Agree_titleSimilarity | now apply Agree_artistSimilarity].
  - split; apply Agree_refl.
  - split; apply Agree_refl.
Qed.

Lemma POST_enrichment_result basic tr st :
  exists r st',
    POST_enrichment basic tr st = (Ret r, st')
    /\ (forall final, r = Some final ->
        exists e, final = validateEnriched e basic).
Proof.
  unfold POST_enrichment, try_catch, bind.
  destruct (total_enrichMetadataWithAPIs (BasicMetadata.title basic)
              (BasicMetadata.artist basic) (BasicMetadata.album basic) tr st)
    as (x & st' & E).
  rewrite E. destruct x as [e|]; unfold ret.
  - eexists _, _. split; [reflexivity|]. intros final [= <-]. now exists e.
  - eexists _, _. split; [reflexivity|]. discriminate.
Qed.

(** ** The shape of the query list *)

Lemma str_eqb_eq s t : JS.str_eqb s t = true <-> s = t.
Proof.
  unfold JS.str_eqb. destruct (list_eq_dec ascii_dec s t); split;
    intros H; auto; discriminate.
Qed.

Lemma known_artist_test artist :
  JS.truthy artist && negb (JS.str_eqb artist "Unknown Artist") = true
  <-> artist <> [] /\ artist <> "Unknown Artist".
Proof.
  rewrite andb_true_iff, negb_true_iff. split.
  - intros [T N]. split.
    + intros ->. discriminate T.
    + intros E. apply str_eqb_eq in E. congruence.
  - intros [T N]. split.
    + destruct artist; [contradiction | reflexivity].
    + destruct (JS.str_eqb artist "Unknown Artist") eqn:E; [|reflexivity].
      apply str_eqb_eq in E. contradiction.
Qed.

Ltac split_ifs :=
  repeat match goal with
  | |- context [match ?x with Some _ => _ | None => _ end] =>
      match x with
      | context [match _ with _ => _ end] => fail 1
      | context [if _ then _ else _] => fail 1
      | _ => destruct x
      end
  | |- context [if ?b then _ else _] =>
      match b with
      | context [match _ with _ => _ end] => fail 1
      | context [if _ then _ else _] => fail 1
      | _ => destruct b
      end
  end.

(** ** The token cache *)

Lemma requestAccessToken_Ret tr st token st1 :
  requestAccessToken tr st = (Ret token, st1) ->
  Enricher.accessToken (this st1) = Some token /\ JS.truthy token = true.
Proof.
  unfold requestAccessToken, bind, get_this, fetch.
  destruct (respond tr (log st) _) as [[ok status body]|]; [|discriminate].
  unfold json. cbn [Response.json]. destruct body as [data|]; [|discriminate].
  unfold ret. destruct (TokenData.access_token data) as [t|]; [|discriminate].
  destruct (JS.truthy t) eqn:T; [|discriminate].
  unfold now, set_this. intros [= <- <-]. cbn. auto.
Qed.

Lemma refreshAccessToken_Ret tr st token st1 :
  refreshAccessToken tr st = (Ret token, st1) ->
  Enricher.accessToken (this st1) = Some token /\ JS.truthy token = true.
Proof.
  unfold refreshAccessToken, try_catch.
  destruct (requestAccessToken tr st) as [[t|e] st2] eqn:E; [|discriminate].
  intros [= <- <-]. now apply (requestAccessToken_Ret tr st).
Qed.

Lemma getAccessToken_Ret tr st token st1 :
  getAccessToken tr st = (Ret token, st1) ->
  Enricher.accessToken (this st1) = Some token /\ JS.truthy token = true.
Proof.
  unfold getAccessToken, bind, get_this.
  destruct (Enricher.accessToken (this st)) as [t|] eqn:A;
    [|apply refreshAccessToken_Ret].
  destruct (JS.truthy t) eqn:T; [|apply refreshAccessToken_Ret].
  unfold now.
  destruct (clock tr (log st) <? Enricher.tokenExpiry (this st))%Z;
    [|apply refreshAccessToken_Ret].
  unfold ret. intros [= <- <-]. cbn. auto.
Qed.

Lemma requestAccessToken_this tr st e st1 :
  requestAccessToken tr st = (Throw e, st1) -> this st1 = this st.
Proof.
  unfold requestAccessToken, bind, get_this, fetch.
  destruct (respond tr (log st) _) as [[ok status body]|];
    [|now intros [= _ <-]].
  unfold json. cbn [Response.json].
  destruct body as [data|]; [|now intros [= _ <-]].
  unfold ret, throw. destruct (TokenData.access_token data) as [t|];
    [|now intros [= _ <-]].
  destruct (JS.truthy t); [discriminate | now intros [= _ <-]].
Qed.

Lemma refreshAccessToken_Throw tr st e st1 :
  refreshAccessToken tr st = (Throw e, st1) ->
  e = ErrorMsg "Spotify authentication failed" /\ this st1 = this st.
Proof.
  unfold refreshAccessToken, try_catch.
  destruct (requestAccessToken tr st) as [[t|e'] st2] eqn:E; [discriminate|].
  unfold throw. intros [= <- <-]. split; [reflexivity|].
  now apply (requestAccessToken_this tr st e').
Qed.

Lemma buildSearchQueries_length title artist :
  2 <= length (buildSearchQueries title artist) <= 11.
Proof.
  unfold buildSearchQueries. cbv zeta.
  destruct (JS.truthy artist && negb (JS.str_eqb artist "Unknown Artist"));
    split_ifs; cbn [app length]; lia.
Qed.

(** ** Counting requests *)

Lemma fetches_app evs1 evs2 :
  fetches (evs1 ++ evs2) = fetches evs1 + fetches evs2.
Proof. unfold fetches. now rewrite filter_app, length_app. Qed.

Lemma spends_le {A} n n' (m : M A) : n <= n' -> spends n m -> spends n' m.
Proof.
  intros L H tr st. destruct (H tr st) as (evs & E & F).
  exists evs. split; [exact E | lia].
Qed.

Lemma spends_ret {A} n (a : A) : spends n (ret a).
Proof. intros tr st. exists []. cbn. rewrite app_nil_r. split; [auto|lia]. Qed.

Lemma spends_throw {A} n e : spends n (@throw A e).
Proof. intros tr st. exists []. cbn. rewrite app_nil_r. split; [auto|lia]. Qed.

Lemma spends_get_this n : spends n get_this.
Proof. intros tr st. exists []. cbn. rewrite app_nil_r. split; [auto|lia]. Qed.

Lemma spends_set_this n e : spends n (set_this e).
Proof. intros tr st. exists []. cbn. rewrite app_nil_r. split; [auto|lia]. Qed.

Lemma spends_getenv n v : spends n (getenv v).
Proof. intros tr st. exists []. cbn. rewrite app_nil_r. split; [auto|lia]. Qed.

Lemma spends_now n : spends n now.
Proof. intros tr st. exists [DateNow]. cbn. split; [auto|lia]. Qed.

Lemma spends_json {A} n (r : Response.t A) : spends n (json r).
Proof.
  unfold json. destruct (Response.json r);
    [apply spends_ret | apply spends_throw].
Qed.

Lemma spends_fetch n r : 1 <= n -> spends n (fetch r).
Proof.
  intros L tr st. exists [Fetch r]. unfold fetch.
  destruct (respond tr (log st) r); cbn; split; auto.
Qed.

Lemma spends_bind {A B} n1 n2 (m : M A) (f : A -> M B) :
  spends n1 m -> (forall a, spends n2 (f a)) -> spends (n1 + n2) (bind m f).
Proof.
  intros Hm Hf tr st. unfold bind.
  destruct (Hm tr st) as (evs1 & E1 & F1).
  destruct (m tr st) as [[a|e] st1]; cbn [snd] in E1 |- *.
  - destruct (Hf a tr st1) as (evs2 & E2 & F2).
    exists (evs1 ++ evs2). rewrite E2, E1, app_assoc, fetches_app.
    split; [reflexivity | lia].
  - exists evs1. split; [exact E1 | lia].
Qed.

Lemma spends_try_catch {A} n1 n2 (m : M A) (h : Error -> M A) :
  spends n1 m -> (forall e, spends n2 (h e)) ->
  spends (n1 + n2) (try_catch m h).
Proof.
  intros Hm Hh tr st. unfold try_catch.
  destruct (Hm tr st) as (evs1 & E1 & F1).
  destruct (m tr st) as [[a|e] st1]; cbn [snd] in E1 |- *.
  - exists evs1. split; [exact E1 | lia].
  - destruct (Hh e tr st1) as (evs2 & E2 & F2).
    exists (evs1 ++ evs2). rewrite E2, E1, app_assoc, fetches_app.
    split; [reflexivity | lia].
Qed.

(** A handler that only returns or rethrows costs nothing. *)
Lemma spends_catch {A} n (m : M A) (h : Error -> M A) :
  spends n m -> (forall e, spends 0 (h e)) -> spends n (try_catch m h).
Proof.
  intros Hm Hh. rewrite <- (Nat.add_0_r n). now apply spends_try_catch.
Qed.

Lemma spends_then {A B} n (m : M A) (f : A -> M B) :
  spends 0 m -> (forall a, spends n (f a)) -> spends n (bind m f).
Proof. intros Hm Hf. now apply (spends_bind 0 n). Qed.

Lemma spends_fetch_then {B} n r (f : Response.t (body_of r) -> M B) :
  (forall a, spends n (f a)) -> spends (S n) (bind (fetch r) f).
Proof. intros Hf. apply (spends_bind 1 n); [now apply spends_fetch | exact Hf]. Qed.

Ltac spends_free :=
  first [ apply spends_ret | apply spends_throw | apply spends_get_this
        | apply spends_set_this | apply spends_getenv | apply spends_now
        | apply spends_json ].

Ltac spends_step :=
  first
    [ spends_free
    | apply spends_then; [spends_free | intros ?]
    | apply spends_fetch_then; intros ?
    | apply spends_catch; [|intros ?; spends_free]
    | match goal with
      | |- spends _ (match ?x with _ => _ end) => destruct x
      | |- spends _ (if ?x then _ else _) => destruct x
      end ].

Lemma spends_requestAccessToken : spends 1 requestAccessToken.
Proof. unfold requestAccessToken. repeat spends_step. Qed.

Lemma spends_getAccessToken : spends 1 getAccessToken.
Proof.
  unfold getAccessToken, refreshAccessToken.
  repeat first [ spends_step | apply spends_requestAccessToken ].
Qed.

Lemma spends_enrichArtist token track : spends 1 (enrichArtist token track).
Proof. unfold enrichArtist. repeat spends_step. Qed.

Lemma spends_enrichAlbum token track : spends 1 (enrichAlbum token track).
Proof. unfold enrichAlbum. repeat spends_step. Qed.

Lemma spends_enrichTrackData track : spends 3 (enrichTrackData track).
Proof.
  unfold enrichTrackData.
  apply spends_catch; [|intros e; spends_free].
  apply (spends_bind 1 2); [apply spends_getAccessToken | intros token].
  apply (spends_bind 1 1); [apply spends_enrichArtist | intros track1].
  apply spends_catch; [apply spends_enrichAlbum | intros e; spends_free].
Qed.

(** The loop issues one search for each query it tries, and the detail
    lookups once at most. *)
Lemma spends_searchLoop token t a qs :
  spends (length qs + 3) (searchLoop token t a qs).
Proof.
  induction qs as [|q rest IH]; cbn [searchLoop length]; [spends_free|].
  apply (spends_le (S (length rest + 3))); [lia|].
  apply spends_fetch_then. intros response.
  destruct (negb (Response.ok response)); [exact IH|].
  apply spends_then; [spends_free | intros data].
  destruct (SearchData.items data) as [[|i items]|]; try exact IH.
  destruct (findBestMatch (i :: items) t (Some a)) as [b|]; [|exact IH].
  destruct (Num.gt (BestMatch.score b) c07); [|exact IH].
  apply (spends_le 3); [lia|].
  rewrite <- (Nat.add_0_r 3).
  apply spends_bind; [apply spends_enrichTrackData | intros x; spends_free].
Qed.

Lemma spends_searchSpotifyTrack q t a : spends 15 (searchSpotifyTrack q t a).
Proof.
  unfold searchSpotifyTrack.
  apply spends_catch; [|intros e; spends_free].
  apply (spends_bind 1 14); [apply spends_getAccessToken | intros token].
  apply (spends_le (length (buildSearchQueries t a) + 3));
    [|apply spends_searchLoop].
  pose proof (buildSearchQueries_length t a). lia.
Qed.

Lemma spends_trySpotify t a al : spends 15 (trySpotify t a al).
Proof.
  unfold trySpotify, newMusicMetadataEnricher, enrichMetadata.
  apply spends_catch; [|intros e; spends_free].
  apply spends_then; [repeat spends_step | intros _].
  apply spends_catch; [|intros e; spends_free].
  rewrite <- (Nat.add_0_r 15).
  apply spends_bind; [apply spends_searchSpotifyTrack|].
  intros x. destruct x; spends_free.
Qed.

Lemma spends_tryLastFm t a al : spends 2 (tryLastFm t a al).
Proof.
  unfold tryLastFm, LastFm_searchTrack, LastFm_getTrackInfo.
  apply spends_catch; [|intros e; spends_free].
  apply (spends_bind 1 1).
  - repeat spends_step.
  - intros x. destruct x; [|spends_free].
    rewrite <- (Nat.add_0_r 1). apply spends_bind.
    + repeat spends_step.
    + intros y. destruct y; spends_free.
Qed.

Lemma spends_tryMusicBrainz t a al : spends 2 (tryMusicBrainz t a al).
Proof.
  unfold tryMusicBrainz, MusicBrainz_searchRecording, MusicBrainz_getRecording.
  apply spends_catch; [|intros e; spends_free].
  apply (spends_bind 1 1).
  - repeat spends_step.
  - intros x. destruct x; [|spends_free].
    rewrite <- (Nat.add_0_r 1). apply spends_bind.
    + repeat spends_step.
    + intros y. destruct y; spends_free.
Qed.

(** X12.  The genres of the record built from a Spotify track are the
    genres of its first artist followed by those of its album, each genre
    once, at its first occurrence: the list is made of the elements of
    the concatenation that no earlier element equals, in the order of
    the concatenation.  So it has no duplicates, holds exactly the genres
    of the two sources, and is their concatenation when that has no
    duplicates. *)
Theorem enriched_genres_are_distinct (spotifyTrack : SpotifyTrack) :
  NoDup (EnrichedMetadata.genres (toEnriched spotifyTrack))
  /\ (forall g,
        In g (EnrichedMetadata.genres (toEnriched spotifyTrack))
        <-> In g (or_list
                    (match nth_error (SpotifyTrack.artists spotifyTrack) 0
                     with
                     | Some a => SpotifyArtist.genres a
                     | None => None
                     end))
            \/ In g (or_list (SpotifyAlbum.genres
                                (SpotifyTrack.album spotifyTrack))))
  /\ (NoDup (or_list
               (match nth_error (SpotifyTrack.artists spotifyTrack) 0 with
                | Some a => SpotifyArtist.genres a
                | None => None
                end)
             ++ or_list (SpotifyAlbum.genres
                           (SpotifyTrack.album spotifyTrack))) ->
      EnrichedMetadata.genres (toEnriched spotifyTrack)
      = or_list
          (match nth_error (SpotifyTrack.artists spotifyTrack) 0 with
           | Some a => SpotifyArtist.genres a
           | None => None
           end)
        ++ or_list (SpotifyAlbum.genres (SpotifyTrack.album spotifyTrack)))
  /\ EnrichedMetadata.genres (toEnriched spotifyTrack)
     = firstOccurrences
         (or_list
            (match nth_error (SpotifyTrack.artists spotifyTrack) 0 with
             | Some a => SpotifyArtist.genres a
             | None => None
             end)
          ++ or_list (SpotifyAlbum.genres (SpotifyTrack.album spotifyTrack))).
Proof.
  unfold toEnriched. cbn [EnrichedMetadata.genres].
  unfold dedupe. split; [apply dedupe_aux_NoDup|]. split; [|split].
  - intros g. rewrite dedupe_aux_In, in_app_iff. cbn [In]. tauto.
  - intros H. apply dedupe_aux_fixed; [exact H | intros x _ []].
  - unfold firstOccurrences.
    exact (dedupe_aux_firsts _ [] [] (fun x => conj (fun H => H) (fun H => H))).
Qed.

(** X13.  The detail lookups of an accepted track change genres only.
    [enrichTrackData] never throws, and the track it returns has the id,
    name, artists' ids and names, album id, name, release date and
    images, duration and popularity of the track it was given, whatever
    the transport answers; so the record built from it differs from the
    record of the track as found at most in its genres. *)
Theorem detail_lookups_change_genres_only (track : SpotifyTrack)
    (tr : Transport) (st : State) :
  exists track' st',
    enrichTrackData track tr st = (Ret track', st')
    /\ same_but_genres track track'
    /\ same_record_but_genres (toEnriched track) (toEnriched track').
Proof.
  destruct (total_enrichTrackData track tr st) as (track' & st' & E).
  exists track', st'. split; [exact E|].
  pose proof (enrichTrackData_same track tr st track' st' E) as S.
  split; [exact S | now apply toEnriched_same].
Qed.

(** X14.  The title and the artist POST goes on with always agree with
    the guess.  The enrichment step never throws, and whether it yields
    nothing, a validated candidate or the hybrid record, the final
    metadata ([enrichedMetadata || basicMetadata]) has a title and an
    artist that contain, or are contained in, those of the parsed guess,
    case-insensitively; without a candidate it is the guess itself. *)
Theorem final_metadata_agrees_with_guess (basicMetadata : BasicMetadata)
    (tr : Transport) (st : State) :
  exists enrichedMetadata st',
    POST_enrichment basicMetadata tr st = (Ret enrichedMetadata, st')
    /\ Agree (BasicMetadata.title
                (finalMetadata enrichedMetadata basicMetadata))
             (BasicMetadata.title basicMetadata)
    /\ Agree (BasicMetadata.artist
                (finalMetadata enrichedMetadata basicMetadata))
             (BasicMetadata.artist basicMetadata)
    /\ (enrichedMetadata = None ->
        finalMetadata enrichedMetadata basicMetadata = basicMetadata).
Proof.
  destruct (POST_enrichment_result basicMetadata tr st) as (r & st' & E & V).
  exists r, st'. split; [exact E|].
  destruct r as [final|]; cbn [finalMetadata BasicMetadata.title
                                 BasicMetadata.artist].
  - destruct (V final eq_refl) as (e & ->).
    destruct (validateEnriched_agrees e basicMetadata) as [T A].
    repeat split; auto. discriminate.
  - repeat split; auto using Agree_refl.
Qed.

(** X15.  The query list.  [buildSearchQueries] returns between two and
    eleven queries, and the field query and the plain query of the clean
    title are always among them.  With an artist that is empty or the
    "Unknown Artist" sentinel it returns the title queries only, at most
    four, starting with those two; with any other artist at least five,
    starting with the artist-and-track field query. *)
Theorem query_list_shape (title artist : str) :
  2 <= length (buildSearchQueries title artist) <= 11
  /\ In (trackQuery (cleanTitle title)) (buildSearchQueries title artist)
  /\ In (cleanTitle title) (buildSearchQueries title artist)
  /\ (artist = [] \/ artist = "Unknown Artist" ->
      length (buildSearchQueries title artist) <= 4
      /\ firstn 2 (buildSearchQueries title artist)
         = [trackQuery (cleanTitle title); cleanTitle title])
  /\ (artist <> [] -> artist <> "Unknown Artist" ->
      5 <= length (buildSearchQueries title artist)
      /\ nth_error (buildSearchQueries title artist) 0
         = Some (artistTrackQuery artist (cleanTitle title))).
Proof.
  unfold buildSearchQueries. cbv zeta.
  destruct (JS.truthy artist && negb (JS.str_eqb artist "Unknown Artist"))
    eqn:K.
  - apply known_artist_test in K as [K1 K2].
    split; [|split; [|split; [|split]]].
    + split_ifs; cbn [app length]; lia.
    + split_ifs; cbn [app In]; tauto.
    + split_ifs; cbn [app In]; tauto.
    + intros [E|E]; contradiction.
    + intros _ _. split; [split_ifs; cbn [app length]; lia | reflexivity].
  - assert (U : artist = [] \/ artist = "Unknown Artist").
    { destruct artist as [|a artist]; [now left|]. right.
      cbn [JS.truthy andb] in K. apply negb_false_iff in K.
      now apply str_eqb_eq in K. }
    split; [|split; [|split; [|split]]].
    + split_ifs; cbn [app length]; lia.
    + cbn [app In]. tauto.
    + cbn [app In]. tauto.
    + intros _. split; [split_ifs; cbn [app length]; lia | reflexivity].
    + intros N1 N2. destruct U; contradiction.
Qed.

(** X16.  The access token is cached.  After a call of [getAccessToken]
    that returned a token, a further call made while the clock is before
    the expiry of the instance returns the same token, reads the clock
    once, and issues no request. *)
Theorem cached_token_is_reused (tr : Transport) (st : State) (token : str)
    (st1 : State) :
  getAccessToken tr st = (Ret token, st1) ->
  (clock tr (log st1) < Enricher.tokenExpiry (this st1))%Z ->
  getAccessToken tr st1
  = (Ret token, {| this := this st1; log := log st1 ++ [DateNow] |}).
Proof.
  intros H Hc. apply getAccessToken_Ret in H as [A T].
  unfold getAccessToken, bind, get_this. rewrite A, T. unfold now.
  apply Z.ltb_lt in Hc. rewrite Hc. reflexivity.
Qed.

Lemma cached_token_is_reused_witness :
  getAccessToken (Ex.spotifyWith [])
    (snd (getAccessToken (Ex.spotifyWith []) Ex.st0))
  = (Ret ("tok" : str),
     {| this := this (snd (getAccessToken (Ex.spotifyWith []) Ex.st0));
        log := log (snd (getAccessToken (Ex.spotifyWith []) Ex.st0))
               ++ [DateNow] |}).
Proof.
  apply (cached_token_is_reused (Ex.spotifyWith []) Ex.st0).
  - vm_compute. reflexivity.
  - vm_compute. reflexivity.
Defined.

(** X17.  A failed authentication has one face.  Whatever goes wrong in
    [getAccessToken] (the transport rejects, the body does not parse, the
    body holds no token), the exception is the error "Spotify
    authentication failed", and the instance keeps the token and the
    expiry it had. *)
Theorem token_failure_is_normalised (tr : Transport) (st : State)
    (e : Error) (st1 : State) :
  getAccessToken tr st = (Throw e, st1) ->
  e = ErrorMsg "Spotify authentication failed" /\ this st1 = this st.
Proof.
  unfold getAccessToken, bind, get_this.
  destruct (Enricher.accessToken (this st)) as [t|] eqn:A;
    [|apply refreshAccessToken_Throw].
  destruct (JS.truthy t) eqn:T; [|apply refreshAccessToken_Throw].
  unfold now.
  destruct (clock tr (log st) <? Enricher.tokenExpiry (this st))%Z.
  - discriminate.
  - intros H. apply refreshAccessToken_Throw in H. exact H.
Qed.

Lemma token_failure_is_normalised_witness :
  this (snd (getAccessToken Ex.lastfmOnly Ex.st0)) = this Ex.st0.
Proof.
  apply (token_failure_is_normalised Ex.lastfmOnly Ex.st0
           (ErrorMsg "Spotify authentication failed")
           (snd (getAccessToken Ex.lastfmOnly Ex.st0))).
  vm_compute. reflexivity.
Defined.

(** X18.  The cost of an enrichment in requests.  One run of
    [enrichMetadataWithAPIs] issues at most nineteen requests, whatever
    the providers answer: at most fifteen to Spotify (one for the token,
    one search for each of the at most eleven queries, and at most three
    for the details of the accepted track), two to Last.fm and two to
    MusicBrainz. *)
Theorem enrichment_costs_at_most_19_requests (title artist album : str)
    (tr : Transport) (st : State) :
  exists evs,
    log (snd (enrichMetadataWithAPIs title artist album tr st))
    = log st ++ evs
    /\ fetches evs <= 19
    /\ spends 15 (trySpotify title artist album)
    /\ spends 2 (tryLastFm title artist album)
    /\ spends 2 (tryMusicBrainz title artist album).
Proof.
  assert (S : spends 19 (enrichMetadataWithAPIs title artist album)).
  { unfold enrichMetadataWithAPIs.
    apply (spends_bind 15 4); [apply spends_trySpotify | intros x].
    destruct x; [spends_free|].
    apply (spends_bind 2 2); [apply spends_tryLastFm | intros y].
    destruct y; [spends_free|].
    rewrite <- (Nat.add_0_r 2).
    apply spends_bind; [apply spends_tryMusicBrainz | intros z].
    destruct z; spends_free. }
  destruct (S tr st) as (evs & E & F).
  exists evs. split; [exact E|]. split; [exact F|].
  split; [apply spends_trySpotify|].
  split; [apply spends_tryLastFm | apply spends_tryMusicBrainz].
Qed.

(* ================================================================== *)
(** * The best match *)

Lemma score_nonneg track t a :
  short t -> short (SpotifyTrack.name track) ->
  nonneg (calculateSimilarityScore track t a).
Proof.
  intros H1 H2. unfold calculateSimilarityScore.
  apply min_one_nonneg.
  apply add_opt_nonneg; [apply add_opt_nonneg|].
  - apply add_nonneg; [exact I | now apply titleComponent_nonneg].
  - intros v Hv. destruct (artistComponent_cases track a) as [E|[E|E]];
      rewrite E in Hv; inversion Hv; subst; apply c_nonneg.
  - intros v Hv. destruct (popularityComponent_cases track) as [E|E];
      rewrite E in Hv; inversion Hv; subst; apply c_nonneg.
Qed.

(** Among numbers that are not NaN, what is not above [y] is below what
    is above [y]. *)
Lemma gt_above x y c :
  nonneg x -> nonneg y -> nonneg c ->
  Num.gt x y = true -> Num.gt c y = false -> Num.gt x c = true.
Proof.
  unfold Num.gt, SFltb, SFcompare.
  destruct x as [sx|sx| |sx mx ex], y as [sy|sy| |sy my ey],
    c as [sc|sc| |sc mc ec]; cbn [nonneg];
    intros Hx Hy Hc; subst; try contradiction; try discriminate;
    try reflexivity.
  change (Pos.compare_cont Eq my mx) with (Pos.compare my mx).
  change (Pos.compare_cont Eq my mc) with (Pos.compare my mc).
  change (Pos.compare_cont Eq mc mx) with (Pos.compare mc mx).
  destruct (Z.compare_spec ey ex), (Z.compare_spec ey ec),
    (Z.compare_spec ec ex); try discriminate; try reflexivity;
    try lia; subst;
    destruct (Pos.compare_spec my mx), (Pos.compare_spec my mc),
      (Pos.compare_spec mc mx);
    try discriminate; try reflexivity; try lia.
Qed.

Lemma gt_asym x y : Num.gt x y = true -> Num.gt y x = false.
Proof.
  unfold Num.gt, SFltb, SFcompare.
  destruct x as [sx|sx| |sx mx ex], y as [sy|sy| |sy my ey];
    try destruct sx; try destruct sy; try discriminate; try reflexivity.
  - change (Pos.compare_cont Eq my mx) with (Pos.compare my mx).
    change (Pos.compare_cont Eq mx my) with (Pos.compare mx my).
    destruct (Z.compare_spec ey ex), (Z.compare_spec ex ey);
      try discriminate; try reflexivity; try lia.
    rewrite (Pos.compare_antisym my mx).
    destruct (Pos.compare my mx); cbn; try discriminate; reflexivity.
  - change (Pos.compare_cont Eq my mx) with (Pos.compare my mx).
    change (Pos.compare_cont Eq mx my) with (Pos.compare mx my).
    destruct (Z.compare_spec ey ex), (Z.compare_spec ex ey);
      try discriminate; try reflexivity; try lia.
    rewrite (Pos.compare_antisym my mx).
    destruct (Pos.compare my mx); cbn; try discriminate; reflexivity.
Qed.

Lemma earlier_snoc {A} (seen : list A) (x c : A) :
  earlier (seen ++ [x]) (length seen) c -> In c seen.
Proof.
  intros [j [Hj E]]. rewrite nth_error_app1 in E by exact Hj.
  eapply nth_error_In; exact E.
Qed.

Lemma earlier_keep {A} (seen : list A) (x c : A) i :
  i < length seen -> earlier (seen ++ [x]) i c -> earlier seen i c.
Proof.
  intros Hi [j [Hj E]]. exists j. split; [exact Hj|].
  rewrite nth_error_app1 in E by lia. exact E.
Qed.

Lemma findBestMatch_step_first t a seen acc track :
  short t ->
  Forall (fun c => short (SpotifyTrack.name c)) seen ->
  short (SpotifyTrack.name track) ->
  first_best t a seen acc ->
  first_best t a (seen ++ [track]) (findBestMatch_step t a acc track).
Proof.
  intros Ht Hs Hk. unfold findBestMatch_step.
  destruct acc as [b|]; cbn [first_best].
  - intros [i [Hi [Hb [Hmax Hfirst]]]].
    assert (Li : i < length seen)
      by (apply nth_error_Some; rewrite Hi; discriminate).
    assert (Nb : nonneg (BestMatch.score b)).
    { rewrite Hb. apply score_nonneg; [exact Ht|].
      rewrite Forall_forall in Hs. apply Hs.
      eapply nth_error_In; exact Hi. }
    destruct (Num.gt (calculateSimilarityScore track t a) (BestMatch.score b))
      eqn:G; cbn [BestMatch.track BestMatch.score].
    + exists (length seen). split; [|split; [reflexivity|split]].
      * rewrite nth_error_app2 by lia. now rewrite Nat.sub_diag.
      * intros c Hc. apply in_app_or in Hc. destruct Hc as [Hc|[<-|[]]].
        -- apply gt_asym. apply (gt_above _ (BestMatch.score b)); auto.
           ++ now apply score_nonneg.
           ++ apply score_nonneg; [exact Ht|].
              rewrite Forall_forall in Hs. now apply Hs.
        -- apply gt_irrefl.
      * intros c Hc. apply earlier_snoc in Hc.
        apply (gt_above _ (BestMatch.score b)); auto.
        -- now apply score_nonneg.
        -- apply score_nonneg; [exact Ht|].
           rewrite Forall_forall in Hs. now apply Hs.
    + exists i. split; [|split; [exact Hb|split]].
      * rewrite nth_error_app1 by exact Li. exact Hi.
      * intros c Hc. apply in_app_or in Hc. destruct Hc as [Hc|[<-|[]]].
        -- now apply Hmax.
        -- exact G.
      * intros c Hc. apply Hfirst. eapply earlier_keep; eauto.
  - intros ->. cbn [first_best BestMatch.track BestMatch.score app].
    exists 0. split; [reflexivity|split; [reflexivity|split]].
    + intros c [<-|[]]. apply gt_irrefl.
    + intros c [j [Hj _]]. lia.
Qed.

Lemma fold_findBestMatch_first t a tracks :
  short t ->
  forall seen acc,
  Forall (fun c => short (SpotifyTrack.name c)) (seen ++ tracks) ->
  first_best t a seen acc ->
  first_best t a (seen ++ tracks)
    (fold_left (findBestMatch_step t a) tracks acc).
Proof.
  intros Ht. induction tracks as [|track tracks IH]; intros seen acc Hs H.
  - rewrite app_nil_r. exact H.
  - cbn [fold_left].
    replace (seen ++ track :: tracks) with ((seen ++ [track]) ++ tracks)
      in * by (rewrite <- app_assoc; reflexivity).
    apply IH; [exact Hs|].
    apply Forall_app in Hs. destruct Hs as [Hs _].
    apply Forall_app in Hs. destruct Hs as [Hs1 Hs2].
    apply findBestMatch_step_first; auto.
    now inversion Hs2.
Qed.

(** X19.  Ties go to the earliest track.  For a title and track names
    shorter than the longest string, the match [findBestMatch] returns is
    the first track of the list with the highest score: it stands at some
    place [i] of the list with its own score, no track of the list scores
    above it, and every track before place [i] scores strictly below
    it. *)
Theorem best_match_is_first_maximum (tracks : list SpotifyTrack) (t : str)
    (a : option str) (b : BestMatch.t) :
  short t ->
  Forall (fun c => short (SpotifyTrack.name c)) tracks ->
  findBestMatch tracks t a = Some b ->
  exists i,
    nth_error tracks i = Some (BestMatch.track b)
    /\ BestMatch.score b = calculateSimilarityScore (BestMatch.track b) t a
    /\ (forall c, In c tracks ->
        Num.gt (calculateSimilarityScore c t a) (BestMatch.score b) = false)
    /\ (forall j c, j < i -> nth_error tracks j = Some c ->
        Num.gt (BestMatch.score b) (calculateSimilarityScore c t a) = true).
Proof.
  intros Ht Hs E.
  pose proof (fold_findBestMatch_first t a tracks Ht [] None Hs eq_refl) as H.
  cbn [app] in H. fold (findBestMatch tracks t a) in H.
  rewrite E in H. cbn [first_best] in H.
  destruct H as (i & Hi & Hb & Hmax & Hfirst).
  exists i. repeat split; try assumption.
  intros j c Hj Hc. apply Hfirst. exists j. now split.
Qed.

Lemma best_match_is_first_maximum_witness :
  exists i,
    nth_error [Ex.bigSmokeLive; Ex.bigSmoke; Ex.bigSmoke] i = Some Ex.bigSmoke
    /\ forall j c, j < i ->
       nth_error [Ex.bigSmokeLive; Ex.bigSmoke; Ex.bigSmoke] j = Some c ->
       Num.gt
         (calculateSimilarityScore Ex.bigSmoke ("Big Smoke" : str)
            (Some ("Tash Sultana" : str)))
         (calculateSimilarityScore c ("Big Smoke" : str)
            (Some ("Tash Sultana" : str))) = true.
Proof.
  destruct (best_match_is_first_maximum
              [Ex.bigSmokeLive; Ex.bigSmoke; Ex.bigSmoke]
              ("Big Smoke" : str) (Some ("Tash Sultana" : str))
              (BestMatch.mk Ex.bigSmoke
                 (calculateSimilarityScore Ex.bigSmoke ("Big Smoke" : str)
                    (Some ("Tash Sultana" : str))))
              ltac:(vm_compute; reflexivity)
              ltac:(repeat constructor; vm_compute; reflexivity)
              ltac:(vm_compute; reflexivity))
    as (i & Hi & _ & _ & Hfirst).
  exists i. split; [exact Hi | exact Hfirst].
Defined.

(* ================================================================== *)
(** * The comparison form of a title *)

(** ** Units *)

Lemma lowerChar_no_capital a : JS.between 65 90 (JS.lowerChar a) = false.
Proof. destruct a as [[] [] [] [] [] [] [] []]; vm_compute; reflexivity. Qed.

Lemma formChar_spec a :
  JS.isWord a = true -> JS.between 65 90 a = false -> formChar a = true.
Proof. unfold JS.isWord, formChar. intros H U. now rewrite U in H. Qed.

Lemma formChar_lowerChar a : formChar a = true -> JS.lowerChar a = a.
Proof.
  destruct a as [[] [] [] [] [] [] [] []]; vm_compute;
    try discriminate; reflexivity.
Qed.

Lemma formChar_isWord a : formChar a = true -> JS.isWord a = true.
Proof.
  destruct a as [[] [] [] [] [] [] [] []]; vm_compute;
    try discriminate; reflexivity.
Qed.

Lemma formChar_isSpace a : formChar a = true -> JS.isSpace a = false.
Proof.
  destruct a as [[] [] [] [] [] [] [] []]; vm_compute;
    try discriminate; reflexivity.
Qed.

Lemma isSpace_false_just a : JS.isSpace a = false -> Ascii.eqb " " a = false.
Proof.
  destruct a as [[] [] [] [] [] [] [] []]; vm_compute;
    try discriminate; reflexivity.
Qed.

(** ** Replacements that only remove *)

Lemma replace_aux_empty_In n0 r a : forall s skip,
  In a (replace_aux n0 r [] skip s) -> In a s.
Proof.
  induction s as [|b s IH]; intros skip; cbn [replace_aux].
  - destruct skip; [destruct (match_here n0 r [])|]; intros [].
  - destruct skip as [|n].
    + destruct (match_len n0 r (b :: s)) as [[|n]|]; cbn [app]; intros H.
      * destruct H as [->|H]; [now left | right; eauto].
      * right; eauto.
      * destruct H as [->|H]; [now left | right; eauto].
    + intros H. right. eauto.
Qed.

Lemma replace_empty_In r a s : In a (replace r [] s) -> In a s.
Proof. apply replace_aux_empty_In. Qed.

(** A pattern whose matches all hold a unit that [s] lacks changes
    nothing. *)
Lemma replace_must a r rep s :
  must a r -> ~ In a s -> replace r rep s = s.
Proof.
  intros M H. unfold replace. apply replace_aux_id. intros u1 u2 ->.
  unfold match_here.
  destruct (run (length (u1 ++ u2)) r u2 no_caps accept) as [res|] eqn:E;
    [|reflexivity].
  apply run_must in E as (u & s' & c' & -> & _ & Hm).
  exfalso. apply H. apply in_or_app. right. apply in_or_app. left. auto.
Qed.

(** ** Runs of white space *)

Lemma trimStart_split s :
  exists w, s = w ++ JS.trimStart s /\ forallb JS.isSpace w = true
            /\ stops JS.isSpace (JS.trimStart s).
Proof.
  induction s as [|a s (w & E & Hw & Hs)]; [now exists []|].
  cbn [JS.trimStart]. destruct (JS.isSpace a) eqn:Sa.
  - exists (a :: w). cbn [app forallb]. rewrite Sa, Hw, <- E. auto.
  - exists []. cbn [app forallb stops]. auto.
Qed.

Lemma match_len_spaces n0 a w v :
  JS.isSpace a = true -> forallb JS.isSpace w = true -> stops JS.isSpace v ->
  match_len n0 spacesPattern (a :: w ++ v) = Some (S (length w)).
Proof.
  intros Ha Hw Hv. unfold match_len, match_here, spacesPattern, plus.
  cbn [run]. rewrite Ha.
  rewrite (star_greedy_max _ _ w v (v, no_caps) Hw Hv eq_refl).
  cbn [fst length]. rewrite length_app. f_equal. lia.
Qed.

Lemma match_len_spaces_none n0 a s :
  JS.isSpace a = false -> match_len n0 spacesPattern (a :: s) = None.
Proof.
  intros Ha. unfold match_len, match_here, spacesPattern, plus.
  cbn [run]. now rewrite Ha.
Qed.

Lemma replace_aux_skip n0 r rep u v :
  replace_aux n0 r rep (length u) (u ++ v) = replace_aux n0 r rep 0 v.
Proof. induction u as [|a u IH]; [reflexivity | exact IH]. Qed.

(** A run of white space is replaced as a whole. *)
Lemma spaces_cons_space n0 rep a s :
  JS.isSpace a = true ->
  replace_aux n0 spacesPattern rep 0 (a :: s)
  = rep ++ replace_aux n0 spacesPattern rep 0 (JS.trimStart s).
Proof.
  intros Ha. destruct (trimStart_split s) as (w & E & Hw & Hv).
  set (v := JS.trimStart s) in *. clearbody v. subst s.
  cbn [replace_aux]. rewrite match_len_spaces by assumption.
  f_equal. apply replace_aux_skip.
Qed.

Lemma spaces_cons_other n0 rep a s :
  JS.isSpace a = false ->
  replace_aux n0 spacesPattern rep 0 (a :: s)
  = a :: replace_aux n0 spacesPattern rep 0 s.
Proof.
  intros Ha. cbn [replace_aux]. now rewrite match_len_spaces_none.
Qed.

Lemma spaces_nil n0 rep : replace_aux n0 spacesPattern rep 0 [] = [].
Proof. reflexivity. Qed.

(** ** Single spaces *)

Lemma singleSpaced_weaken s :
  singleSpaced true s = true -> singleSpaced false s = true.
Proof.
  destruct s as [|a s]; cbn [singleSpaced]; [auto|].
  destruct (Ascii.eqb " " a); [discriminate | auto].
Qed.

Lemma singleSpaced_any sep s :
  singleSpaced sep s = true -> singleSpaced false s = true.
Proof. destruct sep; [apply singleSpaced_weaken | auto]. Qed.

Lemma singleSpaced_suffix u : forall sep v,
  singleSpaced sep (u ++ v) = true -> singleSpaced false v = true.
Proof.
  induction u as [|a u IH]; intros sep v; cbn [app singleSpaced].
  - apply singleSpaced_any.
  - destruct (Ascii.eqb " " a); [|apply IH].
    intros H. apply andb_true_iff in H as [_ H]. now apply IH in H.
Qed.

Lemma singleSpaced_prefix u : forall sep v,
  singleSpaced sep (u ++ v) = true -> singleSpaced sep u = true.
Proof.
  induction u as [|a u IH]; intros sep v; cbn [app singleSpaced]; [auto|].
  destruct (Ascii.eqb " " a); [|apply IH].
  intros H. apply andb_true_iff in H as [H1 H]. rewrite H1.
  now apply IH in H.
Qed.

Lemma singleSpaced_double p : forall sep q,
  singleSpaced sep (p ++ " "%char :: " "%char :: q) = false.
Proof.
  induction p as [|a p IH]; intros sep q; cbn [app singleSpaced].
  - cbn. now rewrite andb_false_r.
  - destruct (Ascii.eqb " " a); rewrite IH; [apply andb_false_r | auto].
Qed.

Lemma singleSpaced_stops s :
  stops (Ascii.eqb " ") s -> singleSpaced false s = true ->
  singleSpaced true s = true.
Proof.
  destruct s as [|a s]; cbn [stops singleSpaced]; [auto|].
  now intros ->.
Qed.

(** What [/\s+/g -> ' '] leaves: single spaces and the other units. *)
Lemma spaces_form n0 (P : ascii -> Prop) : forall n s,
  length s <= n ->
  Forall (fun a => JS.isSpace a = true \/ P a) s ->
  Forall (fun a => a = " "%char \/ P a)
    (replace_aux n0 spacesPattern " " 0 s)
  /\ singleSpaced false (replace_aux n0 spacesPattern " " 0 s) = true
  /\ (stops JS.isSpace s ->
      stops (Ascii.eqb " ") (replace_aux n0 spacesPattern " " 0 s)).
Proof.
  induction n as [|n IH]; intros s Hn Hs.
  - destruct s; [|cbn in Hn; lia]. rewrite spaces_nil. cbn. auto.
  - destruct s as [|a s]; [rewrite spaces_nil; cbn; auto|].
    cbn [length] in Hn. inversion Hs as [|? ? Ha Hs']; subst.
    destruct (JS.isSpace a) eqn:Sa.
    + rewrite spaces_cons_space by exact Sa.
      destruct (trimStart_split s) as (w & E & Hw & Hv).
      destruct (IH (JS.trimStart s)) as (F & G & St).
      * pose proof (trimStart_length s). lia.
      * rewrite E in Hs'. apply Forall_app in Hs'. tauto.
      * cbn [app]. split; [constructor; [now left | exact F]|].
        split; [|cbn [stops]; congruence].
        cbn [singleSpaced Ascii.eqb Bool.eqb negb andb].
        apply singleSpaced_stops; auto.
    + rewrite spaces_cons_other by exact Sa.
      destruct (IH s) as (F & G & St); [lia | exact Hs' |].
      split; [constructor; [|exact F]|].
      { destruct Ha as [Ha|Ha]; [congruence | now right]. }
      cbn [singleSpaced stops]. rewrite (isSpace_false_just a Sa). auto.
Qed.

(** It changes nothing where the white space is single spaces. *)
Lemma spaces_fixed n0 : forall s sep,
  Forall (fun a => a = " "%char \/ formChar a = true) s ->
  singleSpaced sep s = true ->
  replace_aux n0 spacesPattern " " 0 s = s.
Proof.
  induction s as [|a s IH]; intros sep Hs G; [reflexivity|].
  inversion Hs as [|? ? Ha Hs']; subst. cbn [singleSpaced] in G.
  destruct Ha as [->|Ha].
  - cbn [Ascii.eqb Bool.eqb] in G. apply andb_true_iff in G as [_ G].
    rewrite spaces_cons_space by reflexivity.
    assert (T : JS.trimStart s = s).
    { destruct s as [|b s]; [reflexivity|]. cbn [JS.trimStart].
      inversion Hs' as [|? ? Hb _]; subst. cbn [singleSpaced] in G.
      destruct Hb as [->|Hb]; [discriminate G|].
      now rewrite (formChar_isSpace b Hb). }
    rewrite T, (IH true) by assumption. reflexivity.
  - rewrite spaces_cons_other by now apply formChar_isSpace.
    f_equal.
    rewrite (isSpace_false_just a (formChar_isSpace a Ha)) in G.
    now apply (IH false).
Qed.

(** ** Trimming keeps units *)

Lemma In_trimStart a s : In a (JS.trimStart s) -> In a s.
Proof.
  intros H. destruct (trimStart_split s) as (w & E & _).
  rewrite E. apply in_or_app. now right.
Qed.

Lemma In_trimEnd a s : In a (JS.trimEnd s) -> In a s.
Proof.
  intros H. destruct (trimEnd_split s) as (w & E & _).
  rewrite E. apply in_or_app. now left.
Qed.

Lemma singleSpaced_trim s :
  singleSpaced false s = true -> singleSpaced false (JS.trim s) = true.
Proof.
  intros G. unfold JS.trim.
  destruct (trimStart_split s) as (w & E & _). rewrite E in G.
  apply singleSpaced_suffix in G.
  destruct (trimEnd_split (JS.trimStart s)) as (w' & E' & _).
  rewrite E' in G. now apply singleSpaced_prefix in G.
Qed.

(** ** The steps of [cleanTitleForComparison] *)

Lemma punct_map s :
  replace punctPattern " " s
  = map (fun a => if JS.isWord a || JS.isSpace a then a else " "%char) s.
Proof.
  unfold replace, punctPattern. rewrite replace_aux_Chr.
  induction s as [|a s IH]; cbn [flat_map map]; [reflexivity|].
  rewrite IH. now destruct (JS.isWord a || JS.isSpace a).
Qed.

Lemma must_lparen_officialMedia : must "(" officialMediaPattern.
Proof.
  unfold officialMediaPattern. cbn [seq must]. right. left.
  exact (must_lit _).
Qed.

Lemma must_lparen_lyrics : must "(" lyricsPattern.
Proof.
  unfold lyricsPattern. cbn [seq must]. right. left. exact (must_lit _).
Qed.

Lemma must_lparen_audio : must "(" audioPattern.
Proof.
  unfold audioPattern. cbn [seq must]. right. left. exact (must_lit _).
Qed.

Lemma must_lparen_official : must "(" officialPattern.
Proof.
  unfold officialPattern. cbn [seq must]. right. left. exact (must_lit _).
Qed.

Lemma must_lparen_musicVideo : must "(" musicVideoPattern.
Proof.
  unfold musicVideoPattern. cbn [seq must]. right. left.
  exact (must_lit _).
Qed.

Lemma must_lparen_feat : must "(" featPattern.
Proof.
  unfold featPattern. cbn [seq must]. right. left. exact (must_lit _).
Qed.

Lemma must_lparen_ft : must "(" ftPattern.
Proof.
  unfold ftPattern. cbn [seq must]. right. left. exact (must_lit _).
Qed.

Lemma must_lparen_featuring : must "(" featuringPattern.
Proof.
  unfold featuringPattern. cbn [seq must]. right. left. exact (must_lit _).
Qed.

Lemma must_lbracket_bracket : must "[" bracketPattern.
Proof.
  unfold bracketPattern. cbn [seq must]. right. left. exact (must_lit _).
Qed.

(** The text before the punctuation step has no capital: the steps
    before it only remove units of the lower-cased title. *)
Lemma removals_no_capital title a :
  In a
    (replace bracketPattern ""
    (replace featuringPattern ""
    (replace ftPattern ""
    (replace featPattern ""
    (replace musicVideoPattern ""
    (replace officialPattern ""
    (replace audioPattern ""
    (replace lyricsPattern ""
    (replace officialMediaPattern ""
       (JS.toLowerCase title)))))))))) ->
  JS.between 65 90 a = false.
Proof.
  intros H. do 9 apply replace_empty_In in H.
  unfold JS.toLowerCase in H. apply in_map_iff in H as (b & <- & _).
  apply lowerChar_no_capital.
Qed.

Lemma cleanTitleForComparison_form title :
  Forall (fun a => a = " "%char \/ formChar a = true)
    (cleanTitleForComparison title)
  /\ singleSpaced false (cleanTitleForComparison title) = true
  /\ Trimmed (cleanTitleForComparison title).
Proof.
  unfold cleanTitleForComparison.
  set (s1 := replace bracketPattern _ _).
  assert (H2 : Forall (fun a => JS.isSpace a = true \/ formChar a = true)
                 (replace punctPattern " " s1)).
  { rewrite punct_map. apply Forall_forall. intros a Ha.
    apply in_map_iff in Ha as (b & <- & Hb).
    apply removals_no_capital in Hb.
    destruct (JS.isWord b) eqn:Wb; cbn [orb].
    - right. now apply formChar_spec.
    - destruct (JS.isSpace b) eqn:Sb; left; [exact Sb | reflexivity]. }
  destruct (spaces_form (length (replace punctPattern " " s1))
              (fun a => formChar a = true) _ _ (Nat.le_refl _) H2)
    as (F & G & _).
  fold (replace spacesPattern " " (replace punctPattern " " s1)) in F, G.
  split; [|split].
  - apply Forall_forall. intros a Ha. unfold JS.trim in Ha.
    apply In_trimEnd, In_trimStart in Ha.
    rewrite Forall_forall in F. now apply F.
  - now apply singleSpaced_trim.
  - apply trim_idem.
Qed.

Lemma form_no_unit a s :
  formChar a = false -> a <> " "%char ->
  Forall (fun a => a = " "%char \/ formChar a = true) s -> ~ In a s.
Proof.
  intros Fa Na Hs Hin. rewrite Forall_forall in Hs.
  destruct (Hs a Hin) as [E|E]; [now apply Na | congruence].
Qed.

(** A text in comparison form is its own comparison form. *)
Lemma form_fixed s :
  Forall (fun a => a = " "%char \/ formChar a = true) s ->
  singleSpaced false s = true -> Trimmed s ->
  cleanTitleForComparison s = s.
Proof.
  intros F G T. unfold cleanTitleForComparison.
  assert (L : JS.toLowerCase s = s).
  { unfold JS.toLowerCase. clear G T.
    induction F as [|a s Ha F IH]; cbn [map]; [reflexivity|].
    rewrite IH. f_equal. destruct Ha as [->|Ha]; [reflexivity|].
    now apply formChar_lowerChar. }
  assert (P : ~ In "("%char s)
    by (apply form_no_unit; [reflexivity | discriminate | exact F]).
  assert (B : ~ In "["%char s)
    by (apply form_no_unit; [reflexivity | discriminate | exact F]).
  rewrite L.
  rewrite (replace_must _ _ _ s must_lparen_officialMedia P).
  rewrite (replace_must _ _ _ s must_lparen_lyrics P).
  rewrite (replace_must _ _ _ s must_lparen_audio P).
  rewrite (replace_must _ _ _ s must_lparen_official P).
  rewrite (replace_must _ _ _ s must_lparen_musicVideo P).
  rewrite (replace_must _ _ _ s must_lparen_feat P).
  rewrite (replace_must _ _ _ s must_lparen_ft P).
  rewrite (replace_must _ _ _ s must_lparen_featuring P).
  rewrite (replace_must _ _ _ s must_lbracket_bracket B).
  assert (Q : replace punctPattern " " s = s).
  { rewrite punct_map. clear G T L P B.
    induction F as [|a s Ha F IH]; cbn [map]; [reflexivity|].
    rewrite IH. f_equal. destruct Ha as [->|Ha]; [reflexivity|].
    now rewrite (formChar_isWord a Ha). }
  rewrite Q. unfold replace. rewrite (spaces_fixed _ s false F G).
  exact T.
Qed.

(** X20.  The comparison form of a title.  Whatever the title,
    [cleanTitleForComparison] returns words of lower-case letters,
    digits and underscores separated by single spaces: every unit is a
    space or such a unit, no two spaces stand side by side, and there is
    no white space at either end. *)
Theorem comparison_form_is_normal (title : str) :
  Forall (fun a => a = " "%char \/ formChar a = true)
    (cleanTitleForComparison title)
  /\ ~ Substring "  " (cleanTitleForComparison title)
  /\ Trimmed (cleanTitleForComparison title).
Proof.
  destruct (cleanTitleForComparison_form title) as (F & G & T).
  split; [exact F|]. split; [|exact T].
  intros (p & q & E). rewrite E in G.
  change (p ++ ("  " : str) ++ q)
    with (p ++ " "%char :: " "%char :: q) in G.
  now rewrite singleSpaced_double in G.
Qed.

(** X21.  Cleaning for comparison is idempotent, and the scorer sees a
    title only through its comparison form: the comparison form of a
    comparison form is itself, so scoring a track against the cleaned
    title gives the score of the title, and a track whose name is
    replaced by its comparison form keeps its score. *)
Theorem comparison_form_is_stable (title : str) :
  cleanTitleForComparison (cleanTitleForComparison title)
  = cleanTitleForComparison title
  /\ (forall track a,
      calculateSimilarityScore track (cleanTitleForComparison title) a
      = calculateSimilarityScore track title a)
  /\ (forall id name artists album duration popularity genres a,
      calculateSimilarityScore
        (SpotifyTrack.mk id (cleanTitleForComparison name) artists album
           duration popularity genres) title a
      = calculateSimilarityScore
          (SpotifyTrack.mk id name artists album duration popularity genres)
          title a).
Proof.
  assert (I : forall t, cleanTitleForComparison (cleanTitleForComparison t)
                        = cleanTitleForComparison t).
  { intros t. destruct (cleanTitleForComparison_form t) as (F & G & T).
    now apply form_fixed. }
  split; [apply I|]. split.
  - intros track a. unfold calculateSimilarityScore, titleComponent.
    now rewrite I.
  - intros id name artists album duration popularity genres a.
    unfold calculateSimilarityScore, titleComponent.
    cbn [SpotifyTrack.name]. now rewrite I.
Qed.

(* ================================================================== *)
(** * Failures of a search *)

(** Searches that answer with a status outside 2xx are passed over, one
    request each. *)
Lemma searchLoop_skips token t a tr :
  (forall h q, exists resp,
      respond tr h (SpotifySearch q token) = Some resp
      /\ Response.ok resp = false) ->
  forall qs st,
    searchLoop token t a qs tr st
    = (Ret None,
       {| this := this st;
          log := log st ++ map (fun q => Fetch (SpotifySearch q token)) qs |}).
Proof.
  intros H. induction qs as [|q qs IH]; intros st; cbn [searchLoop map].
  - unfold ret. rewrite app_nil_r. now destruct st.
  - unfold bind, fetch. destruct (H (log st) q) as (resp & E & O).
    rewrite E, O. cbn [negb]. rewrite IH. cbn [this log].
    now rewrite <- app_assoc.
Qed.

(** Queries that the loop passes over cost one request each and leave
    the loop where it would start on the queries after them. *)
Lemma searchLoop_passes token t a tr : forall pre st st2,
  searchLoop token t a pre tr st = (Ret None, st2) ->
  st2 = {| this := this st;
           log := log st ++ map (fun q => Fetch (SpotifySearch q token)) pre |}
  /\ forall l, searchLoop token t a (pre ++ l) tr st
               = searchLoop token t a l tr st2.
Proof.
  induction pre as [|q pre IH]; intros st st2.
  - cbn [searchLoop map app]. unfold ret. intros [= <-].
    rewrite app_nil_r. split; [now destruct st | reflexivity].
  - intros H.
    assert (K : forall l,
              searchLoop token t a pre tr
                (after_fetch st (SpotifySearch q token)) = (Ret None, st2) ->
              searchLoop token t a ((q :: pre) ++ l) tr st
              = searchLoop token t a (pre ++ l) tr
                  (after_fetch st (SpotifySearch q token))).
    { intros l Hp. rewrite <- app_comm_cons.
      rewrite searchLoop_cons in H |- *. cbv zeta in H |- *.
      destruct (respond tr (log st) (SpotifySearch q token))
        as [response|]; [|discriminate].
      destruct (negb (Response.ok response)); [reflexivity|].
      destruct (Response.json response) as [data|]; [|discriminate].
      destruct (SearchData.items data) as [[|i items]|]; try reflexivity.
      destruct (findBestMatch (i :: items) t (Some a)) as [b|];
        [|reflexivity].
      destruct (Num.gt (BestMatch.score b) c07); [|reflexivity].
      destruct (enrichTrackData (BestMatch.track b) tr _) as [[tk|e] s2];
        discriminate. }
    assert (Hp : searchLoop token t a pre tr
                   (after_fetch st (SpotifySearch q token)) = (Ret None, st2)).
    { rewrite searchLoop_cons in H. cbv zeta in H.
      destruct (respond tr (log st) (SpotifySearch q token))
        as [response|]; [|discriminate].
      destruct (negb (Response.ok response)); [exact H|].
      destruct (Response.json response) as [data|]; [|discriminate].
      destruct (SearchData.items data) as [[|i items]|]; try exact H.
      destruct (findBestMatch (i :: items) t (Some a)) as [b|]; [|exact H].
      destruct (Num.gt (BestMatch.score b) c07); [|exact H].
      destruct (enrichTrackData (BestMatch.track b) tr _) as [[tk|e] s2];
        discriminate. }
    destruct (IH _ _ Hp) as [E L]. split.
    + rewrite E. unfold after_fetch. cbn [this log map].
      now rewrite <- app_assoc.
    + intros l. rewrite (K l Hp). apply L.
Qed.

(** X22.  Two ways a Spotify search fails.  With a token at hand, let
    the loop of [searchSpotifyTrack] have passed over the queries before
    some query of the list, one request each.  If the transport rejects
    the search for that query, or its 2xx body does not parse, the whole
    search ends there: null is returned after that one request and the
    queries left are never tried.  If the search is answered with a
    status outside 2xx, the query is only passed over: the loop goes on
    with the queries left.  When every search is answered with a status
    outside 2xx, every query of the list is sent, in order and with the
    same token, before null is returned. *)
Theorem search_failure_modes (query t a token : str) (tr : Transport)
    (st st1 : State) :
  getAccessToken tr st = (Ret token, st1) ->
  (forall pre q rest st2,
      buildSearchQueries t a = pre ++ q :: rest ->
      searchLoop token t a pre tr st1 = (Ret None, st2) ->
      st2 = {| this := this st1;
               log := log st1
                      ++ map (fun q => Fetch (SpotifySearch q token)) pre |}
      /\ ((respond tr (log st2) (SpotifySearch q token) = None
           \/ exists resp,
                respond tr (log st2) (SpotifySearch q token) = Some resp
                /\ Response.ok resp = true /\ Response.json resp = None) ->
          searchSpotifyTrack query t a tr st
          = (Ret None, after_fetch st2 (SpotifySearch q token)))
      /\ ((exists resp,
              respond tr (log st2) (SpotifySearch q token) = Some resp
              /\ Response.ok resp = false) ->
          searchLoop token t a (pre ++ [q]) tr st1
          = (Ret None, after_fetch st2 (SpotifySearch q token))
          /\ searchLoop token t a (buildSearchQueries t a) tr st1
             = searchLoop token t a rest tr
                 (after_fetch st2 (SpotifySearch q token))))
  /\ ((forall h q, exists resp,
          respond tr h (SpotifySearch q token) = Some resp
          /\ Response.ok resp = false) ->
      searchSpotifyTrack query t a tr st
      = (Ret None,
         {| this := this st1;
            log := log st1
                   ++ map (fun q => Fetch (SpotifySearch q token))
                        (buildSearchQueries t a) |})).
Proof.
  intros Htok. split.
  - intros pre q rest st2 Hq Hpre.
    destruct (searchLoop_passes token t a tr pre st1 st2 Hpre) as [E L].
    split; [exact E|]. split.
    + intros Hfail.
      unfold searchSpotifyTrack, try_catch, bind. rewrite Htok, Hq, L.
      cbn [searchLoop]. unfold bind, fetch, after_fetch.
      destruct Hfail as [F|(resp & F & O & J)]; rewrite F; [reflexivity|].
      rewrite O. cbn [negb]. unfold json. rewrite J. reflexivity.
    + intros (resp & F & O). rewrite Hq, !L.
      rewrite !searchLoop_cons. cbv zeta. rewrite F, O. cbn [negb].
      split; reflexivity.
  - intros H. unfold searchSpotifyTrack, try_catch, bind. rewrite Htok.
    now rewrite (searchLoop_skips token t a tr H).
Qed.

(** Spotify hands out a token, answers the first search with the status
    503 and rejects the second: the search ends after two requests. *)
Lemma search_failure_modes_witness :
  searchSpotifyTrack ("" : str) ("Big Smoke" : str) ("Tash Sultana" : str)
    ExSearch.rejectsSecond Ex.st0
  = (Ret None,
     after_fetch
       {| this := this (snd (getAccessToken ExSearch.rejectsSecond Ex.st0));
          log := log (snd (getAccessToken ExSearch.rejectsSecond Ex.st0))
                 ++ [Fetch (SpotifySearch
                              (artistTrackQuery "Tash Sultana" "Big Smoke")
                              ("tok" : str))] |}
       (SpotifySearch (spaced "Tash Sultana" "Big Smoke") ("tok" : str))).
Proof.
  destruct (search_failure_modes ("" : str) ("Big Smoke" : str)
              ("Tash Sultana" : str) ("tok" : str) ExSearch.rejectsSecond
              Ex.st0 (snd (getAccessToken ExSearch.rejectsSecond Ex.st0))
              ltac:(vm_compute; reflexivity)) as [H _].
  destruct (H [artistTrackQuery "Tash Sultana" "Big Smoke"]
              (spaced "Tash Sultana" "Big Smoke")
              (tl (tl (buildSearchQueries ("Big Smoke" : str)
                         ("Tash Sultana" : str))))
              {| this := this (snd (getAccessToken ExSearch.rejectsSecond
                                      Ex.st0));
                 log := log (snd (getAccessToken ExSearch.rejectsSecond
                                    Ex.st0))
                        ++ [Fetch (SpotifySearch
                                     (artistTrackQuery "Tash Sultana"
                                        "Big Smoke")
                                     ("tok" : str))] |}
              ltac:(vm_compute; reflexivity)
              ltac:(vm_compute; reflexivity)) as (_ & Habort & _).
  apply Habort. left. vm_compute. reflexivity.
Defined.

(* ================================================================== *)
(** * Scores without an artist *)

(** ** Sums that stay below a bound *)

Lemma shl_align_spec mx ex e' :
  (snd (shl_align mx ex e') <= ex)%Z
  /\ Zpos (fst (shl_align mx ex e'))
     = (Zpos mx * 2 ^ (ex - snd (shl_align mx ex e')))%Z
  /\ ((e' <= ex)%Z -> snd (shl_align mx ex e') = e').
Proof.
  unfold shl_align. destruct (e' - ex)%Z as [|d|d] eqn:E; cbn [fst snd].
  - rewrite Z.sub_diag. cbn. lia.
  - rewrite Z.sub_diag. cbn. lia.
  - split; [lia|]. split; [|reflexivity].
    rewrite iter_xO_pow2. f_equal. f_equal. lia.
Qed.

Lemma add_finite_below K eK Kx eKx x my ey :
  below Kx eKx x ->
  (0 <= Kx)%Z -> (eKx <= eK)%Z -> (ey <= eK)%Z ->
  (-1074 <= eK <= 971)%Z -> (0 < K < 2 ^ 53)%Z ->
  (Kx * 2 ^ (eKx - Z.min eKx ey) + Zpos my * 2 ^ (ey - Z.min eKx ey)
   <= K * 2 ^ (eK - Z.min eKx ey))%Z ->
  below K eK (Num.add x (S754_finite false my ey)).
Proof.
  intros Hx HKx He1 He2 HeK HK Hsum.
  set (E0 := Z.min eKx ey) in *.
  assert (HE0 : (E0 <= eKx /\ E0 <= ey)%Z) by (unfold E0; lia).
  unfold Num.add, SFadd.
  destruct x as [s|s| |[] mx ex]; cbn [below] in Hx; try contradiction.
  - cbn [below]. split; [exact He2|].
    assert (P : (0 < 2 ^ (ey - E0))%Z) by (apply Z.pow_pos_nonneg; lia).
    assert (Q : (2 ^ (eK - E0) = 2 ^ (eK - ey) * 2 ^ (ey - E0))%Z)
      by (rewrite <- Z.pow_add_r by lia; f_equal; lia).
    assert (R : (0 <= Kx * 2 ^ (eKx - E0))%Z)
      by (apply Z.mul_nonneg_nonneg; [lia | apply Z.pow_nonneg; lia]).
    rewrite Q in Hsum. nia.
  - destruct Hx as [Hex Hmx]. cbn [cond_Zopp].
    set (ez := Z.min ex ey).
    destruct (shl_align_spec mx ex ez) as (_ & V1 & S1).
    destruct (shl_align_spec my ey ez) as (_ & V2 & S2).
    rewrite S1 in V1 by (unfold ez; lia).
    rewrite S2 in V2 by (unfold ez; lia).
    rewrite <- Pos2Z.inj_add. cbn [binary_normalize]. unfold binary_round.
    set (M := (fst (shl_align mx ex ez) + fst (shl_align my ey ez))%positive)
      in *.
    assert (VM : Zpos M
                 = (Zpos mx * 2 ^ (ex - ez) + Zpos my * 2 ^ (ey - ez))%Z)
      by (unfold M; rewrite Pos2Z.inj_add, V1, V2; reflexivity).
    clearbody M.
    destruct (shl_align_spec M ez
                (fexp Num.prec Num.emax (Zpos (digits2_pos M) + ez)))
      as (L3 & V3 & _).
    destruct (shl_align M ez _) as [mz ez']. cbn [fst snd] in L3, V3.
    assert (Hz : (ez <= E0)%Z) by (unfold ez; lia).
    apply binary_round_aux_below; [lia | unfold ez in *; lia | lia | lia |].
    right. split; [|reflexivity]. rewrite V3, VM.
    assert (PF : (0 < 2 ^ (E0 - ez))%Z) by (apply Z.pow_pos_nonneg; lia).
    assert (PB : (0 < 2 ^ (ex - ez))%Z)
      by (apply Z.pow_pos_nonneg; unfold ez; lia).
    assert (PZ : (0 < 2 ^ (ez - ez'))%Z) by (apply Z.pow_pos_nonneg; lia).
    assert (Q1 : (2 ^ (eKx - ex) * 2 ^ (ex - ez)
                  = 2 ^ (eKx - E0) * 2 ^ (E0 - ez))%Z)
      by (rewrite <- !Z.pow_add_r by (unfold ez; lia); f_equal; lia).
    assert (Q2 : (2 ^ (ey - ez) = 2 ^ (ey - E0) * 2 ^ (E0 - ez))%Z)
      by (rewrite <- Z.pow_add_r by lia; f_equal; lia).
    assert (Q3 : (2 ^ (eK - ez') = 2 ^ (eK - E0) * 2 ^ (E0 - ez)
                                   * 2 ^ (ez - ez'))%Z)
      by (rewrite <- !Z.pow_add_r by lia; f_equal; lia).
    rewrite Q2, Q3.
    assert (A1 : (Zpos mx * 2 ^ (ex - ez)
                  <= Kx * 2 ^ (eKx - E0) * 2 ^ (E0 - ez))%Z).
    { rewrite <- Z.mul_assoc, <- Q1, Z.mul_assoc.
      apply Z.mul_le_mono_nonneg_r; lia. }
    assert (A2 : ((Kx * 2 ^ (eKx - E0) + Zpos my * 2 ^ (ey - E0))
                  * 2 ^ (E0 - ez)
                  <= K * 2 ^ (eK - E0) * 2 ^ (E0 - ez))%Z)
      by (apply Z.mul_le_mono_nonneg_r; lia).
    rewrite !Z.mul_assoc. apply Z.mul_le_mono_nonneg_r; lia.
Qed.

Lemma add_zero_below K eK x :
  below K eK x -> below K eK (Num.add Num.zero x).
Proof.
  destruct x as [s|s| |[] m e]; cbn [below]; try contradiction; auto.
  intros _. destruct s; exact I.
Qed.

(** ** Scores below the threshold *)

Lemma SFleb_ltb_trans x y z :
  SFleb x y = true -> SFltb y z = true -> SFltb x z = true.
Proof.
  unfold SFleb, SFltb, SFcompare.
  destruct x as [sx|sx| |sx mx ex], y as [sy|sy| |sy my ey],
    z as [sz|sz| |sz mz ez];
    try discriminate; try (destruct sx, sy, sz; simpl; congruence);
    try (destruct sx, sy; simpl; congruence);
    try (destruct sy, sz; simpl; congruence);
    try (destruct sx, sz; simpl; congruence).
  change (Pos.compare_cont Eq mx my) with (Pos.compare mx my).
  change (Pos.compare_cont Eq my mz) with (Pos.compare my mz).
  change (Pos.compare_cont Eq mx mz) with (Pos.compare mx mz).
  destruct sx, sy, sz; try congruence;
    destruct (Z.compare_spec ex ey), (Z.compare_spec ey ez),
      (Z.compare_spec ex ez);
    try congruence; try lia; subst;
    destruct (Pos.compare_spec mx my), (Pos.compare_spec my mz),
      (Pos.compare_spec mx mz);
    simpl; try congruence; try lia.
Qed.

(** A score that is at most [h], for an [h] below 0.7 and below 1, is
    not above the threshold. *)
Lemma low_score x h :
  nonneg x -> Num.le x h = true ->
  Num.gt c07 h = true -> Num.gt Num.one h = true ->
  Num.gt (Num.min x Num.one) c07 = false.
Proof.
  intros N L H7 H1.
  destruct (min_one_cases x N) as [[G _]|[_ ->]].
  - apply gt_asym in G. unfold Num.gt in G.
    rewrite (SFleb_ltb_trans x h Num.one L H1) in G. discriminate.
  - apply gt_asym. unfold Num.gt. exact (SFleb_ltb_trans x h c07 L H7).
Qed.

Lemma c01_value : c01 = S754_finite false 7205759403792794 (-56).
Proof. vm_compute. reflexivity. Qed.

(** Without the artist's share, a score is not above 0.7. *)
Lemma no_artist_low track t a :
  short t -> short (SpotifyTrack.name track) ->
  artistComponent track a = None ->
  Num.gt (calculateSimilarityScore track t a) c07 = false.
Proof.
  intros H1 H2 A. unfold calculateSimilarityScore. rewrite A.
  cbn [add_opt]. unfold titleComponent.
  destruct (JS.str_eqb _ _);
    [destruct (popularityComponent_cases track) as [E|E]; rewrite E;
     vm_compute; reflexivity|].
  destruct (_ || _);
    [destruct (popularityComponent_cases track) as [E|E]; rewrite E;
     vm_compute; reflexivity|].
  assert (B : below 5404319552844595 (-54)
                (Num.add Num.zero
                   (Num.mul (wordSimilarity (cleanTitleForComparison t)
                               (cleanTitleForComparison
                                  (SpotifyTrack.name track))) c03))).
  { apply add_zero_below. rewrite c03_value.
    apply mul_below_one; [|reflexivity|lia].
    apply wordSimilarity_below_one; assumption. }
  destruct (popularityComponent_cases track) as [E|E]; rewrite E;
    cbn [add_opt]; [apply (low_score _ c03);
      [| |vm_compute; reflexivity|vm_compute; reflexivity]|].
  - eapply below_nonneg; exact B.
  - rewrite c03_value at 2.
    apply (below_le 5404319552844595 (-54)); [exact B|lia|lia].
  - rewrite c01_value.
    apply (low_score _ (S754_finite false 4503599627370496 (-53)));
      [| |vm_compute; reflexivity|vm_compute; reflexivity].
    + apply add_nonneg; [|reflexivity]. eapply below_nonneg; exact B.
    + apply (below_le 4503599627370496 (-53)); [|lia|lia].
      apply (add_finite_below _ _ 5404319552844595 (-54) _ _ _ B);
        try lia; vm_compute; discriminate.
Qed.

(** The artist's share is added only for a given artist that agrees with
    the track's first artist. *)
Lemma artistComponent_some track a v :
  artistComponent track a = Some v ->
  exists artist first,
    a = Some artist /\ artist <> [] /\ artist <> ("Unknown Artist" : str)
    /\ nth_error (SpotifyTrack.artists track) 0 = Some first
    /\ SpotifyArtist.name first <> []
    /\ Agree (SpotifyArtist.name first) artist.
Proof.
  unfold artistComponent. destruct a as [artist|]; [|discriminate].
  destruct (JS.truthy artist && _) eqn:K; [|discriminate].
  apply known_artist_test in K as [K1 K2].
  destruct (nth_error (SpotifyTrack.artists track) 0) as [first|];
    cbn [option_map]; [|discriminate].
  destruct (JS.truthy (SpotifyArtist.name first)) eqn:T; [|discriminate].
  intros H. exists artist, first. repeat split; auto.
  - intros E. rewrite E in T. discriminate.
  - unfold Agree.
    destruct (JS.str_eqb _ _) eqn:E.
    + apply str_eqb_eq in E. rewrite E. left. apply Substring_refl.
    + destruct (JS.includes _ _ || JS.includes _ _) eqn:I; [|discriminate].
      apply orb_true_iff in I as [I|I]; apply includes_spec in I; auto.
Qed.

(** X23.  No acceptance without the artist.  For a title and a track
    name shorter than the longest string, a track scores above 0.7 only
    if an artist was given, it is neither empty nor "Unknown Artist", and
    the name of the track's first artist contains it or is contained in
    it, case-insensitively: the title and the popularity alone give at
    most 0.7. *)
Theorem acceptance_needs_the_artist (track : SpotifyTrack) (t : str)
    (a : option str) :
  short t -> short (SpotifyTrack.name track) ->
  Num.gt (calculateSimilarityScore track t a) c07 = true ->
  exists artist first,
    a = Some artist /\ artist <> [] /\ artist <> ("Unknown Artist" : str)
    /\ nth_error (SpotifyTrack.artists track) 0 = Some first
    /\ SpotifyArtist.name first <> []
    /\ Agree (SpotifyArtist.name first) artist.
Proof.
  intros H1 H2 G.
  destruct (artistComponent track a) as [v|] eqn:A.
  - exact (artistComponent_some track a v A).
  - rewrite (no_artist_low track t a H1 H2 A) in G. discriminate.
Qed.

Lemma acceptance_needs_the_artist_witness :
  exists artist first,
    Some ("Tash Sultana" : str) = Some artist
    /\ artist <> [] /\ artist <> ("Unknown Artist" : str)
    /\ nth_error (SpotifyTrack.artists Ex.bigSmoke) 0 = Some first
    /\ SpotifyArtist.name first <> []
    /\ Agree (SpotifyArtist.name first) artist.
Proof.
  apply (acceptance_needs_the_artist Ex.bigSmoke ("Big Smoke" : str)
           (Some ("Tash Sultana" : str))).
  - vm_compute. reflexivity.
  - vm_compute. reflexivity.
  - vm_compute. reflexivity.
Defined.

(** X24.  A record from Spotify has the guess's artist.  When the
    titles at hand are shorter than the longest string, the Spotify step
    of [enrichMetadataWithAPIs] returns a record only for a guess whose
    artist is neither empty nor "Unknown Artist", and the artist of the
    record contains the guess's artist or is contained in it,
    case-insensitively.  For a guess without an artist the step returns
    nothing, whatever Spotify answers. *)
Theorem spotify_record_has_the_artist (title artist album : str)
    (tr : Transport) (st : State) (m : EnrichedMetadata) (st' : State) :
  short title -> short_names tr ->
  trySpotify title artist album tr st = (Ret (Some m), st') ->
  artist <> [] /\ artist <> ("Unknown Artist" : str)
  /\ Agree (EnrichedMetadata.artist m) artist.
Proof.
  intros Ht Hn. unfold trySpotify, try_catch, bind.
  destruct (newMusicMetadataEnricher tr st) as [[u|e] s0];
    [|cbn; discriminate].
  unfold enrichMetadata, try_catch, bind.
  match goal with
  | |- context [searchSpotifyTrack ?q ?t ?a tr s0] =>
      destruct (searchSpotifyTrack q t a tr s0) as [[[track|]|e] s1] eqn:S
  end; cbn; try discriminate.
  intros [= <- <-].
  apply searchSpotifyTrack_accepts in S as (token & st1 & _ & L).
  apply searchLoop_accepts in L
    as (q0 & stq & response & data & items & b & _ & R & _ & J & I & B & G & E).
  pose proof (findBestMatch_spec items title
                (Some (JS.orStr (Some artist) "Unknown Artist"))) as Sp.
  rewrite B in Sp. cbn [best_of] in Sp. destruct Sp as (Hin & Hs & _).
  pose proof (Hn _ _ _ _ _ _ R J I) as Hsh. rewrite Forall_forall in Hsh.
  rewrite Hs in G.
  destruct (artistComponent (BestMatch.track b)
              (Some (JS.orStr (Some artist) "Unknown Artist")))
    as [v|] eqn:A;
    [|rewrite (no_artist_low _ _ _ Ht (Hsh _ Hin) A) in G; discriminate].
  apply artistComponent_some in A
    as (a' & first & [= <-] & N1 & N2 & F & Nf & Ag).
  unfold JS.orStr in N1, N2, Ag.
  destruct (JS.truthy artist); [|now contradiction N2].
  apply enrichTrackData_same in E.
  destruct E as (_ & _ & Ha & _).
  assert (Fn : option_map SpotifyArtist.name
                 (nth_error (SpotifyTrack.artists track) 0)
               = Some (SpotifyArtist.name first)).
  { destruct (SpotifyTrack.artists (BestMatch.track b)) as [|x xs];
      [discriminate F|]. cbn in F. injection F as ->.
    destruct (SpotifyTrack.artists track) as [|y ys]; [discriminate Ha|].
    cbn in Ha |- *. congruence. }
  split; [exact N1|]. split; [exact N2|].
  unfold toEnriched. cbn [EnrichedMetadata.artist]. rewrite Fn.
  cbn [JS.orStr].
  destruct (SpotifyArtist.name first) as [|c n] eqn:En;
    [contradiction | exact Ag].
Qed.

Lemma spotify_record_has_the_artist_witness :
  exists m st',
    trySpotify ("Big Smoke" : str) ("Tash Sultana" : str)
      ("Unknown Album" : str) (Ex.spotifyWith [Ex.bigSmoke]) Ex.st0
    = (Ret (Some m), st')
    /\ Agree (EnrichedMetadata.artist m) ("Tash Sultana" : str).
Proof.
  eexists. eexists. split; [vm_compute; reflexivity|].
  eapply (spotify_record_has_the_artist ("Big Smoke" : str)
            ("Tash Sultana" : str) ("Unknown Album" : str)
            (Ex.spotifyWith [Ex.bigSmoke]) Ex.st0).
  - vm_compute. reflexivity.
  - intros h q token response data items R J I.
    cbn in R. injection R as <-. cbn in J. injection J as <-.
    cbn in I. injection I as <-.
    repeat constructor; vm_compute; reflexivity.
  - vm_compute. reflexivity.
Defined.

(* ================================================================== *)
(** * The library's artists and albums *)

(** ** A Map of arrays *)

Lemma push_to_keys_in k f m :
  In k (map fst m) -> map fst (push_to k f m) = map fst m.
Proof.
  induction m as [|[k0 s0] m IH]; cbn [push_to map fst In]; [intros []|].
  destruct (JS.str_eqb k0 k) eqn:E; [reflexivity|].
  intros [->|H].
  - rewrite (proj2 (str_eqb_eq k k) eq_refl) in E. discriminate.
  - cbn [map fst]. now rewrite IH.
Qed.

Lemma push_to_keys_new k f m :
  ~ In k (map fst m) -> map fst (push_to k f m) = map fst m ++ [k].
Proof.
  induction m as [|[k0 s0] m IH]; cbn [push_to map fst In app];
    [reflexivity|].
  intros H. destruct (JS.str_eqb k0 k) eqn:E.
  - apply str_eqb_eq in E. destruct H. now left.
  - cbn [map fst]. rewrite IH; [reflexivity|]. intros Hin. apply H. now right.
Qed.

Lemma push_to_entries k f m k' l :
  NoDup (map fst m) -> In (k', l) (push_to k f m) ->
  (k' <> k /\ In (k', l) m)
  \/ (k' = k
      /\ ((exists l0, In (k, l0) m /\ l = l0 ++ [f])
          \/ (~ In k (map fst m) /\ l = [f]))).
Proof.
  induction m as [|[k0 s0] m IH]; cbn [push_to map fst In]; intros N H.
  - destruct H as [[= <- <-]|[]]. right. split; [reflexivity|].
    right. split; [intros [] | reflexivity].
  - inversion N as [|? ? N0 N1]; subst.
    destruct (JS.str_eqb k0 k) eqn:E.
    + apply str_eqb_eq in E. subst k0. destruct H as [[= <- <-]|H].
      * right. split; [reflexivity|]. left. exists s0. split; [now left|].
        reflexivity.
      * left. split; [|now right]. intros ->. apply N0.
        change k with (fst (k, l)). now apply in_map.
    + destruct H as [[= <- <-]|H].
      * left. split; [|now left]. intros ->.
        rewrite (proj2 (str_eqb_eq k k) eq_refl) in E. discriminate.
      * destruct (IH N1 H) as [[D I]|[-> [(l0 & I & ->)|[I ->]]]].
        -- left. split; [exact D | now right].
        -- right. split; [reflexivity|]. left. exists l0.
           split; [now right | reflexivity].
        -- right. split; [reflexivity|]. right. split; [|reflexivity].
           intros [->|Hin]; [|now apply I].
           rewrite (proj2 (str_eqb_eq k k) eq_refl) in E. discriminate.
Qed.

Lemma songs_of_snoc key k seen f :
  songs_of key k (seen ++ [f])
  = songs_of key k seen ++ (if JS.str_eqb (key f) k then [f] else []).
Proof. unfold songs_of. rewrite filter_app. reflexivity. Qed.

Lemma songs_of_none key k seen :
  (forall f, In f seen -> key f <> k) -> songs_of key k seen = [].
Proof.
  unfold songs_of. induction seen as [|g seen IH]; intros H; [reflexivity|].
  cbn [filter]. destruct (JS.str_eqb (key g) k) eqn:E.
  - apply str_eqb_eq in E. destruct (H g); [now left | exact E].
  - apply IH. intros f Hf. apply H. now right.
Qed.

Lemma str_eqb_refl s : JS.str_eqb s s = true.
Proof. now apply str_eqb_eq. Qed.

Lemma str_eqb_neq s t : s <> t -> JS.str_eqb s t = false.
Proof.
  intros N. destruct (JS.str_eqb s t) eqn:E; [|reflexivity].
  apply str_eqb_eq in E. contradiction.
Qed.

(** One more file keeps the Map a grouping. *)
Lemma push_to_groups key seen m f :
  groups key seen m -> groups key (seen ++ [f]) (push_to (key f) f m).
Proof.
  intros (N & Hm & Hc).
  assert (D : {In (key f) (map fst m)} + {~ In (key f) (map fst m)})
    by (apply in_dec, list_eq_dec, ascii_dec).
  split; [|split].
  - destruct D as [D|D].
    + now rewrite push_to_keys_in.
    + rewrite push_to_keys_new by exact D.
      apply NoDup_app; [exact N | repeat constructor; intros [] |].
      intros a Ha [<-|[]]. contradiction.
  - intros k l H. rewrite songs_of_snoc.
    destruct (push_to_entries _ _ _ _ _ N H)
      as [[Dk I]|[-> [(l0 & I & ->)|[I ->]]]].
    + destruct (Hm k l I) as [Hne ->].
      rewrite (str_eqb_neq (key f) k) by congruence.
      now rewrite app_nil_r.
    + destruct (Hm _ _ I) as [_ ->]. rewrite str_eqb_refl.
      split; [|reflexivity]. intros E. now apply app_eq_nil in E as [_ E].
    + rewrite str_eqb_refl, songs_of_none; [split; [discriminate|reflexivity]|].
      intros g Hg E. apply I. rewrite <- E. now apply Hc.
  - intros g Hg. apply in_app_or in Hg as [Hg|[<-|[]]].
    + destruct D as [D|D].
      * rewrite push_to_keys_in by exact D. now apply Hc.
      * rewrite push_to_keys_new by exact D. apply in_or_app. left.
        now apply Hc.
    + destruct D as [D|D].
      * now rewrite push_to_keys_in.
      * rewrite push_to_keys_new by exact D. apply in_or_app. right.
        now left.
Qed.

Lemma groups_nil key : groups key [] [].
Proof.
  split; [constructor|]. split; [intros k l [] | intros f []].
Qed.

Lemma fold_organize_groups files : forall seen maps,
  groups artistOf seen (fst maps) -> groups albumKeyOf seen (snd maps) ->
  groups artistOf (seen ++ files) (fst (fold_left organize_step files maps))
  /\ groups albumKeyOf (seen ++ files)
       (snd (fold_left organize_step files maps)).
Proof.
  induction files as [|f files IH]; intros seen maps G1 G2.
  - rewrite app_nil_r. now split.
  - cbn [fold_left].
    replace (seen ++ f :: files) with ((seen ++ [f]) ++ files)
      by (rewrite <- app_assoc; reflexivity).
    apply IH; unfold organize_step; cbn [fst snd].
    + now apply push_to_groups.
    + exact (push_to_groups albumKeyOf seen (snd maps) f G2).
Qed.

Lemma organize_groups files :
  groups artistOf files (fst (fold_left organize_step files ([], [])))
  /\ groups albumKeyOf files (snd (fold_left organize_step files ([], []))).
Proof.
  exact (fold_organize_groups files [] ([], [])
           (groups_nil artistOf) (groups_nil albumKeyOf)).
Qed.

(** ** The album key, split *)

Lemma match_len_dash n0 s :
  match_len n0 dashSeparator s
  = if JS.startsWith " - " s then Some 3 else None.
Proof.
  unfold dashSeparator, match_len, match_here, lit. cbn [seq run].
  change (" - " : str) with [" "%char; "-"%char; " "%char].
  destruct s as [|a s]; [reflexivity|]. cbn [JS.startsWith].
  destruct (Ascii.eqb " " a); [|reflexivity].
  destruct s as [|b s]; [reflexivity|]. cbn [JS.startsWith andb].
  destruct (Ascii.eqb "-" b); [|reflexivity].
  destruct s as [|c s]; [reflexivity|]. cbn [JS.startsWith andb].
  destruct (Ascii.eqb " " c); [|reflexivity].
  unfold accept. cbn [fst length andb]. f_equal. lia.
Qed.

Lemma split_aux_dash_none n0 : forall s cur,
  (forall u1 u2, s = u1 ++ u2 -> JS.startsWith " - " u2 = false) ->
  split_aux n0 dashSeparator 0 cur s = [rev cur ++ s].
Proof.
  induction s as [|a s IH]; intros cur H; cbn [split_aux].
  - now rewrite app_nil_r.
  - rewrite match_len_dash, (H [] (a :: s) eq_refl).
    rewrite IH by (intros u1 u2 ->; exact (H (a :: u1) u2 eq_refl)).
    cbn [rev]. now rewrite <- app_assoc.
Qed.

Lemma split_aux_dash_first n0 B : forall A cur,
  (forall u1 u2, A = u1 ++ u2 -> u2 <> [] ->
     JS.startsWith " - " (u2 ++ " - " ++ B) = false) ->
  split_aux n0 dashSeparator 0 cur (A ++ " - " ++ B)
  = (rev cur ++ A) :: split_aux n0 dashSeparator 0 [] B.
Proof.
  induction A as [|a A IH]; intros cur H.
  - change ([] ++ (" - " : str) ++ B)
      with (" "%char :: "-"%char :: " "%char :: B).
    cbn [split_aux]. rewrite match_len_dash. cbn. now rewrite app_nil_r.
  - pose proof (H [] (a :: A) eq_refl ltac:(discriminate)) as H0.
    rewrite <- app_comm_cons in H0 |- *.
    cbn [split_aux]. rewrite match_len_dash, H0.
    rewrite IH by (intros u1 u2 ->; exact (H (a :: u1) u2 eq_refl)).
    cbn [rev]. now rewrite <- app_assoc.
Qed.

Lemma no_dash_inside A B :
  ~ Substring " - " (A ++ " -") ->
  forall u1 u2, A = u1 ++ u2 -> u2 <> [] ->
    JS.startsWith " - " (u2 ++ " - " ++ B) = false.
Proof.
  intros N u1 u2 -> Hne.
  destruct (JS.startsWith _ _) eqn:E; [|reflexivity].
  apply startsWith_spec in E as (q & E). exfalso. apply N.
  change (" - " : str) with [" "%char; "-"%char; " "%char] in *.
  destruct u2 as [|a [|b [|c u3]]]; [contradiction| | |];
    cbn [app] in E; injection E; intros; subst; try discriminate.
  - exists u1, ["-"%char]. rewrite <- app_assoc. reflexivity.
  - exists u1, (u3 ++ " -"). rewrite <- app_assoc. reflexivity.
Qed.

Lemma no_dash B :
  ~ Substring " - " B ->
  forall u1 u2, B = u1 ++ u2 -> JS.startsWith " - " u2 = false.
Proof.
  intros N u1 u2 ->. destruct (JS.startsWith _ _) eqn:E; [|reflexivity].
  apply startsWith_spec in E as (q & ->). destruct N. now exists u1, q.
Qed.

(** A key with its only separator between artist and album splits into
    the two. *)
Lemma split_albumKey A B :
  ~ Substring " - " (A ++ " -") -> ~ Substring " - " B ->
  split dashSeparator (albumKey A B) = [A; B].
Proof.
  intros HA HB. unfold split, albumKey.
  rewrite split_aux_dash_first by now apply no_dash_inside.
  rewrite split_aux_dash_none by now apply no_dash.
  reflexivity.
Qed.

Lemma Forall2_map_entries {A B C} (P : B -> C -> Prop) (k : A -> B)
    (g : A -> C) (m : list A) :
  (forall e, In e m -> P (k e) (g e)) -> Forall2 P (map k m) (map g m).
Proof.
  induction m as [|e m IH]; intros H; cbn [map]; constructor.
  - apply H. now left.
  - apply IH. intros e' He. apply H. now right.
Qed.

Lemma toArtist_name m : map Artist.name (map toArtist m) = map fst m.
Proof.
  rewrite map_map. apply map_ext. now intros [k l].
Qed.

(** X25.  Every song is listed once under its artist and once under its
    album.  The artists [organizeLibrary] lists have distinct names, and
    the songs of each are exactly the files with that artist
    ([metadata.artist], or "Unknown Artist"), in the order of the files,
    and there is at least one; every file has its artist in the list.
    The albums are grouped in the same way by the key
    [artist - album]: there is one album for each key that occurs, and
    its songs are exactly the files with that key. *)
Theorem library_lists_every_song_once (files : list AudioFile) :
  NoDup (map Artist.name (fst (organizeLibrary files)))
  /\ (forall a, In a (fst (organizeLibrary files)) ->
      Artist.songs a <> []
      /\ Artist.songs a = songs_of artistOf (Artist.name a) files)
  /\ (forall f, In f files ->
      exists a, In a (fst (organizeLibrary files))
                /\ Artist.name a = artistOf f)
  /\ exists keys,
       NoDup keys
       /\ Forall2 (fun k al =>
                     Album.songs al <> []
                     /\ Album.songs al = songs_of albumKeyOf k files)
            keys (snd (organizeLibrary files))
       /\ (forall f, In f files -> In (albumKeyOf f) keys).
Proof.
  destruct (organize_groups files) as ((N1 & M1 & C1) & (N2 & M2 & C2)).
  unfold organizeLibrary. cbn [fst snd].
  set (m1 := fst (fold_left organize_step files ([], []))) in *.
  set (m2 := snd (fold_left organize_step files ([], []))) in *.
  split; [now rewrite toArtist_name|]. split; [|split].
  - intros a Ha. apply in_map_iff in Ha as ([k l] & <- & He).
    cbn [toArtist Artist.songs Artist.name]. now apply M1.
  - intros f Hf. specialize (C1 f Hf).
    apply in_map_iff in C1 as ([k l] & E & He). cbn [fst] in E. subst k.
    exists (toArtist (artistOf f, l)). split; [|reflexivity].
    apply in_map_iff. now exists (artistOf f, l).
  - exists (map fst m2). split; [exact N2|]. split; [|exact C2].
    apply Forall2_map_entries. intros [k l] He.
    cbn [fst toAlbum Album.songs]. now apply M2.
Qed.

(** X26.  The labels of an album.  For a file whose artist, followed by
    " -", holds no " - ", and whose album holds none, [organizeLibrary]
    lists an album that has the file among its songs and bears the
    file's artist and album: the key [artist - album] splits back into
    the two. *)
Theorem album_labels_round_trip (files : list AudioFile) (f : AudioFile) :
  In f files ->
  ~ Substring " - " (artistOf f ++ " -") ->
  ~ Substring " - " (albumOf f) ->
  exists al,
    In al (snd (organizeLibrary files))
    /\ Album.artist al = Some (artistOf f)
    /\ Album.name al = Some (albumOf f)
    /\ In f (Album.songs al).
Proof.
  intros Hf HA HB.
  destruct (organize_groups files) as (_ & (N2 & M2 & C2)).
  unfold organizeLibrary. cbn [fst snd].
  specialize (C2 f Hf). apply in_map_iff in C2 as ([k l] & E & He).
  cbn [fst] in E. subst k.
  exists (toAlbum (albumKeyOf f, l)).
  split; [apply in_map_iff; now exists (albumKeyOf f, l)|].
  unfold toAlbum.
  change (albumKeyOf f) with (albumKey (artistOf f) (albumOf f)).
  rewrite split_albumKey by assumption.
  cbn [nth_error Album.artist Album.name Album.songs].
  split; [reflexivity|]. split; [reflexivity|].
  destruct (M2 _ _ He) as [_ ->]. unfold songs_of.
  apply filter_In. split; [exact Hf | apply str_eqb_refl].
Qed.

Lemma album_labels_round_trip_witness :
  exists al,
    In al (snd (organizeLibrary
                  [ExLibrary.bigSmoke; ExLibrary.untitled;
                   ExLibrary.salvation]))
    /\ Album.artist al = Some ("Tash Sultana" : str)
    /\ Album.name al = Some ("Flow State" : str)
    /\ In ExLibrary.salvation (Album.songs al).
Proof.
  apply (album_labels_round_trip
           [ExLibrary.bigSmoke; ExLibrary.untitled; ExLibrary.salvation]
           ExLibrary.salvation).
  - right. right. left. reflexivity.
  - intros H. apply includes_spec in H. vm_compute in H. discriminate.
  - intros H. apply includes_spec in H. vm_compute in H. discriminate.
Defined.

(* ================================================================== *)
(** * Failures inside a provider *)

(** The token request fails: the instance is left as it was and the
    request is the only event. *)
Lemma failed_token_state tr st id secret :
  failed _ (respond tr (log st) (SpotifyToken id secret)) ->
  this st = Enricher.mk id secret (Enricher.accessToken (this st))
                        (Enricher.tokenExpiry (this st)) ->
  exists e, requestAccessToken tr st
            = (Throw e, after_fetch st (SpotifyToken id secret)).
Proof.
  intros F Hthis.
  unfold requestAccessToken, bind, get_this, fetch, after_fetch.
  rewrite Hthis. cbn [Enricher.spotifyClientId Enricher.spotifyClientSecret].
  destruct (respond tr (log st) (SpotifyToken id secret))
    as [[ok status [data|]]|]; [| cbn; eauto | eauto].
  cbn in F. destruct F as [[F _]|F]; [discriminate|].
  unfold json, ret. cbn [Response.json].
  destruct (TokenData.access_token data) as [tok|]; cbn in F |- *;
    [rewrite F|]; unfold throw; eauto.
Qed.

Lemma trySpotify_token_failed tr t a al st :
  failed _ (respond tr (log st) (spotifyTokenRequest tr)) ->
  trySpotify t a al tr st
  = (Ret None, after_fetch (fresh tr st) (spotifyTokenRequest tr)).
Proof.
  intros F.
  unfold trySpotify, newMusicMetadataEnricher, enrichMetadata,
    searchSpotifyTrack, getAccessToken, refreshAccessToken.
  unfold try_catch at 1 2 3, bind at 1 2 3 4 5 6 7, getenv, set_this, get_this.
  cbn [this Enricher.accessToken].
  match goal with
  | |- context [try_catch requestAccessToken ?h tr ?s] =>
      destruct (failed_token_state tr s _ _ F eq_refl) as [e E];
      rewrite (try_catch_Throw _ h _ _ _ _ E)
  end.
  reflexivity.
Qed.

(** The methods of the fallback enrichers, by cases on the answer. *)
Lemma LastFm_searchTrack_failed tr t a st :
  failed _ (respond tr (log st) (lastfmSearch tr t a)) ->
  LastFm_searchTrack t (Some a) tr st
  = (Ret None, after_fetch st (lastfmSearch tr t a)).
Proof.
  intros F. unfold LastFm_searchTrack, lastfmSearch in *.
  unfold try_catch, bind, getenv, fetch, after_fetch, json, ret, throw.
  destruct (respond tr (log st) _) as [[ok status body]|]; [|reflexivity].
  cbn in F |- *. destruct F as [[_ F]|F].
  - rewrite F. reflexivity.
  - destruct ok; [|reflexivity]. cbn.
    destruct body as [data|]; [|reflexivity]. cbn in F |- *.
    destruct (LastFmSearchData.track data) as [[|i items]|]; cbn in F;
      try discriminate; reflexivity.
Qed.

Lemma LastFm_searchTrack_answered tr t a st :
  ~ failed _ (respond tr (log st) (lastfmSearch tr t a)) ->
  exists hit,
    LastFm_searchTrack t (Some a) tr st
    = (Ret (Some hit), after_fetch st (lastfmSearch tr t a)).
Proof.
  intros N. unfold LastFm_searchTrack, lastfmSearch in *.
  unfold try_catch, bind, getenv, fetch, after_fetch, json, ret, throw.
  destruct (respond tr (log st) _) as [[ok status body]|];
    [|destruct N; exact I].
  cbn in N |- *.
  destruct ok; [|destruct N; left; auto]. cbn.
  destruct body as [data|]; [|destruct N; right; exact I]. cbn in N |- *.
  destruct (LastFmSearchData.track data) as [[|i items]|];
    try (destruct N; right; reflexivity).
  now exists i.
Qed.

Lemma LastFm_getTrackInfo_failed tr t a st :
  failed _ (respond tr (log st) (lastfmInfo tr t a)) ->
  LastFm_getTrackInfo t a tr st = (Ret None, after_fetch st (lastfmInfo tr t a)).
Proof.
  intros F. unfold LastFm_getTrackInfo, lastfmInfo in *.
  unfold try_catch, bind, getenv, fetch, after_fetch, json, ret, throw.
  destruct (respond tr (log st) _) as [[ok status body]|]; [|reflexivity].
  cbn in F |- *. destruct F as [[_ F]|F].
  - rewrite F. reflexivity.
  - destruct ok; [|reflexivity]. cbn.
    destruct body as [data|]; [|reflexivity]. cbn in F |- *.
    now rewrite F.
Qed.

Lemma tryLastFm_search_failed tr t a al st :
  failed _ (respond tr (log st) (lastfmSearch tr t a)) ->
  tryLastFm t a al tr st = (Ret None, after_fetch st (lastfmSearch tr t a)).
Proof.
  intros F. unfold tryLastFm. apply try_catch_Ret.
  now rewrite (bind_Ret _ _ _ _ _ _ (LastFm_searchTrack_failed tr t a st F)).
Qed.

Lemma tryLastFm_info_failed tr t a al st :
  ~ failed _ (respond tr (log st) (lastfmSearch tr t a)) ->
  failed _ (respond tr (log (after_fetch st (lastfmSearch tr t a)))
              (lastfmInfo tr t a)) ->
  tryLastFm t a al tr st
  = (Ret None,
     after_fetch (after_fetch st (lastfmSearch tr t a)) (lastfmInfo tr t a)).
Proof.
  intros N F. unfold tryLastFm. apply try_catch_Ret.
  destruct (LastFm_searchTrack_answered tr t a st N) as [hit E].
  rewrite (bind_Ret _ _ _ _ _ _ E).
  now rewrite (bind_Ret _ _ _ _ _ _ (LastFm_getTrackInfo_failed tr t a _ F)).
Qed.

Lemma MusicBrainz_searchRecording_failed tr t a st :
  failed _ (respond tr (log st) (mbSearch t a)) ->
  MusicBrainz_searchRecording t (Some a) tr st
  = (Ret None, after_fetch st (mbSearch t a)).
Proof.
  intros F. unfold MusicBrainz_searchRecording, mbSearch in *.
  unfold try_catch, bind, fetch, after_fetch, json, ret, throw.
  destruct (respond tr (log st) _) as [[ok status body]|]; [|reflexivity].
  cbn in F |- *. destruct F as [[_ F]|F].
  - rewrite F. reflexivity.
  - destruct ok; [|reflexivity]. cbn.
    destruct body as [data|]; [|reflexivity]. cbn in F |- *.
    destruct (MBSearchData.recordings data) as [[|i items]|]; cbn in F;
      try discriminate; reflexivity.
Qed.

Lemma MusicBrainz_searchRecording_answered tr t a st response data recording :
  respond tr (log st) (mbSearch t a) = Some response ->
  Response.ok response = true ->
  Response.json response = Some data ->
  first_or_null (MBSearchData.recordings data) = Some recording ->
  MusicBrainz_searchRecording t (Some a) tr st
  = (Ret (Some recording), after_fetch st (mbSearch t a)).
Proof.
  intros R O J H. unfold MusicBrainz_searchRecording, mbSearch in *.
  unfold try_catch, bind, fetch, after_fetch, json, ret, throw.
  rewrite R. destruct response as [ok status body]. cbn in O, J |- *.
  subst ok body. cbn. now rewrite H.
Qed.

Lemma MusicBrainz_getRecording_failed tr id st :
  failed _ (respond tr (log st) (MBRecordingGet id)) ->
  MusicBrainz_getRecording id tr st
  = (Ret None, after_fetch st (MBRecordingGet id)).
Proof.
  intros F. unfold MusicBrainz_getRecording.
  unfold try_catch, bind, fetch, after_fetch, json, ret, throw.
  destruct (respond tr (log st) _) as [[ok status body]|]; [|reflexivity].
  cbn in F |- *. destruct F as [[_ F]|F].
  - rewrite F. reflexivity.
  - destruct ok; [|reflexivity]. cbn.
    destruct body as [data|]; [|reflexivity]. cbn in F |- *.
    now rewrite F.
Qed.

Lemma tryMusicBrainz_search_failed tr t a al st :
  failed _ (respond tr (log st) (mbSearch t a)) ->
  tryMusicBrainz t a al tr st = (Ret None, after_fetch st (mbSearch t a)).
Proof.
  intros F. unfold tryMusicBrainz. apply try_catch_Ret.
  now rewrite (bind_Ret _ _ _ _ _ _
                 (MusicBrainz_searchRecording_failed tr t a st F)).
Qed.

Lemma tryMusicBrainz_lookup_failed tr t a al st response data recording :
  respond tr (log st) (mbSearch t a) = Some response ->
  Response.ok response = true ->
  Response.json response = Some data ->
  first_or_null (MBSearchData.recordings data) = Some recording ->
  failed _ (respond tr (log (after_fetch st (mbSearch t a)))
              (MBRecordingGet (MBRecording.id recording))) ->
  tryMusicBrainz t a al tr st
  = (Ret None,
     after_fetch (after_fetch st (mbSearch t a))
       (MBRecordingGet (MBRecording.id recording))).
Proof.
  intros R O J H F. unfold tryMusicBrainz. apply try_catch_Ret.
  rewrite (bind_Ret _ _ _ _ _ _
             (MusicBrainz_searchRecording_answered tr t a st _ _ _ R O J H)).
  now rewrite (bind_Ret _ _ _ _ _ _
                 (MusicBrainz_getRecording_failed tr _ _ F)).
Qed.

(** The Spotify stage yields a record only from a search that did not
    fail. *)
Lemma trySpotify_record tr t a al st m st' :
  trySpotify t a al tr st = (Ret (Some m), st') ->
  exists token q stq,
    In q (buildSearchQueries t (JS.orStr (Some a) "Unknown Artist"))
    /\ ~ failed _ (respond tr (log stq) (SpotifySearch q token)).
Proof.
  unfold trySpotify, try_catch, bind.
  destruct (newMusicMetadataEnricher tr st) as [[u|e] s0];
    [|cbn; discriminate].
  unfold enrichMetadata, try_catch, bind.
  match goal with
  | |- context [searchSpotifyTrack ?q ?t ?a tr s0] =>
      destruct (searchSpotifyTrack q t a tr s0) as [[[track|]|e] s1] eqn:S
  end; cbn; try discriminate.
  intros _.
  apply searchSpotifyTrack_accepts in S as (token & st1 & _ & L).
  apply searchLoop_accepts in L
    as (q0 & stq & response & data & items & b & Hin & R & O & J & I & B & _).
  exists token, q0, stq. split; [exact Hin|].
  rewrite R. destruct response as [ok status body]. cbn in O, J |- *.
  subst ok body. intros [[_ F]|F]; [discriminate|].
  cbn in F. rewrite I in F. cbn in F. subst items. discriminate B.
Qed.

(** The orchestrator hands on from stage to stage. *)
Lemma enrichMetadataWithAPIs_hands_on tr st title artist album :
  exists r1 s1,
    trySpotify title artist album tr st = (Ret r1, s1)
    /\ hands_on tr title artist album r1 s1
         (enrichMetadataWithAPIs title artist album tr st).
Proof.
  destruct (total_trySpotify title artist album tr st) as (r1 & s1 & E1).
  exists r1, s1. split; [exact E1|].
  unfold enrichMetadataWithAPIs, hands_on.
  rewrite (bind_Ret _ _ _ _ _ _ E1). destruct r1 as [m|]; [reflexivity|].
  destruct (total_tryLastFm title artist album tr s1) as (r2 & s2 & E2).
  exists r2, s2. split; [exact E2|].
  rewrite (bind_Ret _ _ _ _ _ _ E2). destruct r2 as [m|]; [reflexivity|].
  destruct (total_tryMusicBrainz title artist album tr s2) as (r3 & s3 & E3).
  exists r3, s3. split; [exact E3|].
  rewrite (bind_Ret _ _ _ _ _ _ E3). now destruct r3.
Qed.

(** C8.  The enrichment pipeline never throws to its caller: for every
    input and every transport, [enrichMetadataWithAPIs] returns an
    enriched record or null.  Control moves from provider to provider:
    the Spotify stage returns, and when it returns null the Last.fm
    stage runs in the state Spotify left, and when that returns null
    the MusicBrainz stage runs in the state Last.fm left; the result is
    the first record, or null.  A provider whose request fails
    (transport error, status outside 2xx, unreadable body,
    authentication failure, or empty result) contributes nothing, at
    whatever request of its stage the failure occurs: a failed token
    request ends the Spotify stage with null after that one request,
    and the Spotify stage yields a record only from a search that did
    not fail; a failed search, or a failed detail lookup after a
    search that answered, ends the Last.fm and the MusicBrainz stage
    with null.  When the providers are down altogether, so is the
    result. *)
Theorem enrichment_never_throws tr st title artist album :
  (exists result st',
      enrichMetadataWithAPIs title artist album tr st = (Ret result, st')
      /\ ((forall p, down tr p) -> result = None))
  /\ (exists r1 s1,
        trySpotify title artist album tr st = (Ret r1, s1)
        /\ hands_on tr title artist album r1 s1
             (enrichMetadataWithAPIs title artist album tr st))
  /\ (forall s,
        (failed _ (respond tr (log s) (spotifyTokenRequest tr)) ->
         trySpotify title artist album tr s
         = (Ret None, after_fetch (fresh tr s) (spotifyTokenRequest tr)))
        /\ (forall m s',
              trySpotify title artist album tr s = (Ret (Some m), s') ->
              exists token q stq,
                In q (buildSearchQueries title
                        (JS.orStr (Some artist) "Unknown Artist"))
                /\ ~ failed _ (respond tr (log stq) (SpotifySearch q token)))
        /\ (down tr Spotify ->
            exists s1, trySpotify title artist album tr s = (Ret None, s1)))
  /\ (forall s,
        (failed _ (respond tr (log s) (lastfmSearch tr title artist)) ->
         tryLastFm title artist album tr s
         = (Ret None, after_fetch s (lastfmSearch tr title artist)))
        /\ (~ failed _ (respond tr (log s) (lastfmSearch tr title artist)) ->
            failed _ (respond tr
                        (log (after_fetch s (lastfmSearch tr title artist)))
                        (lastfmInfo tr title artist)) ->
            tryLastFm title artist album tr s
            = (Ret None,
               after_fetch (after_fetch s (lastfmSearch tr title artist))
                 (lastfmInfo tr title artist)))
        /\ (down tr LastFm ->
            exists s1, tryLastFm title artist album tr s = (Ret None, s1)))
  /\ (forall s,
        (failed _ (respond tr (log s) (mbSearch title artist)) ->
         tryMusicBrainz title artist album tr s
         = (Ret None, after_fetch s (mbSearch title artist)))
        /\ (forall response data recording,
              respond tr (log s) (mbSearch title artist) = Some response ->
              Response.ok response = true ->
              Response.json response = Some data ->
              first_or_null (MBSearchData.recordings data) = Some recording ->
              failed _ (respond tr
                          (log (after_fetch s (mbSearch title artist)))
                          (MBRecordingGet (MBRecording.id recording))) ->
              tryMusicBrainz title artist album tr s
              = (Ret None,
                 after_fetch (after_fetch s (mbSearch title artist))
                   (MBRecordingGet (MBRecording.id recording))))
        /\ (down tr MusicBrainz ->
            exists s1,
              tryMusicBrainz title artist album tr s = (Ret None, s1))).
Proof.
  split; [|split; [|split; [|split]]].
  - destruct (total_enrichMetadataWithAPIs title artist album tr st)
      as [result [st' E]].
    exists result, st'. split; [exact E|]. intros D.
    revert E. unfold enrichMetadataWithAPIs.
    destruct (trySpotify_down tr title artist album st (D Spotify)) as [s1 E1].
    rewrite (bind_Ret _ _ _ _ _ _ E1).
    destruct (tryLastFm_down tr title artist album s1 (D LastFm)) as [s2 E2].
    rewrite (bind_Ret _ _ _ _ _ _ E2).
    destruct (tryMusicBrainz_down tr title artist album s2 (D MusicBrainz))
      as [s3 E3].
    rewrite (bind_Ret _ _ _ _ _ _ E3). unfold ret. congruence.
  - apply enrichMetadataWithAPIs_hands_on.
  - intros s. split; [apply trySpotify_token_failed|].
    split; [apply trySpotify_record | apply trySpotify_down].
  - intros s. split; [apply tryLastFm_search_failed|].
    split; [apply tryLastFm_info_failed | apply tryLastFm_down].
  - intros s. split; [apply tryMusicBrainz_search_failed|].
    split; [apply tryMusicBrainz_lookup_failed | apply tryMusicBrainz_down].
Qed.

(* ================================================================== *)
(** * Matches that end at a closing parenthesis *)

(** ** Continuations *)

Lemma star_greedy_ext p (k k' : str -> option mstate) : forall s,
  (forall u s', s = u ++ s' -> k s' = k' s') ->
  star_greedy p k s = star_greedy p k' s.
Proof.
  induction s as [|a s IH]; intros H; cbn [star_greedy].
  - exact (H [] [] eq_refl).
  - rewrite (H [] (a :: s) eq_refl).
    rewrite IH by (intros u s' ->; exact (H (a :: u) s' eq_refl)).
    reflexivity.
Qed.

Lemma star_lazy_ext p (k k' : str -> option mstate) : forall s,
  (forall u s', s = u ++ s' -> k s' = k' s') ->
  star_lazy p k s = star_lazy p k' s.
Proof.
  induction s as [|a s IH]; intros H; cbn [star_lazy].
  - now rewrite (H [] [] eq_refl).
  - rewrite (H [] (a :: s) eq_refl).
    rewrite IH by (intros u s' ->; exact (H (a :: u) s' eq_refl)).
    reflexivity.
Qed.

(** A match sees its continuation only at suffixes of its input. *)
Lemma run_ext n0 r : forall s c (k k' : cont),
  (forall u s' c', s = u ++ s' -> k s' c' = k' s' c') ->
  run n0 r s c k = run n0 r s c k'.
Proof.
  induction r as [|p|r1 IH1 r2 IH2|r1 IH1 r2 IH2|g p|r1 IH1|i r1 IH1| |];
    intros s c k k' H; cbn [run].
  - exact (H [] s c eq_refl).
  - destruct s as [|a s]; [reflexivity|]. destruct (p a); [|reflexivity].
    exact (H [a] s c eq_refl).
  - apply IH1. intros u s' c' ->. apply IH2.
    intros u' s'' c'' ->. apply (H (u ++ u')). now rewrite app_assoc.
  - now rewrite (IH1 s c k k' H), (IH2 s c k k' H).
  - destruct g; [apply star_greedy_ext | apply star_lazy_ext];
      intros u s' E; exact (H u s' c E).
  - now rewrite (IH1 s c k k' H), (H [] s c eq_refl).
  - apply IH1. intros u s' c' E. exact (H u s' _ E).
  - destruct (Nat.eqb (length s) n0); [|reflexivity].
    exact (H [] s c eq_refl).
  - destruct s; [|reflexivity]. exact (H [] [] c eq_refl).
Qed.

Lemma star_greedy_fail p s : star_greedy p (fun _ => None) s = None.
Proof.
  induction s as [|a s IH]; cbn [star_greedy]; [reflexivity|].
  destruct (p a); [now rewrite IH | reflexivity].
Qed.

Lemma star_lazy_fail p s : star_lazy p (fun _ => None) s = None.
Proof.
  induction s as [|a s IH]; cbn [star_lazy]; [reflexivity|].
  destruct (p a); [exact IH | reflexivity].
Qed.

Lemma run_fail n0 r : forall s c, run n0 r s c (fun _ _ => None) = None.
Proof.
  induction r as [|p|r1 IH1 r2 IH2|r1 IH1 r2 IH2|g p|r1 IH1|i r1 IH1| |];
    intros s c; cbn [run].
  - reflexivity.
  - destruct s as [|a s]; [reflexivity|]. now destruct (p a).
  - transitivity (run n0 r1 s c (fun _ _ => None)); [|apply IH1].
    apply run_ext. intros u s' c' _. apply IH2.
  - now rewrite IH1, IH2.
  - destruct g; [apply star_greedy_fail | apply star_lazy_fail].
  - now rewrite IH1.
  - apply IH1.
  - now destruct (Nat.eqb (length s) n0).
  - now destruct s.
Qed.

(** A continuation that fails at every suffix makes the match fail. *)
Lemma run_none n0 r s c (k : cont) :
  (forall u s' c', s = u ++ s' -> k s' c' = None) ->
  run n0 r s c k = None.
Proof.
  intros H. transitivity (run n0 r s c (fun _ _ => None));
    [now apply run_ext | apply run_fail].
Qed.

Lemma star_greedy_map p (f : mstate -> mstate) k : forall s,
  star_greedy p (fun s' => option_map f (k s')) s
  = option_map f (star_greedy p k s).
Proof.
  induction s as [|a s IH]; cbn [star_greedy]; [reflexivity|].
  destruct (p a); [|reflexivity]. rewrite IH.
  now destruct (star_greedy p k s).
Qed.

Lemma star_lazy_map p (f : mstate -> mstate) k : forall s,
  star_lazy p (fun s' => option_map f (k s')) s
  = option_map f (star_lazy p k s).
Proof.
  induction s as [|a s IH]; cbn [star_lazy].
  - now destruct (k []).
  - destruct (k (a :: s)); [reflexivity|]. cbn [option_map].
    destruct (p a); [exact IH | reflexivity].
Qed.

(** What the continuation returns is handed through. *)
Lemma run_map n0 (f : mstate -> mstate) r : forall s c (k : cont),
  run n0 r s c (fun s' c' => option_map f (k s' c'))
  = option_map f (run n0 r s c k).
Proof.
  induction r as [|p|r1 IH1 r2 IH2|r1 IH1 r2 IH2|g p|r1 IH1|i r1 IH1| |];
    intros s c k; cbn [run].
  - reflexivity.
  - destruct s as [|a s]; [reflexivity|]. now destruct (p a).
  - rewrite <- IH1. apply run_ext. intros u s' c' _. apply IH2.
  - rewrite IH1, IH2. now destruct (run n0 r1 s c k).
  - destruct g;
      [apply (star_greedy_map p f (fun s' => k s' c))
      | apply (star_lazy_map p f (fun s' => k s' c))].
  - rewrite IH1. now destruct (run n0 r1 s c k).
  - apply (IH1 s c (fun s' c' =>
                      k s' (set_cap i (firstn (length s - length s') s) c'))).
  - now destruct (Nat.eqb (length s) n0).
  - now destruct s.
Qed.

(** ** Units a pattern never matches *)

Lemma star_greedy_avoids p a t (k : str -> option mstate) :
  p a = false -> forall s,
  star_greedy p k (s ++ a :: t)
  = star_greedy p (fun s' => k (s' ++ a :: t)) s.
Proof.
  intros Pa. induction s as [|b s IH]; cbn [app star_greedy].
  - now rewrite Pa.
  - now rewrite IH.
Qed.

Lemma star_lazy_avoids p a t (k : str -> option mstate) :
  p a = false -> forall s,
  star_lazy p k (s ++ a :: t)
  = star_lazy p (fun s' => k (s' ++ a :: t)) s.
Proof.
  intros Pa. induction s as [|b s IH]; cbn [app star_lazy].
  - rewrite Pa. now destruct (k (a :: t)).
  - now rewrite IH.
Qed.

(** A pattern that never matches the unit [a] runs on the text before
    [a] as it does on that text alone. *)
Lemma run_avoids n0 q a t r :
  avoids q r -> q a = true -> forall s c (k : cont),
  run n0 r (s ++ a :: t) c k
  = run n0 r s c (fun s' c' => k (s' ++ a :: t) c').
Proof.
  intros Hr Qa.
  induction r as [|p|r1 IH1 r2 IH2|r1 IH1 r2 IH2|g p|r1 IH1|i r1 IH1| |];
    intros s c k; cbn [run avoids] in *.
  - reflexivity.
  - destruct s as [|b s]; cbn [app]; [now rewrite (Hr a Qa) | reflexivity].
  - destruct Hr as [H1 H2]. rewrite (IH1 H1).
    apply run_ext. intros u s' c' _. apply (IH2 H2).
  - destruct Hr as [H1 H2]. now rewrite (IH1 H1), (IH2 H2).
  - destruct g;
      [apply (star_greedy_avoids p a t (fun s' => k s' c) (Hr a Qa))
      | apply (star_lazy_avoids p a t (fun s' => k s' c) (Hr a Qa))].
  - now rewrite (IH1 Hr).
  - rewrite (IH1 Hr). apply run_ext. intros u s' c' ->.
    f_equal. f_equal. rewrite !length_app.
    replace (length u + length s' + length (a :: t)
             - (length s' + length (a :: t)))
      with (length u + length s' - length s') by lia.
    rewrite firstn_app.
    replace (length u + length s' - length s' - length (u ++ s')) with 0
      by (rewrite length_app; lia).
    cbn [firstn]. apply app_nil_r.
  - contradiction.
  - contradiction.
Qed.

Lemma avoids_n0 q r n0 n0' : avoids q r -> forall s c (k : cont),
  run n0 r s c k = run n0' r s c k.
Proof.
  induction r as [|p|r1 IH1 r2 IH2|r1 IH1 r2 IH2|g p|r1 IH1|i r1 IH1| |];
    intros Hr s c k; cbn [run avoids] in *; try reflexivity;
    try contradiction.
  - destruct Hr as [H1 H2]. rewrite (IH1 H1).
    apply run_ext. intros u s' c' _. apply (IH2 H2).
  - destruct Hr as [H1 H2]. now rewrite (IH1 H1), (IH2 H2).
  - now rewrite (IH1 Hr).
  - apply (IH1 Hr).
Qed.

(** ** Parentheses *)

Lemma isParen_cases a : isParen a = true -> a = "("%char \/ a = ")"%char.
Proof.
  unfold isParen. intros H. apply orb_true_iff in H as [H|H];
    apply Ascii.eqb_eq in H; auto.
Qed.

Lemma parenFree_nil : parenFree [].
Proof. reflexivity. Qed.

Lemma parenFree_cons a s :
  parenFree (a :: s) <-> isParen a = false /\ parenFree s.
Proof.
  unfold parenFree. cbn [forallb]. rewrite andb_true_iff, negb_true_iff.
  tauto.
Qed.

Lemma parenFree_app u v : parenFree (u ++ v) <-> parenFree u /\ parenFree v.
Proof. unfold parenFree. rewrite forallb_app, andb_true_iff. tauto. Qed.

Lemma parenFree_In a s : parenFree s -> isParen a = true -> ~ In a s.
Proof.
  unfold parenFree. intros H Pa Hin.
  rewrite forallb_forall in H. specialize (H a Hin).
  rewrite Pa in H. discriminate.
Qed.

Lemma isSpace_not_paren a : JS.isSpace a = true -> isParen a = false.
Proof.
  destruct a as [[] [] [] [] [] [] [] []]; vm_compute;
    try discriminate; reflexivity.
Qed.

Lemma Blank_parenFree w : Blank w -> parenFree w.
Proof.
  unfold Blank, parenFree. induction w as [|a w IH]; cbn [forallb];
    [reflexivity|].
  intros H. apply andb_true_iff in H as [Ha H].
  now rewrite (isSpace_not_paren a Ha), IH.
Qed.

(** A text up to its first parenthesis. *)
Lemma first_paren s :
  exists b tail,
    s = b ++ tail /\ parenFree b
    /\ (tail = [] \/ exists a R, tail = a :: R /\ isParen a = true).
Proof.
  induction s as [|x s (b & tail & -> & Hb & Ht)].
  - exists [], []. split; [reflexivity|]. split; [apply parenFree_nil|].
    now left.
  - destruct (isParen x) eqn:Px.
    + exists [], (x :: b ++ tail). split; [reflexivity|].
      split; [apply parenFree_nil|]. right. now exists x, (b ++ tail).
    + exists (x :: b), tail. split; [reflexivity|].
      split; [now apply parenFree_cons | exact Ht].
Qed.

(** ** Patterns that end at the closing parenthesis *)

Lemma closes_n0 r n0 n0' : closes r -> forall s c (k : cont),
  run n0 r s c k = run n0' r s c k.
Proof.
  induction r as [|p|r1 IH1 r2 IH2|r1 IH1 r2 IH2|g p|r1 IH1|i r1 IH1| |];
    intros Hr s c k; cbn [run closes] in *; try reflexivity;
    try contradiction.
  destruct Hr as [H1 H2]. rewrite (avoids_n0 _ _ n0 n0' H1).
  apply run_ext. intros u s' c' _. apply (IH2 H2).
Qed.

Lemma closes_close n0 r R : closes r -> forall b c (k : cont),
  parenFree b ->
  run n0 r (b ++ ")"%char :: R) c k
  = run n0 r (b ++ [")"%char]) c
      (fun s' c' => match s' with [] => k R c' | _ :: _ => None end).
Proof.
  induction r as [|p|r1 IH1 r2 IH2|r1 IH1 r2 IH2|g p|r1 IH1|i r1 IH1| |];
    intros Hr b c k Hb; cbn [closes] in Hr; try contradiction.
  - cbn [run]. destruct b as [|x b]; cbn [app].
    + rewrite Hr. reflexivity.
    + apply parenFree_cons in Hb as [Px _]. rewrite Hr.
      unfold isParen in Px. apply orb_false_iff in Px as [_ Px].
      now rewrite Px.
  - destruct Hr as [H1 H2]. cbn [run].
    rewrite (run_avoids n0 isParen ")" R r1 H1 eq_refl).
    rewrite (run_avoids n0 isParen ")" [] r1 H1 eq_refl).
    apply run_ext. intros u s' c' ->.
    apply parenFree_app in Hb as [_ Hs']. now apply IH2.
Qed.

Lemma closes_open n0 r R : closes r -> forall b c (k : cont),
  parenFree b -> run n0 r (b ++ "("%char :: R) c k = None.
Proof.
  induction r as [|p|r1 IH1 r2 IH2|r1 IH1 r2 IH2|g p|r1 IH1|i r1 IH1| |];
    intros Hr b c k Hb; cbn [closes] in Hr; try contradiction.
  - cbn [run]. destruct b as [|x b]; cbn [app].
    + rewrite Hr. reflexivity.
    + apply parenFree_cons in Hb as [Px _]. rewrite Hr.
      unfold isParen in Px. apply orb_false_iff in Px as [_ Px].
      now rewrite Px.
  - destruct Hr as [H1 H2]. cbn [run].
    rewrite (run_avoids n0 isParen "(" R r1 H1 eq_refl).
    apply run_none. intros u s' c' ->.
    apply parenFree_app in Hb as [_ Hs']. now apply IH2.
Qed.

Lemma closes_none n0 r : closes r -> forall b c (k : cont),
  parenFree b -> run n0 r b c k = None.
Proof.
  induction r as [|p|r1 IH1 r2 IH2|r1 IH1 r2 IH2|g p|r1 IH1|i r1 IH1| |];
    intros Hr b c k Hb; cbn [closes] in Hr; try contradiction.
  - cbn [run]. destruct b as [|x b]; [reflexivity|].
    apply parenFree_cons in Hb as [Px _]. rewrite Hr.
    unfold isParen in Px. apply orb_false_iff in Px as [_ Px].
    now rewrite Px.
  - destruct Hr as [H1 H2]. cbn [run].
    apply run_none. intros u s' c' ->.
    apply parenFree_app in Hb as [_ Hs']. now apply IH2.
Qed.

(** The units [r] matches up to the closing parenthesis do not depend
    on what follows it. *)
Lemma match_len_close n0 r b R :
  closes r -> parenFree b ->
  match_len n0 r (b ++ ")"%char :: R)
  = match match_len 0 r (b ++ [")"%char]) with
    | Some _ => Some (length b + 1)
    | None => None
    end.
Proof.
  intros Hr Hb. unfold match_len, match_here.
  rewrite (closes_close n0 r R Hr b no_caps accept Hb).
  rewrite (closes_n0 r n0 0 Hr).
  rewrite <- (app_nil_r (b ++ [")"%char])) at 2.
  rewrite <- app_assoc. cbn [app].
  rewrite (closes_close 0 r [] Hr b no_caps accept Hb).
  set (K0 := fun (s' : str) (c' : caps) =>
               match s' with
               | [] => accept [] c'
               | _ :: _ => None
               end).
  rewrite (run_ext 0 r _ no_caps _
             (fun s' c' => option_map (fun m : mstate => (R, snd m))
                             (K0 s' c')))
    by (intros u s' c' _; now destruct s').
  rewrite run_map.
  destruct (run 0 r (b ++ [")"%char]) no_caps K0) as [m|]; [|reflexivity].
  cbn [option_map fst]. f_equal. rewrite length_app. cbn [length]. lia.
Qed.

Lemma match_len_open n0 r b R :
  closes r -> parenFree b -> match_len n0 r (b ++ "("%char :: R) = None.
Proof.
  intros Hr Hb. unfold match_len, match_here.
  now rewrite (closes_open n0 r R Hr b no_caps accept Hb).
Qed.

Lemma match_len_parenFree n0 r b :
  closes r -> parenFree b -> match_len n0 r b = None.
Proof.
  intros Hr Hb. unfold match_len, match_here.
  now rewrite (closes_none n0 r Hr b no_caps accept Hb).
Qed.

(** What follows a text matters to the match only if the text has no
    parenthesis and a closing parenthesis comes first in what
    follows. *)
Lemma match_len_app n0 n0' r s X :
  closes r ->
  (forall b R, X = b ++ ")"%char :: R -> ~ parenFree b) ->
  match_len n0 r (s ++ X) = match_len n0' r s.
Proof.
  intros Hr HX. destruct (first_paren s) as (b & tail & -> & Hb & Ht).
  destruct Ht as [->|(a & R & -> & Pa)].
  - rewrite app_nil_r, (match_len_parenFree n0' r b Hr Hb).
    destruct (first_paren X) as (bx & tx & -> & Hbx & Htx).
    destruct Htx as [->|(a & R & -> & Pa)].
    + rewrite app_nil_r. apply match_len_parenFree; [exact Hr|].
      now apply parenFree_app.
    + rewrite app_assoc.
      apply isParen_cases in Pa as [->| ->].
      * apply match_len_open; [exact Hr|]. now apply parenFree_app.
      * destruct (HX bx R eq_refl Hbx).
  - rewrite <- app_assoc. cbn [app].
    apply isParen_cases in Pa as [->| ->].
    + now rewrite !match_len_open.
    + rewrite (match_len_close n0 r b _ Hr Hb).
      now rewrite (match_len_close n0' r b R Hr Hb).
Qed.

(** ** Patterns [\s*\( ... \)] *)

Lemma afterFirstParen_suffix s rest :
  afterFirstParen s = Some rest ->
  exists w, Blank w /\ s = w ++ "("%char :: rest.
Proof.
  revert rest. induction s as [|a s IH]; intros rest;
    cbn [afterFirstParen]; [discriminate|].
  destruct (JS.isSpace a) eqn:Sa.
  - intros H. destruct (IH rest H) as (w & Hw & ->).
    exists (a :: w). split; [|reflexivity].
    unfold Blank in *. cbn [forallb]. now rewrite Sa, Hw.
  - destruct (Ascii.eqb "(" a) eqn:E; [|discriminate].
    apply Ascii.eqb_eq in E. subst a. intros [= <-].
    exists []. split; reflexivity.
Qed.

Lemma afterFirstParen_text u X :
  forallb JS.isSpace u = false ->
  afterFirstParen (u ++ X)
  = option_map (fun rest => rest ++ X) (afterFirstParen u).
Proof.
  induction u as [|a u IH]; cbn [app forallb afterFirstParen];
    [discriminate|].
  destruct (JS.isSpace a); cbn [andb]; [exact IH|]. intros _.
  now destruct (Ascii.eqb "(" a).
Qed.

Lemma afterFirstParen_parenFree u : parenFree u -> afterFirstParen u = None.
Proof.
  intros H. apply afterFirstParen_none. now apply parenFree_In.
Qed.

Lemma afterFirstParen_close b R :
  parenFree b -> afterFirstParen (b ++ ")"%char :: R) = None.
Proof.
  induction b as [|a b IH]; cbn [app afterFirstParen]; [reflexivity|].
  intros H. apply parenFree_cons in H as [Pa H].
  destruct (JS.isSpace a); [now apply IH|].
  unfold isParen in Pa. apply orb_false_iff in Pa as [Pa _].
  now rewrite Pa.
Qed.

Lemma match_len_le n0 r s k : match_len n0 r s = Some k -> k <= length s.
Proof.
  unfold match_len. destruct (match_here n0 r s); [|discriminate].
  intros [= <-]. lia.
Qed.

Lemma match_len_none n0 r s :
  match_len n0 r s = None <-> match_here n0 r s = None.
Proof.
  unfold match_len. destruct (match_here n0 r s); split; congruence.
Qed.

(** The match of such a pattern, in the units of the match of its
    part after the opening parenthesis. *)
Lemma paren_match_len n0 r s :
  match_len n0 (Seq sp (Seq (lit "(") r)) s
  = match afterFirstParen s with
    | Some rest =>
        option_map (fun n => length s - length rest + n)
          (match_len n0 r rest)
    | None => None
    end.
Proof.
  unfold match_len, match_here. rewrite run_sp_paren.
  destruct (afterFirstParen s) as [rest|] eqn:A; [|reflexivity].
  apply afterFirstParen_suffix in A as (w & _ & ->).
  destruct (run n0 r rest no_caps accept) as [m|] eqn:E; [|reflexivity].
  apply run_inv in E as (s' & c' & K & (u & ->) & _).
  unfold accept in K. injection K as <-. cbn [option_map fst].
  f_equal. rewrite !length_app. cbn [length]. rewrite !length_app. lia.
Qed.

Lemma paren_parenFree n0 r u :
  parenFree u -> match_len n0 (Seq sp (Seq (lit "(") r)) u = None.
Proof.
  intros H. now rewrite paren_match_len, afterFirstParen_parenFree.
Qed.

Lemma paren_in_body n0 r b R :
  parenFree b ->
  match_len n0 (Seq sp (Seq (lit "(") r)) (b ++ ")"%char :: R) = None.
Proof.
  intros H. now rewrite paren_match_len, afterFirstParen_close.
Qed.

Lemma paren_text n0 r t X :
  parenFree t -> forallb JS.isSpace t = false ->
  match_len n0 (Seq sp (Seq (lit "(") r)) (t ++ X) = None.
Proof.
  intros H N.
  now rewrite paren_match_len, afterFirstParen_text,
    afterFirstParen_parenFree.
Qed.

Lemma matchesParen_spec r b :
  closes r -> parenFree b ->
  matchesParen (Seq sp (Seq (lit "(") r)) b
  = match match_len 0 r (b ++ [")"%char]) with
    | Some _ => true
    | None => false
    end.
Proof.
  intros Hr Hb. unfold matchesParen. rewrite paren_match_len.
  cbn [afterFirstParen].
  replace (JS.isSpace "(") with false by reflexivity.
  replace (Ascii.eqb "(" "(") with true by reflexivity.
  pose proof (match_len_close 0 r b [] Hr Hb) as E.
  destruct (match_len 0 r (b ++ [")"%char])) as [n|]; [|reflexivity].
  injection E as ->. cbn [option_map length]. rewrite length_app.
  cbn [length]. apply Nat.eqb_eq. lia.
Qed.

(** At a parenthetical, with the white space before it. *)
Lemma paren_at n0 r w b R :
  closes r -> Blank w -> parenFree b ->
  match_len n0 (Seq sp (Seq (lit "(") r))
    (w ++ "("%char :: b ++ ")"%char :: R)
  = if matchesParen (Seq sp (Seq (lit "(") r)) b
    then Some (length w + length b + 2)
    else None.
Proof.
  intros Hr Hw Hb.
  rewrite paren_match_len, afterFirstParen_spaces by exact Hw.
  rewrite (match_len_close n0 r b R Hr Hb), (matchesParen_spec r b Hr Hb).
  destruct (match_len 0 r (b ++ [")"%char])); [|reflexivity].
  cbn [option_map]. f_equal. rewrite !length_app. cbn [length].
  rewrite !length_app. cbn [length]. lia.
Qed.

(** What follows a text that is not blank matters to the match only if
    a closing parenthesis comes first in it. *)
Lemma paren_app n0 n0' r u X :
  closes r ->
  (forall b R, X = b ++ ")"%char :: R -> ~ parenFree b) ->
  forallb JS.isSpace u = false ->
  match_len n0 (Seq sp (Seq (lit "(") r)) (u ++ X)
  = match_len n0' (Seq sp (Seq (lit "(") r)) u.
Proof.
  intros Hr HX N. rewrite !paren_match_len, afterFirstParen_text by exact N.
  destruct (afterFirstParen u) as [rest|]; [|reflexivity].
  cbn [option_map]. rewrite (match_len_app n0 n0' r rest X Hr HX).
  destruct (match_len n0' r rest); [|reflexivity].
  cbn [option_map]. f_equal. rewrite !length_app. lia.
Qed.

(** ** Global replacement, piece by piece *)

Lemma replace_aux_app n0 n0' r rep tail :
  match_here n0' r [] = None ->
  forall X skip,
    skip <= length X ->
    (forall u1 u2, X = u1 ++ u2 -> u2 <> [] ->
       match_len n0 r (u2 ++ tail) = match_len n0' r u2) ->
    replace_aux n0 r rep skip (X ++ tail)
    = replace_aux n0' r rep skip X ++ replace_aux n0 r rep 0 tail.
Proof.
  intros Hnil. induction X as [|a X IH]; intros skip Hs H.
  - cbn [length] in Hs. replace skip with 0 by lia.
    cbn [app replace_aux]. now rewrite Hnil.
  - cbn [app replace_aux length] in *.
    assert (H' : forall u1 u2, X = u1 ++ u2 -> u2 <> [] ->
                   match_len n0 r (u2 ++ tail) = match_len n0' r u2)
      by (intros u1 u2 ->; exact (H (a :: u1) u2 eq_refl)).
    destruct skip as [|n]; [|apply IH; [lia | exact H']].
    pose proof (H [] (a :: X) eq_refl ltac:(discriminate)) as E.
    cbn [app] in E. rewrite E.
    destruct (match_len n0' r (a :: X)) as [[|n]|] eqn:M.
    + rewrite IH by (lia || exact H'). now rewrite <- app_assoc.
    + apply match_len_le in M. cbn [length] in M.
      rewrite IH by (lia || exact H'). now rewrite <- app_assoc.
    + rewrite IH by (lia || exact H'). reflexivity.
Qed.

Lemma replace_aux_none n0 r rep s :
  (forall u1 u2, s = u1 ++ u2 -> match_len n0 r u2 = None) ->
  replace_aux n0 r rep 0 s = s.
Proof.
  intros H. apply replace_aux_id. intros u1 u2 E.
  apply match_len_none. exact (H u1 u2 E).
Qed.


(* ================================================================== *)
(** * The noise patterns of [cleanTitle], one parenthetical at a time *)

Ltac rejects_paren :=
  let a := fresh "a" in
  let H := fresh "H" in
  intros a H; apply isParen_cases in H as [-> | ->]; reflexivity.

Lemma noisePatterns_parenthetical : Forall parenthetical noisePatterns.
Proof.
  unfold noisePatterns.
  repeat (apply Forall_cons; [|]); [..|apply Forall_nil];
    (eexists; split; [reflexivity|]);
    cbn; repeat split; try rejects_paren; intros a; reflexivity.
Qed.

Lemma parenthetical_nil n0 P : parenthetical P -> match_here n0 P [] = None.
Proof.
  intros (r & -> & _). apply match_len_none. now rewrite paren_match_len.
Qed.

(** A text without white space at its end, and its suffixes. *)
Lemma NoTrail_suffix x u1 u2 :
  JS.trimEnd x = x -> x = u1 ++ u2 -> u2 <> [] ->
  forallb JS.isSpace u2 = false.
Proof.
  intros Hx E Hne.
  destruct (trimEnd_fixed x Hx) as (s0 & z & E' & Hz).
  { subst x. now destruct u1, u2. }
  destruct (exists_last Hne) as (u2' & z' & ->).
  rewrite E', app_assoc in E. apply app_inj_tail in E as [_ <-].
  rewrite forallb_app. cbn [forallb]. rewrite Hz.
  now rewrite andb_false_r.
Qed.

Lemma suffix_paren w b u1 u2 :
  w ++ "("%char :: b ++ [")"%char] = u1 ++ u2 -> u2 <> [] ->
  (exists w1 w2, w = w1 ++ w2 /\ u2 = w2 ++ "("%char :: b ++ [")"%char])
  \/ (exists b1 b2, b = b1 ++ b2 /\ u2 = b2 ++ [")"%char]).
Proof.
  intros E Hne. apply app_eq_app in E as (l & [[-> ->] | [-> E]]).
  - left. now exists u1, l.
  - destruct l as [|x l]; cbn [app] in E.
    + left. exists w, []. now rewrite app_nil_r, <- E.
    + injection E as <- E. right.
      destruct (exists_last Hne) as (u2' & z & ->).
      rewrite app_assoc in E. apply app_inj_tail in E as [-> <-].
      now exists l, u2'.
Qed.

Lemma replace_aux_hit n0 r rep u v :
  u <> [] -> match_len n0 r (u ++ v) = Some (length u) ->
  replace_aux n0 r rep 0 (u ++ v) = rep ++ replace_aux n0 r rep 0 v.
Proof.
  intros Hne M. destruct u as [|a u]; [contradiction|].
  cbn [app replace_aux] in *. rewrite M. cbn [length]. f_equal.
  apply replace_aux_skip.
Qed.

(** One parenthetical, with the white space before it. *)
Lemma pass_paren n0 P w b R :
  parenthetical P -> Blank w -> parenFree b ->
  replace_aux n0 P [] 0 (w ++ "("%char :: b ++ ")"%char :: R)
  = (if matchesParen P b then [] else w ++ "("%char :: b ++ [")"%char])
    ++ replace_aux n0 P [] 0 R.
Proof.
  intros (r & -> & Hr) Hw Hb.
  set (P := Seq sp (Seq (lit "(") r)).
  replace (w ++ "("%char :: b ++ ")"%char :: R)
    with ((w ++ "("%char :: b ++ [")"%char]) ++ R)
    by (rewrite <- app_assoc; cbn [app]; now rewrite <- app_assoc).
  destruct (matchesParen P b) eqn:M.
  - apply (replace_aux_hit n0 P []); [now destruct w|].
    rewrite <- app_assoc. cbn [app]. rewrite <- app_assoc. cbn [app].
    unfold P. rewrite (paren_at n0 r w b R Hr Hw Hb). fold P. rewrite M.
    f_equal. rewrite length_app. cbn [length]. rewrite length_app.
    cbn [length]. lia.
  - apply replace_aux_prefix. intros u1 u2 E Hne.
    apply match_len_none.
    destruct (suffix_paren _ _ _ _ E Hne)
      as [(w1 & w2 & -> & ->)|(b1 & b2 & -> & ->)].
    + rewrite <- app_assoc. cbn [app]. rewrite <- app_assoc. cbn [app].
      unfold Blank in Hw. rewrite forallb_app in Hw.
      apply andb_true_iff in Hw as [_ Hw2].
      unfold P. rewrite (paren_at n0 r w2 b R Hr Hw2 Hb). fold P.
      now rewrite M.
    + rewrite <- app_assoc. cbn [app]. apply paren_in_body.
      now apply parenFree_app in Hb.
Qed.

(** A text before a parenthetical, and the parenthetical. *)
Lemma pass_step n0 P t b R :
  parenthetical P -> parenFree t -> parenFree b ->
  replace_aux n0 P [] 0 (t ++ "("%char :: b ++ ")"%char :: R)
  = (if matchesParen P b then JS.trimEnd t
     else t ++ "("%char :: b ++ [")"%char])
    ++ replace_aux n0 P [] 0 R.
Proof.
  intros HP Ht Hb. destruct (trimEnd_split t) as (w & E & Hw).
  assert (Ht' : parenFree (JS.trimEnd t))
    by (rewrite E in Ht; now apply parenFree_app in Ht).
  transitivity (JS.trimEnd t
                ++ replace_aux n0 P [] 0 (w ++ "("%char :: b ++ ")"%char :: R)).
  - rewrite E at 1. rewrite <- app_assoc.
    apply replace_aux_prefix. intros u1 u2 E2 Hne.
    apply match_len_none. destruct HP as (r & -> & Hr).
    apply paren_text.
    + rewrite E2 in Ht'. now apply parenFree_app in Ht'.
    + exact (NoTrail_suffix _ u1 u2 (trimEnd_idem t) E2 Hne).
  - rewrite (pass_paren n0 P w b R HP Hw Hb).
    destruct (matchesParen P b); [reflexivity|].
    rewrite !app_assoc. f_equal. rewrite E at 2. reflexivity.
Qed.

Lemma pass_last n0 P last :
  parenthetical P -> parenFree last -> replace_aux n0 P [] 0 last = last.
Proof.
  intros (r & -> & Hr) H. apply replace_aux_none. intros u1 u2 ->.
  apply paren_parenFree. now apply parenFree_app in H.
Qed.

(** One replacement on a title of texts and parentheticals. *)
Lemma pass_render P : parenthetical P -> forall items last n0,
  Flat items last ->
  replace_aux n0 P [] 0 (render items last)
  = stripNoise (matchesParen P) items last.
Proof.
  intros HP. induction items as [|[t b] items IH]; intros last n0 [Hi Hl];
    cbn [render stripNoise].
  - now apply pass_last.
  - inversion Hi as [|? ? [Ht Hb] Hi']; subst. cbn [fst snd] in *.
    rewrite (pass_step n0 P t b _ HP Ht Hb), (IH last n0 (conj Hi' Hl)).
    destruct (matchesParen P b); [reflexivity|].
    rewrite <- app_assoc. cbn [app]. now rewrite <- app_assoc.
Qed.

(** ** The five replacements as one *)

Lemma trimEnd_parenFree t : parenFree t -> parenFree (JS.trimEnd t).
Proof.
  intros H. destruct (trimEnd_split t) as (w & E & _).
  rewrite E in H. now apply parenFree_app in H.
Qed.

Lemma NoTrail_tail a s : JS.trimEnd (a :: s) = a :: s -> JS.trimEnd s = s.
Proof.
  cbn [JS.trimEnd]. destruct (JS.trimEnd s) as [|b r] eqn:E.
  - destruct (JS.isSpace a); [discriminate|]. now intros [= <-].
  - now intros [= <-].
Qed.

(** White space is trimmed from the end of the last text only. *)
Lemma trimEnd_app x t :
  JS.trimEnd x = x -> JS.trimEnd (x ++ t) = x ++ JS.trimEnd t.
Proof.
  induction x as [|a x IH]; intros H; [reflexivity|].
  pose proof (NoTrail_tail a x H) as Hx.
  cbn [app JS.trimEnd]. rewrite (IH Hx).
  destruct (x ++ JS.trimEnd t) as [|b r] eqn:E; [|reflexivity].
  apply app_eq_nil in E as [-> _].
  cbn [JS.trimEnd] in H. now destruct (JS.isSpace a).
Qed.

Lemma NoTrail_app x t :
  JS.trimEnd x = x -> JS.trimEnd (x ++ JS.trimEnd t) = x ++ JS.trimEnd t.
Proof. intros H. now rewrite (trimEnd_app x _ H), trimEnd_idem. Qed.

Lemma render_passItems noise : forall items last acc,
  render (fst (passItems noise acc items last))
    (snd (passItems noise acc items last))
  = acc ++ stripNoise noise items last.
Proof.
  induction items as [|[t b] items IH]; intros last acc;
    cbn [passItems stripNoise]; [reflexivity|].
  destruct (noise b).
  - now rewrite IH, <- app_assoc.
  - cbn [fst snd render]. rewrite (IH last []). cbn [app].
    now rewrite <- app_assoc.
Qed.

Lemma Flat_passItems noise : forall items last acc,
  parenFree acc -> Flat items last ->
  Flat (fst (passItems noise acc items last))
    (snd (passItems noise acc items last)).
Proof.
  induction items as [|[t b] items IH]; intros last acc Ha [Hi Hl];
    cbn [passItems].
  - split; [constructor|]. now apply parenFree_app.
  - inversion Hi as [|? ? [Ht Hb] Hi']; subst. cbn [fst snd] in *.
    destruct (noise b).
    + apply IH; [|now split]. apply parenFree_app.
      split; [exact Ha | now apply trimEnd_parenFree].
    + destruct (IH last [] parenFree_nil (conj Hi' Hl)) as [Fi Fl].
      cbn [fst snd]. split; [|exact Fl].
      constructor; [|exact Fi]. cbn [fst snd].
      split; [now apply parenFree_app | exact Hb].
Qed.

(** Two replacements in a row drop what one replacement with both
    patterns drops. *)
Lemma passItems_fuse l1 l2 : forall items last acc1 acc2,
  JS.trimEnd acc1 = acc1 ->
  passItems l2 acc2 (fst (passItems l1 acc1 items last))
    (snd (passItems l1 acc1 items last))
  = passItems (fun b => l1 b || l2 b) (acc2 ++ acc1) items last.
Proof.
  induction items as [|[t b] items IH]; intros last acc1 acc2 H1;
    cbn [passItems fst snd].
  - now rewrite app_assoc.
  - destruct (l1 b) eqn:E1; cbn [orb].
    + rewrite (IH last _ acc2 (NoTrail_app acc1 t H1)).
      now rewrite !app_assoc.
    + cbn [passItems fst snd]. destruct (l2 b) eqn:E2.
      * rewrite (IH last [] _ eq_refl), (trimEnd_app acc1 t H1).
        now rewrite app_nil_r, !app_assoc.
      * rewrite (IH last [] [] eq_refl). cbn [app].
        now rewrite !app_assoc.
Qed.

Lemma stripNoise_ext n1 n2 items last :
  (forall b, n1 b = n2 b) ->
  stripNoise n1 items last = stripNoise n2 items last.
Proof.
  intros H. induction items as [|[t b] items IH]; cbn [stripNoise];
    [reflexivity|].
  now rewrite H, IH.
Qed.

Lemma replace_render P items last :
  parenthetical P -> Flat items last ->
  replace P "" (render items last)
  = render (fst (passItems (matchesParen P) [] items last))
      (snd (passItems (matchesParen P) [] items last)).
Proof.
  intros HP F. unfold replace.
  change (list_ascii_of_string "") with (@nil ascii).
  rewrite (pass_render P HP items last _ F).
  now rewrite render_passItems.
Qed.

(** [cleanTitle] on a title whose parentheses are not nested: the
    parentheticals matched by one of its patterns are dropped, each with
    the white space before it, and the result is trimmed. *)
Lemma cleanTitle_render items last :
  Flat items last ->
  cleanTitle (render items last) = JS.trim (stripNoise noiseBody items last).
Proof.
  intros F. unfold cleanTitle.
  pose proof noisePatterns_parenthetical as NP. unfold noisePatterns in NP.
  inversion NP as [|? ? H1 NP1]; subst.
  inversion NP1 as [|? ? H2 NP2]; subst.
  inversion NP2 as [|? ? H3 NP3]; subst.
  inversion NP3 as [|? ? H4 NP4]; subst.
  inversion NP4 as [|? ? H5 _]; subst.
  rewrite (replace_render _ _ _ H1 F).
  pose proof (Flat_passItems (matchesParen officialMediaPattern)
                items last [] parenFree_nil F) as F1.
  rewrite (replace_render _ _ _ H2 F1).
  rewrite (passItems_fuse _ _ items last [] [] eq_refl) in *.
  cbn [app] in *.
  pose proof (Flat_passItems
                (fun b => matchesParen officialMediaPattern b
                          || matchesParen lyricsPattern b)
                items last [] parenFree_nil F) as F2.
  rewrite (replace_render _ _ _ H3 F2).
  rewrite (passItems_fuse _ _ items last [] [] eq_refl) in *.
  cbn [app] in *.
  match goal with
  | |- context [passItems ?n [] items last] =>
      pose proof (Flat_passItems n items last [] parenFree_nil F) as F3
  end.
  rewrite (replace_render _ _ _ H4 F3).
  rewrite (passItems_fuse _ _ items last [] [] eq_refl) in *.
  cbn [app] in *.
  match goal with
  | |- context [passItems ?n [] items last] =>
      pose proof (Flat_passItems n items last [] parenFree_nil F) as F4
  end.
  rewrite (replace_render _ _ _ H5 F4).
  rewrite (passItems_fuse _ _ items last [] [] eq_refl).
  cbn [app]. rewrite render_passItems. cbn [app]. f_equal.
  apply stripNoise_ext. intros b. unfold noiseBody, noisePatterns.
  cbn [existsb]. now rewrite orb_false_r, !orb_assoc.
Qed.

(** ** A parenthetical at the end of any title *)

Lemma trimEnd_Blank w : Blank w -> JS.trimEnd w = [].
Proof.
  unfold Blank. induction w as [|a w IH]; [reflexivity|].
  cbn [forallb JS.trimEnd]. intros H. apply andb_true_iff in H as [Ha H].
  now rewrite (IH H), Ha.
Qed.

Lemma trimEnd_app_Blank A w : Blank w -> JS.trimEnd (A ++ w) = JS.trimEnd A.
Proof.
  intros H. induction A as [|a A IH]; cbn [app]; [now apply trimEnd_Blank|].
  cbn [JS.trimEnd]. now rewrite IH.
Qed.

Lemma trim_app_Blank A w : Blank w -> JS.trim (A ++ w) = JS.trim A.
Proof.
  intros H. unfold JS.trim.
  now rewrite <- !trimStart_trimEnd, (trimEnd_app_Blank A w H).
Qed.

Lemma Blank_no_close w b R : Blank w -> w <> b ++ ")"%char :: R.
Proof.
  intros H ->. apply Blank_parenFree, parenFree_app in H as [_ H].
  apply parenFree_cons in H as [H _]. discriminate H.
Qed.

(** White space after the text: it stays where it is. *)
Lemma pass_blank_tail n0 n0' P Y w :
  parenthetical P -> Blank w ->
  replace_aux n0 P [] 0 (Y ++ w) = replace_aux n0' P [] 0 Y ++ w.
Proof.
  intros HP Hw.
  rewrite (replace_aux_app n0 n0' P [] w (parenthetical_nil n0' P HP) Y 0).
  - now rewrite (pass_last n0 P w HP (Blank_parenFree w Hw)).
  - lia.
  - intros u1 u2 _ _. destruct HP as (r & -> & Hr).
    destruct (forallb JS.isSpace u2) eqn:B.
    + rewrite !paren_parenFree; [reflexivity | now apply Blank_parenFree|].
      apply Blank_parenFree. unfold Blank. now rewrite forallb_app, B.
    + apply paren_app; [exact Hr | | exact B].
      intros b R E _. exact (Blank_no_close w b R Hw E).
Qed.

Lemma paren_first_close w b b' R :
  Blank w -> w ++ "("%char :: b ++ [")"%char] = b' ++ ")"%char :: R ->
  ~ parenFree b'.
Proof.
  intros Hw E Hb'. apply app_eq_app in E as (l & [[-> E] | [-> E]]).
  - destruct l as [|x l]; [discriminate E|]. injection E as <- _.
    exact (Blank_no_close _ b' l Hw eq_refl).
  - destruct l as [|x l]; [discriminate E|]. injection E as <- _.
    apply parenFree_app in Hb' as [_ H].
    apply parenFree_cons in H as [H _]. discriminate H.
Qed.

(** A parenthetical after the text that the pattern does not match: it
    stays where it is. *)
Lemma pass_keep_tail n0 n0' P Y b :
  parenthetical P -> parenFree b -> matchesParen P b = false ->
  replace_aux n0 P [] 0 (Y ++ "("%char :: b ++ [")"%char])
  = replace_aux n0' P [] 0 Y ++ "("%char :: b ++ [")"%char].
Proof.
  intros HP Hb M.
  rewrite (replace_aux_app n0 n0' P [] _ (parenthetical_nil n0' P HP) Y 0).
  - f_equal.
    pose proof (pass_paren n0 P [] b [] HP eq_refl Hb) as E.
    cbn [app] in E. rewrite E, M. cbn [replace_aux].
    rewrite (parenthetical_nil n0 P HP). apply app_nil_r.
  - lia.
  - intros u1 u2 _ _. destruct HP as (r & -> & Hr).
    destruct (forallb JS.isSpace u2) eqn:B.
    + rewrite (paren_at n0 r u2 b [] Hr B Hb), M.
      symmetry. apply paren_parenFree. now apply Blank_parenFree.
    + apply paren_app; [exact Hr | | exact B].
      intros b' R E. exact (paren_first_close [] b b' R eq_refl E).
Qed.

(** A parenthetical after the text that the pattern matches: it is
    dropped with the white space that ends the text. *)
Lemma pass_drop_tail n0 n0' P Y b :
  parenthetical P -> parenFree b -> matchesParen P b = true ->
  exists w, Blank w
    /\ replace_aux n0' P [] 0 Y
       = replace_aux n0 P [] 0 (Y ++ "("%char :: b ++ [")"%char]) ++ w.
Proof.
  intros HP Hb M. destruct (trimEnd_split Y) as (w & E & Hw).
  exists w. split; [exact Hw|].
  rewrite E at 1 2. rewrite <- app_assoc.
  rewrite (pass_blank_tail n0' n0' P _ w HP Hw). f_equal.
  rewrite (replace_aux_app n0 n0' P [] _ (parenthetical_nil n0' P HP)
             (JS.trimEnd Y) 0).
  - pose proof (pass_paren n0 P w b [] HP Hw Hb) as E2.
    rewrite E2, M. cbn [app replace_aux].
    rewrite (parenthetical_nil n0 P HP). now rewrite app_nil_r.
  - lia.
  - intros u1 u2 E2 Hne. destruct HP as (r & -> & Hr).
    apply paren_app; [exact Hr | |].
    + intros b' R E3. exact (paren_first_close w b b' R Hw E3).
    + exact (NoTrail_suffix _ u1 u2 (trimEnd_idem Y) E2 Hne).
Qed.

(** One replacement on a title [L] and on the title [R] without the
    parenthetical that ends [L]: once the parenthetical is dropped
    ([gone]), [R] is [L] and white space. *)
Lemma replace_tail P b L R (gone : bool) :
  parenthetical P -> parenFree b ->
  (if gone then exists w, Blank w /\ R = L ++ w
   else L = R ++ "("%char :: b ++ [")"%char]) ->
  if gone || matchesParen P b
  then exists w, Blank w /\ replace P "" R = replace P "" L ++ w
  else replace P "" L = replace P "" R ++ "("%char :: b ++ [")"%char].
Proof.
  intros HP Hb H. unfold replace.
  change (list_ascii_of_string "") with (@nil ascii).
  destruct gone; cbn [orb].
  - destruct H as (w & Hw & ->). exists w. split; [exact Hw|].
    now apply pass_blank_tail.
  - subst L. destruct (matchesParen P b) eqn:M.
    + now apply pass_drop_tail.
    + now apply pass_keep_tail.
Qed.

(** [cleanTitle] drops a noise parenthetical that ends any title, and
    white space at the end of any title. *)
Lemma cleanTitle_tail T b (gone : bool) L :
  parenFree b -> gone || noiseBody b = true ->
  (if gone then exists w, Blank w /\ T = L ++ w
   else L = T ++ "("%char :: b ++ [")"%char]) ->
  cleanTitle L = cleanTitle T.
Proof.
  intros Hb N H. unfold cleanTitle.
  pose proof noisePatterns_parenthetical as NP. unfold noisePatterns in NP.
  inversion NP as [|? ? H1 NP1]; subst.
  inversion NP1 as [|? ? H2 NP2]; subst.
  inversion NP2 as [|? ? H3 NP3]; subst.
  inversion NP3 as [|? ? H4 NP4]; subst.
  inversion NP4 as [|? ? H5 _]; subst.
  pose proof (replace_tail _ b _ _ _ H1 Hb H) as S1.
  pose proof (replace_tail _ b _ _ _ H2 Hb S1) as S2.
  pose proof (replace_tail _ b _ _ _ H3 Hb S2) as S3.
  pose proof (replace_tail _ b _ _ _ H4 Hb S3) as S4.
  pose proof (replace_tail _ b _ _ _ H5 Hb S4) as S5.
  unfold noiseBody, noisePatterns in N. cbn [existsb] in N.
  rewrite orb_false_r, !orb_assoc in N. rewrite N in S5.
  destruct S5 as (w & Hw & ->). symmetry. now apply trim_app_Blank.
Qed.

(** ** The qualifiers, in any case *)

Lemma star_greedy_insensitive (f : ascii -> ascii) p
    (k k' : str -> option mstate) :
  (forall a, p (f a) = p a) ->
  forall s,
    (forall s', option_map (fun m => length (fst m)) (k (map f s'))
                = option_map (fun m => length (fst m)) (k' s')) ->
    option_map (fun m => length (fst m)) (star_greedy p k (map f s))
    = option_map (fun m => length (fst m)) (star_greedy p k' s).
Proof.
  intros Hp. induction s as [|a s IH]; intros Hk; cbn [map star_greedy].
  - exact (Hk []).
  - rewrite Hp. destruct (p a); [|exact (Hk (a :: s))].
    specialize (IH Hk).
    destruct (star_greedy p k (map f s)), (star_greedy p k' s);
      try discriminate IH; [exact IH|].
    exact (Hk (a :: s)).
Qed.

Lemma star_lazy_insensitive (f : ascii -> ascii) p
    (k k' : str -> option mstate) :
  (forall a, p (f a) = p a) ->
  forall s,
    (forall s', option_map (fun m => length (fst m)) (k (map f s'))
                = option_map (fun m => length (fst m)) (k' s')) ->
    option_map (fun m => length (fst m)) (star_lazy p k (map f s))
    = option_map (fun m => length (fst m)) (star_lazy p k' s).
Proof.
  intros Hp. induction s as [|a s IH]; intros Hk; cbn [map star_lazy].
  - pose proof (Hk []) as H0. cbn [map] in H0.
    destruct (k []), (k' []); try discriminate H0;
      [exact H0 | reflexivity].
  - pose proof (Hk (a :: s)) as H0. cbn [map] in H0.
    destruct (k (f a :: map f s)), (k' (a :: s));
      try discriminate H0; [exact H0|].
    rewrite Hp. destruct (p a); [exact (IH Hk) | reflexivity].
Qed.

(** A match on the image of a string under [f] is as long as the match
    on the string. *)
Lemma run_insensitive n0 (f : ascii -> ascii) r :
  insensitive f r ->
  forall s c c' (k k' : cont),
    (forall s' c1 c1',
       option_map (fun m => length (fst m)) (k (map f s') c1)
       = option_map (fun m => length (fst m)) (k' s' c1')) ->
    option_map (fun m => length (fst m)) (run n0 r (map f s) c k)
    = option_map (fun m => length (fst m)) (run n0 r s c' k').
Proof.
  induction r as [|p|r1 IH1 r2 IH2|r1 IH1 r2 IH2|g p|r1 IH1|i r1 IH1| |];
    intros Hr s c c' k k' Hk; cbn [run insensitive] in *.
  - apply Hk.
  - destruct s as [|a s]; [reflexivity|]. cbn [map]. rewrite Hr.
    destruct (p a); [apply Hk | reflexivity].
  - destruct Hr as [Hr1 Hr2]. apply (IH1 Hr1). intros s' c1 c1'.
    now apply (IH2 Hr2).
  - destruct Hr as [Hr1 Hr2].
    pose proof (IH1 Hr1 s c c' k k' Hk) as E1.
    destruct (run n0 r1 (map f s) c k), (run n0 r1 s c' k');
      try discriminate E1; [exact E1|].
    now apply (IH2 Hr2).
  - destruct g.
    + apply (star_greedy_insensitive f p _ _ Hr). intros s'. apply Hk.
    + apply (star_lazy_insensitive f p _ _ Hr). intros s'. apply Hk.
  - pose proof (IH1 Hr s c c' k k' Hk) as E1.
    destruct (run n0 r1 (map f s) c k), (run n0 r1 s c' k');
      try discriminate E1; [exact E1|].
    apply Hk.
  - apply (IH1 Hr). intros s' c1 c1'. apply Hk.
  - rewrite length_map. destruct (Nat.eqb (length s) n0);
      [apply Hk | reflexivity].
  - destruct s; [apply Hk | reflexivity].
Qed.

Lemma match_len_insensitive n0 (f : ascii -> ascii) r s :
  insensitive f r -> match_len n0 r (map f s) = match_len n0 r s.
Proof.
  intros Hr. unfold match_len, match_here.
  pose proof (run_insensitive n0 f r Hr s no_caps no_caps accept accept
                (fun s' _ _ => f_equal Some (length_map f s'))) as E.
  rewrite length_map.
  destruct (run n0 r (map f s) no_caps accept),
    (run n0 r s no_caps accept); cbn [option_map] in E;
    try discriminate E; [|reflexivity].
  injection E as E. now rewrite E.
Qed.

Ltac any_unit :=
  let a := fresh "a" in
  intros a; destruct a as [[] [] [] [] [] [] [] []]; reflexivity.

Lemma noisePatterns_insensitive :
  Forall (insensitive JS.lowerChar) noisePatterns.
Proof.
  unfold noisePatterns.
  repeat (apply Forall_cons; [|]); [..|apply Forall_nil];
    cbn; repeat split; any_unit.
Qed.

Lemma matchesParen_lower P b :
  insensitive JS.lowerChar P ->
  matchesParen P (JS.toLowerCase b) = matchesParen P b.
Proof.
  intros HP. unfold matchesParen, JS.toLowerCase.
  change ("("%char :: map JS.lowerChar b ++ [")"%char])
    with ("("%char :: map JS.lowerChar b ++ map JS.lowerChar [")"%char]).
  rewrite <- map_app.
  change ("("%char :: map JS.lowerChar (b ++ [")"%char]))
    with (map JS.lowerChar ("("%char :: b ++ [")"%char])).
  now rewrite (match_len_insensitive 0 JS.lowerChar P _ HP), length_map.
Qed.

Lemma noiseBody_lower b : noiseBody (JS.toLowerCase b) = noiseBody b.
Proof.
  unfold noiseBody.
  pose proof noisePatterns_insensitive as H.
  induction H as [|P l HP _ IH]; [reflexivity|].
  cbn [existsb]. now rewrite IH, (matchesParen_lower P b HP).
Qed.

Lemma isParen_lowerChar a : isParen (JS.lowerChar a) = isParen a.
Proof. destruct a as [[] [] [] [] [] [] [] []]; reflexivity. Qed.

Lemma parenFree_lower b : parenFree (JS.toLowerCase b) <-> parenFree b.
Proof.
  unfold parenFree, JS.toLowerCase.
  induction b as [|a b IH]; cbn [map forallb]; [tauto|].
  rewrite isParen_lowerChar, !andb_true_iff. tauto.
Qed.

Lemma lowerChar_rparen a : JS.lowerChar a = ")"%char -> a = ")"%char.
Proof. destruct a as [[] [] [] [] [] [] [] []]; vm_compute; congruence. Qed.

(** A string whose lower case is a parenthetical is one, and its body
    has the lower case of that body. *)
Lemma lower_paren K B :
  JS.toLowerCase K = "("%char :: B ++ [")"%char] ->
  exists b, K = "("%char :: b ++ [")"%char] /\ JS.toLowerCase b = B.
Proof.
  unfold JS.toLowerCase. destruct K as [|k0 K]; [discriminate|].
  cbn [map]. intros [= H0 H]. apply lowerChar_lparen in H0 as ->.
  apply map_eq_app in H as (b & l & -> & Hb & Hl).
  destruct l as [|k [|? ?]]; try discriminate Hl.
  injection Hl as Hk. apply lowerChar_rparen in Hk as ->.
  now exists b.
Qed.

(** Each listed qualifier, in any case, is a noise parenthetical. *)
Lemma listed_noise K :
  In (JS.toLowerCase K) noiseQualifiers ->
  exists b, K = "("%char :: b ++ [")"%char]
            /\ parenFree b /\ noiseBody b = true.
Proof.
  intros H.
  assert (E : exists B, JS.toLowerCase K = "("%char :: B ++ [")"%char]
                        /\ parenFree B /\ noiseBody B = true).
  { unfold noiseQualifiers in H. cbn [In] in H.
    destruct H as [H|[H|[H|[H|[H|[H|[H|[H|[]]]]]]]]]; rewrite <- H;
      [ exists ("official audio" : str) | exists ("official video" : str)
      | exists ("official music video" : str) | exists ("lyrics" : str)
      | exists ("lyric" : str) | exists ("audio" : str)
      | exists ("official" : str) | exists ("music video" : str) ];
      vm_compute; repeat split. }
  destruct E as (B & E & HB & N).
  destruct (lower_paren K B E) as (b & -> & <-).
  exists b. split; [reflexivity|].
  split; [now apply parenFree_lower | now rewrite <- noiseBody_lower].
Qed.

(** A listed qualifier that ends a title, with the white space before
    it, is dropped: the clean title is that of the title without it. *)
Lemma cleanTitle_listed T w K :
  Blank w -> In (JS.toLowerCase K) noiseQualifiers ->
  cleanTitle (T ++ w ++ K) = cleanTitle T.
Proof.
  intros Hw HK. destruct (listed_noise K HK) as (b & -> & Hb & N).
  rewrite app_assoc.
  rewrite (cleanTitle_tail (T ++ w) b false _ Hb N eq_refl).
  symmetry. apply (cleanTitle_tail (T ++ w) b true T Hb eq_refl).
  exists w. now split.
Qed.

(** C7, as the code has it.  Every emitted query is formed from the
    clean title.  On a title whose parentheses are not nested, written as
    texts and parentheticals, the clean title is the title without the
    parentheticals that one of the five patterns matches, each dropped
    with the white space before it, and trimmed; nothing else is dropped.
    The patterns match without regard to case, and they match each of
    official audio, official video, official music video, lyrics, lyric,
    audio, official and music video; they do not match a bare video.
    Such a qualifier that ends a title, whatever the title holds before
    it, is dropped with the white space before it: the clean title and
    the queries are those of the title without it.  So it is for a bare
    "(Lyrics)"; a bare "(Video)" stays in the clean title.  Where
    parentheses are nested a listed qualifier can remain. *)
Theorem noise_qualifiers_stripped title artist :
  Forall (UsesTitle (cleanTitle title)) (buildSearchQueries title artist)
  /\ (forall items last,
        Flat items last ->
        cleanTitle (render items last)
        = JS.trim (stripNoise noiseBody items last))
  /\ (forall b, noiseBody (JS.toLowerCase b) = noiseBody b)
  /\ (forall K,
        In (JS.toLowerCase K) noiseQualifiers ->
        exists b, K = "("%char :: b ++ [")"%char]
                  /\ parenFree b /\ noiseBody b = true)
  /\ (forall b, JS.toLowerCase b = "video" -> noiseBody b = false)
  /\ (forall T w K,
        Blank w -> In (JS.toLowerCase K) noiseQualifiers ->
        cleanTitle (T ++ w ++ K) = cleanTitle T
        /\ buildSearchQueries (T ++ w ++ K) artist
           = buildSearchQueries T artist)
  /\ (forall T K,
        ~ In "("%char T -> In (JS.toLowerCase K) noiseQualifiers ->
        cleanTitle (T ++ " " ++ K) = JS.trim T
        /\ cleanTitle T = JS.trim T
        /\ buildSearchQueries (T ++ " " ++ K) artist
           = buildSearchQueries T artist)
  /\ (forall T K,
        ~ In "("%char T -> JS.toLowerCase K = "(video)" ->
        cleanTitle (T ++ " " ++ K) = JS.trim (T ++ " " ++ K))
  /\ cleanTitle "Song (Live) (Lyrics)" = "Song (Live)"
  /\ cleanTitle "One (lyrics) Two  (OFFICIAL  Music Video) (Live)"
     = "One Two (Live)"
  /\ cleanTitle "Song (Ly(Official)rics)" = "Song (Lyrics)".
Proof.
  split; [apply buildSearchQueries_UsesTitle|].
  split; [exact cleanTitle_render|].
  split; [exact noiseBody_lower|].
  split; [exact listed_noise|].
  split; [intros b Hb; now rewrite <- noiseBody_lower, Hb|].
  split.
  { intros T w K Hw HK. pose proof (cleanTitle_listed T w K Hw HK) as H.
    split; [exact H | now apply buildSearchQueries_cleanTitle]. }
  split.
  { intros T K HT HK.
    pose proof (cleanTitle_noise T K HT HK) as H1.
    pose proof (cleanTitle_no_paren T HT) as H2.
    split; [exact H1|]. split; [exact H2|].
    apply buildSearchQueries_cleanTitle. now rewrite H1, H2. }
  split; [apply cleanTitle_video|].
  vm_compute. repeat split.
Qed.
